(** * llama-tenseal: a LLaMA decoder whose attention projections run on
    CKKS tensors (src/llama/model.py).

    The development embeds the Python module in Rocq:

    - [Module Py]: the exceptions the module can raise and the monads that
      thread them (and the mutable KV cache) through the code;
    - [Module Torch]: the part of the torch tensor interface the module
      calls: a tensor is a shape and a row-major flat buffer, every
      operation checks shapes where torch does and raises where torch does;
    - [Module TenSEAL]: CKKS tensors, modelled by the ideal functionality of
      the scheme (exact arithmetic on the encoded values, no noise);
    - [Module Llama]: the classes and functions of model.py, line by line.

    Floating-point tensors are modelled over the real numbers, [-inf] by an
    explicit constructor. The one integer that model.py computes through a
    float (line 223) is modelled with binary64 rounding. *)

From Stdlib Require Import List Arith PeanoNat ZArith Lia Bool.
From Stdlib Require Import QArith Qround.
From Stdlib Require Import Reals Lra.
Import ListNotations.

Close Scope Q_scope.
Close Scope R_scope.
Open Scope nat_scope.

Set Implicit Arguments.

(* ===================================================================== *)
(** * Python: exceptions and the two monads of the model *)
(* ===================================================================== *)

Module Py.

(** The exceptions that the libraries called by model.py raise. The module
    defines no exception class of its own. *)
Inductive error : Set :=
| RuntimeError       (* torch: shape mismatch in an operator or a copy *)
| ValueError         (* tenseal: reshape to a different size *)
| IndexError         (* torch: index out of range *)
| ZeroDivisionError  (* Python: integer division by zero *)
| OverflowError.     (* Python: integer quotient too large for a float *)

Inductive result (A : Type) : Type :=
| Ok (a : A)
| Err (e : error).

Arguments Ok {A} a.
Arguments Err {A} e.

Definition bind {A B} (r : result A) (k : A -> result B) : result B :=
  match r with
  | Ok a => k a
  | Err e => Err e
  end.

(** ** Python floats

    A Python float is an IEEE binary64 number; a finite one is
    [mant * 2^expo]. *)
Record pyfloat : Set := mkFloat { mant : Z; expo : Z }.

(** The integer nearest to [n / d] for [d > 0]; a tie goes to the even
    one. *)
Definition round_half_even (n d : Z) : Z :=
  let q := (n / d)%Z in
  let r := (n mod d)%Z in
  if (2 * r <? d)%Z then q
  else if (d <? 2 * r)%Z then (q + 1)%Z
  else if Z.even q then q else (q + 1)%Z.

(** [a / b] on Python integers (true division): the float nearest to the
    exact quotient. With [2^e <= |a / b| < 2^(e + 1)] the quotient is
    rounded to a multiple of [2^(e - 52)] (53 significant bits), of
    [2^-1074] in the subnormal range. Python raises ZeroDivisionError for
    [b = 0] and OverflowError when the rounded quotient reaches [2^1024]. *)
Definition int_truediv (a b : Z) : result pyfloat :=
  if (b =? 0)%Z then Err ZeroDivisionError
  else if (a =? 0)%Z then Ok (mkFloat 0 0)
  else
    let n := Z.abs a in
    let d := Z.abs b in
    let e0 := (Z.log2 n - Z.log2 d)%Z in
    let e := if (n * 2 ^ Z.max 0 (- e0) <? d * 2 ^ Z.max 0 e0)%Z
             then (e0 - 1)%Z else e0 in
    let u := Z.max (e - 52) (-1074) in
    let m := round_half_even (n * 2 ^ Z.max 0 (- u)) (d * 2 ^ Z.max 0 u) in
    if (1024 <=? Z.log2 m + u)%Z then Err OverflowError
    else Ok (mkFloat (Z.sgn a * Z.sgn b * m) u).

(** [int(x)] on a finite float: truncation toward zero. *)
Definition int_of_float (x : pyfloat) : Z :=
  if (0 <=? expo x)%Z then (mant x * 2 ^ expo x)%Z
  else Z.quot (mant x) (2 ^ (- expo x)).

(** A method of an object with mutable attributes: the object is threaded
    as state and survives an exception (what was assigned before the raise
    stays assigned). *)
Definition method (S A : Type) : Type := S -> result A * S.

Definition mbind {S A B} (m : method S A) (k : A -> method S B) : method S B :=
  fun s => match m s with
           | (Ok a, s') => k a s'
           | (Err e, s') => (Err e, s')
           end.

(** A pure computation that may raise, run inside a method. *)
Definition lift {S A} (r : result A) : method S A := fun s => (r, s).

(** model.py's own [assert] statements raise AssertionError, which no
    library call of the module raises. A function that asserts returns a
    [checked] result: the assertions passed and the body ran (returning or
    raising as the libraries do), or an assertion failed. *)
Inductive checked (A : Type) : Type :=
| Passed (r : result A)
| AssertionError.

Arguments Passed {A} r.
Arguments AssertionError {A}.

End Py.

Export Py.

Declare Scope py_scope.
Delimit Scope py_scope with py.
Notation "x <- c ;; k" := (bind c (fun x => k))
  (at level 61, c at next level, right associativity) : py_scope.
Notation "' pat <- c ;; k" := (bind c (fun x => match x with pat => k end))
  (at level 61, pat pattern, c at next level, right associativity) : py_scope.
Notation "x <~ c ;; k" := (mbind c (fun x => k))
  (at level 61, c at next level, right associativity) : py_scope.
Notation "' pat <~ c ;; k" := (mbind c (fun x => match x with pat => k end))
  (at level 61, pat pattern, c at next level, right associativity) : py_scope.
Open Scope py_scope.

(* ===================================================================== *)
(** * Torch: tensors as shape + row-major buffer *)
(* ===================================================================== *)

Module Torch.

(** The value read by an index outside the buffer; never reached by an
    operation whose shape checks passed on well-formed tensors. *)
Class Default (A : Type) := default : A.

(** [float("-inf")] next to the finite floats: the causal mask and the
    masked scores live here. *)
Inductive xreal : Type :=
| Finite (r : R)
| NegInf.

(** complex64: real and imaginary part. *)
Definition complex : Type := (R * R)%type.

#[global] Instance Default_R : Default R := 0%R.
#[global] Instance Default_xreal : Default xreal := Finite 0%R.
#[global] Instance Default_complex : Default complex := (0%R, 0%R).
#[global] Instance Default_nat : Default nat := 0.

Record tensor (A : Type) : Type := Tensor { shape : list nat; data : list A }.

(** math.prod of a shape. *)
Definition numel (sh : list nat) : nat := fold_right Nat.mul 1 sh.

Definition wf {A} (t : tensor A) : Prop := length (data t) = numel (shape t).

(** Row-major multi-index of a flat position, and back. *)
Fixpoint unravel (sh : list nat) (i : nat) : list nat :=
  match sh with
  | [] => []
  | _ :: rest => i / numel rest :: unravel rest (i mod numel rest)
  end.

Fixpoint ravel (sh idx : list nat) : nat :=
  match sh, idx with
  | _ :: rest, i :: idx' => i * numel rest + ravel rest idx'
  | _, _ => 0
  end.

Definition in_bounds (sh idx : list nat) : Prop := Forall2 lt idx sh.

(** [t[i0, i1, ...]] with a full multi-index. *)
Definition item {A} `{Default A} (t : tensor A) (idx : list nat) : A :=
  nth (ravel (shape t) idx) (data t) default.

(** The tensor of shape [sh] whose entry at each multi-index is [f idx]. *)
Definition build {A} (sh : list nat) (f : list nat -> A) : tensor A :=
  Tensor sh (map (fun i => f (unravel sh i)) (seq 0 (numel sh))).

Definition tmap {A B} (f : A -> B) (t : tensor A) : tensor B :=
  Tensor (shape t) (map f (data t)).

Definition full {A} (sh : list nat) (v : A) : tensor A := build sh (fun _ => v).
Definition zeros (sh : list nat) : tensor R := full sh 0%R.

(** ** Broadcasting *)

Definition broadcast_dim (a b : nat) : option nat :=
  if a =? b then Some a
  else if a =? 1 then Some b
  else if b =? 1 then Some a
  else None.

(** Shapes are aligned on their last axis: the recursion runs on the
    reversed shapes. *)
Fixpoint broadcast_rev (a b : list nat) : option (list nat) :=
  match a, b with
  | [], _ => Some b
  | _, [] => Some a
  | x :: a', y :: b' =>
      match broadcast_dim x y, broadcast_rev a' b' with
      | Some d, Some r => Some (d :: r)
      | _, _ => None
      end
  end.

Definition broadcast_shapes (a b : list nat) : option (list nat) :=
  option_map (@rev nat) (broadcast_rev (rev a) (rev b)).

(** [src] can be expanded to [dst]: aligned on the last axis, every axis of
    [src] has the size of [dst]'s or size 1 (size 1 expands to any size,
    0 included). *)
Fixpoint expandable_rev (src dst : list nat) : bool :=
  match src, dst with
  | [], _ => true
  | _ :: _, [] => false
  | x :: src', y :: dst' => ((x =? y) || (x =? 1)) && expandable_rev src' dst'
  end.

Definition expandable (src dst : list nat) : bool :=
  expandable_rev (rev src) (rev dst).

(** The multi-index read in an operand of shape [sh] for the entry [idx] of
    the broadcast result: the last [length sh] coordinates, 0 on the axes
    of size 1. *)
Definition bcast_index (sh idx : list nat) : list nat :=
  map (fun di => if fst di =? 1 then 0 else snd di)
      (combine sh (skipn (length idx - length sh) idx)).

(** A binary elementwise operator ([+], [*]) with broadcasting. *)
Definition binop {A B C} `{Default A} `{Default B}
    (f : A -> B -> C) (a : tensor A) (b : tensor B) : result (tensor C) :=
  match broadcast_shapes (shape a) (shape b) with
  | Some sh =>
      Ok (build sh (fun idx =>
            f (item a (bcast_index (shape a) idx))
              (item b (bcast_index (shape b) idx))))
  | None => Err RuntimeError
  end.

Definition add := binop Rplus.
Definition mul := binop Rmult.

(** ** Views *)

(** [t.view(pre..., -1)]: the last size is inferred. *)
Definition view_infer {A} (pre : list nat) (t : tensor A) : result (tensor A) :=
  let n := numel (shape t) in
  let k := numel pre in
  if (k =? 0) || negb (n mod k =? 0) then Err RuntimeError
  else Ok (Tensor (pre ++ [n / k]) (data t)).

(** [t.view(sh)] with every size given. *)
Definition view {A} (sh : list nat) (t : tensor A) : result (tensor A) :=
  if numel sh =? numel (shape t) then Ok (Tensor sh (data t)) else Err RuntimeError.

(** [t.squeeze()]: every axis of size 1 is dropped. *)
Definition squeeze {A} (t : tensor A) : tensor A :=
  Tensor (filter (fun d => negb (d =? 1)) (shape t)) (data t).

(** [t.flatten(1)]. *)
Definition flatten1 {A} (t : tensor A) : result (tensor A) :=
  match shape t with
  | [] => Err IndexError
  | [d] => Ok t
  | d :: rest => Ok (Tensor [d; numel rest] (data t))
  end.

(** [torch.view_as_real]: a trailing axis of size 2 holds (re, im). *)
Definition view_as_real (t : tensor complex) : tensor R :=
  Tensor (shape t ++ [2]) (flat_map (fun c => [fst c; snd c]) (data t)).

(** ** Slices *)

(** One subscript of [t[...]]: [:] or [lo:hi] with non-negative bounds. *)
Inductive slice : Set :=
| All
| Range (lo hi : nat).

Definition slice_start (s : slice) (d : nat) : nat :=
  match s with All => 0 | Range lo _ => Nat.min lo d end.

Definition slice_stop (s : slice) (d : nat) : nat :=
  match s with All => d | Range _ hi => Nat.min hi d end.

(** Python clamps both bounds to the axis; an empty range has length 0. *)
Definition slice_len (s : slice) (d : nat) : nat := slice_stop s d - slice_start s d.

Fixpoint slice_shape (ss : list slice) (sh : list nat) : list nat :=
  match ss, sh with
  | s :: ss', d :: sh' => slice_len s d :: slice_shape ss' sh'
  | _, _ => sh
  end.

(** From an index of the slice to the index of the sliced tensor. *)
Fixpoint slice_to_base (ss : list slice) (sh idx : list nat) : list nat :=
  match ss, sh, idx with
  | s :: ss', d :: sh', i :: idx' => slice_start s d + i :: slice_to_base ss' sh' idx'
  | _, _, _ => idx
  end.

(** Is the index of the sliced tensor inside the slice, and where. *)
Fixpoint in_slice (ss : list slice) (sh idx : list nat) : bool :=
  match ss, sh, idx with
  | s :: ss', d :: sh', i :: idx' =>
      (slice_start s d <=? i) && (i <? slice_stop s d) && in_slice ss' sh' idx'
  | _, _, _ => true
  end.

Fixpoint base_to_slice (ss : list slice) (sh idx : list nat) : list nat :=
  match ss, sh, idx with
  | s :: ss', d :: sh', i :: idx' => i - slice_start s d :: base_to_slice ss' sh' idx'
  | _, _, _ => idx
  end.

(** [t[s0, s1, ...]] (fewer subscripts than axes: the rest are [:]). *)
Definition getitem {A} `{Default A} (ss : list slice) (t : tensor A) : result (tensor A) :=
  if length (shape t) <? length ss then Err IndexError
  else Ok (build (slice_shape ss (shape t))
                 (fun idx => item t (slice_to_base ss (shape t) idx))).

(** [t[s0, s1, ...] = src]: [src] is expanded to the shape of the slice and
    copied; the copy raises when it cannot be expanded, before anything is
    written. *)
Definition setitem {A} `{Default A} (ss : list slice) (t src : tensor A) : result (tensor A) :=
  if length (shape t) <? length ss then Err IndexError
  else if expandable (shape src) (slice_shape ss (shape t)) then
    Ok (build (shape t) (fun idx =>
          if in_slice ss (shape t) idx
          then item src (bcast_index (shape src) (base_to_slice ss (shape t) idx))
          else item t idx))
  else Err RuntimeError.

(** [t[:, -1, :]] on a tensor with three axes. *)
Definition select_last1 {A} `{Default A} (t : tensor A) : result (tensor A) :=
  match shape t with
  | [b; s; d] =>
      if s =? 0 then Err IndexError
      else Ok (build [b; d] (fun idx => item t [nth 0 idx 0; s - 1; nth 1 idx 0]))
  | _ => Err IndexError
  end.

(** [torch.cat((a, b), dim=-1)]. *)
Definition cat_last {A} `{Default A} (a b : tensor A) : result (tensor A) :=
  match rev (shape a), rev (shape b) with
  | la :: ra, lb :: rb =>
      if list_eq_dec Nat.eq_dec ra rb then
        Ok (build (rev ra ++ [la + lb]) (fun idx =>
              let pre := removelast idx in
              let j := last idx 0 in
              if j <? la then item a (pre ++ [j]) else item b (pre ++ [j - la])))
      else Err RuntimeError
  | _, _ => Err RuntimeError
  end.

(** ** Transposition *)

Definition swap_nth (i j : nat) (l : list nat) : list nat :=
  map (fun k => if k =? i then nth j l 0 else if k =? j then nth i l 0 else nth k l 0)
      (seq 0 (length l)).

(** [t.transpose(i, j)]. *)
Definition transpose {A} `{Default A} (i j : nat) (t : tensor A) : result (tensor A) :=
  if (i <? length (shape t)) && (j <? length (shape t)) then
    Ok (build (swap_nth i j (shape t)) (fun idx => item t (swap_nth i j idx)))
  else Err IndexError.

(** ** Products *)

Definition sum_upto (n : nat) (f : nat -> R) : R :=
  fold_right Rplus 0%R (map f (seq 0 n)).

(** The batch axes and the two matrix axes of a shape. *)
Definition split_matrix (sh : list nat) : option (list nat * nat * nat) :=
  match rev sh with
  | c :: r :: b => Some (rev b, r, c)
  | _ => None
  end.

(** [torch.matmul] on operands with at least two axes: the batch axes are
    broadcast, the last two are multiplied as matrices. (The one-axis forms
    of matmul are not used by model.py: both operands there come out of a
    transpose of a tensor with three or four axes.) *)
Definition matmul (a b : tensor R) : result (tensor R) :=
  match split_matrix (shape a), split_matrix (shape b) with
  | Some (ba, n, k), Some (bb, k', m) =>
      match broadcast_shapes ba bb with
      | Some batch =>
          if k =? k' then
            Ok (build (batch ++ [n; m]) (fun idx =>
                  let bi := firstn (length batch) idx in
                  let i := nth (length batch) idx 0 in
                  let j := nth (S (length batch)) idx 0 in
                  sum_upto k (fun l =>
                    item a (bcast_index ba bi ++ [i; l]) *
                    item b (bcast_index bb bi ++ [l; j]))%R))
          else Err RuntimeError
      | None => Err RuntimeError
      end
  | _, _ => Err RuntimeError
  end.

(** [nn.Linear(in_features, out_features, bias=False)]: the weight has
    shape (out_features, in_features). *)
Record Linear : Type := mkLinear {
  in_features : nat;
  out_features : nat;
  weight : tensor R
}.

(** [F.linear(x, W)]: [y[..., o] = sum_k x[..., k] * W[o, k]]. *)
Definition linear (l : Linear) (x : tensor R) : result (tensor R) :=
  match rev (shape x) with
  | [] => Err RuntimeError
  | d :: pre =>
      if d =? in_features l then
        Ok (build (rev pre ++ [out_features l]) (fun idx =>
              let row := removelast idx in
              let o := last idx 0 in
              sum_upto (in_features l) (fun k =>
                item x (row ++ [k]) * item (weight l) [o; k])%R))
      else Err RuntimeError
  end.

(** [nn.Embedding(num_embeddings, embedding_dim)]. *)
Record Embedding : Type := mkEmbedding {
  num_embeddings : nat;
  embedding_dim : nat;
  table : tensor R
}.

Definition embedding (e : Embedding) (tokens : tensor nat) : result (tensor R) :=
  if forallb (fun t => t <? num_embeddings e) (data tokens) then
    Ok (build (shape tokens ++ [embedding_dim e]) (fun idx =>
          item (table e) [item tokens (removelast idx); last idx 0]))
  else Err IndexError.

(** ** Softmax and the causal mask *)

(** [exp] on the floats with [-inf]: [exp(-inf) = 0]. *)
Definition xexp (x : xreal) : R :=
  match x with Finite r => exp r | NegInf => 0%R end.

Definition xadd (x y : xreal) : xreal :=
  match x, y with
  | Finite a, Finite b => Finite (a + b)
  | _, _ => NegInf
  end.

(** [F.softmax(t, dim=-1)]. *)
Definition softmax (t : tensor xreal) : tensor R :=
  build (shape t) (fun idx =>
    let row := removelast idx in
    let n := last (shape t) 1 in
    Rdiv (xexp (item t idx)) (sum_upto n (fun j => xexp (item t (row ++ [j]))))).

(** [torch.triu(t, diagonal=k)]: the entries with [col - row < k] on the
    last two axes become 0. *)
Definition triu (k : nat) (t : tensor xreal) : tensor xreal :=
  build (shape t) (fun idx =>
    let n := length idx in
    let r := nth (n - 2) idx 0 in
    let c := nth (n - 1) idx 0 in
    if r + k <=? c then item t idx else Finite 0%R).

End Torch.

Export Torch.

(* ===================================================================== *)
(** * TenSEAL: CKKS tensors by their ideal functionality *)
(* ===================================================================== *)

Module TenSEAL.

(** [ts.ckks_tensor(context, t)]. The scheme of the module-level [context]
    (lines 15-21: CKKS, poly_modulus_degree 8192, global_scale 2**20) is
    approximate; the model keeps its ideal functionality: a ciphertext
    stands for the array it encrypts, carries that array's shape, and the
    operations model.py applies to it (reshape, subscript by slices,
    product with a plain tensor, sum) act exactly on the array. Noise,
    scale and the packing of values into ciphertext slots are outside the
    model. *)
Record CKKSTensor : Type := Enc { encrypted : tensor R }.

(** What [decrypt()] returns: a flat buffer and the shape to read it with. *)
Record PlainTensor : Type := mkPlain { raw : list R; plain_shape : list nat }.

Definition ckks_tensor (t : tensor R) : CKKSTensor := Enc t.

Definition decrypt (c : CKKSTensor) : PlainTensor :=
  mkPlain (data (encrypted c)) (shape (encrypted c)).

(** [c.reshape(sh)]: layout only; a different size raises. *)
Definition ckks_reshape (sh : list nat) (c : CKKSTensor) : result CKKSTensor :=
  if numel sh =? numel (shape (encrypted c))
  then Ok (Enc (Tensor sh (data (encrypted c))))
  else Err ValueError.

(** [c[s0, s1, ...]]. *)
Definition ckks_getitem (ss : list slice) (c : CKKSTensor) : result CKKSTensor :=
  t <- getitem ss (encrypted c) ;; Ok (Enc t).

(** [c * p] with a plain operand: the operand is broadcast to the shape of
    the ciphertext, or the operation raises. *)
Definition ckks_mul_plain (c : CKKSTensor) (p : tensor R) : result CKKSTensor :=
  if expandable (shape p) (shape (encrypted c)) then
    Ok (Enc (build (shape (encrypted c)) (fun idx =>
          (item (encrypted c) idx * item p (bcast_index (shape p) idx))%R)))
  else Err ValueError.

(** [c1 + c2]: the right operand is broadcast to the shape of the left. *)
Definition ckks_add (c1 c2 : CKKSTensor) : result CKKSTensor :=
  if expandable (shape (encrypted c2)) (shape (encrypted c1)) then
    Ok (Enc (build (shape (encrypted c1)) (fun idx =>
          (item (encrypted c1) idx +
           item (encrypted c2) (bcast_index (shape (encrypted c2)) idx))%R)))
  else Err ValueError.

End TenSEAL.

Export TenSEAL.

(* ===================================================================== *)
(** * model.py *)
(* ===================================================================== *)

Module Llama.

(** ** ModelArgs (lines 23-33) *)

Record ModelArgs : Type := mkModelArgs {
  dim : nat;
  n_layers : nat;
  n_heads : nat;
  vocab_size : nat;
  multiple_of : nat;
  norm_eps : R;
  max_batch_size : nat;
  max_seq_len : nat
}.

(** Python's [a // b] on sizes. *)
Definition floordiv (a b : nat) : result nat :=
  if b =? 0 then Err ZeroDivisionError else Ok (a / b).

(** The values a constructor gives to a fresh parameter of a given shape
    (torch's initialisers, or a loaded checkpoint): any tensor of that
    shape. *)
Definition initializer : Type := list nat -> tensor R.

Definition new_Linear (init : initializer) (i o : nat) : Linear :=
  mkLinear i o (init [o; i]).

(** ** RMSNorm (lines 36-47) *)

Record RMSNorm : Type := mkRMSNorm {
  eps : R;
  norm_weight : tensor R
}.

Definition RMSNorm_init (d : nat) (e : R) : RMSNorm :=
  mkRMSNorm e (full [d] 1%R).

(** [t.mean(-1, keepdim=True)]. *)
Definition mean_last (t : tensor R) : result (tensor R) :=
  match rev (shape t) with
  | [] => Err IndexError
  | d :: pre =>
      Ok (build (rev pre ++ [1]) (fun idx =>
            let row := removelast idx in
            Rdiv (sum_upto d (fun k => item t (row ++ [k]))) (INR d)))
  end.

Definition rsqrt (v : R) : R := Rinv (sqrt v).

Definition RMSNorm_norm (self : RMSNorm) (x : tensor R) : result (tensor R) :=
  m <- mean_last (tmap (fun v => Rmult v v) x) ;;
  mul x (tmap rsqrt (tmap (fun v => Rplus v (eps self)) m)).

Definition RMSNorm_forward (self : RMSNorm) (x : tensor R) : result (tensor R) :=
  output <- RMSNorm_norm self x ;;
  mul output (norm_weight self).

(** ** precompute_freqs_cis (lines 50-55) *)

(** [torch.arange(start, stop, step)] with a positive step. *)
Definition arange (start stop step : nat) : tensor nat :=
  let n := (stop - start + step - 1) / step in
  Tensor [n] (map (fun i => start + i * step) (seq 0 n)).

(** [torch.outer] of two vectors. *)
Definition outer (a b : tensor R) : result (tensor R) :=
  match shape a, shape b with
  | [n], [m] =>
      Ok (build [n; m] (fun idx =>
            Rmult (item a [nth 0 idx 0]) (item b [nth 1 idx 0])))
  | _, _ => Err RuntimeError
  end.

(** [torch.polar(abs, angle)]: [abs * (cos angle + i sin angle)]. *)
Definition polar (r a : tensor R) : tensor complex :=
  Tensor (shape a)
    (map (fun ra => (Rmult (fst ra) (cos (snd ra)), Rmult (fst ra) (sin (snd ra))))
         (combine (data r) (data a))).

Definition ones_like (t : tensor R) : tensor R :=
  Tensor (shape t) (map (fun _ => 1%R) (data t)).

Definition default_theta : R := 10000%R.

(** [theta ** y] is [Rpower theta y] for a positive [theta]; the module
    calls the function with the default 10000.0 only. For [theta <= 0] the
    float power is 0, inf or nan, which the reals do not hold: what is
    stated about the values of the table is stated for [0 < theta]. *)
Definition precompute_freqs_cis (dim end_ : nat) (theta : R) : result (tensor complex) :=
  evens <- getitem [Range 0 (dim / 2)] (arange 0 dim 2) ;;
  let freqs :=
    tmap (fun e => Rdiv 1 (Rpower theta (Rdiv (INR e) (INR dim)))) evens in
  let t := tmap INR (arange 0 end_ 1) in
  freqs <- outer t freqs ;;
  Ok (polar (ones_like freqs) freqs).

(** ** reshape_for_broadcast (lines 58-63); no function of the module
    calls it *)

(** Python's [enumerate]. *)
Definition enumerate {A} (l : list A) : list (nat * A) :=
  combine (seq 0 (length l)) l.

Definition reshape_for_broadcast {A} (freqs_cis : tensor complex) (x : tensor A)
    : checked (tensor complex) :=
  let ndim := length (shape x) in
  if negb (1 <? ndim) then AssertionError
  else if list_eq_dec Nat.eq_dec (shape freqs_cis) [nth 1 (shape x) 0; last (shape x) 0]
  then
    let sh := map (fun id => if (fst id =? 1) || (fst id =? ndim - 1) then snd id else 1)
                  (enumerate (shape x)) in
    Passed (view sh freqs_cis)
  else AssertionError.

(** ** apply_rotary_emb (lines 66-108; the body that runs is 93-108, the
    string of lines 72-82 is the function's docstring) *)

Definition neg (t : tensor R) : tensor R := tmap Ropp t.

(** One of the two plain factors: [torch.cat((a, b), dim=-1).flatten(1)
    .view(seqlen, 1, -1)]. *)
Definition rotary_factor (seqlen : nat) (a b : tensor R) : result (tensor R) :=
  c <- cat_last a b ;;
  f <- flatten1 c ;;
  view_infer [seqlen; 1] f.

(** Lines 97-98 (and 99-100): the tensor is reshaped to pairs, subscripted
    with [slice(0, 2)] on the pair axis, reshaped back, and combined. *)
Definition rotate (x : CKKSTensor) (n_local_heads head_dim seqlen : nat)
    (freqs_cis_l freqs_cis_r : tensor R) : result CKKSTensor :=
  pairs <- ckks_reshape [seqlen; n_local_heads; head_dim / 2; 2] x ;;
  sub <- ckks_getitem [All; All; All; Range 0 2] pairs ;;
  x_ <- ckks_reshape [seqlen; n_local_heads; head_dim] sub ;;
  a <- ckks_mul_plain x freqs_cis_l ;;
  b <- ckks_mul_plain x_ freqs_cis_r ;;
  ckks_add a b.

Definition apply_rotary_emb (xq xk : CKKSTensor)
    (n_local_heads head_dim seqlen : nat) (freqs_cis : tensor complex)
    : result (CKKSTensor * CKKSTensor) :=
  ll <- getitem [All; All; Range 0 1] (view_as_real freqs_cis) ;;
  freqs_cis_l <- rotary_factor seqlen ll ll ;;
  rr <- getitem [All; All; Range 1 2] (view_as_real freqs_cis) ;;
  freqs_cis_r <- rotary_factor seqlen (neg rr) rr ;;
  xq' <- rotate xq n_local_heads head_dim seqlen freqs_cis_l freqs_cis_r ;;
  xk' <- rotate xk n_local_heads head_dim seqlen freqs_cis_l freqs_cis_r ;;
  Ok (xq', xk').

(** ** plainToTorch, encryptedLinearTransform (lines 111-116) *)

Definition plainToTorch (plain : PlainTensor) : tensor R :=
  Tensor (plain_shape plain) (firstn (numel (plain_shape plain)) (raw plain)).

Definition encryptedLinearTransform (l : Linear) (t : CKKSTensor) : result CKKSTensor :=
  let t := decrypt t in
  y <- linear l (plainToTorch t) ;;
  Ok (ckks_tensor y).

(** ** Attention (lines 118-212) *)

Record Attention : Type := mkAttention {
  n_local_heads : nat;
  head_dim : nat;
  wq : Linear;
  wk : Linear;
  wv : Linear;
  wo : Linear;
  cache_k : tensor R;
  cache_v : tensor R
}.

Definition set_cache_k (self : Attention) (c : tensor R) : Attention :=
  mkAttention (n_local_heads self) (head_dim self) (wq self) (wk self) (wv self)
              (wo self) c (cache_v self).

Definition set_cache_v (self : Attention) (c : tensor R) : Attention :=
  mkAttention (n_local_heads self) (head_dim self) (wq self) (wk self) (wv self)
              (wo self) (cache_k self) c.

Definition Attention_init (init : initializer) (args : ModelArgs) : result Attention :=
  hd <- floordiv (dim args) (n_heads args) ;;
  Ok (mkAttention (n_heads args) hd
        (new_Linear init (dim args) (n_heads args * hd))
        (new_Linear init (dim args) (n_heads args * hd))
        (new_Linear init (dim args) (n_heads args * hd))
        (new_Linear init (n_heads args * hd) (dim args))
        (zeros [max_batch_size args; max_seq_len args; n_heads args; hd])
        (zeros [max_batch_size args; max_seq_len args; n_heads args; hd])).

(** Lines 159-187: encrypt, project, reshape, rotate, decrypt. (The prints
    and timers between the steps do not touch the tensors and are left
    out.) *)
Definition Attention_project (self : Attention) (x : tensor R) (seqlen : nat)
    (freqs_cis : tensor complex) : result (tensor R * tensor R * tensor R) :=
  let x := ckks_tensor (squeeze x) in
  xq <- encryptedLinearTransform (wq self) x ;;
  xk <- encryptedLinearTransform (wk self) x ;;
  xv <- encryptedLinearTransform (wv self) x ;;
  xq <- ckks_reshape [seqlen; n_local_heads self; head_dim self] xq ;;
  xk <- ckks_reshape [seqlen; n_local_heads self; head_dim self] xk ;;
  xv <- ckks_reshape [seqlen; n_local_heads self; head_dim self] xv ;;
  ' (xq, xk) <- apply_rotary_emb xq xk (n_local_heads self) (head_dim self) seqlen freqs_cis ;;
  Ok (plainToTorch (decrypt xq), plainToTorch (decrypt xk), plainToTorch (decrypt xv)).

(** Lines 194-195: the two slice assignments into the cache, in order. *)
Definition Attention_write_cache (bsz start_pos seqlen : nat) (xk xv : tensor R)
    : method Attention unit :=
  fun self =>
    match setitem [Range 0 bsz; Range start_pos (start_pos + seqlen)] (cache_k self) xk with
    | Err e => (Err e, self)
    | Ok ck =>
        let self := set_cache_k self ck in
        match setitem [Range 0 bsz; Range start_pos (start_pos + seqlen)] (cache_v self) xv with
        | Err e => (Err e, self)
        | Ok cv => (Ok tt, set_cache_v self cv)
        end
    end.

(** Lines 197-198: the prefix of the cache that is read back. *)
Definition Attention_read_cache (self : Attention) (bsz start_pos seqlen : nat)
    : result (tensor R * tensor R) :=
  keys <- getitem [Range 0 bsz; Range 0 (start_pos + seqlen)] (cache_k self) ;;
  values <- getitem [Range 0 bsz; Range 0 (start_pos + seqlen)] (cache_v self) ;;
  Ok (keys, values).

(** Lines 200-205: the transposes, the scaled scores, the mask added. *)
Definition Attention_scores (self : Attention) (xq keys values : tensor R)
    (mask : option (tensor xreal)) : result (tensor xreal * tensor R) :=
  xq <- transpose 0 1 xq ;;
  keys <- transpose 1 2 keys ;;
  values <- transpose 1 2 values ;;
  kt <- transpose 2 3 keys ;;
  s <- matmul xq kt ;;
  let scores := tmap (fun v => Finite (Rdiv v (sqrt (INR (head_dim self))))) s in
  scores <- match mask with
            | Some m => binop xadd scores m
            | None => Ok scores
            end ;;
  Ok (scores, values).

(** Lines 206-212: softmax, the weighted values, the heads recombined, the
    output projection. *)
Definition Attention_combine (self : Attention) (bsz seqlen : nat)
    (scores : tensor xreal) (values : tensor R) : result (tensor R) :=
  let scores := softmax scores in
  output <- matmul scores values ;;
  output <- transpose 1 2 output ;;
  output <- view_infer [bsz; seqlen] output ;;
  linear (wo self) output.

(** [self.cache_k.to(xq)] (lines 191-192) changes neither shape nor values
    and is left out. *)
Definition Attention_forward (x : tensor R) (start_pos : nat)
    (freqs_cis : tensor complex) (mask : option (tensor xreal))
    : method Attention (tensor R) :=
  match shape x with
  | [bsz; seqlen; _] =>
      q <~ (fun self => (Attention_project self x seqlen freqs_cis, self)) ;;
      let '(xq, xk, xv) := q in
      _ <~ Attention_write_cache bsz start_pos seqlen xk xv ;;
      fun self =>
        (kv <- Attention_read_cache self bsz start_pos seqlen ;;
         sv <- Attention_scores self xq (fst kv) (snd kv) mask ;;
         Attention_combine self bsz seqlen (fst sv) (snd sv),
         self)
  | _ => lift (Err ValueError)
  end.

(** ** FeedForward (lines 215-237) *)

(** Lines 223-224 on Python integers: [2 * hidden_dim / 3] is a float,
    [int] truncates it toward zero, [//] is floor division. *)
Definition FeedForward_hidden_dim (hidden_dim multiple_of : Z) : result Z :=
  q <- int_truediv (2 * hidden_dim) 3 ;;
  let hidden_dim := int_of_float q in
  if (multiple_of =? 0)%Z then Err ZeroDivisionError
  else Ok (multiple_of * ((hidden_dim + multiple_of - 1) / multiple_of))%Z.

Record FeedForward : Type := mkFeedForward {
  w1 : Linear;
  w2 : Linear;
  w3 : Linear
}.

Definition FeedForward_init (init : initializer) (dim hidden_dim multiple_of : nat)
    : result FeedForward :=
  h <- FeedForward_hidden_dim (Z.of_nat hidden_dim) (Z.of_nat multiple_of) ;;
  let hidden_dim := Z.to_nat h in
  Ok (mkFeedForward (new_Linear init dim hidden_dim)
                    (new_Linear init hidden_dim dim)
                    (new_Linear init dim hidden_dim)).

(** [F.silu]: [v * sigmoid(v)]. *)
Definition silu (v : R) : R := Rdiv v (Rplus 1 (exp (Ropp v))).

Definition FeedForward_forward (self : FeedForward) (x : tensor R) : result (tensor R) :=
  a <- linear (w1 self) x ;;
  b <- linear (w3 self) x ;;
  g <- mul (tmap silu a) b ;;
  linear (w2 self) g.

(** ** TransformerBlock (lines 240-257) *)

Record TransformerBlock : Type := mkTransformerBlock {
  block_n_heads : nat;
  block_dim : nat;
  block_head_dim : nat;
  attention : Attention;
  feed_forward : FeedForward;
  layer_id : nat;
  attention_norm : RMSNorm;
  ffn_norm : RMSNorm
}.

Definition set_attention (self : TransformerBlock) (a : Attention) : TransformerBlock :=
  mkTransformerBlock (block_n_heads self) (block_dim self) (block_head_dim self) a
    (feed_forward self) (layer_id self) (attention_norm self) (ffn_norm self).

Definition TransformerBlock_init (init : initializer) (layer_id : nat) (args : ModelArgs)
    : result TransformerBlock :=
  hd <- floordiv (dim args) (n_heads args) ;;
  att <- Attention_init init args ;;
  ff <- FeedForward_init init (dim args) (4 * dim args) (multiple_of args) ;;
  Ok (mkTransformerBlock (n_heads args) (dim args) hd att ff layer_id
        (RMSNorm_init (dim args) (norm_eps args))
        (RMSNorm_init (dim args) (norm_eps args))).

Definition TransformerBlock_forward (x : tensor R) (start_pos : nat)
    (freqs_cis : tensor complex) (mask : option (tensor xreal))
    : method TransformerBlock (tensor R) :=
  fun self =>
    match RMSNorm_forward (attention_norm self) x with
    | Err e => (Err e, self)
    | Ok n =>
        let (r, att) := Attention_forward n start_pos freqs_cis mask (attention self) in
        let self := set_attention self att in
        (a <- r ;;
         h <- add x a ;;
         n2 <- RMSNorm_forward (ffn_norm self) h ;;
         f <- FeedForward_forward (feed_forward self) n2 ;;
         add h f,
         self)
    end.

(** ** Transformer (lines 260-301) *)

Record Transformer : Type := mkTransformer {
  params : ModelArgs;
  model_vocab_size : nat;
  model_n_layers : nat;
  tok_embeddings : Embedding;
  layers : list TransformerBlock;
  norm : RMSNorm;
  output : Linear;
  freqs_cis : tensor complex
}.

Definition set_layers (self : Transformer) (ls : list TransformerBlock) : Transformer :=
  mkTransformer (params self) (model_vocab_size self) (model_n_layers self)
    (tok_embeddings self) ls (norm self) (output self) (freqs_cis self).

(** Lines 271-273: [for layer_id in range(n_layers): layers.append(...)]. *)
Fixpoint init_layers (init : initializer) (ids : list nat) (args : ModelArgs)
    : result (list TransformerBlock) :=
  match ids with
  | [] => Ok []
  | layer_id :: ids' =>
      b <- TransformerBlock_init init layer_id args ;;
      bs <- init_layers init ids' args ;;
      Ok (b :: bs)
  end.

Definition Transformer_init (init : initializer) (params : ModelArgs) : result Transformer :=
  let emb := mkEmbedding (vocab_size params) (dim params)
                         (init [vocab_size params; dim params]) in
  ls <- init_layers init (seq 0 (n_layers params)) params ;;
  let nrm := RMSNorm_init (dim params) (norm_eps params) in
  let out := new_Linear init (dim params) (vocab_size params) in
  hd <- floordiv (dim params) (n_heads params) ;;
  fc <- precompute_freqs_cis hd (max_seq_len params * 2) default_theta ;;
  Ok (mkTransformer params (vocab_size params) (n_layers params) emb ls nrm out fc).

(** Lines 292-295. *)
Definition causal_mask (seqlen start_pos : nat) : option (tensor xreal) :=
  if 1 <? seqlen
  then Some (triu (start_pos + 1) (full [1; 1; seqlen; seqlen] NegInf))
  else None.

(** Lines 297-298: [for layer in self.layers: h = layer(h, ...)]. *)
Fixpoint run_layers (h : tensor R) (start_pos : nat) (freqs_cis : tensor complex)
    (mask : option (tensor xreal)) : method (list TransformerBlock) (tensor R) :=
  fun ls =>
    match ls with
    | [] => (Ok h, [])
    | layer :: rest =>
        match TransformerBlock_forward h start_pos freqs_cis mask layer with
        | (Ok h', layer') =>
            let (r, rest') := run_layers h' start_pos freqs_cis mask rest in
            (r, layer' :: rest')
        | (Err e, layer') => (Err e, layer' :: rest)
        end
    end.

Definition Transformer_forward (tokens : tensor nat) (start_pos : nat)
    : method Transformer (tensor R) :=
  fun self =>
    match shape tokens with
    | [_bsz; seqlen] =>
        match
          (h <- embedding (tok_embeddings self) tokens ;;
           fc <- getitem [Range start_pos (start_pos + seqlen)] (freqs_cis self) ;;
           Ok (h, fc))
        with
        | Err e => (Err e, self)
        | Ok (h, fc) =>
            let mask := causal_mask seqlen start_pos in
            let (r, ls) := run_layers h start_pos fc mask (layers self) in
            (h <- r ;;
             h <- RMSNorm_forward (norm self) h ;;
             last_h <- select_last1 h ;;
             linear (output self) last_h,
             set_layers self ls)
        end
    | _ => (Err ValueError, self)
    end.

End Llama.

Export Llama.

(* ===================================================================== *)
(** * The specification's wording of the feed-forward width *)
(* ===================================================================== *)

Module Spec.

(** Truncation of a rational to an integer (toward zero). *)
Definition Qtruncate (q : Q) : Z := if Qle_bool 0 q then Qfloor q else Qceiling q.

(** "multiple_of * ceil((2 * (4*dim) / 3) / multiple_of)", the two-thirds
    truncated to an integer before the rounding up. *)
Definition hidden_width_spec (dim multiple_of : Z) : Z :=
  (multiple_of *
   Qceiling (inject_Z (Qtruncate (2 * inject_Z (4 * dim) / 3)%Q) / inject_Z multiple_of)%Q)%Z.

(** The nominal width rounded up to the alignment, with no shrinking. *)
Definition nominal_width_rounded (dim multiple_of : Z) : Z :=
  (multiple_of * Qceiling (inject_Z (4 * dim) / inject_Z multiple_of)%Q)%Z.

End Spec.

Export Spec.

(* ===================================================================== *)
(** * CKKS with its approximation error *)
(* ===================================================================== *)

Module Approx.

(** CKKS is approximate: [ts.ckks_tensor(context, t)] encodes [t] at the
    scale of the context (lines 15-21), and [decrypt()] followed by
    [plainToTorch] (a cast to float32, line 112) gives back an array near
    [t], not [t]. A scheme with error is given by the array [noisy t] that
    a fresh ciphertext of [t] decrypts to; the ideal functionality of
    [Module TenSEAL] is the scheme with [noisy t = t]. *)
Section Scheme.

Variable noisy : tensor R -> tensor R.

Definition ckks_tensor_approx (t : tensor R) : CKKSTensor := ckks_tensor (noisy t).

(** Lines 114-116 on that scheme. *)
Definition encryptedLinearTransform_approx (l : Linear) (t : CKKSTensor)
    : result CKKSTensor :=
  let t := decrypt t in
  y <- linear l (plainToTorch t) ;;
  Ok (ckks_tensor_approx y).

(** The round trip through a ciphertext keeps the shape of an array and
    moves no entry by more than [tol]. *)
Definition round_trip_within (tol : R) : Prop :=
  forall t, wf t ->
    wf (noisy t) /\ shape (noisy t) = shape t /\
    forall idx, in_bounds (shape t) idx ->
      Rle (Rabs (Rminus (item (noisy t) idx) (item t idx))) tol.

End Scheme.

End Approx.

Export Approx.

(* ===================================================================== *)
(** * What the constructors establish *)
(* ===================================================================== *)

Module Invariants.

(** A configuration the constructors accept and the rotary code can run on:
    at least one head, an even head dimension of at least 2, room for one
    example in the cache. *)
Record config_ok (args : ModelArgs) : Prop := mk_config_ok {
  heads_pos : 1 <= n_heads args;
  head_dim_even : Nat.even (dim args / n_heads args) = true;
  head_dim_pos : 2 <= dim args / n_heads args;
  batch_pos : 1 <= max_batch_size args
}.

(** The attributes [Attention.__init__] sets, as far as shapes go. *)
Record Attention_wf (args : ModelArgs) (a : Attention) : Prop := mk_Attention_wf {
  wf_heads : n_local_heads a = n_heads args;
  wf_head_dim : head_dim a = dim args / n_heads args;
  wf_wq_in : in_features (wq a) = dim args;
  wf_wq_out : out_features (wq a) = n_heads args * (dim args / n_heads args);
  wf_wk_in : in_features (wk a) = dim args;
  wf_wk_out : out_features (wk a) = n_heads args * (dim args / n_heads args);
  wf_wv_in : in_features (wv a) = dim args;
  wf_wv_out : out_features (wv a) = n_heads args * (dim args / n_heads args);
  wf_wo_in : in_features (wo a) = n_heads args * (dim args / n_heads args);
  wf_wo_out : out_features (wo a) = dim args;
  wf_cache_k_shape :
    shape (cache_k a) =
    [max_batch_size args; max_seq_len args; n_heads args; dim args / n_heads args];
  wf_cache_v_shape :
    shape (cache_v a) =
    [max_batch_size args; max_seq_len args; n_heads args; dim args / n_heads args];
  wf_cache_k : wf (cache_k a);
  wf_cache_v : wf (cache_v a)
}.

Record RMSNorm_wf (d : nat) (n : RMSNorm) : Prop := mk_RMSNorm_wf {
  wf_norm_weight : shape (norm_weight n) = [d]
}.

Record FeedForward_wf (d : nat) (f : FeedForward) : Prop := mk_FeedForward_wf {
  wf_w1_in : in_features (w1 f) = d;
  wf_w3_in : in_features (w3 f) = d;
  wf_w3_out : out_features (w3 f) = out_features (w1 f);
  wf_w2_in : in_features (w2 f) = out_features (w1 f);
  wf_w2_out : out_features (w2 f) = d
}.

Record TransformerBlock_wf (args : ModelArgs) (b : TransformerBlock) : Prop :=
  mk_TransformerBlock_wf {
  wf_attention : Attention_wf args (attention b);
  wf_feed_forward : FeedForward_wf (dim args) (feed_forward b);
  wf_attention_norm : RMSNorm_wf (dim args) (attention_norm b);
  wf_ffn_norm : RMSNorm_wf (dim args) (ffn_norm b)
}.

Record Transformer_wf (t : Transformer) : Prop := mk_Transformer_wf {
  wf_params : config_ok (params t);
  wf_tok_num : num_embeddings (tok_embeddings t) = vocab_size (params t);
  wf_tok_dim : embedding_dim (tok_embeddings t) = dim (params t);
  wf_layers : Forall (TransformerBlock_wf (params t)) (layers t);
  wf_norm : RMSNorm_wf (dim (params t)) (norm t);
  wf_output_in : in_features (output t) = dim (params t);
  wf_output_out : out_features (output t) = vocab_size (params t);
  wf_freqs_cis :
    shape (freqs_cis t) =
    [max_seq_len (params t) * 2; dim (params t) / n_heads (params t) / 2]
}.

End Invariants.

Export Invariants.

Module MaskShape.

(** The mask can be added to scores of shape [sh] without changing their
    shape ([None]: no mask is added). *)
Definition mask_fits (mask : option (tensor xreal)) (sh : list nat) : Prop :=
  match mask with
  | Some m => broadcast_shapes sh (shape m) = Some sh
  | None => True
  end.

End MaskShape.

Export MaskShape.

(* ===================================================================== *)
(** * A small configuration *)
(* ===================================================================== *)

Module Examples.

(** The end-to-end scenario of the specification: 2 layers, 2 heads,
    dimension 8; a vocabulary of 16, alignment 4, one example, 4 cached
    positions. *)
Definition tiny_args : ModelArgs :=
  mkModelArgs 8 2 2 16 4 (1 / 100000)%R 1 4.

Definition tiny_init : initializer := fun sh => full sh 1%R.

(** One position of one head of dimension 2 holding the unit vector (1, 0). *)
Definition unit_x : tensor R := Tensor [1; 1; 2] [1%R; 0%R].

(** Activations of [s] positions for [bsz] examples of the small model. *)
Definition tiny_x (bsz s : nat) : tensor R := full [bsz; s; 8] 1%R.

(** A rotary slice for [s] positions of the small model (head_dim 4). *)
Definition tiny_freqs (s : nat) : tensor complex := full [s; 2] (1%R, 0%R).

Definition tiny_tokens (bsz s : nat) : tensor nat := full [bsz; s] 0.

(** The identity projection on two features. *)
Definition id2 : Linear := mkLinear 2 2 (Tensor [2; 2] [1%R; 0%R; 0%R; 1%R]).

(** The projection of one feature that doubles it. *)
Definition double1 : Linear := mkLinear 1 1 (Tensor [1; 1] [2%R]).

(** A scheme whose round trip is off by exactly 1 on every entry. *)
Definition off_by_one : tensor R -> tensor R := tmap (fun v => Rplus v 1).

End Examples.

Export Examples.

(* ===================================================================== *)
(** * What a forward call may change *)
(* ===================================================================== *)

Module Frames.

(** The two objects differ at most in the contents of the two caches. *)
Definition Attention_same_weights (a a' : Attention) : Prop :=
  n_local_heads a' = n_local_heads a /\ head_dim a' = head_dim a /\
  wq a' = wq a /\ wk a' = wk a /\ wv a' = wv a /\ wo a' = wo a /\
  shape (cache_k a') = shape (cache_k a) /\
  shape (cache_v a') = shape (cache_v a).

Definition TransformerBlock_same_weights (b b' : TransformerBlock) : Prop :=
  block_n_heads b' = block_n_heads b /\ block_dim b' = block_dim b /\
  block_head_dim b' = block_head_dim b /\
  Attention_same_weights (attention b) (attention b') /\
  feed_forward b' = feed_forward b /\ layer_id b' = layer_id b /\
  attention_norm b' = attention_norm b /\ ffn_norm b' = ffn_norm b.

Definition Transformer_same_weights (t t' : Transformer) : Prop :=
  params t' = params t /\ model_vocab_size t' = model_vocab_size t /\
  model_n_layers t' = model_n_layers t /\
  tok_embeddings t' = tok_embeddings t /\
  Forall2 TransformerBlock_same_weights (layers t) (layers t') /\
  norm t' = norm t /\ output t' = output t /\ freqs_cis t' = freqs_cis t.

(** Every cell of the cache [c] outside the rows [0 .. bsz - 1] and the
    positions [sp .. sp + s - 1] has the same value in [c']. *)
Definition cache_outside_unchanged (bsz sp s : nat) (c c' : tensor R) : Prop :=
  forall b p h d,
    in_bounds (shape c) [b; p; h; d] ->
    bsz <= b \/ p < sp \/ sp + s <= p ->
    item c' [b; p; h; d] = item c [b; p; h; d].

End Frames.

Export Frames.

(* ===================================================================== *)
(** * Attention written out row by row *)
(* ===================================================================== *)

Module Rows.

(** Column [c] of the projection [l] applied to row [p] of the single
    example of [x]: [l(x[0, p, :])[c]]. *)
Definition project_row (l : Linear) (x : tensor R) (p c : nat) : R :=
  sum_upto (in_features l)
           (fun k => Rmult (item x [0; p; k]) (item (weight l) [c; k])).

(** What lines 93-100 make of the entry [v] at position [p] and feature
    [d] of a head: [v * re + v * (-im)] on an even feature,
    [v * re + v * im] on an odd one, with [re + i im] the rotary value of
    the pair the feature belongs to. *)
Definition rotary_entry (fc : tensor complex) (p d : nat) (v : R) : R :=
  Rplus (Rmult v (fst (item fc [p; d / 2])))
        (Rmult v (if Nat.even d then Ropp (snd (item fc [p; d / 2]))
                  else snd (item fc [p; d / 2]))).

(** Lines 203-205: the score of query position [p] against cached position
    [t] in head [h], scaled, with the mask added when there is one. *)
Definition score (hd : nat) (q ck : tensor R) (mask : option (tensor xreal))
    (h p t : nat) : xreal :=
  let raw :=
    Finite (Rdiv (sum_upto hd (fun d => Rmult (item q [p; h; d]) (item ck [0; t; h; d])))
                 (sqrt (INR hd))) in
  match mask with
  | Some m => xadd raw (item m (bcast_index (shape m) [0; h; p; t]))
  | None => raw
  end.

(** Lines 206-207: the softmax weights of query position [p] over the [n]
    cached positions, applied to feature [d] of the cached values. *)
Definition attend (hd n : nat) (q ck cv : tensor R) (mask : option (tensor xreal))
    (h p d : nat) : R :=
  sum_upto n (fun t =>
    Rmult (Rdiv (xexp (score hd q ck mask h p t))
                (sum_upto n (fun j => xexp (score hd q ck mask h p j))))
          (item cv [0; t; h; d])).

(** Row [p] of the single example of [x] and row [p'] of [x'] hold the same
    [d] values. *)
Definition rows_agree (d : nat) (x x' : tensor R) (p p' : nat) : Prop :=
  forall k, k < d -> item x [0; p; k] = item x' [0; p'; k].

(** [x0] holds the first [n] rows of [x] and [x1] its row [n]: the inputs
    of a first step over [n] positions and of the step of one position
    that follows it. *)
Definition split_rows (d n : nat) (x x0 x1 : tensor R) : Prop :=
  (forall p, p < n -> rows_agree d x0 x p p) /\ rows_agree d x1 x 0 n.

(** The same for the rotary slices of the two steps. *)
Definition split_freqs (half n : nat) (fc fc0 fc1 : tensor complex) : Prop :=
  (forall p i, p < n -> i < half -> item fc0 [p; i] = item fc [p; i]) /\
  (forall i, i < half -> item fc1 [0; i] = item fc [n; i]).

(** The two layers hold the same keys and values in every cell of their
    caches. *)
Definition caches_agree (args : ModelArgs) (a a' : Attention) : Prop :=
  forall b p h d,
    b < max_batch_size args -> p < max_seq_len args ->
    h < n_heads args -> d < dim args / n_heads args ->
    item (cache_k a) [b; p; h; d] = item (cache_k a') [b; p; h; d] /\
    item (cache_v a) [b; p; h; d] = item (cache_v a') [b; p; h; d].

End Rows.

Export Rows.

(* ===================================================================== *)
(** * Facts about the tensor interface *)
(* ===================================================================== *)

Section Indexing.

Lemma numel_cons (d : nat) (sh : list nat) : numel (d :: sh) = d * numel sh.
Proof. reflexivity. Qed.

Lemma numel_app (a b : list nat) : numel (a ++ b) = numel a * numel b.
Proof.
  induction a as [|d a IH]; simpl.
  - lia.
  - rewrite IH. lia.
Qed.

Lemma ravel_lt (sh idx : list nat) :
  in_bounds sh idx -> ravel sh idx < numel sh.
Proof.
  unfold in_bounds. intros H. induction H as [|i d idx sh Hid _ IH]; simpl.
  - lia.
  - nia.
Qed.

Lemma unravel_ravel (sh idx : list nat) :
  in_bounds sh idx -> unravel sh (ravel sh idx) = idx.
Proof.
  unfold in_bounds. intros H. induction H as [|i d idx sh Hid Hrest IH]; simpl.
  - reflexivity.
  - pose proof (ravel_lt Hrest) as Hlt.
    assert (Hq : (i * numel sh + ravel sh idx) / numel sh = i).
    { symmetry. apply Nat.div_unique with (r := ravel sh idx); lia. }
    assert (Hr : (i * numel sh + ravel sh idx) mod numel sh = ravel sh idx).
    { symmetry. apply Nat.mod_unique with (q := i); lia. }
    rewrite Hq, Hr, IH. reflexivity.
Qed.

Lemma unravel_in_bounds (sh : list nat) (i : nat) :
  i < numel sh -> in_bounds sh (unravel sh i).
Proof.
  unfold in_bounds. revert i. induction sh as [|d sh IH]; intros i Hi; simpl.
  - constructor.
  - rewrite numel_cons in Hi.
    assert (Hpos : numel sh <> 0) by (intros E; rewrite E in Hi; lia).
    constructor.
    + apply Nat.Div0.div_lt_upper_bound. lia.
    + apply IH. apply Nat.mod_upper_bound. exact Hpos.
Qed.

Lemma ravel_unravel (sh : list nat) (i : nat) :
  i < numel sh -> ravel sh (unravel sh i) = i.
Proof.
  revert i. induction sh as [|d sh IH]; intros i Hi; simpl.
  - simpl in Hi. lia.
  - rewrite numel_cons in Hi.
    assert (Hpos : numel sh <> 0) by (intros E; rewrite E in Hi; lia).
    rewrite IH by (apply Nat.mod_upper_bound; exact Hpos).
    pose proof (Nat.div_mod_eq i (numel sh)). lia.
Qed.

Lemma in_bounds_length (sh idx : list nat) :
  in_bounds sh idx -> length idx = length sh.
Proof.
  unfold in_bounds. intros H. induction H; simpl; congruence.
Qed.

End Indexing.

Section Build.

Context {A : Type} `{Default A}.

Lemma shape_build (sh : list nat) (f : list nat -> A) : shape (build sh f) = sh.
Proof. reflexivity. Qed.

Lemma wf_build (sh : list nat) (f : list nat -> A) : wf (build sh f).
Proof. unfold wf, build; simpl. rewrite length_map, length_seq. reflexivity. Qed.

Lemma nth_tabulate (n i : nat) (g : nat -> A) (d : A) :
  i < n -> nth i (map g (seq 0 n)) d = g i.
Proof.
  intros Hi. rewrite nth_indep with (d' := g 0) by (rewrite length_map, length_seq; exact Hi).
  rewrite map_nth. rewrite seq_nth by exact Hi. reflexivity.
Qed.

Lemma item_build (sh : list nat) (f : list nat -> A) (idx : list nat) :
  in_bounds sh idx -> item (build sh f) idx = f idx.
Proof.
  intros Hb. unfold item, build; simpl.
  rewrite nth_tabulate by (apply ravel_lt; exact Hb).
  rewrite unravel_ravel by exact Hb. reflexivity.
Qed.

Lemma build_ext (sh : list nat) (f g : list nat -> A) :
  (forall idx, in_bounds sh idx -> f idx = g idx) -> build sh f = build sh g.
Proof.
  intros Hfg. unfold build. f_equal. apply map_ext_in. intros i Hi.
  apply Hfg. apply unravel_in_bounds. apply in_seq in Hi. lia.
Qed.

Lemma tabulate_nth (l : list A) (d : A) :
  map (fun i => nth i l d) (seq 0 (length l)) = l.
Proof.
  apply nth_ext with (d := d) (d' := d).
  - rewrite length_map, length_seq. reflexivity.
  - intros n Hn. rewrite length_map, length_seq in Hn.
    rewrite nth_tabulate by exact Hn. reflexivity.
Qed.

(** Rebuilding a well-formed tensor from its items gives it back. *)
Lemma build_item (t : tensor A) : wf t -> build (shape t) (item t) = t.
Proof.
  intros Hwf. destruct t as [sh d]. unfold wf in Hwf; simpl in Hwf.
  unfold build, item; simpl. f_equal.
  rewrite <- Hwf.
  rewrite <- (tabulate_nth d default) at 2.
  apply map_ext_in. intros i Hi. apply in_seq in Hi.
  rewrite ravel_unravel by lia. reflexivity.
Qed.

End Build.

(* ===================================================================== *)
(** * Shapes computed by the operators *)
(* ===================================================================== *)

Section Shapes.

Lemma numel_squeeze (sh : list nat) :
  numel (filter (fun d => negb (d =? 1)) sh) = numel sh.
Proof.
  induction sh as [|d sh IH]; simpl.
  - reflexivity.
  - destruct (Nat.eqb_spec d 1); simpl; rewrite IH; lia.
Qed.

Lemma broadcast_dim_refl (a : nat) : broadcast_dim a a = Some a.
Proof. unfold broadcast_dim. rewrite Nat.eqb_refl. reflexivity. Qed.

Lemma broadcast_dim_1_r (a : nat) : broadcast_dim a 1 = Some a.
Proof.
  unfold broadcast_dim. destruct (Nat.eqb_spec a 1); [subst; reflexivity|]. reflexivity.
Qed.

Lemma broadcast_dim_1_l (a : nat) : broadcast_dim 1 a = Some a.
Proof.
  unfold broadcast_dim. destruct (Nat.eqb_spec 1 a); [subst; reflexivity|]. reflexivity.
Qed.

Lemma broadcast_dim_None (a b : nat) :
  a <> b -> a <> 1 -> b <> 1 -> broadcast_dim a b = None.
Proof.
  intros Hab Ha Hb. unfold broadcast_dim.
  destruct (Nat.eqb_spec a b); [contradiction|].
  destruct (Nat.eqb_spec a 1); [contradiction|].
  destruct (Nat.eqb_spec b 1); [contradiction|]. reflexivity.
Qed.

Lemma broadcast_shapes_refl (a : list nat) : broadcast_shapes a a = Some a.
Proof.
  unfold broadcast_shapes.
  assert (E : forall l, broadcast_rev l l = Some l).
  { induction l as [|x l IH]; simpl; [reflexivity|].
    rewrite broadcast_dim_refl, IH. reflexivity. }
  rewrite E. simpl. rewrite rev_involutive. reflexivity.
Qed.

Lemma expandable_refl (a : list nat) : expandable a a = true.
Proof.
  unfold expandable. induction (rev a) as [|x l IH]; simpl; [reflexivity|].
  rewrite Nat.eqb_refl, IH. reflexivity.
Qed.

End Shapes.

Section Operators.

Lemma linear_ok (l : Linear) (x : tensor R) (pre : list nat) :
  shape x = pre ++ [in_features l] ->
  exists y, linear l x = Ok y /\ shape y = pre ++ [out_features l] /\ wf y.
Proof.
  intros Hx. unfold linear. rewrite Hx, rev_app_distr. simpl.
  rewrite Nat.eqb_refl, rev_involutive.
  eexists. split; [reflexivity|]. split; [reflexivity | apply wf_build].
Qed.

Lemma linear_inv (l : Linear) (x y : tensor R) :
  linear l x = Ok y ->
  exists pre, shape x = pre ++ [in_features l] /\ shape y = pre ++ [out_features l] /\ wf y.
Proof.
  unfold linear. intros H.
  destruct (rev (shape x)) as [|d pre] eqn:E; [discriminate|].
  destruct (Nat.eqb_spec d (in_features l)) as [->|]; [|discriminate].
  inversion H; subst; clear H.
  exists (rev pre). split; [|split; [reflexivity | apply wf_build]].
  rewrite <- (rev_involutive (shape x)), E. reflexivity.
Qed.

Lemma plainToTorch_decrypt_shape (c : CKKSTensor) :
  shape (plainToTorch (decrypt c)) = shape (encrypted c).
Proof. reflexivity. Qed.

Lemma plainToTorch_decrypt (t : tensor R) :
  wf t -> plainToTorch (decrypt (ckks_tensor t)) = t.
Proof.
  intros H. destruct t as [sh d]. unfold wf in H; simpl in H.
  unfold plainToTorch, decrypt, ckks_tensor; simpl.
  rewrite <- H, firstn_all. reflexivity.
Qed.

Lemma bridge_ok (l : Linear) (c : CKKSTensor) (pre : list nat) :
  shape (encrypted c) = pre ++ [in_features l] ->
  exists y, encryptedLinearTransform l c = Ok (Enc y) /\
            shape y = pre ++ [out_features l] /\ wf y.
Proof.
  intros Hc. unfold encryptedLinearTransform.
  destruct (@linear_ok l (plainToTorch (decrypt c)) pre Hc) as (y & Hy & Hs & Hw).
  rewrite Hy. simpl. exists y. auto.
Qed.

Lemma bridge_inv (l : Linear) (c c' : CKKSTensor) :
  encryptedLinearTransform l c = Ok c' ->
  exists pre, shape (encrypted c) = pre ++ [in_features l] /\
              shape (encrypted c') = pre ++ [out_features l] /\ wf (encrypted c').
Proof.
  unfold encryptedLinearTransform. intros H.
  destruct (linear l (plainToTorch (decrypt c))) as [y|e] eqn:E; simpl in H; [|discriminate].
  inversion H; subst; clear H.
  apply linear_inv in E. exact E.
Qed.

Lemma ckks_reshape_ok (sh : list nat) (c : CKKSTensor) :
  numel sh = numel (shape (encrypted c)) ->
  ckks_reshape sh c = Ok (Enc (Tensor sh (data (encrypted c)))).
Proof.
  intros H. unfold ckks_reshape. rewrite H, Nat.eqb_refl. reflexivity.
Qed.

Lemma ckks_reshape_err (sh : list nat) (c : CKKSTensor) :
  numel sh <> numel (shape (encrypted c)) ->
  ckks_reshape sh c = Err ValueError.
Proof.
  intros H. unfold ckks_reshape.
  destruct (Nat.eqb_spec (numel sh) (numel (shape (encrypted c)))); [contradiction|reflexivity].
Qed.

Lemma getitem_ok {A} `{Default A} (ss : list slice) (t : tensor A) :
  length ss <= length (shape t) ->
  getitem ss t = Ok (build (slice_shape ss (shape t))
                           (fun idx => item t (slice_to_base ss (shape t) idx))).
Proof.
  intros Hl. unfold getitem.
  destruct (Nat.ltb_spec (length (shape t)) (length ss)); [lia|reflexivity].
Qed.

End Operators.

Section MoreOperators.

Lemma view_infer_ok {A} (pre : list nat) (t : tensor A) (m : nat) :
  numel pre <> 0 -> numel (shape t) = numel pre * m ->
  view_infer pre t = Ok (Tensor (pre ++ [m]) (data t)).
Proof.
  intros Hk Hn. unfold view_infer. rewrite Hn.
  destruct (Nat.eqb_spec (numel pre) 0); [contradiction|].
  rewrite Nat.mul_comm, Nat.Div0.mod_mul, Nat.div_mul by exact Hk.
  reflexivity.
Qed.

Lemma cat_last_ok {A} `{Default A} (a b : tensor A) (pre : list nat) (la lb : nat) :
  shape a = pre ++ [la] -> shape b = pre ++ [lb] ->
  exists y, cat_last a b = Ok y /\ shape y = pre ++ [la + lb] /\ wf y.
Proof.
  intros Ha Hb. unfold cat_last. rewrite Ha, Hb, !rev_app_distr. simpl.
  destruct (list_eq_dec Nat.eq_dec (rev pre) (rev pre)) as [_|C]; [|contradiction].
  rewrite rev_involutive.
  eexists. split; [reflexivity|]. split; [reflexivity | apply wf_build].
Qed.

Lemma transpose_ok {A} `{Default A} (i j : nat) (t : tensor A) :
  i < length (shape t) -> j < length (shape t) ->
  transpose i j t = Ok (build (swap_nth i j (shape t)) (fun idx => item t (swap_nth i j idx))).
Proof.
  intros Hi Hj. unfold transpose.
  destruct (Nat.ltb_spec i (length (shape t))); [|lia].
  destruct (Nat.ltb_spec j (length (shape t))); [|lia].
  reflexivity.
Qed.

Lemma split_matrix_app (b : list nat) (r c : nat) :
  split_matrix (b ++ [r; c]) = Some (b, r, c).
Proof.
  unfold split_matrix. rewrite rev_app_distr. simpl. rewrite rev_involutive. reflexivity.
Qed.

Lemma matmul_ok (a b : tensor R) (ba bb batch : list nat) (n k m : nat) :
  shape a = ba ++ [n; k] -> shape b = bb ++ [k; m] ->
  broadcast_shapes ba bb = Some batch ->
  exists y, matmul a b = Ok y /\ shape y = batch ++ [n; m] /\ wf y.
Proof.
  intros Ha Hb Hbc. unfold matmul.
  rewrite Ha, Hb, !split_matrix_app, Hbc, Nat.eqb_refl.
  eexists. split; [reflexivity|]. split; [reflexivity | apply wf_build].
Qed.

Lemma binop_ok {A B C} `{Default A} `{Default B} (f : A -> B -> C)
    (a : tensor A) (b : tensor B) (sh : list nat) :
  broadcast_shapes (shape a) (shape b) = Some sh ->
  exists y, binop f a b = Ok y /\ shape y = sh /\ wf y.
Proof.
  intros Hbc. unfold binop. rewrite Hbc.
  eexists. split; [reflexivity|]. split; [reflexivity | apply wf_build].
Qed.

Lemma binop_err {A B C} `{Default A} `{Default B} (f : A -> B -> C)
    (a : tensor A) (b : tensor B) :
  broadcast_shapes (shape a) (shape b) = None ->
  binop f a b = Err RuntimeError.
Proof. intros Hbc. unfold binop. rewrite Hbc. reflexivity. Qed.

Lemma setitem_inv {A} `{Default A} (ss : list slice) (t src t' : tensor A) :
  setitem ss t src = Ok t' ->
  expandable (shape src) (slice_shape ss (shape t)) = true /\
  t' = build (shape t) (fun idx =>
         if in_slice ss (shape t) idx
         then item src (bcast_index (shape src) (base_to_slice ss (shape t) idx))
         else item t idx).
Proof.
  unfold setitem. intros Hs.
  destruct (length (shape t) <? length ss); [discriminate|].
  destruct (expandable (shape src) (slice_shape ss (shape t))); [|discriminate].
  inversion Hs. auto.
Qed.

Lemma setitem_ok {A} `{Default A} (ss : list slice) (t src : tensor A) :
  length ss <= length (shape t) ->
  expandable (shape src) (slice_shape ss (shape t)) = true ->
  setitem ss t src =
  Ok (build (shape t) (fun idx =>
        if in_slice ss (shape t) idx
        then item src (bcast_index (shape src) (base_to_slice ss (shape t) idx))
        else item t idx)).
Proof.
  intros Hl He. unfold setitem.
  destruct (Nat.ltb_spec (length (shape t)) (length ss)); [lia|].
  rewrite He. reflexivity.
Qed.

Lemma setitem_err {A} `{Default A} (ss : list slice) (t src : tensor A) :
  length ss <= length (shape t) ->
  expandable (shape src) (slice_shape ss (shape t)) = false ->
  setitem ss t src = Err RuntimeError.
Proof.
  intros Hl He. unfold setitem.
  destruct (Nat.ltb_spec (length (shape t)) (length ss)); [lia|].
  rewrite He. reflexivity.
Qed.

(** A slice assignment into an empty range leaves the tensor as it is. *)
Lemma setitem_outside {A} `{Default A} (ss : list slice) (t src t' : tensor A) :
  wf t ->
  (forall idx, in_bounds (shape t) idx -> in_slice ss (shape t) idx = false) ->
  setitem ss t src = Ok t' -> t' = t.
Proof.
  intros Hwf Hout Hs. apply setitem_inv in Hs. destruct Hs as [_ ->].
  rewrite <- (build_item Hwf) at 2.
  apply build_ext. intros idx Hb. rewrite Hout by exact Hb. reflexivity.
Qed.

Lemma mean_last_ok (t : tensor R) (pre : list nat) (d : nat) :
  shape t = pre ++ [d] ->
  exists y, mean_last t = Ok y /\ shape y = pre ++ [1] /\ wf y.
Proof.
  intros Ht. unfold mean_last. rewrite Ht, rev_app_distr. simpl. rewrite rev_involutive.
  eexists. split; [reflexivity|]. split; [reflexivity | apply wf_build].
Qed.

Lemma embedding_ok (e : Embedding) (tokens : tensor nat) :
  Forall (fun t => t < num_embeddings e) (data tokens) ->
  exists y, embedding e tokens = Ok y /\ shape y = shape tokens ++ [embedding_dim e] /\ wf y.
Proof.
  intros Hf. unfold embedding.
  assert (E : forallb (fun t => t <? num_embeddings e) (data tokens) = true).
  { apply forallb_forall. intros x Hx. rewrite Forall_forall in Hf.
    apply Nat.ltb_lt. apply Hf. exact Hx. }
  rewrite E. eexists. split; [reflexivity|]. split; [reflexivity | apply wf_build].
Qed.

Lemma select_last1_ok {A} `{Default A} (t : tensor A) (b s d : nat) :
  shape t = [b; s; d] -> s <> 0 ->
  select_last1 t = Ok (build [b; d] (fun idx => item t [nth 0 idx 0; s - 1; nth 1 idx 0])).
Proof.
  intros Ht Hs. unfold select_last1. rewrite Ht.
  destruct (Nat.eqb_spec s 0); [contradiction|reflexivity].
Qed.

End MoreOperators.

(* ===================================================================== *)
(** * Shapes through model.py *)
(* ===================================================================== *)

Section Rotary.

Lemma slice_len_All (d : nat) : slice_len All d = d.
Proof. unfold slice_len; simpl. apply Nat.sub_0_r. Qed.

Lemma slice_len_Range (lo hi d : nat) :
  slice_len (Range lo hi) d = Nat.min hi d - Nat.min lo d.
Proof. reflexivity. Qed.

Lemma rotary_factor_ok (seqlen half : nat) (a b : tensor R) :
  1 <= seqlen ->
  shape a = [seqlen; half; 1] -> shape b = [seqlen; half; 1] ->
  exists y, rotary_factor seqlen a b = Ok y /\ shape y = [seqlen; 1; 2 * half].
Proof.
  intros Hs Ha Hb. unfold rotary_factor.
  destruct (@cat_last_ok _ _ a b [seqlen; half] 1 1 Ha Hb) as (c & -> & Hc & _).
  simpl. unfold flatten1. rewrite Hc. simpl.
  rewrite view_infer_ok with (m := 2 * half).
  - eexists. split; reflexivity.
  - simpl. lia.
  - simpl. lia.
Qed.

Lemma expandable_factor (s h d : nat) : expandable [s; 1; d] [s; h; d] = true.
Proof.
  unfold expandable. simpl. rewrite !Nat.eqb_refl. simpl.
  rewrite orb_true_r. reflexivity.
Qed.

Lemma rotate_ok (x : CKKSTensor) (h half seqlen : nat) (l r : tensor R) :
  shape (encrypted x) = [seqlen; h; 2 * half] ->
  shape l = [seqlen; 1; 2 * half] -> shape r = [seqlen; 1; 2 * half] ->
  exists y, rotate x h (2 * half) seqlen l r = Ok (Enc y) /\
            shape y = [seqlen; h; 2 * half] /\ wf y.
Proof.
  intros Hx Hl Hr. unfold rotate.
  assert (Hhalf : 2 * half / 2 = half) by (rewrite Nat.mul_comm; apply Nat.div_mul; lia).
  rewrite Hhalf.
  rewrite ckks_reshape_ok by (rewrite Hx; simpl; lia).
  cbn [bind]. unfold ckks_getitem. rewrite getitem_ok by (simpl; lia).
  cbn [bind encrypted shape slice_shape slice_len slice_stop slice_start].
  rewrite ckks_reshape_ok
    by (cbn [encrypted shape build]; simpl; rewrite !slice_len_All; lia).
  cbn [bind]. unfold ckks_mul_plain. rewrite Hx, Hl, Hr.
  cbn [encrypted shape].
  rewrite !expandable_factor. cbn [bind].
  unfold ckks_add. cbn [encrypted shape build]. rewrite expandable_refl.
  eexists. split; [reflexivity|]. split; [reflexivity | apply wf_build].
Qed.

Lemma rotate_inv (x y : CKKSTensor) (h d seqlen : nat) (l r : tensor R) :
  rotate x h d seqlen l r = Ok y ->
  shape (encrypted y) = shape (encrypted x) /\ wf (encrypted y).
Proof.
  unfold rotate. intros H.
  destruct (ckks_reshape [seqlen; h; d / 2; 2] x) as [p|]; simpl in H; [|discriminate].
  destruct (ckks_getitem [All; All; All; Range 0 2] p) as [q|]; simpl in H; [|discriminate].
  destruct (ckks_reshape [seqlen; h; d] q) as [x_|]; simpl in H; [|discriminate].
  unfold ckks_mul_plain in H.
  destruct (expandable (shape l) (shape (encrypted x))); simpl in H; [|discriminate].
  destruct (expandable (shape r) (shape (encrypted x_))); simpl in H; [|discriminate].
  unfold ckks_add in H. simpl in H.
  destruct (expandable (shape (encrypted x_)) (shape (encrypted x))); [|discriminate].
  inversion H. simpl. split; [reflexivity | apply wf_build].
Qed.

Lemma apply_rotary_emb_ok (xq xk : CKKSTensor) (h half seqlen : nat) (fc : tensor complex) :
  1 <= seqlen ->
  shape (encrypted xq) = [seqlen; h; 2 * half] ->
  shape (encrypted xk) = [seqlen; h; 2 * half] ->
  shape fc = [seqlen; half] ->
  exists q k, apply_rotary_emb xq xk h (2 * half) seqlen fc = Ok (Enc q, Enc k) /\
              shape q = [seqlen; h; 2 * half] /\ wf q /\
              shape k = [seqlen; h; 2 * half] /\ wf k.
Proof.
  intros Hs Hq Hk Hfc. unfold apply_rotary_emb.
  rewrite !getitem_ok by (simpl; rewrite Hfc; simpl; lia).
  cbn [bind view_as_real shape]. rewrite Hfc.
  cbn [app slice_shape]. rewrite !slice_len_All, !slice_len_Range. simpl Nat.min. simpl Nat.sub.
  set (ll := build _ _). set (rr := build _ _).
  destruct (@rotary_factor_ok seqlen half ll ll Hs eq_refl eq_refl) as (l & -> & Hl).
  destruct (@rotary_factor_ok seqlen half (neg rr) rr Hs eq_refl eq_refl) as (r & -> & Hr).
  cbn [bind].
  destruct (@rotate_ok xq h half seqlen l r Hq Hl Hr) as (q & -> & Hqs & Hqw).
  destruct (@rotate_ok xk h half seqlen l r Hk Hl Hr) as (k & -> & Hks & Hkw).
  cbn [bind]. exists q, k. auto.
Qed.

Lemma apply_rotary_emb_inv (xq xk q k : CKKSTensor) (h d seqlen : nat) (fc : tensor complex) :
  apply_rotary_emb xq xk h d seqlen fc = Ok (q, k) ->
  (shape (encrypted q) = shape (encrypted xq) /\ wf (encrypted q)) /\
  (shape (encrypted k) = shape (encrypted xk) /\ wf (encrypted k)).
Proof.
  unfold apply_rotary_emb. intros H.
  destruct (getitem [All; All; Range 0 1] (view_as_real fc)) as [ll|]; simpl in H; [|discriminate].
  destruct (rotary_factor seqlen ll ll) as [l|]; simpl in H; [|discriminate].
  destruct (getitem [All; All; Range 1 2] (view_as_real fc)) as [rr|]; simpl in H; [|discriminate].
  destruct (rotary_factor seqlen (neg rr) rr) as [r|]; simpl in H; [|discriminate].
  destruct (rotate xq h d seqlen l r) as [q'|] eqn:Eq; simpl in H; [|discriminate].
  destruct (rotate xk h d seqlen l r) as [k'|] eqn:Ek; simpl in H; [|discriminate].
  inversion H; subst. split; eapply rotate_inv; eassumption.
Qed.

End Rotary.

Section Project.

Variable args : ModelArgs.
Variable a : Attention.
Hypothesis Hwf : Attention_wf args a.

Lemma even_double (n : nat) : Nat.even n = true -> n = 2 * (n / 2).
Proof.
  intros He. apply Nat.even_spec in He. destruct He as [k ->].
  rewrite Nat.mul_comm, Nat.div_mul by lia. lia.
Qed.

Lemma config_dim (Hc : config_ok args) : 2 <= dim args.
Proof.
  destruct Hc as [Hh _ Hd _].
  pose proof (Nat.Div0.mul_div_le (dim args) (n_heads args)). nia.
Qed.

Lemma squeeze_single (Hc : config_ok args) (x : tensor R) (s : nat) :
  shape x = [1; s; dim args] ->
  exists pre, shape (squeeze x) = pre ++ [dim args] /\ numel pre = s.
Proof.
  intros Hx. pose proof (@config_dim Hc) as Hd.
  unfold squeeze; simpl. rewrite Hx. simpl.
  destruct (Nat.eqb_spec (dim args) 1); [lia|].
  destruct (Nat.eqb_spec s 1); simpl.
  - exists []. simpl. auto.
  - exists [s]. simpl. split; [reflexivity | lia].
Qed.

Lemma Attention_project_ok (Hc : config_ok args) (x : tensor R) (s : nat)
    (fc : tensor complex) :
  shape x = [1; s; dim args] -> 1 <= s ->
  shape fc = [s; dim args / n_heads args / 2] ->
  exists q k v,
    Attention_project a x s fc = Ok (q, k, v) /\
    shape q = [s; n_heads args; dim args / n_heads args] /\
    shape k = [s; n_heads args; dim args / n_heads args] /\
    shape v = [s; n_heads args; dim args / n_heads args].
Proof.
  intros Hx Hs Hfc. unfold Attention_project.
  destruct (@squeeze_single Hc x s Hx) as (pre & Hsq & Hpre).
  pose proof (@even_double _ (head_dim_even Hc)) as He.
  destruct Hwf as [Hh Hhd Hqi Hqo Hki Hko Hvi Hvo _ _ _ _ _ _].
  remember (n_heads args) as H eqn:EH.
  remember (dim args / H) as D eqn:ED.
  remember (D / 2) as half eqn:Ehalf. clear Ehalf ED EH.
  destruct (@bridge_ok (wq a) (ckks_tensor (squeeze x)) pre) as (yq & -> & Hyq & _);
    [rewrite Hqi; exact Hsq|].
  destruct (@bridge_ok (wk a) (ckks_tensor (squeeze x)) pre) as (yk & -> & Hyk & _);
    [rewrite Hki; exact Hsq|].
  destruct (@bridge_ok (wv a) (ckks_tensor (squeeze x)) pre) as (yv & -> & Hyv & _);
    [rewrite Hvi; exact Hsq|].
  cbn [bind].
  assert (Hn : forall y o, shape y = pre ++ [o] -> o = H * D ->
               numel [s; n_local_heads a; head_dim a] = numel (shape (encrypted (Enc y)))).
  { intros y o Hy ->. cbn [encrypted]. rewrite Hy, numel_app, Hpre, Hh, Hhd.
    cbn [numel fold_right]. ring. }
  rewrite !ckks_reshape_ok by (eapply Hn; eassumption).
  cbn [bind encrypted data].
  rewrite Hh, Hhd. subst D.
  destruct (@apply_rotary_emb_ok (Enc (Tensor [s; H; 2 * half] (data yq)))
              (Enc (Tensor [s; H; 2 * half] (data yk))) H half s fc Hs eq_refl eq_refl Hfc)
    as (q & k & -> & Hq & _ & Hk & _).
  cbn [bind]. do 3 eexists. split; [reflexivity|].
  rewrite !plainToTorch_decrypt_shape. cbn [encrypted shape].
  rewrite Hq, Hk. auto.
Qed.

Lemma Attention_project_inv (x : tensor R) (s : nat) (fc : tensor complex)
    (q k v : tensor R) :
  Attention_project a x s fc = Ok (q, k, v) ->
  shape q = [s; n_heads args; dim args / n_heads args] /\
  shape k = [s; n_heads args; dim args / n_heads args] /\
  shape v = [s; n_heads args; dim args / n_heads args].
Proof.
  unfold Attention_project. intros Hp.
  destruct Hwf as [Hh Hhd _ _ _ _ _ _ _ _ _ _ _ _].
  destruct (encryptedLinearTransform (wq a) _) as [yq|]; cbn [bind] in Hp; [|discriminate].
  destruct (encryptedLinearTransform (wk a) _) as [yk|]; cbn [bind] in Hp; [|discriminate].
  destruct (encryptedLinearTransform (wv a) _) as [yv|]; cbn [bind] in Hp; [|discriminate].
  unfold ckks_reshape in Hp.
  destruct (numel _ =? numel (shape (encrypted yq))); cbn [bind] in Hp; [|discriminate].
  destruct (numel _ =? numel (shape (encrypted yk))); cbn [bind] in Hp; [|discriminate].
  destruct (numel _ =? numel (shape (encrypted yv))); cbn [bind] in Hp; [|discriminate].
  destruct (apply_rotary_emb _ _ _ _ _ _) as [[q' k']|] eqn:Er; cbn [bind] in Hp; [|discriminate].
  apply apply_rotary_emb_inv in Er. destruct Er as [[Hq _] [Hk _]].
  inversion Hp; subst; clear Hp.
  rewrite !plainToTorch_decrypt_shape, Hq, Hk. cbn [encrypted shape].
  rewrite Hh, Hhd. auto.
Qed.

End Project.

Section Cache.

Lemma expandable_cache (s h d b l : nat) :
  expandable [s; h; d] [b; l; h; d] = (s =? l) || (s =? 1).
Proof.
  unfold expandable. simpl. rewrite !Nat.eqb_refl. simpl.
  rewrite andb_true_r. reflexivity.
Qed.

(** The shape of the slice [[:bsz, start_pos : start_pos + seqlen]] of a cache. *)
Lemma cache_slice_shape (bsz sp s b cap h d : nat) :
  slice_shape [Range 0 bsz; Range sp (sp + s)] [b; cap; h; d] =
  [Nat.min bsz b; Nat.min (sp + s) cap - Nat.min sp cap; h; d].
Proof.
  cbn [slice_shape]. rewrite !slice_len_Range. rewrite Nat.min_0_l, Nat.sub_0_r. reflexivity.
Qed.

Lemma cache_prefix_shape (bsz n b cap h d : nat) :
  slice_shape [Range 0 bsz; Range 0 n] [b; cap; h; d] =
  [Nat.min bsz b; Nat.min n cap; h; d].
Proof.
  cbn [slice_shape]. rewrite !slice_len_Range. rewrite !Nat.min_0_l, !Nat.sub_0_r. reflexivity.
Qed.

Variable args : ModelArgs.

Lemma set_cache_k_wf (a : Attention) (c : tensor R) :
  Attention_wf args a -> shape c = shape (cache_k a) -> wf c ->
  Attention_wf args (set_cache_k a c).
Proof.
  intros [] Hs Hw. constructor; cbn [set_cache_k n_local_heads head_dim wq wk wv wo cache_k cache_v];
    try assumption. congruence.
Qed.

Lemma set_cache_v_wf (a : Attention) (c : tensor R) :
  Attention_wf args a -> shape c = shape (cache_v a) -> wf c ->
  Attention_wf args (set_cache_v a c).
Proof.
  intros [] Hs Hw. constructor; cbn [set_cache_v n_local_heads head_dim wq wk wv wo cache_k cache_v];
    try assumption. congruence.
Qed.

(** Whatever the slice assignments do, the cache keeps its shape. *)
Lemma Attention_write_cache_wf (a : Attention) (bsz sp s : nat) (k v : tensor R) :
  Attention_wf args a ->
  Attention_wf args (snd (Attention_write_cache bsz sp s k v a)).
Proof.
  intros Hwf. unfold Attention_write_cache.
  destruct (setitem _ (cache_k a) k) as [ck|] eqn:Ek; [|exact Hwf].
  apply setitem_inv in Ek. destruct Ek as [_ ->].
  match goal with |- context [set_cache_k a ?c] => set (ck := c) end.
  assert (Hwf1 : Attention_wf args (set_cache_k a ck))
    by (apply set_cache_k_wf; [exact Hwf | reflexivity | apply wf_build]).
  destruct (setitem _ (cache_v (set_cache_k a ck)) v) as [cv|] eqn:Ev; [|exact Hwf1].
  apply setitem_inv in Ev. destruct Ev as [_ ->].
  apply set_cache_v_wf; [exact Hwf1 | reflexivity | apply wf_build].
Qed.

Lemma Attention_write_cache_ok (a : Attention) (bsz sp s : nat) (k v : tensor R) :
  Attention_wf args a ->
  shape k = [s; n_heads args; dim args / n_heads args] ->
  shape v = [s; n_heads args; dim args / n_heads args] ->
  s = 1 \/ sp + s <= max_seq_len args ->
  exists ck cv,
    setitem [Range 0 bsz; Range sp (sp + s)] (cache_k a) k = Ok ck /\
    setitem [Range 0 bsz; Range sp (sp + s)] (cache_v a) v = Ok cv /\
    Attention_write_cache bsz sp s k v a = (Ok tt, set_cache_v (set_cache_k a ck) cv).
Proof.
  intros Hwf Hk Hv Hcap.
  assert (He : forall b,
    expandable [s; n_heads args; dim args / n_heads args]
      (slice_shape [Range 0 bsz; Range sp (sp + s)]
         [b; max_seq_len args; n_heads args; dim args / n_heads args]) = true).
  { intros b. rewrite cache_slice_shape, expandable_cache.
    destruct Hcap as [-> | Hcap]; [apply orb_true_r|].
    apply orb_true_iff. left. apply Nat.eqb_eq. lia. }
  unfold Attention_write_cache.
  rewrite (@setitem_ok _ _ _ (cache_k a) k)
    by (rewrite ?Hk, (wf_cache_k_shape Hwf); first [apply He | simpl; lia]).
  cbn [set_cache_k cache_v].
  rewrite (@setitem_ok _ _ _ (cache_v a) v)
    by (rewrite ?Hv, (wf_cache_v_shape Hwf); first [apply He | simpl; lia]).
  do 2 eexists. split; [reflexivity|]. split; reflexivity.
Qed.

End Cache.

Section Attend.

Variable args : ModelArgs.
Variable a : Attention.
Hypothesis Hwf : Attention_wf args a.

Lemma Attention_read_cache_ok (bsz sp s : nat) :
  exists keys values,
    Attention_read_cache a bsz sp s = Ok (keys, values) /\
    keys = build [Nat.min bsz (max_batch_size args); Nat.min (sp + s) (max_seq_len args);
                  n_heads args; dim args / n_heads args]
             (fun idx => item (cache_k a)
                (slice_to_base [Range 0 bsz; Range 0 (sp + s)] (shape (cache_k a)) idx)) /\
    values = build [Nat.min bsz (max_batch_size args); Nat.min (sp + s) (max_seq_len args);
                    n_heads args; dim args / n_heads args]
             (fun idx => item (cache_v a)
                (slice_to_base [Range 0 bsz; Range 0 (sp + s)] (shape (cache_v a)) idx)).
Proof.
  unfold Attention_read_cache.
  rewrite !getitem_ok by (rewrite ?(wf_cache_k_shape Hwf), ?(wf_cache_v_shape Hwf); simpl; lia).
  cbn [bind]. do 2 eexists. split; [reflexivity|].
  rewrite (wf_cache_k_shape Hwf), (wf_cache_v_shape Hwf), !cache_prefix_shape.
  split; reflexivity.
Qed.

Lemma broadcast_heads (b h : nat) : broadcast_shapes [h] [b; h] = Some [b; h].
Proof.
  unfold broadcast_shapes. cbn [rev app broadcast_rev].
  rewrite broadcast_dim_refl. reflexivity.
Qed.

(** Lines 200-203: the scores before the mask have shape
    (batch, heads, seqlen, cached length). *)
Lemma Attention_scores_raw (q keys values : tensor R) (s b t : nat) :
  shape q = [s; n_heads args; dim args / n_heads args] ->
  shape keys = [b; t; n_heads args; dim args / n_heads args] ->
  shape values = [b; t; n_heads args; dim args / n_heads args] ->
  exists raw vt,
    shape raw = [b; n_heads args; s; t] /\
    shape vt = [b; n_heads args; t; dim args / n_heads args] /\
    forall mask,
      Attention_scores a q keys values mask =
      match mask with
      | Some m => sc <- binop xadd raw m ;; Ok (sc, vt)
      | None => Ok (raw, vt)
      end.
Proof.
  intros Hq Hk Hv. unfold Attention_scores.
  rewrite !transpose_ok by (rewrite ?Hq, ?Hk, ?Hv; simpl; lia).
  cbn [bind]. rewrite transpose_ok by (cbn [shape build]; rewrite Hk; simpl; lia).
  cbn [bind].
  match goal with |- context [matmul ?x ?y] =>
    destruct (@matmul_ok x y [n_heads args] [b; n_heads args] [b; n_heads args]
                s (dim args / n_heads args) t) as (m & -> & Hm & _)
  end.
  - cbn [shape build]. rewrite Hq. reflexivity.
  - cbn [shape build]. rewrite Hk. reflexivity.
  - apply broadcast_heads.
  - cbn [bind]. do 2 eexists. split; [|split]; cycle 2.
    + intros [mask|]; reflexivity.
    + exact Hm.
    + cbn [shape build]. rewrite Hv. reflexivity.
Qed.

Lemma Attention_combine_ok (sc : tensor xreal) (values : tensor R) (bsz s t : nat) :
  1 <= bsz -> 1 <= s ->
  shape sc = [bsz; n_heads args; s; t] ->
  shape values = [bsz; n_heads args; t; dim args / n_heads args] ->
  exists y, Attention_combine a bsz s sc values = Ok y /\ shape y = [bsz; s; dim args].
Proof.
  intros Hb Hs Hsc Hv. unfold Attention_combine.
  match goal with |- context [matmul ?x ?y] =>
    destruct (@matmul_ok x y [bsz; n_heads args] [bsz; n_heads args] [bsz; n_heads args]
                s t (dim args / n_heads args)) as (m & -> & Hm & _)
  end.
  - unfold softmax. cbn [shape build]. rewrite Hsc. reflexivity.
  - rewrite Hv. reflexivity.
  - apply broadcast_shapes_refl.
  - cbn [bind]. rewrite transpose_ok by (rewrite Hm; simpl; lia).
    cbn [bind].
    rewrite view_infer_ok with (m := n_heads args * (dim args / n_heads args)).
    + cbn [bind].
      destruct (@linear_ok (wo a) (Tensor ([bsz; s] ++ [n_heads args * (dim args / n_heads args)])
                  (data (build (swap_nth 1 2 (shape m)) (fun idx => item m (swap_nth 1 2 idx)))))
                  [bsz; s]) as (y & Hy & Hys & _).
      * cbn [shape]. rewrite (wf_wo_in Hwf). reflexivity.
      * exists y. split; [exact Hy|]. rewrite Hys, (wf_wo_out Hwf). reflexivity.
    + simpl. nia.
    + cbn [shape build]. rewrite Hm. simpl. ring.
Qed.

End Attend.

Section Forward.

Variable args : ModelArgs.

Lemma causal_mask_shape (s sp : nat) (m : tensor xreal) :
  causal_mask s sp = Some m -> shape m = [1; 1; s; s] /\ 1 < s.
Proof.
  unfold causal_mask. destruct (Nat.ltb_spec 1 s); [|discriminate].
  intros E. inversion E. split; [reflexivity | assumption].
Qed.

Lemma causal_mask_fits (s h : nat) : mask_fits (causal_mask s 0) [1; h; s; s].
Proof.
  unfold mask_fits. destruct (causal_mask s 0) as [m|] eqn:E; [|exact I].
  apply causal_mask_shape in E. destruct E as [-> _].
  unfold broadcast_shapes. cbn [rev app broadcast_rev].
  rewrite !broadcast_dim_refl, broadcast_dim_1_r. reflexivity.
Qed.

Lemma causal_mask_single (sp : nat) : causal_mask 1 sp = None.
Proof. reflexivity. Qed.

(** A single-example step that fits the cache (or has one position) and
    whose mask fits the scores goes through; the state afterwards holds the
    two updated caches. *)
Lemma Attention_forward_ok (a : Attention) (x : tensor R) (sp s : nat)
    (fc : tensor complex) (mask : option (tensor xreal)) :
  Attention_wf args a -> config_ok args ->
  shape x = [1; s; dim args] -> 1 <= s ->
  shape fc = [s; dim args / n_heads args / 2] ->
  s = 1 \/ sp + s <= max_seq_len args ->
  mask_fits mask [1; n_heads args; s; Nat.min (sp + s) (max_seq_len args)] ->
  exists q k v ck cv y,
    Attention_project a x s fc = Ok (q, k, v) /\
    setitem [Range 0 1; Range sp (sp + s)] (cache_k a) k = Ok ck /\
    setitem [Range 0 1; Range sp (sp + s)] (cache_v a) v = Ok cv /\
    Attention_forward x sp fc mask a = (Ok y, set_cache_v (set_cache_k a ck) cv) /\
    shape y = [1; s; dim args] /\
    Attention_wf args (set_cache_v (set_cache_k a ck) cv).
Proof.
  intros Hwf Hc Hx Hs Hfc Hcap Hmask.
  destruct (@Attention_project_ok args a Hwf Hc x s fc Hx Hs Hfc)
    as (q & k & v & Hp & Hq & Hk & Hv).
  destruct (@Attention_write_cache_ok args a 1 sp s k v Hwf Hk Hv Hcap)
    as (ck & cv & Hck & Hcv & Hw).
  exists q, k, v, ck, cv.
  pose proof (@Attention_write_cache_wf args a 1 sp s k v Hwf) as Hwf'.
  rewrite Hw in Hwf'. cbn [snd] in Hwf'.
  set (a' := set_cache_v (set_cache_k a ck) cv) in *.
  destruct (@Attention_read_cache_ok args a' Hwf' 1 sp s) as (keys & values & Hr & Hkeys & Hvalues).
  assert (Hb : Nat.min 1 (max_batch_size args) = 1) by (pose proof (batch_pos Hc); lia).
  rewrite Hb in Hkeys, Hvalues.
  assert (Hks : shape keys = [1; Nat.min (sp + s) (max_seq_len args); n_heads args;
                              dim args / n_heads args]) by (rewrite Hkeys; reflexivity).
  assert (Hvs : shape values = [1; Nat.min (sp + s) (max_seq_len args); n_heads args;
                                dim args / n_heads args]) by (rewrite Hvalues; reflexivity).
  destruct (@Attention_scores_raw args a' q keys values s 1 _ Hq Hks Hvs)
    as (raw & vt & Hraw & Hvt & Hsc).
  assert (Hsc' : exists sc, Attention_scores a' q keys values mask = Ok (sc, vt) /\
                            shape sc = [1; n_heads args; s; Nat.min (sp + s) (max_seq_len args)]).
  { rewrite Hsc. destruct mask as [m|].
    - unfold mask_fits in Hmask. rewrite <- Hraw in Hmask at 1.
      destruct (binop_ok xadd raw m Hmask) as (sc & -> & Hs1 & _).
      exists sc. auto.
    - exists raw. auto. }
  destruct Hsc' as (sc & Hsc1 & Hsc2).
  destruct (@Attention_combine_ok args a' Hwf' sc vt 1 s _ (le_n 1) Hs Hsc2 Hvt)
    as (y & Hy & Hys).
  exists y. split; [exact Hp|]. split; [exact Hck|]. split; [exact Hcv|].
  split; [|split; assumption].
  unfold Attention_forward. rewrite Hx. unfold mbind at 1. unfold mbind at 1.
  rewrite Hp. rewrite Hw. fold a'.
  rewrite Hr. cbn [bind fst snd]. rewrite Hsc1. cbn [bind fst snd]. rewrite Hy. reflexivity.
Qed.

End Forward.

Section CacheItems.

Lemma in_bounds4 (a b c d : nat) (idx : list nat) :
  in_bounds [a; b; c; d] idx ->
  exists i j k l, idx = [i; j; k; l] /\ i < a /\ j < b /\ k < c /\ l < d.
Proof.
  unfold in_bounds. intros H.
  inversion H as [|i ? r1 ? Hi H1]; subst.
  inversion H1 as [|j ? r2 ? Hj H2]; subst.
  inversion H2 as [|k ? r3 ? Hk H3]; subst.
  inversion H3 as [|l ? r4 ? Hl H4]; subst.
  inversion H4; subst.
  exists i, j, k, l. auto.
Qed.

Lemma in_bounds4_intro (a b c d i j k l : nat) :
  i < a -> j < b -> k < c -> l < d -> in_bounds [a; b; c; d] [i; j; k; l].
Proof. intros. repeat constructor; assumption. Qed.

(** Reading an operand of three axes at an index of four: the batch
    coordinate is dropped. *)
Lemma bcast_index3 (s h d b p i j : nat) :
  p < s -> i < h -> j < d ->
  bcast_index [s; h; d] [b; p; i; j] = [p; i; j].
Proof.
  intros Hp Hi Hj. unfold bcast_index. cbn [length Nat.sub skipn combine map fst snd].
  destruct (Nat.eqb_spec s 1); destruct (Nat.eqb_spec h 1); destruct (Nat.eqb_spec d 1);
    repeat f_equal; lia.
Qed.

Variables (bsz sp s nb cap nh hd : nat).
Variables (c k c' : tensor R).
Hypothesis Hc : shape c = [nb; cap; nh; hd].
Hypothesis Hk : shape k = [s; nh; hd].
Hypothesis Hset : setitem [Range 0 bsz; Range sp (sp + s)] c k = Ok c'.

Lemma cache_write_shape : shape c' = [nb; cap; nh; hd].
Proof.
  apply setitem_inv in Hset. destruct Hset as [_ ->]. exact Hc.
Qed.

Lemma cache_write_wf : wf c'.
Proof.
  apply setitem_inv in Hset. destruct Hset as [_ ->]. apply wf_build.
Qed.

(** What a cell of the cache holds after [cache[:bsz, sp:sp+s] = k]. *)
Lemma cache_write_item (b p h d : nat) :
  sp + s <= cap -> b < nb -> p < cap -> h < nh -> d < hd ->
  item c' [b; p; h; d] =
  if (b <? bsz) && (sp <=? p) && (p <? sp + s)
  then item k [p - sp; h; d]
  else item c [b; p; h; d].
Proof.
  intros Hcap Hb Hp Hh Hd.
  apply setitem_inv in Hset. destruct Hset as [_ ->].
  rewrite item_build by (rewrite Hc; apply in_bounds4_intro; assumption).
  rewrite Hc, Hk.
  cbn [in_slice base_to_slice slice_start slice_stop].
  rewrite Nat.min_0_l, Nat.sub_0_r, andb_true_r.
  replace (Nat.min sp cap) with sp by lia.
  replace (Nat.min (sp + s) cap) with (sp + s) by lia.
  cbn [Nat.leb andb].
  replace (b <? Nat.min bsz nb) with (b <? bsz)
    by (destruct (Nat.ltb_spec b bsz); destruct (Nat.ltb_spec b (Nat.min bsz nb)); lia).
  rewrite <- andb_assoc.
  destruct (b <? bsz); cbn [andb]; [|reflexivity].
  destruct (Nat.leb_spec sp p); cbn [andb]; [|reflexivity].
  destruct (Nat.ltb_spec p (sp + s)); [|reflexivity].
  rewrite bcast_index3 by lia. reflexivity.
Qed.

End CacheItems.

Section CacheReads.

Variable args : ModelArgs.

(** A cell of the prefix that is read back is the cell of the cache. *)
Lemma cache_prefix_item (c : tensor R) (bsz n nb cap nh hd b p h d : nat) :
  shape c = [nb; cap; nh; hd] ->
  b < Nat.min bsz nb -> p < Nat.min n cap -> h < nh -> d < hd ->
  item (build [Nat.min bsz nb; Nat.min n cap; nh; hd]
          (fun idx => item c (slice_to_base [Range 0 bsz; Range 0 n] (shape c) idx)))
       [b; p; h; d] =
  item c [b; p; h; d].
Proof.
  intros Hc Hb Hp Hh Hd.
  rewrite item_build by (apply in_bounds4_intro; assumption).
  rewrite Hc. cbn [slice_to_base slice_start]. rewrite !Nat.min_0_l. reflexivity.
Qed.

(** The prefix read back depends on the cells below [start_pos + seqlen]
    only. *)
Lemma Attention_read_cache_prefix (a a' : Attention) (bsz sp s : nat) :
  Attention_wf args a -> Attention_wf args a' ->
  (forall b p h d,
     b < bsz -> b < max_batch_size args ->
     p < sp + s -> p < max_seq_len args ->
     h < n_heads args -> d < dim args / n_heads args ->
     item (cache_k a) [b; p; h; d] = item (cache_k a') [b; p; h; d] /\
     item (cache_v a) [b; p; h; d] = item (cache_v a') [b; p; h; d]) ->
  Attention_read_cache a bsz sp s = Attention_read_cache a' bsz sp s.
Proof.
  intros Hwf Hwf' Hagree.
  destruct (@Attention_read_cache_ok args a Hwf bsz sp s) as (k1 & v1 & -> & -> & ->).
  destruct (@Attention_read_cache_ok args a' Hwf' bsz sp s) as (k2 & v2 & -> & -> & ->).
  rewrite (wf_cache_k_shape Hwf), (wf_cache_k_shape Hwf'),
          (wf_cache_v_shape Hwf), (wf_cache_v_shape Hwf').
  assert (E : forall idx,
    in_bounds [Nat.min bsz (max_batch_size args); Nat.min (sp + s) (max_seq_len args);
               n_heads args; dim args / n_heads args] idx ->
    exists b p h d,
      slice_to_base [Range 0 bsz; Range 0 (sp + s)]
        [max_batch_size args; max_seq_len args; n_heads args; dim args / n_heads args] idx =
      [b; p; h; d] /\
      (b < bsz /\ b < max_batch_size args) /\ (p < sp + s /\ p < max_seq_len args) /\
      h < n_heads args /\ d < dim args / n_heads args).
  { intros idx Hb. apply in_bounds4 in Hb.
    destruct Hb as (b & p & h & d & -> & Hb & Hp & Hh & Hd).
    exists b, p, h, d. cbn [slice_to_base slice_start]. rewrite !Nat.min_0_l.
    split; [reflexivity | lia]. }
  f_equal. f_equal; apply build_ext; intros idx Hb;
    destruct (E idx Hb) as (b & p & h & d & -> & [Hb1 Hb2] & [Hp1 Hp2] & Hh & Hd);
    apply (Hagree b p h d Hb1 Hb2 Hp1 Hp2 Hh Hd).
Qed.

(** A step beyond the capacity writes nothing: the slice of the cache it
    assigns to is shorter than the step, and the assignment either raises
    or copies into an empty range. *)
Lemma cache_write_overflow (c k c' : tensor R) (bsz sp s nb cap nh hd : nat) :
  shape c = [nb; cap; nh; hd] -> wf c -> shape k = [s; nh; hd] ->
  cap < sp + s ->
  setitem [Range 0 bsz; Range sp (sp + s)] c k = Ok c' ->
  c' = c.
Proof.
  intros Hc Hwfc Hk Hover Hset.
  pose proof (@setitem_inv _ _ _ _ _ _ Hset) as [He _].
  rewrite Hc, Hk, cache_slice_shape, expandable_cache in He.
  apply (@setitem_outside _ _ [Range 0 bsz; Range sp (sp + s)] c k c' Hwfc); [|exact Hset].
  intros idx Hb. rewrite Hc in Hb |- *. apply in_bounds4 in Hb.
  destruct Hb as (b & p & h & d & -> & Hb & Hp & _ & _).
  cbn [in_slice slice_start slice_stop].
  apply orb_true_iff in He.
  assert (Hempty : Nat.min (sp + s) cap <= Nat.min sp cap).
  { destruct He as [He|He]; apply Nat.eqb_eq in He; lia. }
  destruct (Nat.leb_spec (Nat.min sp cap) p); destruct (Nat.ltb_spec p (Nat.min (sp + s) cap));
    try lia; rewrite ?andb_false_r; reflexivity.
Qed.

Lemma set_cache_same (a : Attention) :
  set_cache_v (set_cache_k a (cache_k a)) (cache_v a) = a.
Proof. destruct a; reflexivity. Qed.

Lemma Attention_write_cache_overflow (a : Attention) (bsz sp s : nat) (k v : tensor R) :
  Attention_wf args a ->
  shape k = [s; n_heads args; dim args / n_heads args] ->
  shape v = [s; n_heads args; dim args / n_heads args] ->
  max_seq_len args < sp + s ->
  snd (Attention_write_cache bsz sp s k v a) = a.
Proof.
  intros Hwf Hk Hv Hover. unfold Attention_write_cache.
  destruct (setitem _ (cache_k a) k) as [ck|] eqn:Ek; [|reflexivity].
  apply (@cache_write_overflow _ _ _ _ _ _ _ _ _ _ (wf_cache_k_shape Hwf) (wf_cache_k Hwf) Hk Hover) in Ek.
  subst ck. cbn [set_cache_k cache_v].
  destruct (setitem _ (cache_v a) v) as [cv|] eqn:Ev.
  - apply (@cache_write_overflow _ _ _ _ _ _ _ _ _ _ (wf_cache_v_shape Hwf) (wf_cache_v Hwf) Hv Hover) in Ev.
    subst cv. apply set_cache_same.
  - destruct a; reflexivity.
Qed.

(** With more than one position, the assignment raises. *)
Lemma Attention_write_cache_overflow_err (a : Attention) (bsz sp s : nat) (k v : tensor R) :
  Attention_wf args a ->
  shape k = [s; n_heads args; dim args / n_heads args] ->
  max_seq_len args < sp + s -> 1 < s ->
  Attention_write_cache bsz sp s k v a = (Err RuntimeError, a).
Proof.
  intros Hwf Hk Hover Hs. unfold Attention_write_cache.
  rewrite setitem_err; [reflexivity | rewrite (wf_cache_k_shape Hwf); simpl; lia |].
  rewrite Hk, (wf_cache_k_shape Hwf), cache_slice_shape, expandable_cache.
  apply orb_false_iff. split; apply Nat.eqb_neq; lia.
Qed.

End CacheReads.

Section Failures.

Variable args : ModelArgs.
Variable a : Attention.
Hypothesis Hwf : Attention_wf args a.

(** Line 159 with more than one example: the batch axis survives the
    squeeze. *)
Lemma squeeze_batch (Hc : config_ok args) (x : tensor R) (bsz s : nat) :
  2 <= bsz -> shape x = [bsz; s; dim args] ->
  exists pre, shape (squeeze x) = pre ++ [dim args] /\ numel pre = bsz * s.
Proof.
  intros Hb Hx. pose proof (@config_dim args Hc) as Hd.
  unfold squeeze; simpl. rewrite Hx. simpl.
  destruct (Nat.eqb_spec bsz 1); [lia|].
  destruct (Nat.eqb_spec (dim args) 1); [lia|].
  destruct (Nat.eqb_spec s 1); simpl.
  - exists [bsz]. simpl. split; [reflexivity | lia].
  - exists [bsz; s]. simpl. split; [reflexivity | lia].
Qed.

(** Line 173: the projected ciphertext holds [bsz * seqlen * heads * head_dim]
    values and is reshaped to [seqlen * heads * head_dim]. *)
Lemma Attention_project_batch (Hc : config_ok args) (x : tensor R) (bsz s : nat)
    (fc : tensor complex) :
  2 <= bsz -> 1 <= s -> shape x = [bsz; s; dim args] ->
  Attention_project a x s fc = Err ValueError.
Proof.
  intros Hb Hs Hx. unfold Attention_project.
  destruct (@squeeze_batch Hc x bsz s Hb Hx) as (pre & Hsq & Hpre).
  destruct Hwf as [Hh Hhd Hqi Hqo Hki Hko Hvi Hvo _ _ _ _ _ _].
  destruct (@bridge_ok (wq a) (ckks_tensor (squeeze x)) pre) as (yq & -> & Hyq & _);
    [rewrite Hqi; exact Hsq|].
  destruct (@bridge_ok (wk a) (ckks_tensor (squeeze x)) pre) as (yk & -> & Hyk & _);
    [rewrite Hki; exact Hsq|].
  destruct (@bridge_ok (wv a) (ckks_tensor (squeeze x)) pre) as (yv & -> & Hyv & _);
    [rewrite Hvi; exact Hsq|].
  cbn [bind].
  rewrite ckks_reshape_err; [reflexivity|].
  cbn [encrypted]. rewrite Hyq, numel_app, Hpre, Hh, Hhd, Hqo.
  cbn [numel fold_right].
  pose proof (heads_pos Hc). pose proof (head_dim_pos Hc).
  nia.
Qed.

Lemma Attention_forward_batch (Hc : config_ok args) (x : tensor R) (bsz s sp : nat)
    (fc : tensor complex) (mask : option (tensor xreal)) :
  2 <= bsz -> 1 <= s -> shape x = [bsz; s; dim args] ->
  Attention_forward x sp fc mask a = (Err ValueError, a).
Proof.
  intros Hb Hs Hx. unfold Attention_forward. rewrite Hx. unfold mbind at 1.
  rewrite (@Attention_project_batch Hc x bsz s fc Hb Hs Hx). reflexivity.
Qed.

(** The scores of a step of [s > 1] positions at [sp > 0] against the mask
    of lines 294-295. *)
Lemma broadcast_mask_mismatch (b h s sp : nat) :
  1 < s -> 0 < sp -> broadcast_shapes [b; h; s; sp + s] [1; 1; s; s] = None.
Proof.
  intros Hs Hsp. unfold broadcast_shapes. cbn [rev app broadcast_rev].
  rewrite broadcast_dim_None by lia. reflexivity.
Qed.

Lemma Attention_write_cache_inv (bsz sp s : nat) (k v : tensor R) (a' : Attention) :
  shape k = [s; n_heads args; dim args / n_heads args] -> 1 < s ->
  Attention_write_cache bsz sp s k v a = (Ok tt, a') ->
  sp + s <= max_seq_len args.
Proof.
  intros Hk Hs. unfold Attention_write_cache.
  destruct (setitem _ (cache_k a) k) as [ck|] eqn:Ek; [|discriminate].
  intros _. apply setitem_inv in Ek. destruct Ek as [He _].
  rewrite Hk, (wf_cache_k_shape Hwf), cache_slice_shape, expandable_cache in He.
  apply orb_true_iff in He. destruct He as [He|He]; apply Nat.eqb_eq in He; lia.
Qed.

(** Lines 203-205 reached with [seqlen > 1] and [start_pos > 0]: the mask
    has [seqlen] columns, the scores [start_pos + seqlen]. *)
Lemma Attention_forward_mask_mismatch (x : tensor R) (bsz s d0 sp : nat)
    (fc : tensor complex) :
  shape x = [bsz; s; d0] -> 1 < s -> 0 < sp ->
  exists e, fst (Attention_forward x sp fc (causal_mask s sp) a) = Err e.
Proof.
  intros Hx Hs Hsp. unfold Attention_forward. rewrite Hx. unfold mbind at 1.
  destruct (Attention_project a x s fc) as [[[q k] v]|e] eqn:Hp; [|exists e; reflexivity].
  apply (@Attention_project_inv args a Hwf) in Hp. destruct Hp as (Hq & Hk & Hv).
  unfold mbind.
  pose proof (@Attention_write_cache_wf args a bsz sp s k v Hwf) as Hwf'.
  destruct (Attention_write_cache bsz sp s k v a) as [[[]|e] a'] eqn:Hw;
    [|exists e; reflexivity].
  cbn [snd] in Hwf'.
  pose proof (@Attention_write_cache_inv bsz sp s k v a' Hk Hs Hw) as Hcap.
  destruct (@Attention_read_cache_ok args a' Hwf' bsz sp s)
    as (keys & values & -> & Hkeys & Hvalues).
  cbn [bind fst snd].
  replace (Nat.min (sp + s) (max_seq_len args)) with (sp + s) in Hkeys, Hvalues by lia.
  assert (Hks : shape keys = [Nat.min bsz (max_batch_size args); sp + s; n_heads args;
                              dim args / n_heads args]) by (rewrite Hkeys; reflexivity).
  assert (Hvs : shape values = [Nat.min bsz (max_batch_size args); sp + s; n_heads args;
                                dim args / n_heads args]) by (rewrite Hvalues; reflexivity).
  destruct (@Attention_scores_raw args a' q keys values s _ _ Hq Hks Hvs)
    as (raw & vt & Hraw & _ & Hsc).
  rewrite Hsc.
  unfold causal_mask. destruct (Nat.ltb_spec 1 s); [|lia].
  rewrite binop_err; [exists RuntimeError; reflexivity|].
  rewrite Hraw. unfold triu. cbn [shape build full].
  apply broadcast_mask_mismatch; assumption.
Qed.

End Failures.

Section Overflow.

Variable args : ModelArgs.
Variable a : Attention.
Hypothesis Hwf : Attention_wf args a.

(** Beyond the capacity the call leaves the object as it found it,
    whatever it returns or raises. *)
Lemma Attention_forward_overflow_state (x : tensor R) (bsz s d0 sp : nat)
    (fc : tensor complex) (mask : option (tensor xreal)) :
  shape x = [bsz; s; d0] -> max_seq_len args < sp + s ->
  snd (Attention_forward x sp fc mask a) = a.
Proof.
  intros Hx Hover. unfold Attention_forward. rewrite Hx. unfold mbind at 1.
  destruct (Attention_project a x s fc) as [[[q k] v]|e] eqn:Hp; [|reflexivity].
  apply (@Attention_project_inv args a Hwf) in Hp. destruct Hp as (Hq & Hk & Hv).
  unfold mbind.
  pose proof (@Attention_write_cache_overflow args a bsz sp s k v Hwf Hk Hv Hover) as Hsnd.
  destruct (Attention_write_cache bsz sp s k v a) as [[[]|e] a']; cbn [snd] in Hsnd |- *;
    exact Hsnd.
Qed.

Lemma Attention_forward_overflow_multi (x : tensor R) (s sp : nat)
    (fc : tensor complex) (mask : option (tensor xreal)) :
  config_ok args ->
  shape x = [1; s; dim args] -> 1 < s ->
  shape fc = [s; dim args / n_heads args / 2] ->
  max_seq_len args < sp + s ->
  Attention_forward x sp fc mask a = (Err RuntimeError, a).
Proof.
  intros Hc Hx Hs Hfc Hover.
  destruct (@Attention_project_ok args a Hwf Hc x s fc Hx (Nat.lt_le_incl _ _ Hs) Hfc)
    as (q & k & v & Hp & Hq & Hk & Hv).
  unfold Attention_forward. rewrite Hx. unfold mbind at 1. rewrite Hp.
  unfold mbind.
  rewrite (@Attention_write_cache_overflow_err args a 1 sp s k v Hwf Hk Hover Hs).
  reflexivity.
Qed.

Lemma Attention_forward_overflow_single (x : tensor R) (sp : nat) (fc : tensor complex) :
  config_ok args ->
  shape x = [1; 1; dim args] ->
  shape fc = [1; dim args / n_heads args / 2] ->
  max_seq_len args < sp + 1 ->
  exists y, Attention_forward x sp fc None a = (Ok y, a) /\ shape y = [1; 1; dim args].
Proof.
  intros Hc Hx Hfc Hover.
  destruct (@Attention_forward_ok args a x sp 1 fc None Hwf Hc Hx (le_n 1) Hfc
              (or_introl eq_refl) I)
    as (q & k & v & ck & cv & y & _ & _ & _ & Hf & Hy & _).
  pose proof (@Attention_forward_overflow_state x 1 1 (dim args) sp fc None Hx Hover) as Hs.
  rewrite Hf in Hs. cbn [snd] in Hs. rewrite Hs in Hf.
  exists y. auto.
Qed.

End Overflow.

Section Blocks.

Lemma broadcast_keepdim (pre : list nat) (d : nat) :
  broadcast_shapes (pre ++ [d]) (pre ++ [1]) = Some (pre ++ [d]).
Proof.
  unfold broadcast_shapes. rewrite !rev_app_distr. cbn [rev app broadcast_rev].
  rewrite broadcast_dim_1_r.
  assert (E : forall l, broadcast_rev l l = Some l).
  { induction l as [|x l IH]; cbn [broadcast_rev]; [reflexivity|].
    rewrite broadcast_dim_refl, IH. reflexivity. }
  rewrite E. cbn [option_map rev]. rewrite rev_involutive. reflexivity.
Qed.

Lemma broadcast_vector (pre : list nat) (d : nat) :
  broadcast_shapes (pre ++ [d]) [d] = Some (pre ++ [d]).
Proof.
  unfold broadcast_shapes. rewrite !rev_app_distr. cbn [rev app broadcast_rev].
  rewrite broadcast_dim_refl.
  assert (E : broadcast_rev (rev pre) [] = Some (rev pre)) by (destruct (rev pre); reflexivity).
  rewrite E. cbn [option_map rev]. rewrite rev_involutive. reflexivity.
Qed.

Lemma RMSNorm_forward_ok (n : RMSNorm) (x : tensor R) (pre : list nat) (d : nat) :
  RMSNorm_wf d n -> shape x = pre ++ [d] ->
  exists y, RMSNorm_forward n x = Ok y /\ shape y = pre ++ [d].
Proof.
  intros [Hw] Hx. unfold RMSNorm_forward, RMSNorm_norm.
  destruct (@mean_last_ok (tmap (fun v => Rmult v v) x) pre d Hx) as (m & -> & Hm & _).
  cbn [bind]. unfold mul.
  match goal with |- context [binop Rmult x ?t] =>
    destruct (@binop_ok _ _ _ _ _ Rmult x t (pre ++ [d])) as (o & -> & Ho & _)
  end.
  { cbn [tmap shape]. rewrite Hx, Hm. apply broadcast_keepdim. }
  cbn [bind].
  destruct (@binop_ok _ _ _ _ _ Rmult o (norm_weight n) (pre ++ [d])) as (y & -> & Hy & _).
  { rewrite Ho, Hw. apply broadcast_vector. }
  exists y. auto.
Qed.

Lemma FeedForward_forward_ok (f : FeedForward) (x : tensor R) (pre : list nat) (d : nat) :
  FeedForward_wf d f -> shape x = pre ++ [d] ->
  exists y, FeedForward_forward f x = Ok y /\ shape y = pre ++ [d].
Proof.
  intros [H1 H3i H3o H2i H2o] Hx. unfold FeedForward_forward.
  destruct (@linear_ok (w1 f) x pre) as (u & -> & Hu & _); [rewrite H1; exact Hx|].
  destruct (@linear_ok (w3 f) x pre) as (v & -> & Hv & _); [rewrite H3i; exact Hx|].
  cbn [bind]. unfold mul.
  destruct (@binop_ok _ _ _ _ _ Rmult (tmap silu u) v (pre ++ [out_features (w1 f)]))
    as (g & -> & Hg & _).
  { cbn [tmap shape]. rewrite Hu, Hv, H3o. apply broadcast_shapes_refl. }
  cbn [bind].
  destruct (@linear_ok (w2 f) g pre) as (y & -> & Hy & _); [rewrite H2i; exact Hg|].
  exists y. rewrite Hy, H2o. auto.
Qed.

Lemma add_ok (x y : tensor R) (sh : list nat) :
  shape x = sh -> shape y = sh -> exists z, add x y = Ok z /\ shape z = sh.
Proof.
  intros Hx Hy. unfold add.
  destruct (@binop_ok _ _ _ _ _ Rplus x y sh) as (z & -> & Hz & _).
  - rewrite Hx, Hy. apply broadcast_shapes_refl.
  - exists z. auto.
Qed.

End Blocks.

Section Stack.

Variable args : ModelArgs.
Hypothesis Hc : config_ok args.

Lemma set_attention_wf (b : TransformerBlock) (att : Attention) :
  TransformerBlock_wf args b -> Attention_wf args att ->
  TransformerBlock_wf args (set_attention b att).
Proof. intros [] Ha. constructor; assumption. Qed.

Lemma set_attention_same (b : TransformerBlock) : set_attention b (attention b) = b.
Proof. destruct b; reflexivity. Qed.

Lemma TransformerBlock_forward_ok (b : TransformerBlock) (x : tensor R) (sp s : nat)
    (fc : tensor complex) (mask : option (tensor xreal)) :
  TransformerBlock_wf args b ->
  shape x = [1; s; dim args] -> 1 <= s ->
  shape fc = [s; dim args / n_heads args / 2] ->
  s = 1 \/ sp + s <= max_seq_len args ->
  mask_fits mask [1; n_heads args; s; Nat.min (sp + s) (max_seq_len args)] ->
  exists y b',
    TransformerBlock_forward x sp fc mask b = (Ok y, b') /\
    shape y = [1; s; dim args] /\ TransformerBlock_wf args b'.
Proof.
  intros Hb Hx Hs Hfc Hcap Hmask. unfold TransformerBlock_forward.
  destruct (@RMSNorm_forward_ok (attention_norm b) x [1; s] (dim args)
              (wf_attention_norm Hb) Hx) as (n & -> & Hn).
  destruct (@Attention_forward_ok args (attention b) n sp s fc mask
              (wf_attention Hb) Hc Hn Hs Hfc Hcap Hmask)
    as (q & k & v & ck & cv & r & _ & _ & _ & -> & Hr & Hwf').
  cbn [bind].
  destruct (@add_ok x r [1; s; dim args] Hx Hr) as (h & -> & Hh).
  cbn [bind set_attention ffn_norm feed_forward].
  destruct (@RMSNorm_forward_ok (ffn_norm b) h [1; s] (dim args)
              (wf_ffn_norm Hb) Hh) as (n2 & -> & Hn2).
  cbn [bind].
  destruct (@FeedForward_forward_ok (feed_forward b) n2 [1; s] (dim args)
              (wf_feed_forward Hb) Hn2) as (f & -> & Hf).
  cbn [bind].
  destruct (@add_ok h f [1; s; dim args] Hh Hf) as (y & -> & Hy).
  do 2 eexists. split; [reflexivity|]. split; [exact Hy|].
  apply (set_attention_wf Hb Hwf').
Qed.

Lemma TransformerBlock_forward_batch (b : TransformerBlock) (x : tensor R)
    (bsz sp s : nat) (fc : tensor complex) (mask : option (tensor xreal)) :
  TransformerBlock_wf args b ->
  2 <= bsz -> 1 <= s -> shape x = [bsz; s; dim args] ->
  TransformerBlock_forward x sp fc mask b = (Err ValueError, b).
Proof.
  intros Hb Hbsz Hs Hx. unfold TransformerBlock_forward.
  destruct (@RMSNorm_forward_ok (attention_norm b) x [bsz; s] (dim args)
              (wf_attention_norm Hb) Hx) as (n & -> & Hn).
  rewrite (@Attention_forward_batch args (attention b) (wf_attention Hb) Hc n bsz s sp fc mask
             Hbsz Hs Hn).
  cbn [bind]. rewrite set_attention_same. reflexivity.
Qed.

Lemma run_layers_ok (ls : list TransformerBlock) (h : tensor R) (sp s : nat)
    (fc : tensor complex) (mask : option (tensor xreal)) :
  Forall (TransformerBlock_wf args) ls ->
  shape h = [1; s; dim args] -> 1 <= s ->
  shape fc = [s; dim args / n_heads args / 2] ->
  s = 1 \/ sp + s <= max_seq_len args ->
  mask_fits mask [1; n_heads args; s; Nat.min (sp + s) (max_seq_len args)] ->
  exists y ls',
    run_layers h sp fc mask ls = (Ok y, ls') /\
    shape y = [1; s; dim args] /\ Forall (TransformerBlock_wf args) ls'.
Proof.
  intros Hls. revert h. induction Hls as [|b ls Hb Hls IH]; intros h Hh Hs Hfc Hcap Hmask.
  - exists h, []. cbn [run_layers]. auto.
  - cbn [run_layers].
    destruct (@TransformerBlock_forward_ok b h sp s fc mask Hb Hh Hs Hfc Hcap Hmask)
      as (h' & b' & -> & Hh' & Hb').
    destruct (IH h' Hh' Hs Hfc Hcap Hmask) as (y & ls' & -> & Hy & Hls').
    exists y, (b' :: ls'). auto.
Qed.

Lemma run_layers_batch (b : TransformerBlock) (ls : list TransformerBlock) (h : tensor R)
    (bsz sp s : nat) (fc : tensor complex) (mask : option (tensor xreal)) :
  TransformerBlock_wf args b ->
  2 <= bsz -> 1 <= s -> shape h = [bsz; s; dim args] ->
  run_layers h sp fc mask (b :: ls) = (Err ValueError, b :: ls).
Proof.
  intros Hb Hbsz Hs Hh. cbn [run_layers].
  rewrite (@TransformerBlock_forward_batch b h bsz sp s fc mask Hb Hbsz Hs Hh).
  reflexivity.
Qed.

End Stack.

Section Model.

Variable t : Transformer.
Hypothesis Hwf : Transformer_wf t.

(** Line 290: [self.freqs_cis[start_pos : start_pos + seqlen]] inside the
    table. *)
Lemma freqs_cis_slice (sp s : nat) :
  sp + s <= max_seq_len (params t) * 2 ->
  exists fc,
    getitem [Range sp (sp + s)] (freqs_cis t) = Ok fc /\
    shape fc = [s; dim (params t) / n_heads (params t) / 2].
Proof.
  intros Hin. rewrite getitem_ok by (rewrite (wf_freqs_cis Hwf); simpl; lia).
  eexists. split; [reflexivity|]. cbn [shape build].
  rewrite (wf_freqs_cis Hwf). cbn [slice_shape]. rewrite slice_len_Range.
  repeat f_equal. lia.
Qed.

Lemma set_layers_wf (ls : list TransformerBlock) :
  Forall (TransformerBlock_wf (params t)) ls -> Transformer_wf (set_layers t ls).
Proof. destruct Hwf. intros Hls. constructor; assumption. Qed.

(** A single example, at least one position, inside the cache, and either
    the first step or a step of one position: the forward pass returns. *)
Lemma Transformer_forward_ok (tokens : tensor nat) (sp s : nat) :
  shape tokens = [1; s] -> 1 <= s ->
  Forall (fun tok => tok < vocab_size (params t)) (data tokens) ->
  sp + s <= max_seq_len (params t) ->
  s = 1 \/ sp = 0 ->
  exists e fc h ls hn last out,
    embedding (tok_embeddings t) tokens = Ok e /\
    getitem [Range sp (sp + s)] (freqs_cis t) = Ok fc /\
    run_layers e sp fc (causal_mask s sp) (layers t) = (Ok h, ls) /\
    RMSNorm_forward (norm t) h = Ok hn /\ shape hn = [1; s; dim (params t)] /\
    select_last1 hn = Ok last /\ shape last = [1; dim (params t)] /\
    linear (output t) last = Ok out /\ shape out = [1; vocab_size (params t)] /\
    Transformer_forward tokens sp t = (Ok out, set_layers t ls) /\
    Transformer_wf (set_layers t ls).
Proof.
  intros Htok Hs Hvocab Hcap Hstep.
  destruct (@embedding_ok (tok_embeddings t) tokens) as (e & He & Hes & _).
  { rewrite (wf_tok_num Hwf). exact Hvocab. }
  rewrite Htok, (wf_tok_dim Hwf) in Hes. cbn [app] in Hes.
  destruct (@freqs_cis_slice sp s ltac:(lia)) as (fc & Hfc & Hfcs).
  assert (Hmask : mask_fits (causal_mask s sp)
            [1; n_heads (params t); s; Nat.min (sp + s) (max_seq_len (params t))]).
  { destruct Hstep as [-> | ->].
    - exact I.
    - replace (Nat.min (0 + s) (max_seq_len (params t))) with s by lia.
      apply causal_mask_fits. }
  destruct (@run_layers_ok (params t) (wf_params Hwf) (layers t) e sp s fc (causal_mask s sp)
              (wf_layers Hwf) Hes Hs Hfcs (or_intror Hcap) Hmask)
    as (h & ls & Hrun & Hh & Hls).
  destruct (@RMSNorm_forward_ok (norm t) h [1; s] (dim (params t)) (wf_norm Hwf) Hh)
    as (hn & Hhn & Hhns).
  assert (Hsel : select_last1 hn = Ok (build [1; dim (params t)]
            (fun idx => item hn [nth 0 idx 0; s - 1; nth 1 idx 0]))).
  { apply select_last1_ok; [exact Hhns | lia]. }
  destruct (@linear_ok (output t) (build [1; dim (params t)]
              (fun idx => item hn [nth 0 idx 0; s - 1; nth 1 idx 0])) [1])
    as (out & Hout & Houts & _).
  { rewrite (wf_output_in Hwf). reflexivity. }
  rewrite (wf_output_out Hwf) in Houts.
  exists e, fc, h, ls, hn. eexists. exists out.
  split; [exact He|]. split; [exact Hfc|]. split; [exact Hrun|].
  split; [exact Hhn|]. split; [exact Hhns|]. split; [exact Hsel|]. split; [reflexivity|].
  split; [exact Hout|]. split; [exact Houts|]. split; [|apply set_layers_wf; exact Hls].
  unfold Transformer_forward. rewrite Htok, He, Hfc. cbn [bind].
  rewrite Hrun. cbn [bind]. rewrite Hhn. cbn [bind]. rewrite Hsel. cbn [bind].
  rewrite Hout. reflexivity.
Qed.

(** More than one example: the first layer's attention raises. *)
Lemma Transformer_forward_batch (tokens : tensor nat) (bsz sp s : nat) :
  layers t <> [] ->
  shape tokens = [bsz; s] -> 2 <= bsz -> 1 <= s ->
  Forall (fun tok => tok < vocab_size (params t)) (data tokens) ->
  Transformer_forward tokens sp t = (Err ValueError, t).
Proof.
  intros Hne Htok Hb Hs Hvocab.
  destruct (@embedding_ok (tok_embeddings t) tokens) as (e & He & Hes & _).
  { rewrite (wf_tok_num Hwf). exact Hvocab. }
  rewrite Htok, (wf_tok_dim Hwf) in Hes. cbn [app] in Hes.
  unfold Transformer_forward. rewrite Htok, He.
  rewrite getitem_ok by (rewrite (wf_freqs_cis Hwf); simpl; lia).
  cbn [bind].
  pose proof (wf_layers Hwf) as Hls.
  destruct (layers t) as [|b ls] eqn:El; [contradiction|].
  inversion Hls as [|? ? Hb0 _]; subst.
  rewrite (@run_layers_batch (params t) (wf_params Hwf) b ls e bsz sp s _ _ Hb0 Hb Hs Hes).
  cbn [bind]. rewrite <- El. destruct t; reflexivity.
Qed.

End Model.

Section Table.

Lemma item_vector {A} `{Default A} (n : nat) (l : list A) (i : nat) :
  item (Tensor [n] l) [i] = nth i l default.
Proof. unfold item. cbn [shape data ravel numel fold_right]. f_equal. lia. Qed.

Lemma item_tmap {A B} `{Default A} `{Default B} (f : A -> B) (t : tensor A) (idx : list nat) :
  ravel (shape t) idx < length (data t) ->
  item (tmap f t) idx = f (item t idx).
Proof.
  intros Hlt. unfold item, tmap. cbn [shape data].
  rewrite nth_indep with (d' := f default) by (rewrite length_map; exact Hlt).
  apply map_nth.
Qed.

Lemma arange_item (start stop step i : nat) :
  i < (stop - start + step - 1) / step ->
  item (arange start stop step) [i] = start + i * step.
Proof.
  intros Hi. unfold arange. rewrite item_vector.
  apply nth_tabulate with (g := fun i => start + i * step). exact Hi.
Qed.

Lemma arange_shape (start stop step : nat) :
  shape (arange start stop step) = [(stop - start + step - 1) / step].
Proof. reflexivity. Qed.

Lemma arange_length (start stop step : nat) :
  length (data (arange start stop step)) = (stop - start + step - 1) / step.
Proof. unfold arange. cbn [data]. rewrite length_map, length_seq. reflexivity. Qed.

Lemma polar_ones_build (sh : list nat) (f : list nat -> R) :
  polar (ones_like (build sh f)) (build sh f) =
  build sh (fun idx => (Rmult 1 (cos (f idx)), Rmult 1 (sin (f idx)))).
Proof.
  unfold polar, ones_like, build. cbn [shape data]. f_equal.
  generalize (seq 0 (numel sh)). intros l.
  induction l as [|i l IH]; cbn [map combine]; [reflexivity|].
  rewrite IH. reflexivity.
Qed.

Lemma in_bounds2_intro (a b i j : nat) : i < a -> j < b -> in_bounds [a; b] [i; j].
Proof. intros. repeat constructor; assumption. Qed.

Lemma half_le_evens (d : nat) : d / 2 <= (d - 0 + 2 - 1) / 2.
Proof. apply Nat.Div0.div_le_mono. lia. Qed.

(** The table of lines 50-55, entry by entry. *)
Lemma precompute_freqs_cis_items (d end_ : nat) (theta : R) :
  exists t,
    precompute_freqs_cis d end_ theta = Ok t /\
    shape t = [end_; d / 2] /\ wf t /\
    forall p i, p < end_ -> i < d / 2 ->
      item t [p; i] =
      (Rmult 1 (cos (Rmult (INR p) (Rdiv 1 (Rpower theta (Rdiv (INR (2 * i)) (INR d)))))),
       Rmult 1 (sin (Rmult (INR p) (Rdiv 1 (Rpower theta (Rdiv (INR (2 * i)) (INR d))))))).
Proof.
  unfold precompute_freqs_cis.
  rewrite getitem_ok by (rewrite arange_shape; simpl; lia).
  cbn [bind]. unfold outer. cbn [tmap shape]. rewrite shape_build, !arange_shape.
  cbn [slice_shape]. rewrite slice_len_Range.
  pose proof (half_le_evens d) as Hle.
  replace (Nat.min (d / 2) ((d - 0 + 2 - 1) / 2) - Nat.min 0 ((d - 0 + 2 - 1) / 2))
    with (d / 2) by lia.
  replace ((end_ - 0 + 1 - 1) / 1) with end_ by (rewrite Nat.div_1_r; lia).
  cbn [bind]. rewrite polar_ones_build.
  eexists. split; [reflexivity|]. split; [reflexivity|]. split; [apply wf_build|].
  intros p i Hp Hi.
  rewrite item_build by (apply in_bounds2_intro; assumption).
  cbn [nth].
  assert (Ht : item (tmap INR (arange 0 end_ 1)) [p] = INR p).
  { rewrite item_tmap.
    - rewrite arange_item by (rewrite Nat.div_1_r; lia). f_equal. lia.
    - rewrite arange_length, arange_shape. cbn [ravel numel fold_right].
      rewrite Nat.div_1_r. lia. }
  rewrite Ht.
  match goal with |- context [item ?f [i]] =>
    assert (Hf : item f [i] = Rdiv 1 (Rpower theta (Rdiv (INR (2 * i)) (INR d))))
  end.
  { rewrite item_tmap.
    - rewrite item_build by (repeat constructor; exact Hi).
      cbn [slice_to_base slice_start]. rewrite Nat.min_0_l.
      rewrite arange_item by lia.
      do 4 f_equal. lia.
    - cbn [shape build data ravel numel fold_right]. rewrite length_map, length_seq. lia. }
  rewrite Hf. reflexivity.
Qed.

End Table.

Section Constructors.

Variable init : initializer.
Variable args : ModelArgs.

Lemma floordiv_inv (x y q : nat) : floordiv x y = Ok q -> y <> 0 /\ q = x / y.
Proof.
  unfold floordiv. destruct (Nat.eqb_spec y 0); [discriminate|].
  intros E. inversion E. auto.
Qed.

Lemma Attention_init_wf (a : Attention) :
  Attention_init init args = Ok a -> Attention_wf args a.
Proof.
  unfold Attention_init.
  destruct (floordiv (dim args) (n_heads args)) as [hd|] eqn:E; cbn [bind]; [|discriminate].
  apply floordiv_inv in E. destruct E as [_ ->].
  intros E. inversion E; subst; clear E.
  constructor; cbn; try reflexivity; apply wf_build.
Qed.

Lemma FeedForward_init_wf (d hidden m : nat) (f : FeedForward) :
  FeedForward_init init d hidden m = Ok f ->
  FeedForward_wf d f /\
  exists h, FeedForward_hidden_dim (Z.of_nat hidden) (Z.of_nat m) = Ok h /\
            out_features (w1 f) = Z.to_nat h.
Proof.
  unfold FeedForward_init.
  destruct (FeedForward_hidden_dim (Z.of_nat hidden) (Z.of_nat m)) as [h|]; cbn [bind];
    [|discriminate].
  intros E. inversion E; subst; clear E.
  split; [constructor; reflexivity|]. exists h. auto.
Qed.

Lemma RMSNorm_init_wf (d : nat) (e : R) : RMSNorm_wf d (RMSNorm_init d e).
Proof. constructor. reflexivity. Qed.

Lemma TransformerBlock_init_wf (id : nat) (b : TransformerBlock) :
  TransformerBlock_init init id args = Ok b -> TransformerBlock_wf args b.
Proof.
  unfold TransformerBlock_init.
  destruct (floordiv (dim args) (n_heads args)) as [hd|]; cbn [bind]; [|discriminate].
  destruct (Attention_init init args) as [att|] eqn:Ea; cbn [bind]; [|discriminate].
  destruct (FeedForward_init init (dim args) (4 * dim args) (multiple_of args)) as [ff|] eqn:Ef;
    cbn [bind]; [|discriminate].
  intros E. inversion E; subst; clear E.
  constructor; cbn.
  - apply Attention_init_wf. exact Ea.
  - apply FeedForward_init_wf in Ef. apply Ef.
  - apply RMSNorm_init_wf.
  - apply RMSNorm_init_wf.
Qed.

Lemma init_layers_wf (ids : list nat) (bs : list TransformerBlock) :
  init_layers init ids args = Ok bs ->
  Forall (TransformerBlock_wf args) bs /\ length bs = length ids.
Proof.
  revert bs. induction ids as [|id ids IH]; intros bs; cbn [init_layers].
  - intros E. inversion E. split; [constructor | reflexivity].
  - destruct (TransformerBlock_init init id args) as [b|] eqn:Eb; cbn [bind]; [|discriminate].
    destruct (init_layers init ids args) as [bs'|]; cbn [bind]; [|discriminate].
    intros E. inversion E; subst; clear E.
    destruct (IH bs' eq_refl) as [Hf Hl].
    split; [constructor; [apply (@TransformerBlock_init_wf id b Eb) | exact Hf] | cbn; congruence].
Qed.

Lemma Transformer_init_wf (t : Transformer) :
  config_ok args ->
  Transformer_init init args = Ok t ->
  Transformer_wf t /\ params t = args /\ length (layers t) = n_layers args.
Proof.
  intros Hc. unfold Transformer_init.
  destruct (init_layers init (seq 0 (n_layers args)) args) as [ls|] eqn:El; cbn [bind];
    [|discriminate].
  destruct (floordiv (dim args) (n_heads args)) as [hd|] eqn:Ed; cbn [bind]; [|discriminate].
  apply floordiv_inv in Ed. destruct Ed as [_ ->].
  destruct (@precompute_freqs_cis_items (dim args / n_heads args) (max_seq_len args * 2)
              default_theta) as (fc & -> & Hfc & _).
  cbn [bind]. intros E. inversion E; subst; clear E.
  apply init_layers_wf in El. destruct El as [Hls Hlen].
  split; [|split; [reflexivity | cbn; rewrite Hlen, length_seq; reflexivity]].
  constructor; cbn; try reflexivity; try assumption.
  apply RMSNorm_init_wf.
Qed.

End Constructors.

Section Mask.

(** The entries of the mask of lines 294-295, inside its [seqlen] columns. *)
Lemma causal_mask_item (s sp i j : nat) (m : tensor xreal) :
  causal_mask s sp = Some m -> i < s -> j < s ->
  item m [0; 0; i; j] = if sp + i <? j then NegInf else Finite 0%R.
Proof.
  unfold causal_mask. destruct (Nat.ltb_spec 1 s); [|discriminate].
  intros E Hi Hj. inversion E; subst m; clear E.
  unfold triu. cbn [shape full build].
  rewrite item_build by (apply in_bounds4_intro; lia).
  cbn [length Nat.sub nth].
  unfold full. rewrite item_build by (apply in_bounds4_intro; lia).
  destruct (Nat.leb_spec (i + (sp + 1)) j); destruct (Nat.ltb_spec (sp + i) j);
    try lia; reflexivity.
Qed.

Variable args : ModelArgs.
Variable a : Attention.
Hypothesis Hwf : Attention_wf args a.

(** The same step on a single example that fits the cache: the projections
    and the cache assignment go through, then the addition of the mask
    raises; the cache has been written by then. *)
Lemma Attention_forward_mask_mismatch_single (x : tensor R) (s sp : nat)
    (fc : tensor complex) :
  config_ok args ->
  shape x = [1; s; dim args] -> 1 < s -> 0 < sp ->
  shape fc = [s; dim args / n_heads args / 2] ->
  sp + s <= max_seq_len args ->
  exists q k v ck cv,
    Attention_project a x s fc = Ok (q, k, v) /\
    setitem [Range 0 1; Range sp (sp + s)] (cache_k a) k = Ok ck /\
    setitem [Range 0 1; Range sp (sp + s)] (cache_v a) v = Ok cv /\
    Attention_forward x sp fc (causal_mask s sp) a =
    (Err RuntimeError, set_cache_v (set_cache_k a ck) cv).
Proof.
  intros Hc Hx Hs Hsp Hfc Hcap.
  destruct (@Attention_project_ok args a Hwf Hc x s fc Hx (Nat.lt_le_incl _ _ Hs) Hfc)
    as (q & k & v & Hp & Hq & Hk & Hv).
  destruct (@Attention_write_cache_ok args a 1 sp s k v Hwf Hk Hv (or_intror Hcap))
    as (ck & cv & Hck & Hcv & Hw).
  exists q, k, v, ck, cv. split; [exact Hp|]. split; [exact Hck|]. split; [exact Hcv|].
  pose proof (@Attention_write_cache_wf args a 1 sp s k v Hwf) as Hwf'.
  rewrite Hw in Hwf'. cbn [snd] in Hwf'.
  set (a' := set_cache_v (set_cache_k a ck) cv) in *.
  destruct (@Attention_read_cache_ok args a' Hwf' 1 sp s)
    as (keys & values & Hr & Hkeys & Hvalues).
  replace (Nat.min (sp + s) (max_seq_len args)) with (sp + s) in Hkeys, Hvalues by lia.
  assert (Hks : shape keys = [Nat.min 1 (max_batch_size args); sp + s; n_heads args;
                              dim args / n_heads args]) by (rewrite Hkeys; reflexivity).
  assert (Hvs : shape values = [Nat.min 1 (max_batch_size args); sp + s; n_heads args;
                                dim args / n_heads args]) by (rewrite Hvalues; reflexivity).
  destruct (@Attention_scores_raw args a' q keys values s _ _ Hq Hks Hvs)
    as (raw & vt & Hraw & _ & Hsc).
  unfold Attention_forward. rewrite Hx. unfold mbind at 1. unfold mbind at 1.
  rewrite Hp, Hw. fold a'. rewrite Hr. cbn [bind fst snd]. rewrite Hsc.
  unfold causal_mask. destruct (Nat.ltb_spec 1 s); [|lia].
  rewrite binop_err; [reflexivity|].
  rewrite Hraw. unfold triu. cbn [shape build full].
  apply broadcast_mask_mismatch; assumption.
Qed.

End Mask.


Section Causal.

Lemma broadcast_mask_same (b h s : nat) :
  broadcast_shapes [b; h; s; s] [1; 1; s; s] = Some [b; h; s; s].
Proof.
  unfold broadcast_shapes. cbn [rev app broadcast_rev].
  rewrite !broadcast_dim_refl, !broadcast_dim_1_r. reflexivity.
Qed.

Lemma bcast_index_mask (s e h i j : nat) :
  i < s -> j < s -> bcast_index [1; 1; s; s] [e; h; i; j] = [0; 0; i; j].
Proof.
  intros Hi Hj. unfold bcast_index. cbn [length Nat.sub skipn combine map fst snd Nat.eqb].
  destruct (Nat.eqb_spec s 1); repeat f_equal; lia.
Qed.

Lemma xadd_NegInf (x : xreal) : xadd x NegInf = NegInf.
Proof. destruct x; reflexivity. Qed.

(** A masked score has softmax weight exactly 0. *)
Lemma softmax_masked (sc : tensor xreal) (idx : list nat) :
  in_bounds (shape sc) idx -> item sc idx = NegInf -> item (softmax sc) idx = 0%R.
Proof.
  intros Hb Hneg. unfold softmax. rewrite item_build by exact Hb.
  rewrite Hneg. cbn [xexp]. unfold Rdiv. apply Rmult_0_l.
Qed.

Variable args : ModelArgs.
Variable a : Attention.

(** The first step ([start_pos = 0], more than one position): the scores
    above the diagonal are [-inf] and get weight 0. *)
Lemma Attention_scores_causal (q keys values : tensor R) (m : tensor xreal) (s b : nat) :
  shape q = [s; n_heads args; dim args / n_heads args] ->
  shape keys = [b; s; n_heads args; dim args / n_heads args] ->
  shape values = [b; s; n_heads args; dim args / n_heads args] ->
  causal_mask s 0 = Some m ->
  exists sc vt,
    Attention_scores a q keys values (Some m) = Ok (sc, vt) /\
    shape sc = [b; n_heads args; s; s] /\
    forall e h i j,
      e < b -> h < n_heads args -> i < s -> j < s -> i < j ->
      item sc [e; h; i; j] = NegInf /\ item (softmax sc) [e; h; i; j] = 0%R.
Proof.
  intros Hq Hk Hv Hm.
  destruct (@Attention_scores_raw args a q keys values s b s Hq Hk Hv)
    as (raw & vt & Hraw & _ & Hsc).
  pose proof (@causal_mask_shape s 0 m Hm) as [Hms _].
  rewrite (Hsc (Some m)). unfold binop. rewrite Hraw, Hms, broadcast_mask_same.
  cbn [bind]. do 2 eexists. split; [reflexivity|]. split; [reflexivity|].
  intros e h i j He Hh Hi Hj Hij.
  assert (Hitem : forall f : list nat -> xreal,
            (forall idx, f idx = xadd (item raw (bcast_index [b; n_heads args; s; s] idx))
                                      (item m (bcast_index [1; 1; s; s] idx))) ->
            item (build [b; n_heads args; s; s] f) [e; h; i; j] = NegInf).
  { intros f Hf. rewrite item_build by (apply in_bounds4_intro; assumption).
    rewrite Hf, bcast_index_mask by assumption.
    rewrite (@causal_mask_item s 0 i j m Hm Hi Hj).
    destruct (Nat.ltb_spec (0 + i) j); [|lia]. apply xadd_NegInf. }
  split.
  - apply Hitem. intros idx. reflexivity.
  - apply softmax_masked.
    + cbn [shape build]. apply in_bounds4_intro; assumption.
    + apply Hitem. intros idx. reflexivity.
Qed.

End Causal.


Section RotaryItems.

Lemma in_bounds3_intro (a b c i j k : nat) :
  i < a -> j < b -> k < c -> in_bounds [a; b; c] [i; j; k].
Proof. intros. repeat constructor; assumption. Qed.

(** Lines 97 and 99: subscripting the pair axis with [slice(0, 2)] returns
    the tensor of pairs as it is. *)
Lemma getitem_pairs (t : tensor R) (s h half : nat) :
  wf t -> shape t = [s; h; half; 2] ->
  getitem [All; All; All; Range 0 2] t = Ok t.
Proof.
  intros Hwf Ht. rewrite getitem_ok by (rewrite Ht; simpl; lia).
  f_equal. rewrite <- (build_item Hwf) at 2. rewrite Ht.
  cbn [slice_shape]. rewrite !slice_len_All, slice_len_Range.
  cbn [Nat.min Nat.sub].
  apply build_ext. intros idx Hb. apply in_bounds4 in Hb.
  destruct Hb as (i & j & k & l & -> & _). reflexivity.
Qed.

Lemma bcast_index_factor (s h d p j k : nat) :
  p < s -> k < d -> bcast_index [s; 1; d] [p; j; k] = [p; 0; k].
Proof.
  intros Hp Hk. unfold bcast_index. cbn [length Nat.sub skipn combine map fst snd Nat.eqb].
  destruct (Nat.eqb_spec s 1); destruct (Nat.eqb_spec d 1); repeat f_equal; lia.
Qed.

Lemma bcast_index_same3 (s h d p j k : nat) :
  p < s -> j < h -> k < d -> bcast_index [s; h; d] [p; j; k] = [p; j; k].
Proof.
  intros Hp Hj Hk. unfold bcast_index. cbn [length Nat.sub skipn combine map fst snd].
  destruct (Nat.eqb_spec s 1); destruct (Nat.eqb_spec h 1); destruct (Nat.eqb_spec d 1);
    repeat f_equal; lia.
Qed.

(** What lines 97-98 compute, entry by entry: both factors multiply the
    same entry of [x]. *)
Lemma rotate_items (x : tensor R) (h half seqlen : nat) (l r : tensor R) :
  wf x -> shape x = [seqlen; h; 2 * half] ->
  shape l = [seqlen; 1; 2 * half] -> shape r = [seqlen; 1; 2 * half] ->
  exists y,
    rotate (Enc x) h (2 * half) seqlen l r = Ok (Enc y) /\
    shape y = [seqlen; h; 2 * half] /\
    forall p j k,
      p < seqlen -> j < h -> k < 2 * half ->
      item y [p; j; k] =
      Rplus (Rmult (item x [p; j; k]) (item l [p; 0; k]))
            (Rmult (item x [p; j; k]) (item r [p; 0; k])).
Proof.
  intros Hwf Hx Hl Hr. unfold rotate.
  assert (Hhalf : 2 * half / 2 = half) by (rewrite Nat.mul_comm; apply Nat.div_mul; lia).
  rewrite Hhalf.
  rewrite ckks_reshape_ok by (cbn [encrypted]; rewrite Hx; simpl; lia).
  cbn [bind]. unfold ckks_getitem. cbn [encrypted].
  rewrite (@getitem_pairs (Tensor [seqlen; h; half; 2] (data x)) seqlen h half)
    by (try reflexivity; unfold wf in *; cbn [shape data]; rewrite Hwf, Hx; simpl; lia).
  cbn [bind]. rewrite ckks_reshape_ok by (cbn [encrypted shape]; simpl; lia).
  cbn [bind encrypted data].
  assert (Ex : Tensor [seqlen; h; 2 * half] (data x) = x).
  { destruct x as [sh d]. cbn [shape data] in *. rewrite Hx. reflexivity. }
  rewrite Ex.
  unfold ckks_mul_plain. cbn [encrypted]. rewrite Hx, Hl, Hr, !expandable_factor.
  cbn [bind]. unfold ckks_add. cbn [encrypted shape build]. rewrite expandable_refl.
  eexists. split; [reflexivity|]. split; [reflexivity|].
  intros p j k Hp Hj Hk.
  rewrite item_build by (apply in_bounds3_intro; assumption).
  rewrite bcast_index_same3 by assumption.
  rewrite !item_build by (apply in_bounds3_intro; assumption).
  rewrite !bcast_index_factor by assumption. reflexivity.
Qed.

End RotaryItems.

Section RotaryFactors.

Lemma nth_real_imag (l : list complex) (n : nat) :
  nth (2 * n) (flat_map (fun c => [fst c; snd c]) l) 0%R = fst (nth n l (0%R, 0%R)) /\
  nth (2 * n + 1) (flat_map (fun c => [fst c; snd c]) l) 0%R = snd (nth n l (0%R, 0%R)).
Proof.
  revert n. induction l as [|c l IH]; intros n.
  - cbn [flat_map]. destruct n; destruct (2 * 0 + 1); split; try reflexivity;
      destruct (2 * S n); try reflexivity; destruct (2 * S n + 1); reflexivity.
  - destruct n as [|n].
    + split; reflexivity.
    + replace (2 * S n) with (S (S (2 * n))) by lia.
      replace (S (S (2 * n)) + 1) with (S (S (2 * n + 1))) by lia.
      cbn [flat_map app nth]. apply IH.
Qed.

(** [torch.view_as_real(t)[p, i, 0]] and [[p, i, 1]]. *)
Lemma view_as_real_items (t : tensor complex) (s half p i : nat) :
  shape t = [s; half] -> p < s -> i < half ->
  item (view_as_real t) [p; i; 0] = fst (item t [p; i]) /\
  item (view_as_real t) [p; i; 1] = snd (item t [p; i]).
Proof.
  intros Ht Hp Hi. unfold item, view_as_real. cbn [shape data]. rewrite Ht.
  cbn [app ravel numel fold_right].
  replace (p * (half * (2 * 1)) + (i * (2 * 1) + (0 * 1 + 0))) with (2 * (p * half + i)) by lia.
  replace (p * (half * (2 * 1)) + (i * (2 * 1) + (1 * 1 + 0))) with (2 * (p * half + i) + 1)
    by lia.
  replace (p * (half * 1) + (i * 1 + 0)) with (p * half + i) by lia.
  apply nth_real_imag.
Qed.

(** The plain factor built from two tensors of shape (seqlen, half, 1):
    their entries interleaved along the last axis. *)
Lemma rotary_factor_items (seqlen half : nat) (a b : tensor R) :
  1 <= seqlen ->
  shape a = [seqlen; half; 1] -> shape b = [seqlen; half; 1] ->
  exists y,
    rotary_factor seqlen a b = Ok y /\ shape y = [seqlen; 1; 2 * half] /\
    forall p i,
      p < seqlen -> i < half ->
      item y [p; 0; 2 * i] = item a [p; i; 0] /\
      item y [p; 0; 2 * i + 1] = item b [p; i; 0].
Proof.
  intros Hs Ha Hb. unfold rotary_factor, cat_last. rewrite Ha, Hb.
  cbn [rev app].
  destruct (list_eq_dec Nat.eq_dec [half; seqlen] [half; seqlen]) as [_|C]; [|contradiction].
  cbn [bind rev app]. unfold flatten1. cbn [shape build]. cbn [bind].
  rewrite view_infer_ok with (m := 2 * half) by (cbn [shape numel fold_right]; lia).
  eexists. split; [reflexivity|]. split; [reflexivity|].
  intros p i Hp Hi.
  set (f := fun idx : list nat =>
              if last idx 0 <? 1
              then item a (removelast idx ++ [last idx 0])
              else item b (removelast idx ++ [last idx 0 - 1])).
  assert (E : forall c, c < 2 ->
            item (Tensor ([seqlen; 1] ++ [2 * half])
                    (data (Tensor [seqlen; numel [half; 1 + 1]]
                             (data (build [seqlen; half; 1 + 1] f)))))
                 [p; 0; 2 * i + c] =
            f [p; i; c]).
  { intros c Hc.
    rewrite <- (@item_build _ _ [seqlen; half; 1 + 1] f [p; i; c])
      by (apply in_bounds3_intro; simpl; lia).
    unfold item. cbn [shape data app ravel numel fold_right build]. f_equal. lia. }
  split.
  - replace (2 * i) with (2 * i + 0) by lia. rewrite (E 0) by lia. reflexivity.
  - rewrite (E 1) by lia. reflexivity.
Qed.

End RotaryFactors.

Section RotaryEntries.

Lemma item_neg (t : tensor R) (idx : list nat) :
  wf t -> in_bounds (shape t) idx -> item (neg t) idx = Ropp (item t idx).
Proof.
  intros Hwf Hb. unfold neg. apply item_tmap.
  rewrite Hwf. apply ravel_lt. exact Hb.
Qed.

(** The two plain factors of lines 93-96 in terms of the rotary slice:
    (re, re) and (-im, im) for each complex entry. *)
Lemma rotary_factors_of_slice (fc : tensor complex) (seqlen half : nat) :
  1 <= seqlen -> shape fc = [seqlen; half] ->
  exists ll rr l r,
    getitem [All; All; Range 0 1] (view_as_real fc) = Ok ll /\
    rotary_factor seqlen ll ll = Ok l /\
    getitem [All; All; Range 1 2] (view_as_real fc) = Ok rr /\
    rotary_factor seqlen (neg rr) rr = Ok r /\
    shape l = [seqlen; 1; 2 * half] /\ shape r = [seqlen; 1; 2 * half] /\
    forall p i,
      p < seqlen -> i < half ->
      item l [p; 0; 2 * i] = fst (item fc [p; i]) /\
      item l [p; 0; 2 * i + 1] = fst (item fc [p; i]) /\
      item r [p; 0; 2 * i] = Ropp (snd (item fc [p; i])) /\
      item r [p; 0; 2 * i + 1] = snd (item fc [p; i]).
Proof.
  intros Hs Hfc.
  rewrite !getitem_ok by (simpl; rewrite Hfc; simpl; lia).
  cbn [view_as_real shape]. rewrite Hfc.
  cbn [app slice_shape]. rewrite !slice_len_All, !slice_len_Range. cbn [Nat.min Nat.sub].
  set (ll := build _ _). set (rr := build _ _).
  destruct (@rotary_factor_items seqlen half ll ll Hs eq_refl eq_refl) as (l & Hl & Hls & Hli).
  destruct (@rotary_factor_items seqlen half (neg rr) rr Hs eq_refl eq_refl)
    as (r & Hr & Hrs & Hri).
  exists ll, rr, l, r.
  split; [reflexivity|]. split; [exact Hl|]. split; [reflexivity|]. split; [exact Hr|].
  split; [exact Hls|]. split; [exact Hrs|].
  intros p i Hp Hi.
  destruct (Hli p i Hp Hi) as [Hl0 Hl1]. destruct (Hri p i Hp Hi) as [Hr0 Hr1].
  destruct (@view_as_real_items fc seqlen half p i Hfc Hp Hi) as [Hre Him].
  assert (Hll : item ll [p; i; 0] = fst (item fc [p; i])).
  { subst ll. rewrite item_build by (apply in_bounds3_intro; lia).
    cbn [slice_to_base slice_start Nat.min Nat.add]. exact Hre. }
  assert (Hrr : item rr [p; i; 0] = snd (item fc [p; i])).
  { subst rr. rewrite item_build by (apply in_bounds3_intro; lia).
    cbn [slice_to_base slice_start Nat.min Nat.add]. exact Him. }
  rewrite Hl0, Hl1, Hr0, Hr1, Hll, Hrr.
  rewrite item_neg; [rewrite Hrr; auto | apply wf_build | apply in_bounds3_intro; lia].
Qed.

End RotaryEntries.

(* ===================================================================== *)
(** * Integer arithmetic of the feed-forward width *)
(* ===================================================================== *)

Section Width.

Lemma Qceiling_div (a m : Z) :
  (0 < m)%Z -> Qceiling (inject_Z a / inject_Z m)%Q = ((a + m - 1) / m)%Z.
Proof.
  intros Hm. destruct m as [|p|p]; try lia.
  unfold Qceiling, Qfloor, Qdiv, Qinv, Qmult, Qopp, inject_Z; simpl.
  rewrite Z.mul_1_r.
  apply Z.div_unique with (r := ((a + Z.pos p - 1) + Z.pos p * (- a / Z.pos p))%Z).
  - left. pose proof (Z.mod_pos_bound (-a) (Z.pos p) ltac:(lia)).
    pose proof (Z.div_mod (-a) (Z.pos p) ltac:(lia)). lia.
  - lia.
Qed.

Lemma Qtruncate_div (a : Z) : Qtruncate (inject_Z a / 3)%Q = Z.quot a 3.
Proof.
  unfold Qtruncate, Qle_bool, Qceiling, Qfloor, Qdiv, Qinv, Qmult, Qopp, inject_Z; simpl.
  rewrite !Z.mul_1_r.
  destruct (Z.leb_spec 0 a).
  - rewrite Z.quot_div_nonneg by lia. reflexivity.
  - rewrite <- (Z.opp_involutive a) at 2. rewrite Z.quot_opp_l by lia.
    rewrite Z.quot_div_nonneg by lia. reflexivity.
Qed.

Lemma Qtruncate_two_thirds (h : Z) :
  Qtruncate (2 * inject_Z h / 3)%Q = Z.quot (2 * h) 3.
Proof.
  rewrite <- Qtruncate_div.
  unfold Qtruncate, Qle_bool, Qceiling, Qfloor, Qdiv, Qinv, Qmult, Qopp, inject_Z; simpl.
  rewrite !Z.mul_1_r.
  replace (match h with 0 => 0 | Z.pos y' => Z.pos y'~0 | Z.neg y' => Z.neg y'~0 end)%Z
    with (2 * h)%Z by (destruct h; reflexivity).
  reflexivity.
Qed.

End Width.

(* ===================================================================== *)
(** * Integer quotients through binary64 *)
(* ===================================================================== *)

Section Floats.
Open Scope Z_scope.

(** The rounded quotient is within one half of the exact one. *)
Lemma round_half_even_near (n d : Z) :
  0 < d -> 2 * (d * round_half_even n d) - d <= 2 * n <= 2 * (d * round_half_even n d) + d.
Proof.
  intros Hd. unfold round_half_even.
  pose proof (Z.div_mod n d ltac:(lia)) as E.
  pose proof (Z.mod_pos_bound n d Hd) as Hr.
  destruct (Z.ltb_spec (2 * (n mod d)) d); [nia|].
  destruct (Z.ltb_spec d (2 * (n mod d))); [nia|].
  destruct (Z.even (n / d)); nia.
Qed.

(** A quotient at or above the midpoint below an even [k] rounds to at
    least [k]. *)
Lemma round_half_even_ge (n d k : Z) :
  0 < d -> Z.even k = true -> (2 * k - 1) * d <= 2 * n -> k <= round_half_even n d.
Proof.
  intros Hd Hk Hn. unfold round_half_even.
  pose proof (Z.div_mod n d ltac:(lia)) as E.
  pose proof (Z.mod_pos_bound n d Hd) as Hr.
  destruct (Z.ltb_spec (2 * (n mod d)) d); [nia|].
  destruct (Z.ltb_spec d (2 * (n mod d))); [nia|].
  destruct (Z.even (n / d)) eqn:Ev; [|nia].
  assert (Hq : k - 1 <= n / d) by nia.
  destruct (Z.eq_dec (n / d) (k - 1)) as [Eq|]; [|lia].
  rewrite Eq in Ev. replace (k - 1) with (Z.pred k) in Ev by lia.
  rewrite Z.even_pred in Ev. rewrite <- Z.negb_even, Hk in Ev. discriminate.
Qed.

(** A quotient below the midpoint above [k] rounds to at most [k]. *)
Lemma round_half_even_le (n d k : Z) :
  0 < d -> 2 * n < (2 * k + 1) * d -> round_half_even n d <= k.
Proof.
  intros Hd Hn. pose proof (round_half_even_near n Hd). nia.
Qed.


Lemma pow2_ge_2 (k : Z) : 1 <= k -> 2 <= 2 ^ k.
Proof.
  intros Hk. change 2 with (2 ^ 1) at 1. apply Z.pow_le_mono_r; lia.
Qed.

(** Scaled by a power of two of at least 2, a rounded third truncates to
    the integer third. *)
Lemma third_rounded_truncates (n P : Z) :
  0 <= n -> 2 <= P -> round_half_even (n * P) 3 / P = n / 3.
Proof.
  intros Hn HP.
  pose proof (@round_half_even_near (n * P) 3 ltac:(lia)) as Hm.
  set (m := round_half_even (n * P) 3) in *.
  pose proof (Z.div_mod n 3 ltac:(lia)) as E.
  pose proof (Z.mod_pos_bound n 3 ltac:(lia)) as Hr.
  set (q := n / 3) in *. set (r := n mod 3) in *.
  symmetry. apply Z.div_unique with (r := m - P * q); [|lia].
  left. assert (Hnp : n * P = 3 * (P * q) + r * P) by (rewrite E; ring).
  set (w := P * q) in *.
  assert (Hc : r = 0 \/ r = 1 \/ r = 2) by lia.
  destruct Hc as [-> | [-> | ->]]; lia.
Qed.

(** The exponent chosen for a quotient below [3 * 2^52 / 3]. *)
Lemma third_exponent_small (n : Z) :
  0 < n -> n < 3 * 2 ^ 52 ->
  let e0 := Z.log2 n - Z.log2 3 in
  let e := if n * 2 ^ Z.max 0 (- e0) <? 3 * 2 ^ Z.max 0 e0 then e0 - 1 else e0 in
  -2 <= e <= 51.
Proof.
  intros Hn Hb. change (Z.log2 3) with 1.
  assert (Hl : 0 <= Z.log2 n < 54).
  { split; [apply Z.log2_nonneg|]. apply Z.log2_lt_pow2; [exact Hn|]. lia. }
  cbv zeta.
  destruct (Z.eq_dec (Z.log2 n) 53) as [E|E].
  - rewrite E. change (Z.max 0 (- (53 - 1))) with 0. change (Z.max 0 (53 - 1)) with 52.
    rewrite Z.pow_0_r, Z.mul_1_r.
    destruct (Z.ltb_spec n (3 * 2 ^ 52)); lia.
  - destruct (_ <? _); lia.
Qed.

Lemma int_truediv_third_small (a : Z) :
  Z.abs a < 3 * 2 ^ 52 ->
  exists f, int_truediv a 3 = Ok f /\ int_of_float f = Z.quot a 3.
Proof.
  intros Ha. unfold int_truediv. change (3 =? 0) with false. cbv iota.
  destruct (Z.eqb_spec a 0) as [->|Hne].
  { eexists. split; reflexivity. }
  change (Z.abs 3) with 3. change (Z.sgn 3) with 1.
  pose proof (@third_exponent_small (Z.abs a) ltac:(lia) Ha) as He. cbv zeta in He.
  set (e := if _ <? _ then _ else _) in *.
  replace (Z.max (e - 52) (-1074)) with (e - 52) by lia.
  replace (Z.max 0 (- (e - 52))) with (52 - e) by lia.
  replace (Z.max 0 (e - 52)) with 0 by lia.
  rewrite Z.pow_0_r, Z.mul_1_r.
  pose proof (@pow2_ge_2 (52 - e) ltac:(lia)) as HP.
  assert (HP' : 2 ^ (52 - e) <= 2 ^ 54) by (apply Z.pow_le_mono_r; lia).
  pose proof (@third_rounded_truncates (Z.abs a) (2 ^ (52 - e)) ltac:(lia) HP) as Ht.
  pose proof (@round_half_even_near (Z.abs a * 2 ^ (52 - e)) 3 ltac:(lia)) as Hm.
  set (P := 2 ^ (52 - e)) in *.
  set (m := round_half_even (Z.abs a * P) 3) in *.
  assert (Hm0 : 0 <= m) by nia.
  assert (Hlog : Z.log2 m < 200).
  { destruct (Z.eq_dec m 0) as [->|]; [reflexivity|].
    apply Z.log2_lt_pow2; [lia|].
    assert (m <= Z.abs a * P) by nia.
    assert (Z.abs a * P <= 3 * 2 ^ 52 * 2 ^ 54) by nia.
    assert (3 * 2 ^ 52 * 2 ^ 54 < 2 ^ 200) by reflexivity. lia. }
  destruct (Z.leb_spec 1024 (Z.log2 m + (e - 52))); [lia|].
  eexists. split; [reflexivity|].
  unfold int_of_float. cbn [mant expo].
  destruct (Z.leb_spec 0 (e - 52)); [lia|].
  replace (- (e - 52)) with (52 - e) by lia. fold P.
  destruct (Z.lt_total a 0) as [Hneg|[->|Hpos]]; [| lia |].
  - rewrite (Z.sgn_neg a Hneg). replace (-1 * 1 * m) with (- m) by ring.
    rewrite Z.quot_opp_l by lia. rewrite Z.quot_div_nonneg by lia. rewrite Ht.
    rewrite <- (Z.opp_involutive a) at 2. rewrite Z.quot_opp_l by lia.
    rewrite Z.quot_div_nonneg by lia. rewrite Z.abs_neq by lia. reflexivity.
  - rewrite (Z.sgn_pos a Hpos). replace (1 * 1 * m) with m by ring.
    rewrite Z.quot_div_nonneg by lia. rewrite Ht.
    rewrite Z.quot_div_nonneg by lia. rewrite Z.abs_eq by lia. reflexivity.
Qed.


(** The exponent chosen for a quotient of at least [2^52]. *)
Lemma third_exponent_large (n : Z) :
  3 * 2 ^ 52 <= n ->
  let e0 := Z.log2 n - Z.log2 3 in
  let e := if n * 2 ^ Z.max 0 (- e0) <? 3 * 2 ^ Z.max 0 e0 then e0 - 1 else e0 in
  52 <= e /\ 3 * 2 ^ e <= n < 3 * 2 ^ (e + 1).
Proof.
  intros Hb. change (Z.log2 3) with 1.
  assert (Hn : 0 < n) by lia.
  pose proof (Z.log2_spec n Hn) as [Hlo Hhi].
  assert (Hl : 53 <= Z.log2 n).
  { apply Z.log2_le_pow2; [exact Hn|]. lia. }
  set (l := Z.log2 n) in *. cbv zeta.
  replace (Z.max 0 (- (l - 1))) with 0 by lia.
  replace (Z.max 0 (l - 1)) with (l - 1) by lia.
  rewrite Z.pow_0_r, Z.mul_1_r.
  assert (E1 : 2 ^ l = 2 * 2 ^ (l - 1)).
  { rewrite <- Z.pow_succ_r by lia. f_equal. lia. }
  assert (E2 : 2 ^ Z.succ l = 4 * 2 ^ (l - 1)).
  { rewrite Z.pow_succ_r by lia. lia. }
  destruct (Z.ltb_spec n (3 * 2 ^ (l - 1))) as [Hlt|Hge].
  - assert (E3 : 2 ^ (l - 1) = 2 * 2 ^ (l - 1 - 1)).
    { rewrite <- Z.pow_succ_r by lia. f_equal. lia. }
    replace (l - 1 - 1 + 1) with (l - 1) by lia.
    split; [|lia].
    destruct (Z.eq_dec l 53) as [E|]; [|lia].
    rewrite E in Hlt. change (53 - 1) with 52 in Hlt. lia.
  - replace (l - 1 + 1) with l by lia. split; [lia|]. lia.
Qed.

Lemma log2_binade (m k : Z) : 0 <= k -> 2 ^ k <= m < 2 ^ (k + 1) -> Z.log2 m = k.
Proof. intros Hk Hm. apply Z.log2_unique; [exact Hk|]. exact Hm. Qed.

(** The largest integer quotient by 3 that a float can hold: beyond it
    the rounded quotient would be [2^1024]. *)
Lemma int_truediv_third_range (a : Z) :
  0 <= a ->
  (3 * (2 ^ 1024 - 2 ^ 970) <= a -> int_truediv a 3 = Err OverflowError) /\
  (a < 3 * (2 ^ 1024 - 2 ^ 970) -> exists f, int_truediv a 3 = Ok f).
Proof.
  intros Ha.
  destruct (Z.lt_ge_cases a (3 * 2 ^ 52)) as [Hs|Hl].
  { split.
    - intros Hbig. assert (3 * 2 ^ 52 < 3 * (2 ^ 1024 - 2 ^ 970)) by reflexivity. lia.
    - intros _. destruct (@int_truediv_third_small a) as (f & Hf & _); [lia|].
      exists f. exact Hf. }
  unfold int_truediv. change (3 =? 0) with false. cbv iota.
  destruct (Z.eqb_spec a 0) as [->|Hne]; [lia|].
  change (Z.abs 3) with 3. rewrite (Z.abs_eq a Ha).
  pose proof (@third_exponent_large a Hl) as He. cbv zeta in He.
  set (e := if _ <? _ then _ else _) in *.
  destruct He as (He & Hlo & Hhi).
  replace (Z.max (e - 52) (-1074)) with (e - 52) by lia.
  replace (Z.max 0 (- (e - 52))) with 0 by lia.
  replace (Z.max 0 (e - 52)) with (e - 52) by lia.
  rewrite Z.pow_0_r, Z.mul_1_r.
  set (u := e - 52) in *.
  assert (Hu : 0 <= u) by lia.
  assert (Ee : 2 ^ e = 2 ^ u * 2 ^ 52).
  { rewrite <- Z.pow_add_r by lia. f_equal. lia. }
  assert (Ee1 : 2 ^ (e + 1) = 2 ^ u * 2 ^ 53).
  { rewrite <- Z.pow_add_r by lia. f_equal. lia. }
  assert (HU : 0 < 2 ^ u) by (apply Z.pow_pos_nonneg; lia).
  set (U := 2 ^ u) in *.
  pose proof (@round_half_even_near a (3 * U) ltac:(lia)) as Hm.
  set (m := round_half_even a (3 * U)) in *.
  assert (Hmr : 2 ^ 52 <= m <= 2 ^ 53) by nia.
  assert (Hlog : Z.log2 m = 52 \/ (m = 2 ^ 53 /\ Z.log2 m = 53)).
  { destruct (Z.eq_dec m (2 ^ 53)) as [->|]; [right; split; reflexivity|].
    left. apply log2_binade; [lia|]. change (52 + 1) with 53. lia. }
  assert (Q970 : 2 ^ 1024 = 2 ^ 54 * 2 ^ 970) by reflexivity.
  split.
  - intros Hbig.
    assert (Hu971 : 971 <= u).
    { destruct (Z.le_gt_cases 971 u) as [|Hlt]; [assumption|].
      assert (U <= 2 ^ 970) by (apply Z.pow_le_mono_r; lia). nia. }
    destruct (Z.eq_dec u 971) as [E|].
    + assert (EU : U = 2 * 2 ^ 970) by (unfold U; rewrite E; reflexivity).
      assert (Hge : 2 ^ 53 <= m).
      { apply round_half_even_ge; [lia | reflexivity |]. nia. }
      assert (53 <= Z.log2 m) by (apply Z.log2_le_pow2; lia).
      destruct (Z.leb_spec 1024 (Z.log2 m + u)); [reflexivity|lia].
    + destruct (Z.leb_spec 1024 (Z.log2 m + u)); [reflexivity|lia].
  - intros Hsmall.
    assert (Hu971 : u <= 971).
    { destruct (Z.le_gt_cases u 971) as [|Hgt]; [assumption|].
      assert (2 ^ 972 <= U) by (apply Z.pow_le_mono_r; lia).
      assert (2 ^ 972 = 4 * 2 ^ 970) by reflexivity. nia. }
    destruct (Z.eq_dec u 971) as [E|].
    + assert (EU : U = 2 * 2 ^ 970) by (unfold U; rewrite E; reflexivity).
      assert (Hle : m <= 2 ^ 53 - 1).
      { apply round_half_even_le; [lia|]. nia. }
      destruct Hlog as [Hlog|[Hm53 _]]; [|lia].
      rewrite Hlog. destruct (Z.leb_spec 1024 (52 + u)); [lia|].
      eexists. reflexivity.
    + destruct (Z.leb_spec 1024 (Z.log2 m + u)); [lia|]. eexists. reflexivity.
Qed.

End Floats.


(* ===================================================================== *)
(** * The angle of position 1 *)
(* ===================================================================== *)

Section Trig.

Lemma sin_1_lower : (4 / 5 < sin 1)%R.
Proof.
  assert (H : (sin_lb 1 <= sin 1)%R).
  { apply SIN; [lra|]. pose proof PI2_1. lra. }
  eapply Rlt_le_trans; [|exact H].
  unfold sin_lb, sin_approx, sin_term. simpl. lra.
Qed.

(** Position 1 at the base frequency (index 0): the angle is 1 radian. *)
Lemma base_angle (d : nat) :
  (INR 1 * (1 / Rpower default_theta (INR 0 / INR d)) = 1)%R.
Proof.
  simpl. unfold Rdiv at 2. rewrite Rmult_0_l.
  rewrite Rpower_O by (unfold default_theta; lra). lra.
Qed.

End Trig.


Section LinearItems.

Lemma in_bounds_app (sh1 sh2 i1 i2 : list nat) :
  in_bounds sh1 i1 -> in_bounds sh2 i2 -> in_bounds (sh1 ++ sh2) (i1 ++ i2).
Proof. unfold in_bounds. apply Forall2_app. Qed.

(** [F.linear] is the matrix product with the transposed weight. *)
Lemma linear_items (l : Linear) (x : tensor R) (pre : list nat) :
  shape x = pre ++ [in_features l] ->
  exists y,
    linear l x = Ok y /\ shape y = pre ++ [out_features l] /\
    forall row o,
      in_bounds pre row -> o < out_features l ->
      item y (row ++ [o]) =
      sum_upto (in_features l)
               (fun k => Rmult (item x (row ++ [k])) (item (weight l) [o; k])).
Proof.
  intros Hx. unfold linear. rewrite Hx, rev_app_distr. cbn [rev app].
  rewrite Nat.eqb_refl, rev_involutive.
  eexists. split; [reflexivity|]. split; [reflexivity|].
  intros row o Hrow Ho.
  rewrite item_build by (apply in_bounds_app; [exact Hrow | repeat constructor; exact Ho]).
  rewrite removelast_last, last_last. reflexivity.
Qed.

End LinearItems.


Section Tiny.

Lemma tiny_config : config_ok tiny_args.
Proof. constructor; cbn; try reflexivity; lia. Qed.

Lemma tiny_attention_wf (a : Attention) :
  Attention_init tiny_init tiny_args = Ok a -> Attention_wf tiny_args a.
Proof. apply Attention_init_wf. Qed.

End Tiny.


Section TinyModel.

Lemma tiny_model_wf (t : Transformer) :
  Transformer_init tiny_init tiny_args = Ok t ->
  Transformer_wf t /\ params t = tiny_args /\ length (layers t) = 2.
Proof. apply Transformer_init_wf. exact tiny_config. Qed.

Lemma tiny_tokens_in_vocab (bsz s : nat) (v : nat) :
  0 < v -> Forall (fun tok => tok < v) (data (tiny_tokens bsz s)).
Proof.
  intros Hv. apply Forall_forall. intros x Hx.
  unfold tiny_tokens, full, build in Hx. cbn [data] in Hx.
  apply in_map_iff in Hx. destruct Hx as (i & <- & _). exact Hv.
Qed.

End TinyModel.

(* ===================================================================== *)
(** * Facts used beyond the claims *)
(* ===================================================================== *)

(** ** Shapes with axes of size one *)

Section Broadcast.

Lemma broadcast_rev_ones (mid : list nat) (s b : nat) :
  broadcast_rev (mid ++ [s; b]) (map (fun _ => 1) mid ++ [s; 1]) = Some (mid ++ [s; b]).
Proof.
  induction mid as [|m mid IH].
  - cbn [map app broadcast_rev]. rewrite broadcast_dim_refl, broadcast_dim_1_r. reflexivity.
  - cbn [map app broadcast_rev]. rewrite broadcast_dim_1_r, IH. reflexivity.
Qed.

Lemma enumerate_inner (mid : list nat) (d k n : nat) :
  1 < k -> n = k + length mid ->
  map (fun id : nat * nat => if (fst id =? 1) || (fst id =? n) then snd id else 1)
      (combine (seq k (length (mid ++ [d]))) (mid ++ [d])) =
  map (fun _ => 1) mid ++ [d].
Proof.
  revert k. induction mid as [|m mid IH]; intros k Hk Hn.
  - cbn. replace (k =? n) with true by (symmetry; apply Nat.eqb_eq; simpl in Hn; lia).
    rewrite orb_true_r. reflexivity.
  - cbn [app length seq combine map fst snd].
    replace (k =? 1) with false by (symmetry; apply Nat.eqb_neq; lia).
    replace (k =? n) with false by (symmetry; apply Nat.eqb_neq; simpl in Hn; lia).
    cbn [orb]. f_equal. apply IH; [lia | simpl in Hn; lia].
Qed.

Lemma numel_ones (mid : list nat) (d : nat) : numel (map (fun _ => 1) mid ++ [d]) = d.
Proof.
  induction mid as [|m mid IH]; cbn [map app].
  - unfold numel; simpl. lia.
  - rewrite numel_cons, IH. lia.
Qed.

Lemma ravel_ones (mid imid : list nat) (d k : nat) :
  length imid = length mid ->
  ravel (map (fun _ => 1) mid ++ [d]) (map (fun _ => 0) imid ++ [k]) = k.
Proof.
  revert imid. induction mid as [|m mid IH]; intros [|i imid] Hl; try discriminate.
  - cbn. lia.
  - cbn [map app ravel]. rewrite IH by (simpl in Hl; lia). lia.
Qed.

Lemma bcast_index_ones (mid imid : list nat) (d k : nat) :
  Forall2 lt imid mid -> k < d ->
  map (fun di : nat * nat => if fst di =? 1 then 0 else snd di)
      (combine (map (fun _ => 1) mid ++ [d]) (imid ++ [k])) =
  map (fun _ => 0) imid ++ [k].
Proof.
  intros HF Hk. induction HF as [|i m imid mid Him HF IH].
  - cbn. destruct (Nat.eqb_spec d 1); [f_equal; lia | reflexivity].
  - cbn [map app combine fst snd]. cbn [Nat.eqb]. f_equal. exact IH.
Qed.

End Broadcast.

(** ** Sums, broadcast indices, RMSNorm entry by entry *)

Section Sums.

Lemma sum_upto_ext (n : nat) (f g : nat -> R) :
  (forall k, k < n -> f k = g k) -> sum_upto n f = sum_upto n g.
Proof.
  intros Hfg. unfold sum_upto. f_equal. apply map_ext_in.
  intros k Hk. apply in_seq in Hk. apply Hfg. lia.
Qed.

Lemma sum_upto_S (n : nat) (f : nat -> R) :
  sum_upto (S n) f = Rplus (sum_upto n f) (f n).
Proof.
  unfold sum_upto. rewrite seq_S, map_app, fold_right_app. cbn [map fold_right Nat.add].
  generalize (map f (seq 0 n)) as l. induction l as [|a l IH]; cbn [fold_right].
  - ring.
  - rewrite IH. ring.
Qed.

Lemma sum_upto_scal (n : nat) (c : R) (f : nat -> R) :
  sum_upto n (fun k => Rmult c (f k)) = Rmult c (sum_upto n f).
Proof.
  induction n as [|n IH].
  - unfold sum_upto. cbn. ring.
  - rewrite !sum_upto_S, IH. ring.
Qed.

Lemma sum_upto_nonneg (n : nat) (f : nat -> R) :
  (forall k, k < n -> (0 <= f k)%R) -> (0 <= sum_upto n f)%R.
Proof.
  induction n as [|n IH]; intros Hf.
  - unfold sum_upto. cbn. lra.
  - rewrite sum_upto_S. specialize (Hf n (Nat.lt_succ_diag_r n)) as Hn.
    assert (0 <= sum_upto n f)%R by (apply IH; intros k Hk; apply Hf; lia). lra.
Qed.

End Sums.

Section BroadcastIndex.

Lemma bcast_index_map_id (sh idx : list nat) :
  in_bounds sh idx ->
  map (fun di : nat * nat => if fst di =? 1 then 0 else snd di) (combine sh idx) = idx.
Proof.
  intros Hin. induction Hin as [|i d idx sh Hid Hin IH]; [reflexivity|].
  cbn [combine map fst snd]. rewrite IH. f_equal.
  destruct (Nat.eqb_spec d 1); lia.
Qed.

Lemma bcast_index_id (sh idx : list nat) :
  in_bounds sh idx -> bcast_index sh idx = idx.
Proof.
  intros Hin. unfold bcast_index. rewrite (in_bounds_length Hin), Nat.sub_diag.
  cbn [skipn]. apply bcast_index_map_id. exact Hin.
Qed.

Lemma bcast_index_keepdim (pre row : list nat) (j : nat) :
  in_bounds pre row -> bcast_index (pre ++ [1]) (row ++ [j]) = row ++ [0].
Proof.
  intros Hin. unfold bcast_index.
  rewrite !length_app, (in_bounds_length Hin), Nat.sub_diag. cbn [skipn].
  induction Hin as [|i d row pre Hid Hin IH]; [reflexivity|].
  cbn [app combine map fst snd]. rewrite IH. f_equal.
  destruct (Nat.eqb_spec d 1); lia.
Qed.

Lemma bcast_index_vector (row : list nat) (d j : nat) :
  j < d -> bcast_index [d] (row ++ [j]) = [j].
Proof.
  intros Hj. unfold bcast_index. rewrite length_app. cbn [length].
  replace (length row + 1 - 1) with (length row + 0) by lia.
  rewrite skipn_app, skipn_all2 by lia.
  replace (length row + 0 - length row) with 0 by lia.
  cbn [app skipn combine map fst snd].
  destruct (Nat.eqb_spec d 1); [f_equal; lia | reflexivity].
Qed.

End BroadcastIndex.

Section Norm.

Lemma mean_last_items (t : tensor R) (pre : list nat) (d : nat) :
  shape t = pre ++ [d] ->
  mean_last t =
  Ok (build (pre ++ [1]) (fun idx =>
        Rdiv (sum_upto d (fun k => item t (removelast idx ++ [k]))) (INR d))).
Proof.
  intros Ht. unfold mean_last. rewrite Ht, rev_app_distr. cbn [rev app].
  rewrite rev_involutive. reflexivity.
Qed.

Lemma binop_build {A B C} `{Default A} `{Default B} (f : A -> B -> C)
    (a : tensor A) (b : tensor B) (sh : list nat) :
  broadcast_shapes (shape a) (shape b) = Some sh ->
  binop f a b =
  Ok (build sh (fun idx =>
        f (item a (bcast_index (shape a) idx)) (item b (bcast_index (shape b) idx)))).
Proof. intros Hb. unfold binop. rewrite Hb. reflexivity. Qed.

Lemma in_bounds_row (pre row : list nat) (d j : nat) :
  in_bounds pre row -> j < d -> in_bounds (pre ++ [d]) (row ++ [j]).
Proof. intros Hr Hj. apply in_bounds_app; [exact Hr | repeat constructor; exact Hj]. Qed.

Lemma RMSNorm_forward_items (n : RMSNorm) (x : tensor R) (pre : list nat) (d : nat) :
  RMSNorm_wf d n -> wf x -> shape x = pre ++ [d] ->
  exists y,
    RMSNorm_forward n x = Ok y /\ shape y = pre ++ [d] /\
    forall row j,
      in_bounds pre row -> j < d ->
      item y (row ++ [j]) =
      Rmult (Rmult (item x (row ++ [j]))
                   (rsqrt (Rplus (Rdiv (sum_upto d (fun k =>
                                          Rmult (item x (row ++ [k])) (item x (row ++ [k]))))
                                       (INR d))
                                 (eps n))))
            (item (norm_weight n) [j]).
Proof.
  intros [Hw] Hwfx Hx. unfold RMSNorm_forward, RMSNorm_norm.
  rewrite (@mean_last_items (tmap (fun v => Rmult v v) x) pre d Hx).
  cbn [bind]. unfold mul.
  set (m := build (pre ++ [1]) _).
  rewrite (@binop_build _ _ _ _ _ Rmult x _ (pre ++ [d]))
    by (cbn [tmap shape]; rewrite Hx; apply broadcast_keepdim).
  cbn [bind].
  rewrite (@binop_build _ _ _ _ _ Rmult _ (norm_weight n) (pre ++ [d]))
    by (cbn [shape build]; rewrite Hw; apply broadcast_vector).
  eexists. split; [reflexivity|]. split; [reflexivity|].
  intros row j Hrow Hj.
  pose proof (@in_bounds_row pre row d j Hrow Hj) as Hin.
  rewrite item_build by exact Hin.
  cbn [shape build]. rewrite item_build by (rewrite bcast_index_id by exact Hin; exact Hin).
  rewrite Hw, (@bcast_index_vector row d j Hj).
  rewrite !(@bcast_index_id (pre ++ [d]) (row ++ [j]) Hin).
  rewrite Hx, !(@bcast_index_id (pre ++ [d]) (row ++ [j]) Hin).
  change (shape (tmap rsqrt (tmap (fun v : R => Rplus v (eps n)) m))) with (pre ++ [1]).
  rewrite (@bcast_index_keepdim pre row j Hrow).
  f_equal. f_equal.
  assert (Hin0 : in_bounds (pre ++ [1]) (row ++ [0])) by (apply in_bounds_row; [exact Hrow|lia]).
  assert (Hlt : ravel (shape m) (row ++ [0]) < length (data m)).
  { unfold m. rewrite (wf_build (pre ++ [1]) _). apply ravel_lt. exact Hin0. }
  rewrite item_tmap by (cbn [tmap shape data]; rewrite length_map; exact Hlt).
  rewrite item_tmap by exact Hlt.
  f_equal. f_equal. unfold m. rewrite item_build by exact Hin0.
  rewrite removelast_last. f_equal.
  apply sum_upto_ext. intros k Hk.
  rewrite (@item_tmap _ _ _ _ (fun v => Rmult v v) x (row ++ [k])); [reflexivity|].
  rewrite Hwfx. apply ravel_lt. rewrite Hx.
  apply in_bounds_row; assumption.
Qed.

End Norm.

Section NormScale.

Lemma rsqrt_sqr (v : R) : (0 < v)%R -> Rmult (rsqrt v) (rsqrt v) = Rinv v.
Proof.
  intros Hv. unfold rsqrt. rewrite <- Rinv_mult, sqrt_sqrt by lra. reflexivity.
Qed.

Lemma mean_square_nonneg (d : nat) (f : nat -> R) :
  1 <= d -> (0 <= Rdiv (sum_upto d (fun k => Rmult (f k) (f k))) (INR d))%R.
Proof.
  intros Hd. apply Rmult_le_pos.
  - apply sum_upto_nonneg. intros k _. apply Rle_0_sqr.
  - apply Rlt_le, Rinv_0_lt_compat. apply lt_0_INR. lia.
Qed.

Lemma full_vector_item {A} `{Default A} (d j : nat) (v : A) :
  j < d -> item (full [d] v) [j] = v.
Proof.
  intros Hj. unfold full. rewrite item_build by (repeat constructor; exact Hj). reflexivity.
Qed.

End NormScale.

(** ** FeedForward entry by entry *)

Section FeedForwardItems.

Lemma linear_width_mismatch (l : Linear) (x : tensor R) (pre : list nat) (d : nat) :
  shape x = pre ++ [d] -> d <> in_features l -> linear l x = Err RuntimeError.
Proof.
  intros Hx Hd. unfold linear. rewrite Hx, rev_app_distr. cbn [rev app].
  destruct (Nat.eqb_spec d (in_features l)); [contradiction | reflexivity].
Qed.

Lemma FeedForward_forward_items (f : FeedForward) (x : tensor R) (pre : list nat) (d : nat) :
  FeedForward_wf d f -> shape x = pre ++ [d] ->
  exists y,
    FeedForward_forward f x = Ok y /\ shape y = pre ++ [d] /\
    forall row o,
      in_bounds pre row -> o < d ->
      item y (row ++ [o]) =
      sum_upto (out_features (w1 f)) (fun h =>
        Rmult (Rmult (silu (sum_upto d (fun k =>
                              Rmult (item x (row ++ [k])) (item (weight (w1 f)) [h; k]))))
                     (sum_upto d (fun k =>
                        Rmult (item x (row ++ [k])) (item (weight (w3 f)) [h; k]))))
              (item (weight (w2 f)) [o; h])).
Proof.
  intros [H1 H3i H3o H2i H2o] Hx. unfold FeedForward_forward.
  destruct (@linear_items (w1 f) x pre) as (u & Hu & Hus & Hui); [rewrite H1; exact Hx|].
  destruct (@linear_items (w3 f) x pre) as (v & Hv & Hvs & Hvi); [rewrite H3i; exact Hx|].
  rewrite Hu, Hv. cbn [bind]. unfold mul.
  rewrite (@binop_build _ _ _ _ _ Rmult (tmap silu u) v (pre ++ [out_features (w1 f)]))
    by (cbn [tmap shape]; rewrite Hus, Hvs, H3o; apply broadcast_shapes_refl).
  cbn [bind].
  set (g := build _ _).
  destruct (@linear_items (w2 f) g pre) as (y & Hy & Hys & Hyi); [rewrite H2i; reflexivity|].
  rewrite Hy. exists y. split; [reflexivity|]. split; [rewrite Hys, H2o; reflexivity|].
  intros row o Hrow Ho.
  rewrite (Hyi row o Hrow) by (rewrite H2o; exact Ho).
  rewrite H2i. apply sum_upto_ext. intros h Hh. f_equal.
  pose proof (@in_bounds_row pre row (out_features (w1 f)) h Hrow Hh) as Hin.
  unfold g. rewrite item_build by exact Hin.
  cbn [tmap shape]. rewrite Hus, Hvs, H3o.
  rewrite !(@bcast_index_id _ _ Hin).
  destruct (@linear_inv (w1 f) x u Hu) as (_ & _ & _ & Hwfu).
  rewrite item_tmap by (rewrite Hwfu; apply ravel_lt; rewrite Hus; exact Hin).
  rewrite (Hui row h Hrow Hh), (Hvi row h Hrow) by (rewrite H3o; exact Hh).
  rewrite H1, H3i. reflexivity.
Qed.

End FeedForwardItems.

(** ** Outcomes of the constructors *)

Section ConstructorOutcomes.

Variable init : initializer.
Variable args : ModelArgs.

(** Line 223 on the [4 * dim] of line 248: the quotient [8 * dim / 3]
    is a float as long as it rounds below [2^1024]. *)
Lemma FeedForward_init_pos (d m : nat) :
  m <> 0 -> (8 * Z.of_nat (dim args) < 3 * (2 ^ 1024 - 2 ^ 970))%Z ->
  exists f, FeedForward_init init d (4 * dim args) m = Ok f.
Proof.
  intros Hm Hfit. unfold FeedForward_init, FeedForward_hidden_dim.
  destruct (@int_truediv_third_range (2 * Z.of_nat (4 * dim args))%Z ltac:(lia))
    as [_ Hok].
  destruct Hok as (q & ->); [lia|]. cbn [bind].
  replace (Z.of_nat m =? 0)%Z with false by (symmetry; apply Z.eqb_neq; lia).
  cbn [bind]. eexists. reflexivity.
Qed.

Lemma FeedForward_init_too_wide (d m : nat) :
  (3 * (2 ^ 1024 - 2 ^ 970) <= 8 * Z.of_nat (dim args))%Z ->
  FeedForward_init init d (4 * dim args) m = Err OverflowError.
Proof.
  intros Hwide. unfold FeedForward_init, FeedForward_hidden_dim.
  destruct (@int_truediv_third_range (2 * Z.of_nat (4 * dim args))%Z ltac:(lia))
    as [Hov _].
  rewrite Hov by lia. reflexivity.
Qed.

Lemma FeedForward_init_no_alignment (d : nat) :
  (8 * Z.of_nat (dim args) < 3 * (2 ^ 1024 - 2 ^ 970))%Z ->
  FeedForward_init init d (4 * dim args) 0 = Err ZeroDivisionError.
Proof.
  intros Hfit. unfold FeedForward_init, FeedForward_hidden_dim.
  destruct (@int_truediv_third_range (2 * Z.of_nat (4 * dim args))%Z ltac:(lia))
    as [_ Hok].
  destruct Hok as (q & ->); [lia|]. reflexivity.
Qed.

Lemma TransformerBlock_init_no_heads (id : nat) :
  n_heads args = 0 -> TransformerBlock_init init id args = Err ZeroDivisionError.
Proof. intros H0. unfold TransformerBlock_init, floordiv. rewrite H0. reflexivity. Qed.

Lemma TransformerBlock_init_no_alignment (id : nat) :
  n_heads args <> 0 -> multiple_of args = 0 ->
  (8 * Z.of_nat (dim args) < 3 * (2 ^ 1024 - 2 ^ 970))%Z ->
  TransformerBlock_init init id args = Err ZeroDivisionError.
Proof.
  intros Hh Hm Hfit. unfold TransformerBlock_init, Attention_init, floordiv.
  replace (n_heads args =? 0) with false by (symmetry; apply Nat.eqb_neq; exact Hh).
  cbn [bind]. rewrite Hm, (FeedForward_init_no_alignment _ Hfit). reflexivity.
Qed.

Lemma TransformerBlock_init_too_wide (id : nat) :
  n_heads args <> 0 ->
  (3 * (2 ^ 1024 - 2 ^ 970) <= 8 * Z.of_nat (dim args))%Z ->
  TransformerBlock_init init id args = Err OverflowError.
Proof.
  intros Hh Hwide. unfold TransformerBlock_init, Attention_init, floordiv.
  replace (n_heads args =? 0) with false by (symmetry; apply Nat.eqb_neq; exact Hh).
  cbn [bind]. rewrite (FeedForward_init_too_wide _ _ Hwide). reflexivity.
Qed.

Lemma TransformerBlock_init_fresh (id : nat) :
  n_heads args <> 0 -> multiple_of args <> 0 ->
  (8 * Z.of_nat (dim args) < 3 * (2 ^ 1024 - 2 ^ 970))%Z ->
  exists b,
    TransformerBlock_init init id args = Ok b /\
    layer_id b = id /\
    cache_k (attention b) =
      zeros [max_batch_size args; max_seq_len args; n_heads args; dim args / n_heads args] /\
    cache_v (attention b) =
      zeros [max_batch_size args; max_seq_len args; n_heads args; dim args / n_heads args].
Proof.
  intros Hh Hm Hfit. unfold TransformerBlock_init, Attention_init, floordiv.
  replace (n_heads args =? 0) with false by (symmetry; apply Nat.eqb_neq; exact Hh).
  cbn [bind].
  destruct (@FeedForward_init_pos (dim args) (multiple_of args) Hm Hfit) as (f & Hf).
  rewrite Hf. cbn [bind]. eexists. split; [reflexivity|].
  cbn [layer_id attention cache_k cache_v]. repeat split.
Qed.

Lemma init_layers_fresh (k n : nat) :
  n_heads args <> 0 -> multiple_of args <> 0 ->
  (8 * Z.of_nat (dim args) < 3 * (2 ^ 1024 - 2 ^ 970))%Z ->
  exists bs,
    init_layers init (seq k n) args = Ok bs /\ length bs = n /\
    forall i b, nth_error bs i = Some b ->
      layer_id b = k + i /\
      cache_k (attention b) =
        zeros [max_batch_size args; max_seq_len args; n_heads args; dim args / n_heads args] /\
      cache_v (attention b) =
        zeros [max_batch_size args; max_seq_len args; n_heads args; dim args / n_heads args].
Proof.
  intros Hh Hm Hfit. revert k. induction n as [|n IH]; intros k.
  - exists []. split; [reflexivity|]. split; [reflexivity|]. intros [|i] b Hb; discriminate.
  - destruct (IH (S k)) as (bs & Hbs & Hlen & Hitems).
    destruct (@TransformerBlock_init_fresh k Hh Hm Hfit) as (b & Hb & Hfresh).
    exists (b :: bs). cbn [seq init_layers]. rewrite Hb, Hbs. cbn [bind].
    split; [reflexivity|]. split; [cbn [length]; lia|].
    intros [|i] b' Hnth; cbn [nth_error] in Hnth.
    + injection Hnth as <-. rewrite Nat.add_0_r. exact Hfresh.
    + replace (k + S i) with (S k + i) by lia. apply Hitems. exact Hnth.
Qed.

(** The loop of lines 272-273 stops at the first block that raises. *)
Lemma init_layers_raises (ids : list nat) (e : error) :
  ids <> [] -> (forall id, TransformerBlock_init init id args = Err e) ->
  init_layers init ids args = Err e.
Proof.
  intros Hne He. destruct ids as [|id ids]; [contradiction|].
  cbn [init_layers]. rewrite He. reflexivity.
Qed.

Lemma seq_not_nil (n : nat) : n <> 0 -> seq 0 n <> [].
Proof. destruct n; [contradiction | discriminate]. Qed.

Lemma Transformer_init_raises :
  n_heads args = 0 \/
  (n_layers args <> 0 /\ multiple_of args = 0 /\
   (8 * Z.of_nat (dim args) < 3 * (2 ^ 1024 - 2 ^ 970))%Z) ->
  Transformer_init init args = Err ZeroDivisionError.
Proof.
  intros Hz. unfold Transformer_init.
  destruct (Nat.eq_dec (n_heads args) 0) as [Hh|Hh].
  - destruct (Nat.eq_dec (n_layers args) 0) as [Hl|Hl].
    + rewrite Hl. cbn [seq init_layers bind]. unfold floordiv. rewrite Hh. reflexivity.
    + rewrite (@init_layers_raises (seq 0 (n_layers args)) ZeroDivisionError
                 (seq_not_nil Hl)); [reflexivity|].
      intros id. apply TransformerBlock_init_no_heads. exact Hh.
  - destruct Hz as [Hz|(Hl & Hm & Hfit)]; [contradiction|].
    rewrite (@init_layers_raises (seq 0 (n_layers args)) ZeroDivisionError
               (seq_not_nil Hl)); [reflexivity|].
    intros id. apply TransformerBlock_init_no_alignment; assumption.
Qed.

(** With at least one layer, a [dim] whose [8 * dim / 3] is beyond the
    floats stops the constructor at line 223. *)
Lemma Transformer_init_too_wide :
  n_heads args <> 0 -> n_layers args <> 0 ->
  (3 * (2 ^ 1024 - 2 ^ 970) <= 8 * Z.of_nat (dim args))%Z ->
  Transformer_init init args = Err OverflowError.
Proof.
  intros Hh Hl Hwide. unfold Transformer_init.
  rewrite (@init_layers_raises (seq 0 (n_layers args)) OverflowError (seq_not_nil Hl));
    [reflexivity|].
  intros id. apply TransformerBlock_init_too_wide; assumption.
Qed.

Lemma Transformer_init_returns :
  n_heads args <> 0 ->
  n_layers args = 0 \/
  (multiple_of args <> 0 /\ (8 * Z.of_nat (dim args) < 3 * (2 ^ 1024 - 2 ^ 970))%Z) ->
  exists t,
    Transformer_init init args = Ok t /\
    params t = args /\
    length (layers t) = n_layers args /\
    shape (freqs_cis t) = [max_seq_len args * 2; dim args / n_heads args / 2] /\
    precompute_freqs_cis (dim args / n_heads args) (max_seq_len args * 2) default_theta =
      Ok (freqs_cis t) /\
    forall i b, nth_error (layers t) i = Some b ->
      layer_id b = i /\
      cache_k (attention b) =
        zeros [max_batch_size args; max_seq_len args; n_heads args; dim args / n_heads args] /\
      cache_v (attention b) =
        zeros [max_batch_size args; max_seq_len args; n_heads args; dim args / n_heads args].
Proof.
  intros Hh Hm.
  assert (Hls : exists bs,
    init_layers init (seq 0 (n_layers args)) args = Ok bs /\ length bs = n_layers args /\
    forall i b, nth_error bs i = Some b ->
      layer_id b = 0 + i /\
      cache_k (attention b) =
        zeros [max_batch_size args; max_seq_len args; n_heads args; dim args / n_heads args] /\
      cache_v (attention b) =
        zeros [max_batch_size args; max_seq_len args; n_heads args; dim args / n_heads args]).
  { destruct Hm as [Hl|[Hm Hfit]].
    - rewrite Hl. exists []. split; [reflexivity|]. split; [reflexivity|].
      intros [|i] b Hb; discriminate.
    - apply init_layers_fresh; assumption. }
  destruct Hls as (bs & Hbs & Hlen & Hitems).
  destruct (precompute_freqs_cis_items (dim args / n_heads args)
              (max_seq_len args * 2) default_theta) as (fc & Hfc & Hsh & _).
  unfold Transformer_init. rewrite Hbs. cbn [bind]. unfold floordiv.
  replace (n_heads args =? 0) with false by (symmetry; apply Nat.eqb_neq; exact Hh).
  cbn [bind]. rewrite Hfc. cbn [bind]. eexists. split; [reflexivity|].
  cbn [params layers freqs_cis]. split; [reflexivity|]. split; [exact Hlen|].
  split; [exact Hsh|]. split; [reflexivity|]. exact Hitems.
Qed.

End ConstructorOutcomes.

(** ** An odd head dimension *)

Section OddHeadDim.

Lemma squeeze_single_dim (x : tensor R) (s d : nat) :
  2 <= d -> shape x = [1; s; d] ->
  exists pre, shape (squeeze x) = pre ++ [d] /\ numel pre = s.
Proof.
  intros Hd Hx. unfold squeeze; simpl. rewrite Hx. simpl.
  destruct (Nat.eqb_spec d 1); [lia|].
  destruct (Nat.eqb_spec s 1); simpl.
  - exists []. simpl. auto.
  - exists [s]. simpl. split; [reflexivity | lia].
Qed.

Lemma odd_half (d : nat) : Nat.odd d = true -> d = 2 * (d / 2) + 1.
Proof.
  intros Ho. apply Nat.odd_spec in Ho. destruct Ho as [k ->].
  replace ((2 * k + 1) / 2) with k; [reflexivity|].
  apply Nat.div_unique with (r := 1); lia.
Qed.

Lemma rotate_odd (x : CKKSTensor) (h d seqlen : nat) (l r : tensor R) :
  shape (encrypted x) = [seqlen; h; d] -> Nat.odd d = true ->
  1 <= seqlen -> 1 <= h ->
  rotate x h d seqlen l r = Err ValueError.
Proof.
  intros Hx Ho Hs Hh. unfold rotate.
  rewrite ckks_reshape_err; [reflexivity|].
  rewrite Hx. pose proof (odd_half d Ho) as Hd.
  unfold numel; cbn [fold_right]. nia.
Qed.

Lemma apply_rotary_emb_odd (xq xk : CKKSTensor) (h d seqlen : nat) (fc : tensor complex) :
  shape (encrypted xq) = [seqlen; h; d] -> shape fc = [seqlen; d / 2] ->
  Nat.odd d = true -> 1 <= seqlen -> 1 <= h ->
  apply_rotary_emb xq xk h d seqlen fc = Err ValueError.
Proof.
  intros Hq Hfc Ho Hs Hh. unfold apply_rotary_emb.
  rewrite !getitem_ok by (simpl; rewrite Hfc; simpl; lia).
  cbn [bind view_as_real shape]. rewrite Hfc.
  cbn [app slice_shape]. rewrite !slice_len_All, !slice_len_Range. simpl Nat.min. simpl Nat.sub.
  set (ll := build _ _). set (rr := build _ _).
  destruct (@rotary_factor_ok seqlen (d / 2) ll ll Hs eq_refl eq_refl) as (l & -> & Hl).
  destruct (@rotary_factor_ok seqlen (d / 2) (neg rr) rr Hs eq_refl eq_refl) as (r & -> & Hr).
  cbn [bind]. rewrite (@rotate_odd xq h d seqlen l r Hq Ho Hs Hh). reflexivity.
Qed.

Variable args : ModelArgs.
Variable a : Attention.
Hypothesis Hwf : Attention_wf args a.

Lemma Attention_project_odd (x : tensor R) (s : nat) (fc : tensor complex) :
  1 <= n_heads args -> Nat.odd (dim args / n_heads args) = true -> 2 <= dim args ->
  shape x = [1; s; dim args] -> 1 <= s ->
  shape fc = [s; dim args / n_heads args / 2] ->
  Attention_project a x s fc = Err ValueError.
Proof.
  intros Hheads Ho Hdim Hx Hs Hfc. unfold Attention_project.
  destruct (@squeeze_single_dim x s (dim args) Hdim Hx) as (pre & Hsq & Hpre).
  destruct Hwf as [Hh Hhd Hqi Hqo Hki Hko Hvi Hvo _ _ _ _ _ _].
  remember (n_heads args) as H eqn:EH.
  remember (dim args / H) as D eqn:ED. clear ED EH.
  destruct (@bridge_ok (wq a) (ckks_tensor (squeeze x)) pre) as (yq & -> & Hyq & _);
    [rewrite Hqi; exact Hsq|].
  destruct (@bridge_ok (wk a) (ckks_tensor (squeeze x)) pre) as (yk & -> & Hyk & _);
    [rewrite Hki; exact Hsq|].
  destruct (@bridge_ok (wv a) (ckks_tensor (squeeze x)) pre) as (yv & -> & Hyv & _);
    [rewrite Hvi; exact Hsq|].
  cbn [bind].
  assert (Hn : forall y o, shape y = pre ++ [o] -> o = H * D ->
               numel [s; n_local_heads a; head_dim a] = numel (shape (encrypted (Enc y)))).
  { intros y o Hy ->. cbn [encrypted]. rewrite Hy, numel_app, Hpre, Hh, Hhd.
    cbn [numel fold_right]. ring. }
  rewrite !ckks_reshape_ok by (eapply Hn; eassumption).
  cbn [bind encrypted data].
  rewrite Hh, Hhd.
  rewrite (@apply_rotary_emb_odd (Enc (Tensor [s; H; D] (data yq)))
             (Enc (Tensor [s; H; D] (data yk))) H D s fc eq_refl Hfc Ho Hs Hheads).
  reflexivity.
Qed.

End OddHeadDim.

(** ** What a forward call leaves alone *)

Section SameWeights.

Lemma Attention_same_weights_refl (a : Attention) : Attention_same_weights a a.
Proof. repeat split. Qed.

Lemma TransformerBlock_same_weights_refl (b : TransformerBlock) :
  TransformerBlock_same_weights b b.
Proof. repeat split. Qed.

Lemma Forall2_same_weights_refl (ls : list TransformerBlock) :
  Forall2 TransformerBlock_same_weights ls ls.
Proof. induction ls; constructor; [apply TransformerBlock_same_weights_refl | assumption]. Qed.

Lemma setitem_shape {A} `{Default A} (ss : list slice) (t src t' : tensor A) :
  setitem ss t src = Ok t' -> shape t' = shape t.
Proof. intros Hs. apply setitem_inv in Hs. destruct Hs as [_ ->]. reflexivity. Qed.

Lemma Attention_write_cache_same_weights (bsz sp s : nat) (k v : tensor R) (a : Attention) :
  Attention_same_weights a (snd (Attention_write_cache bsz sp s k v a)).
Proof.
  unfold Attention_write_cache.
  destruct (setitem _ (cache_k a) k) as [ck|] eqn:Ek; [|apply Attention_same_weights_refl].
  cbn [set_cache_k cache_v].
  destruct (setitem _ (cache_v a) v) as [cv|] eqn:Ev; cbn [snd].
  - repeat split; cbn; [apply (setitem_shape _ _ _ Ek) | apply (setitem_shape _ _ _ Ev)].
  - repeat split; cbn; apply (setitem_shape _ _ _ Ek).
Qed.

Lemma Attention_forward_same_weights (x : tensor R) (sp : nat) (fc : tensor complex)
    (mask : option (tensor xreal)) (a : Attention) :
  Attention_same_weights a (snd (Attention_forward x sp fc mask a)).
Proof.
  unfold Attention_forward.
  destruct (shape x) as [|bsz [|s [|d0 [|? ?]]]]; try apply Attention_same_weights_refl.
  unfold mbind.
  destruct (Attention_project a x s fc) as [[[q k] v]|]; [|apply Attention_same_weights_refl].
  pose proof (Attention_write_cache_same_weights bsz sp s k v a) as Hw.
  destruct (Attention_write_cache bsz sp s k v a) as [[[]|e] a']; exact Hw.
Qed.

Lemma TransformerBlock_forward_same_weights (x : tensor R) (sp : nat) (fc : tensor complex)
    (mask : option (tensor xreal)) (b : TransformerBlock) :
  TransformerBlock_same_weights b (snd (TransformerBlock_forward x sp fc mask b)).
Proof.
  unfold TransformerBlock_forward.
  destruct (RMSNorm_forward (attention_norm b) x) as [n|];
    [|apply TransformerBlock_same_weights_refl].
  pose proof (Attention_forward_same_weights n sp fc mask (attention b)) as Ha.
  destruct (Attention_forward n sp fc mask (attention b)) as [r att]. cbn [snd] in *.
  repeat split; try reflexivity; apply Ha.
Qed.

Lemma run_layers_same_weights (ls : list TransformerBlock) (h : tensor R) (sp : nat)
    (fc : tensor complex) (mask : option (tensor xreal)) :
  Forall2 TransformerBlock_same_weights ls (snd (run_layers h sp fc mask ls)).
Proof.
  revert h. induction ls as [|b ls IH]; intros h; cbn [run_layers].
  - constructor.
  - pose proof (TransformerBlock_forward_same_weights h sp fc mask b) as Hb.
    destruct (TransformerBlock_forward h sp fc mask b) as [[h'|e] b']; cbn [snd] in Hb.
    + specialize (IH h'). destruct (run_layers h' sp fc mask ls) as [r rest'].
      cbn [snd] in *. constructor; assumption.
    + cbn [snd]. constructor; [exact Hb | apply Forall2_same_weights_refl].
Qed.

Lemma Transformer_forward_same_weights (t : Transformer) (tokens : tensor nat) (sp : nat) :
  Transformer_same_weights t (snd (Transformer_forward tokens sp t)).
Proof.
  assert (Hrefl : Transformer_same_weights t t).
  { repeat split. apply Forall2_same_weights_refl. }
  unfold Transformer_forward.
  destruct (shape tokens) as [|bsz [|s [|? ?]]]; try exact Hrefl.
  destruct (embedding (tok_embeddings t) tokens) as [h|]; cbn [bind]; [|exact Hrefl].
  destruct (getitem _ (freqs_cis t)) as [fc|]; cbn [bind]; [|exact Hrefl].
  pose proof (run_layers_same_weights (layers t) h sp fc (causal_mask s sp)) as Hls.
  destruct (run_layers h sp fc (causal_mask s sp) (layers t)) as [r ls]. cbn [snd] in *.
  repeat split; cbn; try reflexivity. exact Hls.
Qed.

End SameWeights.

Section CacheFrame.

Lemma cache_outside_unchanged_refl (bsz sp s : nat) (c : tensor R) :
  cache_outside_unchanged bsz sp s c c.
Proof. intros b p h d _ _. reflexivity. Qed.

Lemma setitem_cache_frame (bsz sp s : nat) (c k c' : tensor R) :
  setitem [Range 0 bsz; Range sp (sp + s)] c k = Ok c' ->
  cache_outside_unchanged bsz sp s c c'.
Proof.
  intros Hset b p h d Hin Hout.
  apply setitem_inv in Hset. destruct Hset as [_ ->].
  rewrite item_build by exact Hin.
  pose proof (in_bounds_length Hin) as Hlen.
  destruct (shape c) as [|nb [|cap [|nh [|hd [|? ?]]]]]; try discriminate Hlen.
  apply in_bounds4 in Hin. destruct Hin as (i & j & k0 & l & E & Hb & Hp & Hh & Hd).
  injection E as <- <- <- <-.
  cbn [in_slice slice_start slice_stop].
  replace ((Nat.min 0 nb <=? b) && (b <? Nat.min bsz nb) &&
           ((Nat.min sp cap <=? p) && (p <? Nat.min (sp + s) cap) && true)) with false;
    [reflexivity|].
  symmetry. apply not_true_is_false. intros Ht.
  apply andb_prop in Ht. destruct Ht as [Ht1 Ht2].
  apply andb_prop in Ht1. destruct Ht1 as [_ Ht1].
  apply andb_prop in Ht2. destruct Ht2 as [Ht2 _].
  apply andb_prop in Ht2. destruct Ht2 as [Ht2 Ht3].
  apply Nat.ltb_lt in Ht1. apply Nat.leb_le in Ht2. apply Nat.ltb_lt in Ht3. lia.
Qed.

Lemma Attention_write_cache_frame (bsz sp s : nat) (k v : tensor R) (a : Attention) :
  cache_outside_unchanged bsz sp s (cache_k a)
    (cache_k (snd (Attention_write_cache bsz sp s k v a))) /\
  cache_outside_unchanged bsz sp s (cache_v a)
    (cache_v (snd (Attention_write_cache bsz sp s k v a))).
Proof.
  unfold Attention_write_cache.
  destruct (setitem _ (cache_k a) k) as [ck|] eqn:Ek;
    [|split; apply cache_outside_unchanged_refl].
  cbn [set_cache_k cache_v].
  destruct (setitem _ (cache_v a) v) as [cv|] eqn:Ev; cbn [snd set_cache_v cache_k cache_v].
  - split; [apply (@setitem_cache_frame _ _ _ _ _ _ Ek) | apply (@setitem_cache_frame _ _ _ _ _ _ Ev)].
  - split; [apply (@setitem_cache_frame _ _ _ _ _ _ Ek) | apply cache_outside_unchanged_refl].
Qed.

Lemma Attention_forward_frame (x : tensor R) (bsz s d0 sp : nat) (fc : tensor complex)
    (mask : option (tensor xreal)) (a : Attention) :
  shape x = [bsz; s; d0] ->
  cache_outside_unchanged bsz sp s (cache_k a)
    (cache_k (snd (Attention_forward x sp fc mask a))) /\
  cache_outside_unchanged bsz sp s (cache_v a)
    (cache_v (snd (Attention_forward x sp fc mask a))).
Proof.
  intros Hx. unfold Attention_forward. rewrite Hx. unfold mbind.
  destruct (Attention_project a x s fc) as [[[q k] v]|];
    [|split; apply cache_outside_unchanged_refl].
  pose proof (Attention_write_cache_frame bsz sp s k v a) as Hw.
  destruct (Attention_write_cache bsz sp s k v a) as [[[]|e] a']; exact Hw.
Qed.

Variable args : ModelArgs.

Lemma Attention_forward_shape (x y : tensor R) (bsz s d0 sp : nat) (fc : tensor complex)
    (mask : option (tensor xreal)) (a a' : Attention) :
  Attention_wf args a -> shape x = [bsz; s; d0] ->
  Attention_forward x sp fc mask a = (Ok y, a') ->
  shape y = [bsz; s; dim args].
Proof.
  intros Hwf Hx. unfold Attention_forward. rewrite Hx. unfold mbind.
  destruct (Attention_project a x s fc) as [[[q k] v]|]; [|discriminate].
  pose proof (Attention_write_cache_same_weights bsz sp s k v a) as Hw.
  destruct (Attention_write_cache bsz sp s k v a) as [[[]|e] a1]; [|discriminate].
  cbn [snd] in Hw. destruct Hw as (_ & _ & _ & _ & _ & Hwo & _ & _).
  intros Hf. injection Hf as Hf _.
  destruct (Attention_read_cache a1 bsz sp s) as [kv|]; cbn [bind] in Hf; [|discriminate].
  destruct (Attention_scores a1 q (fst kv) (snd kv) mask) as [sv|]; cbn [bind] in Hf;
    [|discriminate].
  unfold Attention_combine in Hf.
  destruct (matmul _ _) as [o1|]; cbn [bind] in Hf; [|discriminate].
  destruct (transpose 1 2 o1) as [o2|]; cbn [bind] in Hf; [|discriminate].
  destruct (view_infer [bsz; s] o2) as [o3|] eqn:Ev; cbn [bind] in Hf; [|discriminate].
  unfold view_infer in Ev.
  destruct ((numel [bsz; s] =? 0) || negb (numel (shape o2) mod numel [bsz; s] =? 0));
    [discriminate|].
  injection Ev as <-.
  apply linear_inv in Hf. destruct Hf as (pre & Hpre & Hy & _).
  cbn [shape] in Hpre.
  change ([bsz; s] ++ [numel (shape o2) / numel [bsz; s]] = pre ++ [in_features (wo a1)])
    in Hpre.
  apply app_inj_tail in Hpre. destruct Hpre as [<- _].
  rewrite Hy, Hwo, (wf_wo_out Hwf). reflexivity.
Qed.

Lemma TransformerBlock_forward_shape (x y : tensor R) (bsz s sp : nat) (fc : tensor complex)
    (mask : option (tensor xreal)) (b b' : TransformerBlock) :
  TransformerBlock_wf args b -> shape x = [bsz; s; dim args] ->
  TransformerBlock_forward x sp fc mask b = (Ok y, b') ->
  shape y = [bsz; s; dim args].
Proof.
  intros [Ha Hff Han Hfn] Hx. unfold TransformerBlock_forward.
  destruct (@RMSNorm_forward_ok (attention_norm b) x [bsz; s] (dim args) Han Hx)
    as (n & -> & Hn).
  destruct (Attention_forward n sp fc mask (attention b)) as [r att] eqn:Eatt.
  intros Hf. injection Hf as Hf _.
  destruct r as [a0|]; cbn [bind] in Hf; [|discriminate].
  pose proof (@Attention_forward_shape x a0 bsz s (dim args) sp fc mask
                (attention b) att Ha) as Ha0.
  assert (Hsa : shape a0 = [bsz; s; dim args]).
  { eapply (@Attention_forward_shape n a0 bsz s (dim args) sp fc mask (attention b) att Ha Hn).
    exact Eatt. }
  clear Ha0.
  destruct (@add_ok x a0 [bsz; s; dim args] Hx Hsa) as (h & Hh & Hhs).
  rewrite Hh in Hf. cbn [bind set_attention ffn_norm feed_forward] in Hf.
  destruct (@RMSNorm_forward_ok (ffn_norm b) h [bsz; s] (dim args) Hfn Hhs)
    as (n2 & Hn2 & Hn2s).
  rewrite Hn2 in Hf. cbn [bind] in Hf.
  destruct (@FeedForward_forward_ok (feed_forward b) n2 [bsz; s] (dim args) Hff Hn2s)
    as (f & Hfe & Hfs).
  rewrite Hfe in Hf. cbn [bind] in Hf.
  destruct (@add_ok h f [bsz; s; dim args] Hhs Hfs) as (z & Hz & Hzs).
  rewrite Hz in Hf. injection Hf as <-. exact Hzs.
Qed.

Lemma TransformerBlock_forward_frame (x : tensor R) (bsz s sp : nat) (fc : tensor complex)
    (mask : option (tensor xreal)) (b : TransformerBlock) :
  TransformerBlock_wf args b -> shape x = [bsz; s; dim args] ->
  cache_outside_unchanged bsz sp s (cache_k (attention b))
    (cache_k (attention (snd (TransformerBlock_forward x sp fc mask b)))) /\
  cache_outside_unchanged bsz sp s (cache_v (attention b))
    (cache_v (attention (snd (TransformerBlock_forward x sp fc mask b)))).
Proof.
  intros [Ha Hff Han Hfn] Hx. unfold TransformerBlock_forward.
  destruct (@RMSNorm_forward_ok (attention_norm b) x [bsz; s] (dim args) Han Hx)
    as (n & -> & Hn).
  pose proof (@Attention_forward_frame n bsz s (dim args) sp fc mask (attention b) Hn) as Hfr.
  destruct (Attention_forward n sp fc mask (attention b)) as [r att].
  cbn [snd set_attention attention] in *. exact Hfr.
Qed.

Lemma run_layers_frame (ls : list TransformerBlock) (h : tensor R) (bsz s sp : nat)
    (fc : tensor complex) (mask : option (tensor xreal)) :
  Forall (TransformerBlock_wf args) ls -> shape h = [bsz; s; dim args] ->
  Forall2 (fun b b' =>
     cache_outside_unchanged bsz sp s (cache_k (attention b)) (cache_k (attention b')) /\
     cache_outside_unchanged bsz sp s (cache_v (attention b)) (cache_v (attention b')))
    ls (snd (run_layers h sp fc mask ls)).
Proof.
  intros Hls. revert h. induction Hls as [|b ls Hb Hls IH]; intros h Hh; cbn [run_layers].
  - constructor.
  - pose proof (@TransformerBlock_forward_frame h bsz s sp fc mask b Hb Hh) as Hfr.
    pose proof (@TransformerBlock_forward_shape h) as Hshape.
    destruct (TransformerBlock_forward h sp fc mask b) as [[h'|e] b'] eqn:Eb; cbn [snd] in Hfr.
    + specialize (IH h' (Hshape h' bsz s sp fc mask b b' Hb Hh Eb)).
      destruct (run_layers h' sp fc mask ls) as [r rest']. cbn [snd] in *.
      constructor; assumption.
    + cbn [snd]. constructor; [exact Hfr|].
      clear. induction ls; constructor; [|assumption].
      split; apply cache_outside_unchanged_refl.
Qed.

End CacheFrame.

(** ** Token ids outside the vocabulary *)

Section Vocabulary.

Lemma embedding_out_of_range (e : Embedding) (tokens : tensor nat) :
  Exists (fun tok => num_embeddings e <= tok) (data tokens) ->
  embedding e tokens = Err IndexError.
Proof.
  intros Hex. unfold embedding.
  replace (forallb (fun t => t <? num_embeddings e) (data tokens)) with false; [reflexivity|].
  symmetry. apply not_true_is_false. intros Hall.
  rewrite forallb_forall in Hall. apply Exists_exists in Hex.
  destruct Hex as (tok & Hin & Hge). specialize (Hall tok Hin).
  apply Nat.ltb_lt in Hall. lia.
Qed.

End Vocabulary.

(** ** Attention entry by entry *)

Section ScoreItems.

Variable args : ModelArgs.
Variable a : Attention.
Hypothesis Hwf : Attention_wf args a.

Lemma matmul_build (x y : tensor R) (ba bb batch : list nat) (n k m : nat) :
  shape x = ba ++ [n; k] -> shape y = bb ++ [k; m] ->
  broadcast_shapes ba bb = Some batch ->
  matmul x y =
  Ok (build (batch ++ [n; m]) (fun idx =>
        let bi := firstn (length batch) idx in
        let i := nth (length batch) idx 0 in
        let j := nth (S (length batch)) idx 0 in
        sum_upto k (fun l =>
          Rmult (item x (bcast_index ba bi ++ [i; l]))
                (item y (bcast_index bb bi ++ [l; j]))))).
Proof.
  intros Ha Hb Hbc. unfold matmul.
  rewrite Ha, Hb, !split_matrix_app, Hbc, Nat.eqb_refl. reflexivity.
Qed.

Lemma bcast_index_head (nh h : nat) : h < nh -> bcast_index [nh] [0; h] = [h].
Proof.
  intros Hh. unfold bcast_index. cbn [length Nat.sub skipn combine map fst snd].
  destruct (Nat.eqb_spec nh 1); [f_equal; lia | reflexivity].
Qed.

Lemma bcast_index_batch_head (nh h : nat) : h < nh -> bcast_index [1; nh] [0; h] = [0; h].
Proof.
  intros Hh. unfold bcast_index. cbn [length Nat.sub skipn combine map fst snd Nat.eqb].
  destruct (Nat.eqb_spec nh 1); [repeat f_equal; lia | reflexivity].
Qed.

Lemma Attention_scores_items (q keys values : tensor R) (mask : option (tensor xreal))
    (s t : nat) :
  shape q = [s; n_heads args; dim args / n_heads args] ->
  shape keys = [1; t; n_heads args; dim args / n_heads args] ->
  shape values = [1; t; n_heads args; dim args / n_heads args] ->
  mask_fits mask [1; n_heads args; s; t] ->
  exists sc vt,
    Attention_scores a q keys values mask = Ok (sc, vt) /\
    shape sc = [1; n_heads args; s; t] /\
    shape vt = [1; n_heads args; t; dim args / n_heads args] /\
    (forall h p j,
       h < n_heads args -> p < s -> j < t ->
       item sc [0; h; p; j] = score (dim args / n_heads args) q keys mask h p j) /\
    (forall h j d,
       h < n_heads args -> j < t -> d < dim args / n_heads args ->
       item vt [0; h; j; d] = item values [0; j; h; d]).
Proof.
  intros Hq Hk Hv Hmask. unfold Attention_scores.
  rewrite !transpose_ok by (rewrite ?Hq, ?Hk, ?Hv; simpl; lia).
  cbn [bind]. rewrite transpose_ok by (cbn [shape build]; rewrite Hk; simpl; lia).
  cbn [bind].
  rewrite (@matmul_build _ _ [n_heads args] [1; n_heads args] [1; n_heads args]
             s (dim args / n_heads args) t)
    by (try apply broadcast_heads; cbn [shape build]; rewrite ?Hq, ?Hk; reflexivity).
  cbn [bind].
  set (raw := tmap _ _).
  assert (Hraw : shape raw = [1; n_heads args; s; t]) by reflexivity.
  assert (Hri : forall h p j, h < n_heads args -> p < s -> j < t ->
            item raw [0; h; p; j] =
            Finite (Rdiv (sum_upto (dim args / n_heads args)
                            (fun d => Rmult (item q [p; h; d]) (item keys [0; j; h; d])))
                         (sqrt (INR (dim args / n_heads args))))).
  { intros h p j Hh Hp Hj. unfold raw.
    rewrite item_tmap.
    2:{ rewrite (wf_build _ _). apply ravel_lt. cbn [shape build app].
        apply in_bounds4_intro; lia. }
    rewrite item_build by (cbn [app]; apply in_bounds4_intro; lia).
    rewrite (wf_head_dim Hwf).
    cbn [length firstn nth]. rewrite (bcast_index_head Hh), (bcast_index_batch_head Hh).
    cbn [app]. f_equal. f_equal. apply sum_upto_ext. intros d Hd.
    rewrite item_build
      by (cbn [shape]; rewrite Hq; cbn; apply in_bounds3_intro; assumption).
    rewrite item_build
      by (cbn [shape build]; rewrite Hk; cbn; apply in_bounds4_intro; lia).
    rewrite item_build
      by (cbn [shape build]; rewrite Hk; cbn; apply in_bounds4_intro; lia).
    reflexivity. }
  assert (Hvt : forall h j d, h < n_heads args -> j < t -> d < dim args / n_heads args ->
            item (build (swap_nth 1 2 (shape values))
                    (fun idx => item values (swap_nth 1 2 idx))) [0; h; j; d] =
            item values [0; j; h; d]).
  { intros h j d Hh Hj Hd.
    rewrite item_build by (rewrite Hv; cbn; apply in_bounds4_intro; lia). reflexivity. }
  destruct mask as [m|].
  - unfold mask_fits in Hmask.
    rewrite (@binop_build _ _ _ _ _ xadd raw m [1; n_heads args; s; t])
      by (rewrite Hraw; exact Hmask).
    cbn [bind]. do 2 eexists. split; [reflexivity|].
    split; [reflexivity|]. split; [cbn [shape build]; rewrite Hv; reflexivity|].
    split; [|exact Hvt].
    intros h p j Hh Hp Hj.
    rewrite item_build by (apply in_bounds4_intro; lia).
    rewrite Hraw, bcast_index_id by (apply in_bounds4_intro; lia).
    rewrite (Hri h p j Hh Hp Hj). reflexivity.
  - cbn [bind]. do 2 eexists. split; [reflexivity|].
    split; [reflexivity|]. split; [cbn [shape build]; rewrite Hv; reflexivity|].
    split; [|exact Hvt].
    intros h p j Hh Hp Hj. rewrite (Hri h p j Hh Hp Hj). reflexivity.
Qed.

End ScoreItems.

Section CombineItems.

Variable args : ModelArgs.
Variable a : Attention.
Hypothesis Hwf : Attention_wf args a.

Lemma softmax_item (sc : tensor xreal) (nh s t h p j : nat) :
  shape sc = [1; nh; s; t] -> h < nh -> p < s -> j < t ->
  item (softmax sc) [0; h; p; j] =
  Rdiv (xexp (item sc [0; h; p; j]))
       (sum_upto t (fun l => xexp (item sc [0; h; p; l]))).
Proof.
  intros Hsc Hh Hp Hj. unfold softmax.
  rewrite item_build by (rewrite Hsc; apply in_bounds4_intro; lia).
  rewrite Hsc. reflexivity.
Qed.

Lemma heads_split (nh hd c : nat) : c < nh * hd -> c / hd < nh /\ c mod hd < hd.
Proof.
  intros Hc. assert (hd <> 0) by (intros ->; lia). split.
  - apply Nat.Div0.div_lt_upper_bound. lia.
  - apply Nat.mod_upper_bound. assumption.
Qed.

Lemma Attention_combine_items (sc : tensor xreal) (vt : tensor R) (s t : nat) :
  1 <= s ->
  shape sc = [1; n_heads args; s; t] ->
  shape vt = [1; n_heads args; t; dim args / n_heads args] ->
  exists y,
    Attention_combine a 1 s sc vt = Ok y /\ shape y = [1; s; dim args] /\
    forall p o,
      p < s -> o < dim args ->
      item y [0; p; o] =
      sum_upto (n_heads args * (dim args / n_heads args)) (fun c =>
        Rmult (sum_upto t (fun j =>
                 Rmult (Rdiv (xexp (item sc [0; c / (dim args / n_heads args); p; j]))
                             (sum_upto t (fun l =>
                                xexp (item sc [0; c / (dim args / n_heads args); p; l]))))
                       (item vt [0; c / (dim args / n_heads args); j;
                                 c mod (dim args / n_heads args)])))
              (item (weight (wo a)) [o; c])).
Proof.
  intros Hs Hsc Hv. unfold Attention_combine.
  rewrite (@matmul_build _ _ [1; n_heads args] [1; n_heads args] [1; n_heads args]
             s t (dim args / n_heads args))
    by (try apply broadcast_shapes_refl; unfold softmax; cbn [shape build];
        rewrite ?Hsc, ?Hv; reflexivity).
  cbn [bind]. rewrite transpose_ok by (cbn [shape build app]; simpl; lia).
  cbn [bind].
  rewrite view_infer_ok with (m := n_heads args * (dim args / n_heads args))
    by (cbn [shape build app]; simpl; nia).
  cbn [bind].
  set (o1 := build ([1; n_heads args] ++ [s; dim args / n_heads args]) _).
  set (o2 := build (swap_nth 1 2 (shape o1)) _).
  destruct (@linear_items (wo a)
              (Tensor ([1; s] ++ [n_heads args * (dim args / n_heads args)]) (data o2))
              [1; s]) as (y & Hy & Hys & Hyi).
  { cbn [shape]. rewrite (wf_wo_in Hwf). reflexivity. }
  rewrite Hy. exists y. split; [reflexivity|].
  split; [rewrite Hys, (wf_wo_out Hwf); reflexivity|].
  intros p o Hp Ho.
  change [0; p; o] with ([0; p] ++ [o]).
  rewrite (Hyi [0; p] o) by (try (rewrite (wf_wo_out Hwf); exact Ho);
                            repeat constructor; lia).
  rewrite (wf_wo_in Hwf). apply sum_upto_ext. intros c Hc. f_equal.
  destruct (@heads_split _ _ c Hc) as [Hh Hd].
  set (D := dim args / n_heads args) in *.
  assert (E : item (Tensor ([1; s] ++ [n_heads args * D]) (data o2)) ([0; p] ++ [c]) =
              item o2 [0; p; c / D; c mod D]).
  { unfold item. cbn [shape data app]. f_equal.
    unfold o2, o1. cbn [shape build app]. cbn [swap_nth length seq map nth Nat.eqb].
    cbn [ravel numel fold_right].
    pose proof (Nat.div_mod_eq c D). nia. }
  rewrite E. unfold o2.
  rewrite item_build by (unfold o1; cbn; apply in_bounds4_intro; lia).
  unfold o1. rewrite item_build by (cbn; apply in_bounds4_intro; lia).
  cbn [length firstn nth swap_nth seq map Nat.eqb app].
  rewrite (bcast_index_batch_head Hh). cbn [app].
  apply sum_upto_ext. intros j Hj.
  rewrite (@softmax_item sc (n_heads args) s t (c / D) p j Hsc Hh Hp Hj). reflexivity.
Qed.

End CombineItems.

Section ForwardItems.

Variable args : ModelArgs.

Lemma score_ext (hd : nat) (q ck ck' : tensor R) (mask : option (tensor xreal)) (h p t : nat) :
  (forall d, d < hd -> item ck [0; t; h; d] = item ck' [0; t; h; d]) ->
  score hd q ck mask h p t = score hd q ck' mask h p t.
Proof.
  intros Hk. unfold score.
  rewrite (@sum_upto_ext hd _ (fun d => Rmult (item q [p; h; d]) (item ck' [0; t; h; d])))
    by (intros d Hd; rewrite (Hk d Hd); reflexivity).
  reflexivity.
Qed.

Lemma Attention_forward_items (a : Attention) (x : tensor R) (sp s : nat)
    (fc : tensor complex) (mask : option (tensor xreal)) :
  Attention_wf args a -> config_ok args ->
  shape x = [1; s; dim args] -> 1 <= s ->
  shape fc = [s; dim args / n_heads args / 2] ->
  sp + s <= max_seq_len args ->
  mask_fits mask [1; n_heads args; s; sp + s] ->
  exists q k v y a',
    Attention_project a x s fc = Ok (q, k, v) /\
    Attention_forward x sp fc mask a = (Ok y, a') /\
    shape y = [1; s; dim args] /\
    forall p o,
      p < s -> o < dim args ->
      item y [0; p; o] =
      sum_upto (n_heads args * (dim args / n_heads args)) (fun c =>
        Rmult (attend (dim args / n_heads args) (sp + s) q (cache_k a') (cache_v a') mask
                      (c / (dim args / n_heads args)) p (c mod (dim args / n_heads args)))
              (item (weight (wo a)) [o; c])).
Proof.
  intros Hwf Hc Hx Hs Hfc Hcap Hmask.
  destruct (@Attention_project_ok args a Hwf Hc x s fc Hx Hs Hfc)
    as (q & k & v & Hp & Hq & Hk & Hv).
  destruct (@Attention_write_cache_ok args a 1 sp s k v Hwf Hk Hv (or_intror Hcap))
    as (ck & cv & Hck & Hcv & Hw).
  exists q, k, v.
  pose proof (@Attention_write_cache_wf args a 1 sp s k v Hwf) as Hwf'.
  rewrite Hw in Hwf'. cbn [snd] in Hwf'.
  set (a' := set_cache_v (set_cache_k a ck) cv) in *.
  destruct (@Attention_read_cache_ok args a' Hwf' 1 sp s) as (keys & values & Hr & Hkeys & Hvalues).
  assert (Hb : Nat.min 1 (max_batch_size args) = 1) by (pose proof (batch_pos Hc); lia).
  assert (Ht : Nat.min (sp + s) (max_seq_len args) = sp + s) by lia.
  rewrite Hb, Ht in Hkeys, Hvalues.
  assert (Hks : shape keys = [1; sp + s; n_heads args; dim args / n_heads args])
    by (rewrite Hkeys; reflexivity).
  assert (Hvs : shape values = [1; sp + s; n_heads args; dim args / n_heads args])
    by (rewrite Hvalues; reflexivity).
  destruct (@Attention_scores_items args a' Hwf' q keys values mask s (sp + s) Hq Hks Hvs Hmask)
    as (sc & vt & Hsc & Hscs & Hvts & Hsci & Hvti).
  destruct (@Attention_combine_items args a' Hwf' sc vt s (sp + s) Hs Hscs Hvts)
    as (y & Hy & Hys & Hyi).
  exists y, a'. split; [exact Hp|]. split; [|split; [exact Hys|]].
  { unfold Attention_forward. rewrite Hx. unfold mbind at 1. unfold mbind at 1.
    rewrite Hp. rewrite Hw. fold a'.
    rewrite Hr. cbn [bind fst snd]. rewrite Hsc. cbn [bind fst snd]. rewrite Hy. reflexivity. }
  intros p o Hpp Ho. rewrite (Hyi p o Hpp Ho).
  apply sum_upto_ext. intros c Hcc.
  destruct (@heads_split _ _ c Hcc) as [Hh Hd].
  set (D := dim args / n_heads args) in *.
  assert (Hkey : forall t d, t < sp + s -> d < D ->
            item keys [0; t; c / D; d] = item (cache_k a') [0; t; c / D; d]).
  { intros t d Htt Hdd. rewrite Hkeys.
    pose proof (@cache_prefix_item (cache_k a') 1 (sp + s) (max_batch_size args)
                  (max_seq_len args) (n_heads args) D 0 t (c / D) d
                  (wf_cache_k_shape Hwf')) as E.
    rewrite Hb, Ht in E. apply E; lia. }
  assert (Hval : forall t d, t < sp + s -> d < D ->
            item values [0; t; c / D; d] = item (cache_v a') [0; t; c / D; d]).
  { intros t d Htt Hdd. rewrite Hvalues.
    pose proof (@cache_prefix_item (cache_v a') 1 (sp + s) (max_batch_size args)
                  (max_seq_len args) (n_heads args) D 0 t (c / D) d
                  (wf_cache_v_shape Hwf')) as E.
    rewrite Hb, Ht in E. apply E; lia. }
  assert (Hscore : forall t, t < sp + s ->
            item sc [0; c / D; p; t] = score D q (cache_k a') mask (c / D) p t).
  { intros t Htt. rewrite (Hsci (c / D) p t Hh Hpp Htt).
    apply score_ext. intros d Hdd. apply Hkey; assumption. }
  f_equal. unfold attend. apply sum_upto_ext. intros t Htt.
  rewrite (Hscore t Htt), (Hvti (c / D) t (c mod D) Hh Htt Hd), (Hval t (c mod D) Htt Hd).
  f_equal. f_equal. apply sum_upto_ext. intros l Hl. rewrite (Hscore l Hl). reflexivity.
Qed.

End ForwardItems.

Section ProjectItems.

Lemma squeeze_rows (x : tensor R) (s d : nat) :
  2 <= d -> shape x = [1; s; d] ->
  exists pre (rowf : nat -> list nat),
    shape (squeeze x) = pre ++ [d] /\ numel pre = s /\
    forall p, p < s ->
      in_bounds pre (rowf p) /\
      forall n k, ravel (pre ++ [n]) (rowf p ++ [k]) = p * n + k.
Proof.
  intros Hd Hx. unfold squeeze. cbn [shape]. rewrite Hx. cbn [filter Nat.eqb negb].
  destruct (Nat.eqb_spec d 1) as [Hd1|Hd1]; [lia|].
  destruct (Nat.eqb_spec s 1) as [->|Hs]; cbn [negb].
  - exists [], (fun _ => []). split; [reflexivity|]. split; [reflexivity|].
    intros p Hp. split; [constructor|]. intros n k. cbn. lia.
  - exists [s], (fun p => [p]). split; [reflexivity|]. split; [cbn; lia|].
    intros p Hp. split; [repeat constructor; exact Hp|]. intros n k. cbn. lia.
Qed.

Lemma rotary_entry_even (fc : tensor complex) (p i : nat) (v : R) :
  rotary_entry fc p (2 * i) v =
  Rplus (Rmult v (fst (item fc [p; i]))) (Rmult v (Ropp (snd (item fc [p; i])))).
Proof.
  unfold rotary_entry.
  replace (2 * i / 2) with i by (rewrite Nat.mul_comm, Nat.div_mul; lia).
  replace (Nat.even (2 * i)) with true; [reflexivity|].
  symmetry. apply Nat.even_spec. exists i. reflexivity.
Qed.

Lemma rotary_entry_odd (fc : tensor complex) (p i : nat) (v : R) :
  rotary_entry fc p (2 * i + 1) v =
  Rplus (Rmult v (fst (item fc [p; i]))) (Rmult v (snd (item fc [p; i]))).
Proof.
  unfold rotary_entry.
  replace ((2 * i + 1) / 2) with i by (apply Nat.div_unique with (r := 1); lia).
  replace (Nat.even (2 * i + 1)) with false; [reflexivity|].
  symmetry. rewrite <- Nat.negb_odd. apply negb_false_iff.
  apply Nat.odd_spec. exists i. reflexivity.
Qed.

Lemma apply_rotary_emb_items (xq xk : tensor R) (h half seqlen : nat) (fc : tensor complex) :
  wf xq -> wf xk -> 1 <= seqlen ->
  shape xq = [seqlen; h; 2 * half] -> shape xk = [seqlen; h; 2 * half] ->
  shape fc = [seqlen; half] ->
  exists q k,
    apply_rotary_emb (Enc xq) (Enc xk) h (2 * half) seqlen fc = Ok (Enc q, Enc k) /\
    shape q = [seqlen; h; 2 * half] /\ wf q /\
    shape k = [seqlen; h; 2 * half] /\ wf k /\
    forall p j d,
      p < seqlen -> j < h -> d < 2 * half ->
      item q [p; j; d] = rotary_entry fc p d (item xq [p; j; d]) /\
      item k [p; j; d] = rotary_entry fc p d (item xk [p; j; d]).
Proof.
  intros Hwq Hwk Hs Hq Hk Hfc. unfold apply_rotary_emb.
  destruct (@rotary_factors_of_slice fc seqlen half Hs Hfc)
    as (ll & rr & l & r & -> & Hl & -> & Hr & Hls & Hrs & Hitems).
  cbn [bind]. rewrite Hl, Hr. cbn [bind].
  destruct (@rotate_items xq h half seqlen l r Hwq Hq Hls Hrs) as (q & Hrq & Hqs & Hqi).
  destruct (@rotate_items xk h half seqlen l r Hwk Hk Hls Hrs) as (k & Hrk & Hks & Hki).
  destruct (@rotate_inv (Enc xq) (Enc q) h (2 * half) seqlen l r Hrq) as [_ Hqw].
  destruct (@rotate_inv (Enc xk) (Enc k) h (2 * half) seqlen l r Hrk) as [_ Hkw].
  rewrite Hrq, Hrk. cbn [bind].
  exists q, k. split; [reflexivity|]. split; [exact Hqs|]. split; [exact Hqw|].
  split; [exact Hks|]. split; [exact Hkw|].
  intros p j d Hp Hj Hd.
  rewrite (Hqi p j d Hp Hj Hd), (Hki p j d Hp Hj Hd).
  assert (Hi : d / 2 < half) by (apply Nat.Div0.div_lt_upper_bound; lia).
  destruct (Hitems p (d / 2) Hp Hi) as (Hl0 & Hl1 & Hr0 & Hr1).
  destruct (Nat.even d) eqn:Ed.
  - assert (E : d = 2 * (d / 2)) by (apply even_double; exact Ed).
    clear Ed. remember (d / 2) as i eqn:Ei. clear Ei. subst d.
    rewrite Hl0, Hr0, !rotary_entry_even. auto.
  - assert (E : d = 2 * (d / 2) + 1).
    { apply odd_half. rewrite <- Nat.negb_even, Ed. reflexivity. }
    clear Ed. remember (d / 2) as i eqn:Ei. clear Ei. subst d.
    rewrite Hl1, Hr1, !rotary_entry_odd. auto.
Qed.

Variable args : ModelArgs.
Variable a : Attention.
Hypothesis Hwf : Attention_wf args a.

Lemma bridge_items (l : Linear) (x : tensor R) (s nh hd : nat)
    (pre : list nat) (rowf : nat -> list nat) :
  wf x -> shape x = [1; s; in_features l] ->
  shape (squeeze x) = pre ++ [in_features l] -> numel pre = s ->
  out_features l = nh * hd ->
  (forall p, p < s ->
     in_bounds pre (rowf p) /\
     forall n k, ravel (pre ++ [n]) (rowf p ++ [k]) = p * n + k) ->
  exists y,
    encryptedLinearTransform l (ckks_tensor (squeeze x)) = Ok (Enc y) /\
    ckks_reshape [s; nh; hd] (Enc y) = Ok (Enc (Tensor [s; nh; hd] (data y))) /\
    wf (Tensor [s; nh; hd] (data y)) /\
    forall p h d,
      p < s -> h < nh -> d < hd ->
      item (Tensor [s; nh; hd] (data y)) [p; h; d] = project_row l x p (h * hd + d).
Proof.
  intros Hwfx Hx Hsq Hpre Hout Hrow.
  assert (Hwsq : wf (squeeze x)).
  { unfold wf. rewrite Hsq, numel_app, Hpre. unfold squeeze. cbn [data].
    rewrite Hwfx, Hx. cbn [numel fold_right]. lia. }
  unfold encryptedLinearTransform. rewrite (plainToTorch_decrypt Hwsq).
  destruct (@linear_items l (squeeze x) pre Hsq) as (y & Hy & Hys & Hyi).
  destruct (@linear_inv l (squeeze x) y Hy) as (_ & _ & _ & Hwy).
  rewrite Hy. cbn [bind]. exists y. split; [reflexivity|].
  assert (Hn : numel [s; nh; hd] = numel (shape y)).
  { rewrite Hys, numel_app, Hpre, Hout. cbn [numel fold_right]. ring. }
  split; [apply ckks_reshape_ok; exact Hn|].
  split; [unfold wf; cbn [shape data]; rewrite Hwy; symmetry; exact Hn|].
  intros p h d Hp Hh Hd.
  destruct (Hrow p Hp) as [Hin Hrav].
  assert (Hc : h * hd + d < out_features l) by (rewrite Hout; nia).
  transitivity (item y (rowf p ++ [h * hd + d])).
  - unfold item. cbn [shape data]. rewrite Hys, Hrav. f_equal.
    cbn [ravel numel fold_right]. rewrite Hout. ring.
  - rewrite (Hyi (rowf p) (h * hd + d) Hin Hc). unfold project_row.
    apply sum_upto_ext. intros k Hk. f_equal.
    unfold item, squeeze. cbn [shape data]. fold (squeeze x).
    change (filter (fun d0 : nat => negb (d0 =? 1)) (shape x)) with (shape (squeeze x)).
    rewrite Hsq, Hrav, Hx. f_equal. cbn [ravel numel fold_right]. ring.
Qed.

Lemma Attention_project_items (Hc : config_ok args) (x : tensor R) (s : nat)
    (fc : tensor complex) :
  wf x -> shape x = [1; s; dim args] -> 1 <= s ->
  shape fc = [s; dim args / n_heads args / 2] ->
  exists q k v,
    Attention_project a x s fc = Ok (q, k, v) /\
    forall p h d,
      p < s -> h < n_heads args -> d < dim args / n_heads args ->
      item q [p; h; d] =
        rotary_entry fc p d (project_row (wq a) x p (h * (dim args / n_heads args) + d)) /\
      item k [p; h; d] =
        rotary_entry fc p d (project_row (wk a) x p (h * (dim args / n_heads args) + d)) /\
      item v [p; h; d] = project_row (wv a) x p (h * (dim args / n_heads args) + d).
Proof.
  intros Hwfx Hx Hs Hfc. unfold Attention_project.
  destruct (@squeeze_rows x s (dim args) (@config_dim args Hc) Hx)
    as (pre & rowf & Hsq & Hpre & Hrow).
  pose proof (@even_double _ (head_dim_even Hc)) as He.
  destruct Hwf as [Hh Hhd Hqi Hqo Hki Hko Hvi Hvo _ _ _ _ _ _].
  remember (n_heads args) as H eqn:EH.
  remember (dim args / H) as D eqn:ED.
  remember (D / 2) as half eqn:Ehalf. clear Ehalf ED EH.
  destruct (@bridge_items (wq a) x s H D pre rowf Hwfx)
    as (yq & -> & Hrq & Hwq & Hiq); try (rewrite ?Hqi; assumption).
  destruct (@bridge_items (wk a) x s H D pre rowf Hwfx)
    as (yk & -> & Hrk & Hwk & Hik); try (rewrite ?Hki; assumption).
  destruct (@bridge_items (wv a) x s H D pre rowf Hwfx)
    as (yv & -> & Hrv & Hwv & Hiv); try (rewrite ?Hvi; assumption).
  cbn [bind]. rewrite Hh, Hhd, Hrq, Hrk, Hrv. cbn [bind].
  subst D.
  destruct (@apply_rotary_emb_items (Tensor [s; H; 2 * half] (data yq))
              (Tensor [s; H; 2 * half] (data yk)) H half s fc Hwq Hwk Hs eq_refl eq_refl Hfc)
    as (q & k & -> & Hq & Hqw & Hk & Hkw & Hrot).
  cbn [bind]. exists q, k, (Tensor [s; H; 2 * half] (data yv)).
  split.
  - change (Enc q) with (ckks_tensor q). change (Enc k) with (ckks_tensor k).
    change (Enc (Tensor [s; H; 2 * half] (data yv)))
      with (ckks_tensor (Tensor [s; H; 2 * half] (data yv))).
    rewrite !plainToTorch_decrypt by assumption. reflexivity.
  - intros p h d Hp Hhh Hd.
    destruct (Hrot p h d Hp Hhh Hd) as [Eq Ek].
    rewrite Eq, Ek, (Hiq p h d Hp Hhh Hd), (Hik p h d Hp Hhh Hd), (Hiv p h d Hp Hhh Hd).
    auto.
Qed.

End ProjectItems.

Section AttendFacts.

Lemma attend_congr (hd n : nat) (q ck cv q' ck' cv' : tensor R)
    (mask mask' : option (tensor xreal)) (h p p' d : nat) :
  (forall t, t < n -> score hd q ck mask h p t = score hd q' ck' mask' h p' t) ->
  (forall t, t < n -> score hd q ck mask h p t <> NegInf ->
     item cv [0; t; h; d] = item cv' [0; t; h; d]) ->
  attend hd n q ck cv mask h p d = attend hd n q' ck' cv' mask' h p' d.
Proof.
  intros Hs Hv. unfold attend.
  rewrite (@sum_upto_ext n (fun j => xexp (score hd q ck mask h p j))
             (fun j => xexp (score hd q' ck' mask' h p' j)))
    by (intros j Hj; rewrite (Hs j Hj); reflexivity).
  apply sum_upto_ext. intros t Ht. rewrite <- (Hs t Ht).
  destruct (score hd q ck mask h p t) as [r|] eqn:E.
  - rewrite (Hv t Ht); [reflexivity|]. rewrite E. discriminate.
  - cbn [xexp]. unfold Rdiv. rewrite !Rmult_0_l. reflexivity.
Qed.

Lemma attend_extend (hd n : nat) (q ck cv : tensor R) (mask : option (tensor xreal))
    (h p d : nat) :
  score hd q ck mask h p n = NegInf ->
  attend hd (S n) q ck cv mask h p d = attend hd n q ck cv mask h p d.
Proof.
  intros Hs. unfold attend. rewrite !sum_upto_S, Hs. cbn [xexp].
  rewrite Rplus_0_r. unfold Rdiv at 2. rewrite !Rmult_0_l, Rplus_0_r. reflexivity.
Qed.

Lemma score_causal_masked (hd s : nat) (q ck : tensor R) (m : tensor xreal) (h p t : nat) :
  causal_mask s 0 = Some m -> p < s -> t < s -> p < t ->
  score hd q ck (Some m) h p t = NegInf.
Proof.
  intros Hm Hp Ht Hpt. unfold score.
  destruct (causal_mask_shape _ _ Hm) as [Hsh _].
  rewrite Hsh, (@bcast_index_mask s 0 h p t Hp Ht), (@causal_mask_item s 0 p t m Hm Hp Ht).
  destruct (Nat.ltb_spec (0 + p) t); [|lia]. reflexivity.
Qed.

Lemma score_causal_open (hd s : nat) (q ck : tensor R) (m : tensor xreal) (h p t : nat) :
  causal_mask s 0 = Some m -> p < s -> t <= p ->
  score hd q ck (Some m) h p t = score hd q ck None h p t.
Proof.
  intros Hm Hp Htp. unfold score.
  destruct (causal_mask_shape _ _ Hm) as [Hsh _].
  rewrite Hsh, (@bcast_index_mask s 0 h p t Hp) by lia.
  rewrite (@causal_mask_item s 0 p t m Hm Hp) by lia.
  destruct (Nat.ltb_spec (0 + p) t); [lia|]. cbn [xadd]. rewrite Rplus_0_r. reflexivity.
Qed.

Lemma score_rows (hd : nat) (q ck q' ck' : tensor R) (h p p' t : nat) :
  (forall d, d < hd -> item q [p; h; d] = item q' [p'; h; d]) ->
  (forall d, d < hd -> item ck [0; t; h; d] = item ck' [0; t; h; d]) ->
  score hd q ck None h p t = score hd q' ck' None h p' t.
Proof.
  intros Hq Hk. unfold score. f_equal. f_equal.
  apply sum_upto_ext. intros d Hd. rewrite (Hq d Hd), (Hk d Hd). reflexivity.
Qed.

End AttendFacts.

Section ForwardRows.

Variable args : ModelArgs.

Lemma Attention_forward_rows (a : Attention) (x : tensor R) (sp s : nat)
    (fc : tensor complex) (mask : option (tensor xreal)) :
  Attention_wf args a -> config_ok args -> wf x ->
  shape x = [1; s; dim args] -> 1 <= s ->
  shape fc = [s; dim args / n_heads args / 2] ->
  sp + s <= max_seq_len args ->
  mask_fits mask [1; n_heads args; s; sp + s] ->
  exists q k v y a',
    Attention_forward x sp fc mask a = (Ok y, a') /\
    shape y = [1; s; dim args] /\
    Attention_wf args a' /\
    wq a' = wq a /\ wk a' = wk a /\ wv a' = wv a /\ wo a' = wo a /\
    (forall p h d,
       p < s -> h < n_heads args -> d < dim args / n_heads args ->
       item q [p; h; d] =
         rotary_entry fc p d (project_row (wq a) x p (h * (dim args / n_heads args) + d)) /\
       item k [p; h; d] =
         rotary_entry fc p d (project_row (wk a) x p (h * (dim args / n_heads args) + d)) /\
       item v [p; h; d] = project_row (wv a) x p (h * (dim args / n_heads args) + d)) /\
    (forall b p h d,
       b < max_batch_size args -> p < max_seq_len args ->
       h < n_heads args -> d < dim args / n_heads args ->
       item (cache_k a') [b; p; h; d] =
         (if (b <? 1) && (sp <=? p) && (p <? sp + s)
          then item k [p - sp; h; d] else item (cache_k a) [b; p; h; d]) /\
       item (cache_v a') [b; p; h; d] =
         (if (b <? 1) && (sp <=? p) && (p <? sp + s)
          then item v [p - sp; h; d] else item (cache_v a) [b; p; h; d])) /\
    (forall p o,
       p < s -> o < dim args ->
       item y [0; p; o] =
       sum_upto (n_heads args * (dim args / n_heads args)) (fun c =>
         Rmult (attend (dim args / n_heads args) (sp + s) q (cache_k a') (cache_v a') mask
                       (c / (dim args / n_heads args)) p (c mod (dim args / n_heads args)))
               (item (weight (wo a)) [o; c]))).
Proof.
  intros Hwf Hc Hwfx Hx Hs Hfc Hcap Hmask.
  destruct (@Attention_forward_items args a x sp s fc mask Hwf Hc Hx Hs Hfc Hcap Hmask)
    as (q & k & v & y & a' & Hp & Hf & Hys & Hyi).
  destruct (@Attention_project_items args a Hwf Hc x s fc Hwfx Hx Hs Hfc)
    as (q2 & k2 & v2 & Hp2 & Hrows).
  rewrite Hp in Hp2. injection Hp2 as <- <- <-.
  destruct (@Attention_forward_ok args a x sp s fc mask Hwf Hc Hx Hs Hfc (or_intror Hcap))
    as (q3 & k3 & v3 & ck & cv & y3 & Hp3 & Hck & Hcv & Hf3 & _ & Hwf').
  { replace (Nat.min (sp + s) (max_seq_len args)) with (sp + s) by lia. exact Hmask. }
  rewrite Hp in Hp3. injection Hp3 as <- <- <-.
  rewrite Hf in Hf3. injection Hf3 as _ Ea.
  destruct (@Attention_project_inv args a Hwf x s fc q k v Hp) as (_ & Hk & Hv).
  exists q, k, v, y, a'.
  split; [exact Hf|]. split; [exact Hys|]. rewrite Ea.
  split; [exact Hwf'|]. do 4 (split; [reflexivity|]).
  split; [exact Hrows|]. split.
  - intros b p h d Hb Hpp Hh Hd. cbn [set_cache_v set_cache_k cache_k cache_v]. split.
    + apply (@cache_write_item 1 sp s _ _ _ _ _ _ _ (wf_cache_k_shape Hwf) Hk Hck b p h d);
        assumption.
    + apply (@cache_write_item 1 sp s _ _ _ _ _ _ _ (wf_cache_v_shape Hwf) Hv Hcv b p h d);
        assumption.
  - rewrite <- Ea. exact Hyi.
Qed.

End ForwardRows.

Section RowAgreement.

Lemma project_row_rows (l : Linear) (x x' : tensor R) (p p' c : nat) :
  (forall k, k < in_features l -> item x [0; p; k] = item x' [0; p'; k]) ->
  project_row l x p c = project_row l x' p' c.
Proof.
  intros Hx. unfold project_row. apply sum_upto_ext.
  intros k Hk. rewrite (Hx k Hk). reflexivity.
Qed.

Lemma rotary_entry_rows (fc fc' : tensor complex) (p p' d : nat) (v : R) :
  item fc [p; d / 2] = item fc' [p'; d / 2] ->
  rotary_entry fc p d v = rotary_entry fc' p' d v.
Proof. intros Hfc. unfold rotary_entry. rewrite Hfc. reflexivity. Qed.

Lemma half_lt (D d : nat) : Nat.even D = true -> d < D -> d / 2 < D / 2.
Proof.
  intros He Hd. pose proof (even_double _ He) as E.
  apply Nat.Div0.div_lt_upper_bound. lia.
Qed.

Lemma score_causal (hd s : nat) (q ck : tensor R) (h p t : nat) :
  p < s -> t < s ->
  score hd q ck (causal_mask s 0) h p t =
  if p <? t then NegInf else score hd q ck None h p t.
Proof.
  intros Hp Ht. destruct (causal_mask s 0) as [m|] eqn:Hm.
  - destruct (Nat.ltb_spec p t).
    + apply (@score_causal_masked hd s q ck m h p t Hm Hp Ht). assumption.
    + apply (@score_causal_open hd s q ck m h p t Hm Hp). assumption.
  - unfold causal_mask in Hm. destruct (Nat.ltb_spec 1 s); [discriminate|].
    destruct (Nat.ltb_spec p t); [lia | reflexivity].
Qed.

Lemma window_inside (sp s p : nat) :
  sp <= p -> p < sp + s -> (0 <? 1) && (sp <=? p) && (p <? sp + s) = true.
Proof.
  intros H1 H2. rewrite !andb_true_iff. repeat split.
  - apply Nat.leb_le. exact H1.
  - apply Nat.ltb_lt. exact H2.
Qed.

Lemma window_outside (b sp s p : nat) :
  p < sp \/ sp + s <= p -> (b <? 1) && (sp <=? p) && (p <? sp + s) = false.
Proof.
  intros H. destruct (Nat.leb_spec sp p); destruct (Nat.ltb_spec p (sp + s));
    rewrite ?andb_false_r; try reflexivity. lia.
Qed.

End RowAgreement.

Section Windows.

Lemma window_other_example (b sp s p : nat) :
  1 <= b -> (b <? 1) && (sp <=? p) && (p <? sp + s) = false.
Proof.
  intros Hb. destruct (Nat.ltb_spec b 1); [lia | reflexivity].
Qed.

End Windows.

Section Fulls.

Lemma full_item {A} `{Default A} (sh idx : list nat) (v : A) :
  in_bounds sh idx -> item (full sh v) idx = v.
Proof. intros Hin. unfold full. rewrite item_build by exact Hin. reflexivity. Qed.

End Fulls.

Section FirstStep.

Lemma Attention_first_step_rows (args : ModelArgs) (a a2 : Attention)
    (x x2 : tensor R) (s p0 : nat) (fc : tensor complex) :
  Attention_wf args a -> Attention_wf args a2 -> config_ok args ->
  wq a2 = wq a -> wk a2 = wk a -> wv a2 = wv a -> wo a2 = wo a ->
  wf x -> wf x2 ->
  shape x = [1; s; dim args] -> shape x2 = [1; s; dim args] ->
  shape fc = [s; dim args / n_heads args / 2] ->
  s <= max_seq_len args -> p0 < s ->
  (forall p k, p <= p0 -> k < dim args -> item x [0; p; k] = item x2 [0; p; k]) ->
  exists y a' y2 a2',
    Attention_forward x 0 fc (causal_mask s 0) a = (Ok y, a') /\
    Attention_forward x2 0 fc (causal_mask s 0) a2 = (Ok y2, a2') /\
    forall p o, p <= p0 -> o < dim args -> item y [0; p; o] = item y2 [0; p; o].
Proof.
  intros Hwf Hwf2 Hc Ewq Ewk Ewv Ewo Hwx Hwx2 Hx Hx2 Hfc Hcap Hp0 Hagree.
  assert (Hs : 1 <= s) by lia.
  pose proof (causal_mask_fits s (n_heads args)) as Hmask.
  destruct (@Attention_forward_rows args a x 0 s fc (causal_mask s 0)
              Hwf Hc Hwx Hx Hs Hfc Hcap Hmask)
    as (q & k & v & y & a' & Hf & _ & _ & _ & _ & _ & _ & Hrows & Hcache & Hy).
  destruct (@Attention_forward_rows args a2 x2 0 s fc (causal_mask s 0)
              Hwf2 Hc Hwx2 Hx2 Hs Hfc Hcap Hmask)
    as (q2 & k2 & v2 & y2 & a2' & Hf2 & _ & _ & _ & _ & _ & _ & Hrows2 & Hcache2 & Hy2).
  exists y, a', y2, a2'. split; [exact Hf|]. split; [exact Hf2|].
  intros p o Hp Ho. rewrite (Hy p o) by lia. rewrite (Hy2 p o) by lia.
  rewrite Ewo. apply sum_upto_ext. intros c Hcc. f_equal.
  destruct (@heads_split _ _ c Hcc) as [Hh Hd].
  set (D := dim args / n_heads args) in *.
  assert (Hrow : forall t d, t <= p0 -> d < D ->
            item q [t; c / D; d] = item q2 [t; c / D; d] /\
            item k [t; c / D; d] = item k2 [t; c / D; d] /\
            item v [t; c / D; d] = item v2 [t; c / D; d]).
  { intros t d Ht Hdd.
    destruct (Hrows t (c / D) d) as (E1 & E2 & E3); [lia | exact Hh | exact Hdd |].
    destruct (Hrows2 t (c / D) d) as (F1 & F2 & F3); [lia | exact Hh | exact Hdd |].
    rewrite E1, E2, E3, F1, F2, F3, Ewq, Ewk, Ewv.
    assert (Hpr : forall l cc, in_features l = dim args ->
              project_row l x t cc = project_row l x2 t cc).
    { intros l cc Hl. apply project_row_rows. intros j Hj. apply Hagree; [lia|].
      rewrite <- Hl. exact Hj. }
    rewrite (Hpr (wq a) _ (wf_wq_in Hwf)), (Hpr (wk a) _ (wf_wk_in Hwf)),
            (Hpr (wv a) _ (wf_wv_in Hwf)).
    repeat split. }
  assert (Hcell : forall t d, t <= p0 -> d < D ->
            item (cache_k a') [0; t; c / D; d] = item (cache_k a2') [0; t; c / D; d] /\
            item (cache_v a') [0; t; c / D; d] = item (cache_v a2') [0; t; c / D; d]).
  { intros t d Ht Hdd. pose proof (batch_pos Hc) as Hb.
    destruct (Hcache 0 t (c / D) d) as (E1 & E2); [lia | lia | exact Hh | exact Hdd |].
    destruct (Hcache2 0 t (c / D) d) as (F1 & F2); [lia | lia | exact Hh | exact Hdd |].
    rewrite E1, E2, F1, F2.
    rewrite !window_inside by lia.
    rewrite Nat.sub_0_r. destruct (Hrow t d Ht Hdd) as (_ & -> & ->). auto. }
  apply attend_congr.
  - intros t Ht. rewrite !score_causal by lia.
    destruct (Nat.ltb_spec p t); [reflexivity|].
    apply score_rows; intros d Hdd.
    + apply (Hrow p d); lia.
    + apply (Hcell t d); lia.
  - intros t Ht Hne. rewrite score_causal in Hne by lia.
    destruct (Nat.ltb_spec p t); [contradiction|].
    apply (Hcell t (c mod D)); lia.
Qed.

End FirstStep.

Section Distribution.

Lemma xexp_nonneg (x : xreal) : (0 <= xexp x)%R.
Proof. destruct x; cbn [xexp]; [apply Rlt_le, exp_pos | lra]. Qed.

Lemma sum_upto_pos (n : nat) (f : nat -> R) (k : nat) :
  (forall j, j < n -> (0 <= f j)%R) -> k < n -> (0 < f k)%R -> (0 < sum_upto n f)%R.
Proof.
  induction n as [|n IH]; intros Hf Hk Hpos; [lia|].
  rewrite sum_upto_S.
  assert (Hn : (0 <= sum_upto n f)%R) by (apply sum_upto_nonneg; intros j Hj; apply Hf; lia).
  destruct (Nat.eq_dec k n) as [->|Hne].
  - lra.
  - assert (0 < sum_upto n f)%R by (apply IH; [intros j Hj; apply Hf; lia | lia | exact Hpos]).
    pose proof (Hf n (Nat.lt_succ_diag_r n)). lra.
Qed.

Lemma score_unmasked_finite (hd : nat) (q ck : tensor R) (h p t : nat) :
  exists r, score hd q ck None h p t = Finite r.
Proof. unfold score. eexists. reflexivity. Qed.

Variable args : ModelArgs.
Variable a : Attention.
Hypothesis Hwf : Attention_wf args a.

Lemma Attention_scores_distribution (q keys values : tensor R) (s sp : nat) :
  1 <= s -> s = 1 \/ sp = 0 ->
  shape q = [s; n_heads args; dim args / n_heads args] ->
  shape keys = [1; sp + s; n_heads args; dim args / n_heads args] ->
  shape values = [1; sp + s; n_heads args; dim args / n_heads args] ->
  exists sc vt,
    Attention_scores a q keys values (causal_mask s sp) = Ok (sc, vt) /\
    forall h p,
      h < n_heads args -> p < s ->
      Rlt 0%R (sum_upto (sp + s) (fun t => xexp (item sc [0; h; p; t]))) /\
      sum_upto (sp + s) (fun t => item (softmax sc) [0; h; p; t]) = 1%R /\
      forall t, t < sp + s -> Rle 0%R (item (softmax sc) [0; h; p; t]).
Proof.
  intros Hs Hstep Hq Hk Hv.
  assert (Hmask : mask_fits (causal_mask s sp) [1; n_heads args; s; sp + s]).
  { destruct Hstep as [-> | ->]; [exact I | apply causal_mask_fits]. }
  destruct (@Attention_scores_items args a Hwf q keys values (causal_mask s sp) s (sp + s)
              Hq Hk Hv Hmask) as (sc & vt & Hsc & Hscs & _ & Hsci & _).
  exists sc, vt. split; [exact Hsc|].
  intros h p Hh Hp.
  assert (Hopen : exists r, item sc [0; h; p; sp + p] = Finite r).
  { rewrite (Hsci h p (sp + p)) by lia.
    destruct Hstep as [-> | ->].
    - apply score_unmasked_finite.
    - rewrite score_causal by lia. cbn [Nat.add].
      rewrite Nat.ltb_irrefl. apply score_unmasked_finite. }
  assert (HZ : Rlt 0%R (sum_upto (sp + s) (fun t => xexp (item sc [0; h; p; t])))).
  { apply (@sum_upto_pos _ _ (sp + p)).
    - intros j _. apply xexp_nonneg.
    - lia.
    - destruct Hopen as (r & ->). cbn [xexp]. apply exp_pos. }
  split; [exact HZ|]. split.
  - rewrite (@sum_upto_ext (sp + s) _
               (fun t => Rmult (Rinv (sum_upto (sp + s)
                                        (fun l => xexp (item sc [0; h; p; l]))))
                               (xexp (item sc [0; h; p; t])))).
    + rewrite sum_upto_scal. apply Rinv_l. lra.
    + intros t Ht.
      rewrite (@softmax_item sc (n_heads args) s (sp + s) h p t Hscs Hh Hp Ht).
      unfold Rdiv. apply Rmult_comm.
  - intros t Ht.
    rewrite (@softmax_item sc (n_heads args) s (sp + s) h p t Hscs Hh Hp Ht).
    apply Rmult_le_pos; [apply xexp_nonneg|]. apply Rlt_le, Rinv_0_lt_compat. exact HZ.
Qed.

End Distribution.

(** ** A first step followed by a step of one position *)

Section StepAttention.

Variable args : ModelArgs.

Lemma Attention_step_rows (a : Attention)
    (x x0 x1 : tensor R) (n : nat) (fc fc0 fc1 : tensor complex) :
  Attention_wf args a -> config_ok args ->
  wf x -> wf x0 -> wf x1 ->
  shape x = [1; S n; dim args] -> shape x0 = [1; n; dim args] ->
  shape x1 = [1; 1; dim args] ->
  shape fc = [S n; dim args / n_heads args / 2] ->
  shape fc0 = [n; dim args / n_heads args / 2] ->
  shape fc1 = [1; dim args / n_heads args / 2] ->
  1 <= n -> S n <= max_seq_len args ->
  split_rows (dim args) n x x0 x1 ->
  split_freqs (dim args / n_heads args / 2) n fc fc0 fc1 ->
  exists y af y0 a1 y1 a2,
    Attention_forward x 0 fc (causal_mask (S n) 0) a = (Ok y, af) /\
    Attention_forward x0 0 fc0 (causal_mask n 0) a = (Ok y0, a1) /\
    Attention_forward x1 n fc1 (causal_mask 1 n) a1 = (Ok y1, a2) /\
    (shape y = [1; S n; dim args] /\ shape y0 = [1; n; dim args] /\
     shape y1 = [1; 1; dim args]) /\
    (Attention_wf args af /\ Attention_wf args a1 /\ Attention_wf args a2) /\
    split_rows (dim args) n y y0 y1 /\
    caches_agree args a2 af.
Proof.
  intros Hwf Hc Hwx Hwx0 Hwx1 Hx Hx0 Hx1 Hfc Hfc0 Hfc1 Hn Hcap [Hrow0' Hrow1] [Hfr0 Hfr1].
  assert (Hrow0 : forall p k, p < n -> k < dim args -> item x0 [0; p; k] = item x [0; p; k])
    by (intros p k Hp Hk; apply (Hrow0' p Hp k Hk)).
  pose proof (head_dim_even Hc) as Heven.
  pose proof (batch_pos Hc) as Hbatch.
  destruct (@Attention_forward_rows args a x 0 (S n) fc (causal_mask (S n) 0)
              Hwf Hc Hwx Hx (le_n_S _ _ (Nat.le_0_l n)) Hfc Hcap
              (causal_mask_fits (S n) (n_heads args)))
    as (qF & kF & vF & y & af & HfF & HsF & HwfF & _ & _ & _ & _ & HrowsF & HcacheF & HyF).
  destruct (@Attention_forward_rows args a x0 0 n fc0 (causal_mask n 0)
              Hwf Hc Hwx0 Hx0 Hn Hfc0 (Nat.lt_le_incl _ _ Hcap)
              (causal_mask_fits n (n_heads args)))
    as (qP & kP & vP & y0 & a1 & HfP & HsP & Hwf1 & Ewq & Ewk & Ewv & Ewo &
        HrowsP & HcacheP & HyP).
  assert (Hcap1 : n + 1 <= max_seq_len args) by lia.
  destruct (@Attention_forward_rows args a1 x1 n 1 fc1 (causal_mask 1 n)
              Hwf1 Hc Hwx1 Hx1 (le_n 1) Hfc1 Hcap1 I)
    as (qD & kD & vD & y1 & a2 & HfD & HsD & HwfD & _ & _ & _ & _ & HrowsD & HcacheD & HyD).
  exists y, af, y0, a1, y1, a2.
  split; [exact HfF|]. split; [exact HfP|]. split; [exact HfD|].
  split; [auto|]. split; [auto|].
  set (D := dim args / n_heads args) in *.
  assert (Hpr : forall l xa xb pa pb cc, in_features l = dim args ->
            (forall k, k < dim args -> item xa [0; pa; k] = item xb [0; pb; k]) ->
            project_row l xa pa cc = project_row l xb pb cc).
  { intros l xa xb pa pb cc Hl Hab. apply project_row_rows. intros j Hj. apply Hab.
    rewrite <- Hl. exact Hj. }
  assert (RowP : forall p h d, p < n -> h < n_heads args -> d < D ->
            item qP [p; h; d] = item qF [p; h; d] /\
            item kP [p; h; d] = item kF [p; h; d] /\
            item vP [p; h; d] = item vF [p; h; d]).
  { intros p h d Hp Hh Hd.
    destruct (HrowsP p h d Hp Hh Hd) as (E1 & E2 & E3).
    destruct (HrowsF p h d) as (F1 & F2 & F3); [lia | exact Hh | exact Hd |].
    rewrite E1, E2, E3, F1, F2, F3.
    rewrite !(@rotary_entry_rows fc0 fc p p d)
      by (apply Hfr0; [exact Hp | apply half_lt; assumption]).
    rewrite (Hpr (wq a) x0 x p p _ (wf_wq_in Hwf)) by (intros; apply Hrow0; assumption).
    rewrite (Hpr (wk a) x0 x p p _ (wf_wk_in Hwf)) by (intros; apply Hrow0; assumption).
    rewrite (Hpr (wv a) x0 x p p _ (wf_wv_in Hwf)) by (intros; apply Hrow0; assumption).
    repeat split. }
  assert (RowD : forall h d, h < n_heads args -> d < D ->
            item qD [0; h; d] = item qF [n; h; d] /\
            item kD [0; h; d] = item kF [n; h; d] /\
            item vD [0; h; d] = item vF [n; h; d]).
  { intros h d Hh Hd.
    destruct (HrowsD 0 h d) as (E1 & E2 & E3); [lia | exact Hh | exact Hd |].
    destruct (HrowsF n h d) as (F1 & F2 & F3); [lia | exact Hh | exact Hd |].
    rewrite E1, E2, E3, F1, F2, F3, Ewq, Ewk, Ewv.
    rewrite !(@rotary_entry_rows fc1 fc 0 n d)
      by (apply Hfr1; apply half_lt; assumption).
    rewrite (Hpr (wq a) x1 x 0 n _ (wf_wq_in Hwf)) by (intros; apply Hrow1; assumption).
    rewrite (Hpr (wk a) x1 x 0 n _ (wf_wk_in Hwf)) by (intros; apply Hrow1; assumption).
    rewrite (Hpr (wv a) x1 x 0 n _ (wf_wv_in Hwf)) by (intros; apply Hrow1; assumption).
    repeat split. }
  assert (CellP : forall t h d, t < n -> h < n_heads args -> d < D ->
            item (cache_k a1) [0; t; h; d] = item (cache_k af) [0; t; h; d] /\
            item (cache_v a1) [0; t; h; d] = item (cache_v af) [0; t; h; d]).
  { intros t h d Ht Hh Hd.
    destruct (HcacheP 0 t h d) as (E1 & E2); [lia | lia | exact Hh | exact Hd |].
    destruct (HcacheF 0 t h d) as (F1 & F2); [lia | lia | exact Hh | exact Hd |].
    rewrite E1, E2, F1, F2, !window_inside by lia.
    rewrite Nat.sub_0_r. destruct (RowP t h d Ht Hh Hd) as (_ & -> & ->). auto. }
  assert (Cell : forall b p h d,
            b < max_batch_size args -> p < max_seq_len args ->
            h < n_heads args -> d < D ->
            item (cache_k a2) [b; p; h; d] = item (cache_k af) [b; p; h; d] /\
            item (cache_v a2) [b; p; h; d] = item (cache_v af) [b; p; h; d]).
  { intros b p h d Hb Hp Hh Hd.
    destruct (HcacheD b p h d Hb Hp Hh Hd) as (E1 & E2).
    destruct (HcacheP b p h d Hb Hp Hh Hd) as (P1 & P2).
    destruct (HcacheF b p h d Hb Hp Hh Hd) as (F1 & F2).
    rewrite E1, E2, F1, F2.
    destruct (Nat.eq_dec b 0) as [->|Hb0].
    - destruct (Nat.lt_trichotomy p n) as [Hlt|[->|Hgt]].
      + rewrite (@window_outside 0 n 1 p) by lia.
        rewrite window_inside by lia. rewrite Nat.sub_0_r.
        destruct (CellP p h d Hlt Hh Hd) as (C1 & C2).
        destruct (HcacheF 0 p h d Hb Hp Hh Hd) as (G1 & G2).
        rewrite window_inside, Nat.sub_0_r in G1, G2 by lia.
        rewrite C1, C2, G1, G2. auto.
      + rewrite !window_inside by lia. rewrite Nat.sub_diag, Nat.sub_0_r.
        destruct (RowD h d Hh Hd) as (_ & -> & ->). auto.
      + rewrite !window_outside by lia. rewrite P1, P2, !window_outside by lia. auto.
    - rewrite !window_other_example by lia. rewrite P1, P2, !window_other_example by lia.
      auto. }
  split; [split|exact Cell].
  - intros p Hp o Ho. rewrite (HyP p o Hp Ho), (HyF p o) by lia.
    apply sum_upto_ext. intros c Hcc. f_equal.
    destruct (@heads_split _ _ c Hcc) as [Hh Hd].
    change (0 + S n) with (S n). change (0 + n) with n.
    rewrite attend_extend
      by (rewrite score_causal by lia; destruct (Nat.ltb_spec p n); [reflexivity | lia]).
    apply attend_congr.
    + intros t Ht. rewrite !score_causal by lia.
      destruct (Nat.ltb_spec p t); [reflexivity|].
      apply score_rows; intros d Hdd.
      * apply (RowP p (c / D) d); assumption.
      * apply (CellP t (c / D) d); assumption.
    + intros t Ht _. apply (CellP t (c / D) (c mod D)); assumption.
  - intros o Ho. rewrite (HyD 0 o) by lia. rewrite (HyF n o) by lia.
    rewrite Ewo. apply sum_upto_ext. intros c Hcc. f_equal.
    destruct (@heads_split _ _ c Hcc) as [Hh Hd].
    change (0 + S n) with (S n). rewrite Nat.add_1_r.
    change (causal_mask 1 n) with (@None (tensor xreal)).
    apply attend_congr.
    + intros t Ht. rewrite score_causal by lia.
      destruct (Nat.ltb_spec n t); [lia|].
      apply score_rows; intros d Hdd.
      * apply (RowD (c / D) d); assumption.
      * apply (Cell 0 t (c / D) d); lia.
    + intros t Ht _. apply (Cell 0 t (c / D) (c mod D)); lia.
Qed.

End StepAttention.

Section RowOps.

Lemma binop_wf {A B C} `{Default A} `{Default B} (f : A -> B -> C)
    (a : tensor A) (b : tensor B) (y : tensor C) :
  binop f a b = Ok y -> wf y.
Proof.
  unfold binop. destruct (broadcast_shapes (shape a) (shape b)); [|discriminate].
  intros E. injection E as <-. apply wf_build.
Qed.

Lemma RMSNorm_forward_wf (n : RMSNorm) (x y : tensor R) :
  RMSNorm_forward n x = Ok y -> wf y.
Proof.
  unfold RMSNorm_forward. destruct (RMSNorm_norm n x) as [o|]; [|discriminate].
  cbn [bind]. apply binop_wf.
Qed.

Lemma RMSNorm_rows_agree (n : RMSNorm) (d : nat) (x x' y y' : tensor R) (s s' p p' : nat) :
  RMSNorm_wf d n -> wf x -> wf x' ->
  shape x = [1; s; d] -> shape x' = [1; s'; d] -> p < s -> p' < s' ->
  RMSNorm_forward n x = Ok y -> RMSNorm_forward n x' = Ok y' ->
  rows_agree d x x' p p' -> rows_agree d y y' p p'.
Proof.
  intros Hn Hwx Hwx' Hx Hx' Hp Hp' Hy Hy' Hrows.
  destruct (@RMSNorm_forward_items n x [1; s] d Hn Hwx Hx) as (z & Hz & _ & Hzi).
  destruct (@RMSNorm_forward_items n x' [1; s'] d Hn Hwx' Hx') as (z' & Hz' & _ & Hzi').
  rewrite Hy in Hz. injection Hz as <-. rewrite Hy' in Hz'. injection Hz' as <-.
  intros j Hj.
  change [0; p; j] with ([0; p] ++ [j]). change [0; p'; j] with ([0; p'] ++ [j]).
  rewrite (Hzi [0; p] j) by (try exact Hj; repeat constructor; lia).
  rewrite (Hzi' [0; p'] j) by (try exact Hj; repeat constructor; lia).
  cbn [app]. rewrite (Hrows j Hj).
  rewrite (@sum_upto_ext d (fun k => Rmult (item x [0; p; k]) (item x [0; p; k]))
             (fun k => Rmult (item x' [0; p'; k]) (item x' [0; p'; k])))
    by (intros k Hk; rewrite (Hrows k Hk); reflexivity).
  reflexivity.
Qed.

Lemma FeedForward_rows_agree (f : FeedForward) (d : nat) (x x' y y' : tensor R)
    (s s' p p' : nat) :
  FeedForward_wf d f ->
  shape x = [1; s; d] -> shape x' = [1; s'; d] -> p < s -> p' < s' ->
  FeedForward_forward f x = Ok y -> FeedForward_forward f x' = Ok y' ->
  rows_agree d x x' p p' -> rows_agree d y y' p p'.
Proof.
  intros Hf Hx Hx' Hp Hp' Hy Hy' Hrows.
  destruct (@FeedForward_forward_items f x [1; s] d Hf Hx) as (z & Hz & _ & Hzi).
  destruct (@FeedForward_forward_items f x' [1; s'] d Hf Hx') as (z' & Hz' & _ & Hzi').
  rewrite Hy in Hz. injection Hz as <-. rewrite Hy' in Hz'. injection Hz' as <-.
  intros j Hj.
  change [0; p; j] with ([0; p] ++ [j]). change [0; p'; j] with ([0; p'] ++ [j]).
  rewrite (Hzi [0; p] j) by (try exact Hj; repeat constructor; lia).
  rewrite (Hzi' [0; p'] j) by (try exact Hj; repeat constructor; lia).
  cbn [app]. apply sum_upto_ext. intros h Hh.
  rewrite (@sum_upto_ext d
             (fun k => Rmult (item x [0; p; k]) (item (weight (w1 f)) [h; k]))
             (fun k => Rmult (item x' [0; p'; k]) (item (weight (w1 f)) [h; k])))
    by (intros k Hk; rewrite (Hrows k Hk); reflexivity).
  rewrite (@sum_upto_ext d
             (fun k => Rmult (item x [0; p; k]) (item (weight (w3 f)) [h; k]))
             (fun k => Rmult (item x' [0; p'; k]) (item (weight (w3 f)) [h; k])))
    by (intros k Hk; rewrite (Hrows k Hk); reflexivity).
  reflexivity.
Qed.

Lemma add_item (x a h : tensor R) (s d p j : nat) :
  shape x = [1; s; d] -> shape a = [1; s; d] -> add x a = Ok h ->
  p < s -> j < d ->
  item h [0; p; j] = Rplus (item x [0; p; j]) (item a [0; p; j]).
Proof.
  intros Hx Ha Hh Hp Hj. unfold add in Hh.
  rewrite (@binop_build _ _ _ _ _ Rplus x a [1; s; d]) in Hh
    by (rewrite Hx, Ha; apply broadcast_shapes_refl).
  injection Hh as <-.
  assert (Hin : in_bounds [1; s; d] [0; p; j]) by (apply in_bounds3_intro; lia).
  rewrite item_build by exact Hin.
  rewrite Hx, Ha, !bcast_index_id by exact Hin. reflexivity.
Qed.

Lemma add_rows_agree (d : nat) (x a h x' a' h' : tensor R) (s s' p p' : nat) :
  shape x = [1; s; d] -> shape a = [1; s; d] ->
  shape x' = [1; s'; d] -> shape a' = [1; s'; d] ->
  p < s -> p' < s' ->
  add x a = Ok h -> add x' a' = Ok h' ->
  rows_agree d x x' p p' -> rows_agree d a a' p p' -> rows_agree d h h' p p'.
Proof.
  intros Hx Ha Hx' Ha' Hp Hp' Hh Hh' Hrx Hra j Hj.
  rewrite (@add_item x a h s d p j Hx Ha Hh Hp Hj).
  rewrite (@add_item x' a' h' s' d p' j Hx' Ha' Hh' Hp' Hj).
  rewrite (Hrx j Hj), (Hra j Hj). reflexivity.
Qed.

End RowOps.

Section StepBlock.

Variable args : ModelArgs.
Hypothesis Hc : config_ok args.

Lemma TransformerBlock_forward_compose (b : TransformerBlock) (x : tensor R) (sp : nat)
    (fc : tensor complex) (mask : option (tensor xreal))
    (nx ya h n2 f y : tensor R) (att : Attention) :
  RMSNorm_forward (attention_norm b) x = Ok nx ->
  Attention_forward nx sp fc mask (attention b) = (Ok ya, att) ->
  add x ya = Ok h ->
  RMSNorm_forward (ffn_norm b) h = Ok n2 ->
  FeedForward_forward (feed_forward b) n2 = Ok f ->
  add h f = Ok y ->
  TransformerBlock_forward x sp fc mask b = (Ok y, set_attention b att).
Proof.
  intros Hnx Hya Hh Hn2 Hf Hy. unfold TransformerBlock_forward.
  rewrite Hnx, Hya. cbn [bind]. rewrite Hh. cbn [bind set_attention ffn_norm feed_forward].
  rewrite Hn2. cbn [bind]. rewrite Hf. cbn [bind]. rewrite Hy. reflexivity.
Qed.

(** One run of a block, with the intermediate results named. *)
Lemma TransformerBlock_tail (b : TransformerBlock) (x ya : tensor R) (s : nat) :
  TransformerBlock_wf args b ->
  shape x = [1; s; dim args] -> shape ya = [1; s; dim args] ->
  exists h n2 f y,
    add x ya = Ok h /\ shape h = [1; s; dim args] /\ wf h /\
    RMSNorm_forward (ffn_norm b) h = Ok n2 /\ shape n2 = [1; s; dim args] /\
    FeedForward_forward (feed_forward b) n2 = Ok f /\ shape f = [1; s; dim args] /\
    add h f = Ok y /\ shape y = [1; s; dim args] /\ wf y.
Proof.
  intros Hb Hx Hya.
  destruct (@add_ok x ya [1; s; dim args] Hx Hya) as (h & Hh & Hhs).
  destruct (@RMSNorm_forward_ok (ffn_norm b) h [1; s] (dim args) (wf_ffn_norm Hb) Hhs)
    as (n2 & Hn2 & Hn2s).
  destruct (@FeedForward_forward_ok (feed_forward b) n2 [1; s] (dim args)
              (wf_feed_forward Hb) Hn2s) as (f & Hf & Hfs).
  destruct (@add_ok h f [1; s; dim args] Hhs Hfs) as (y & Hy & Hys).
  exists h, n2, f, y.
  split; [exact Hh|]. split; [exact Hhs|]. split; [exact (binop_wf _ _ _ Hh)|].
  split; [exact Hn2|]. split; [exact Hn2s|]. split; [exact Hf|]. split; [exact Hfs|].
  split; [exact Hy|]. split; [exact Hys | exact (binop_wf _ _ _ Hy)].
Qed.

(** The rows of the output of a block in two runs agree when the rows of
    the input and of the attention output do. *)
Lemma TransformerBlock_tail_rows (b : TransformerBlock)
    (x ya h n2 f y x' ya' h' n2' f' y' : tensor R) (s s' p p' : nat) :
  TransformerBlock_wf args b ->
  shape x = [1; s; dim args] -> shape ya = [1; s; dim args] ->
  shape x' = [1; s'; dim args] -> shape ya' = [1; s'; dim args] ->
  p < s -> p' < s' ->
  add x ya = Ok h -> RMSNorm_forward (ffn_norm b) h = Ok n2 ->
  FeedForward_forward (feed_forward b) n2 = Ok f -> add h f = Ok y ->
  add x' ya' = Ok h' -> RMSNorm_forward (ffn_norm b) h' = Ok n2' ->
  FeedForward_forward (feed_forward b) n2' = Ok f' -> add h' f' = Ok y' ->
  rows_agree (dim args) x x' p p' -> rows_agree (dim args) ya ya' p p' ->
  rows_agree (dim args) y y' p p'.
Proof.
  intros Hb Hx Hya Hx' Hya' Hp Hp' Hh Hn2 Hf Hy Hh' Hn2' Hf' Hy' Hrx Hra.
  destruct (@add_ok x ya [1; s; dim args] Hx Hya) as (h0 & Hh0 & Hhs).
  rewrite Hh in Hh0. injection Hh0 as <-.
  destruct (@add_ok x' ya' [1; s'; dim args] Hx' Hya') as (h0 & Hh0 & Hhs').
  rewrite Hh' in Hh0. injection Hh0 as <-.
  pose proof (@add_rows_agree (dim args) x ya h x' ya' h' s s' p p'
                Hx Hya Hx' Hya' Hp Hp' Hh Hh' Hrx Hra) as Hrh.
  destruct (@RMSNorm_forward_ok (ffn_norm b) h [1; s] (dim args) (wf_ffn_norm Hb) Hhs)
    as (m & Hm & Hn2s).
  rewrite Hn2 in Hm. injection Hm as <-.
  destruct (@RMSNorm_forward_ok (ffn_norm b) h' [1; s'] (dim args) (wf_ffn_norm Hb) Hhs')
    as (m & Hm & Hn2s').
  rewrite Hn2' in Hm. injection Hm as <-.
  pose proof (@RMSNorm_rows_agree (ffn_norm b) (dim args) h h' n2 n2' s s' p p'
                (wf_ffn_norm Hb) (binop_wf _ _ _ Hh) (binop_wf _ _ _ Hh')
                Hhs Hhs' Hp Hp' Hn2 Hn2' Hrh) as Hrn.
  destruct (@FeedForward_forward_ok (feed_forward b) n2 [1; s] (dim args)
              (wf_feed_forward Hb) Hn2s) as (g & Hg & Hfs).
  rewrite Hf in Hg. injection Hg as <-.
  destruct (@FeedForward_forward_ok (feed_forward b) n2' [1; s'] (dim args)
              (wf_feed_forward Hb) Hn2s') as (g & Hg & Hfs').
  rewrite Hf' in Hg. injection Hg as <-.
  pose proof (@FeedForward_rows_agree (feed_forward b) (dim args) n2 n2' f f' s s' p p'
                (wf_feed_forward Hb) Hn2s Hn2s' Hp Hp' Hf Hf' Hrn) as Hrf.
  apply (@add_rows_agree (dim args) h f y h' f' y' s s' p p'
           Hhs Hfs Hhs' Hfs' Hp Hp' Hy Hy' Hrh Hrf).
Qed.

Lemma TransformerBlock_step_rows (b : TransformerBlock)
    (x x0 x1 : tensor R) (n : nat) (fc fc0 fc1 : tensor complex) :
  TransformerBlock_wf args b ->
  wf x -> wf x0 -> wf x1 ->
  shape x = [1; S n; dim args] -> shape x0 = [1; n; dim args] ->
  shape x1 = [1; 1; dim args] ->
  shape fc = [S n; dim args / n_heads args / 2] ->
  shape fc0 = [n; dim args / n_heads args / 2] ->
  shape fc1 = [1; dim args / n_heads args / 2] ->
  1 <= n -> S n <= max_seq_len args ->
  split_rows (dim args) n x x0 x1 ->
  split_freqs (dim args / n_heads args / 2) n fc fc0 fc1 ->
  exists y bF y0 b1 y1 b2,
    TransformerBlock_forward x 0 fc (causal_mask (S n) 0) b = (Ok y, bF) /\
    TransformerBlock_forward x0 0 fc0 (causal_mask n 0) b = (Ok y0, b1) /\
    TransformerBlock_forward x1 n fc1 (causal_mask 1 n) b1 = (Ok y1, b2) /\
    (shape y = [1; S n; dim args] /\ shape y0 = [1; n; dim args] /\
     shape y1 = [1; 1; dim args]) /\
    (wf y /\ wf y0 /\ wf y1) /\
    (TransformerBlock_wf args bF /\ TransformerBlock_wf args b1 /\
     TransformerBlock_wf args b2) /\
    split_rows (dim args) n y y0 y1 /\
    caches_agree args (attention b2) (attention bF).
Proof.
  intros Hb Hwx Hwx0 Hwx1 Hx Hx0 Hx1 Hfc Hfc0 Hfc1 Hn Hcap [Hr0 Hr1] Hfr.
  pose proof (wf_attention_norm Hb) as Han.
  destruct (@RMSNorm_forward_ok (attention_norm b) x [1; S n] (dim args) Han Hx)
    as (nx & Hnx & Hnxs).
  destruct (@RMSNorm_forward_ok (attention_norm b) x0 [1; n] (dim args) Han Hx0)
    as (nx0 & Hnx0 & Hnx0s).
  destruct (@RMSNorm_forward_ok (attention_norm b) x1 [1; 1] (dim args) Han Hx1)
    as (nx1 & Hnx1 & Hnx1s).
  assert (Hsplit : split_rows (dim args) n nx nx0 nx1).
  { split.
    - intros p Hp.
      apply (@RMSNorm_rows_agree (attention_norm b) (dim args) x0 x nx0 nx n (S n) p p
               Han Hwx0 Hwx Hx0 Hx Hp (Nat.lt_lt_succ_r _ _ Hp) Hnx0 Hnx (Hr0 p Hp)).
    - apply (@RMSNorm_rows_agree (attention_norm b) (dim args) x1 x nx1 nx 1 (S n) 0 n
               Han Hwx1 Hwx Hx1 Hx (le_n 1) (le_n (S n)) Hnx1 Hnx Hr1). }
  destruct (@Attention_step_rows args (attention b) nx nx0 nx1 n fc fc0 fc1
              (wf_attention Hb) Hc
              (RMSNorm_forward_wf _ _ Hnx) (RMSNorm_forward_wf _ _ Hnx0)
              (RMSNorm_forward_wf _ _ Hnx1)
              Hnxs Hnx0s Hnx1s Hfc Hfc0 Hfc1 Hn Hcap Hsplit Hfr)
    as (ya & af & ya0 & a1 & ya1 & a2 & HfF & HfP & HfD &
        (Hyas & Hya0s & Hya1s) & (HwfF & Hwf1 & Hwf2) & [Ha0 Ha1] & Hcells).
  destruct (@TransformerBlock_tail b x ya (S n) Hb Hx Hyas)
    as (h & n2 & f & y & Hh & _ & _ & Hn2 & _ & Hf & _ & Hy & Hys & Hwy).
  destruct (@TransformerBlock_tail b x0 ya0 n Hb Hx0 Hya0s)
    as (h0 & n20 & f0 & y0 & Hh0 & _ & _ & Hn20 & _ & Hf0 & _ & Hy0 & Hy0s & Hwy0).
  destruct (@TransformerBlock_tail b x1 ya1 1 Hb Hx1 Hya1s)
    as (h1 & n21 & f1 & y1 & Hh1 & _ & _ & Hn21 & _ & Hf1 & _ & Hy1 & Hy1s & Hwy1).
  exists y, (set_attention b af), y0, (set_attention b a1), y1,
         (set_attention (set_attention b a1) a2).
  split; [apply (TransformerBlock_forward_compose _ _ _ _ _ Hnx HfF Hh Hn2 Hf Hy)|].
  split; [apply (TransformerBlock_forward_compose _ _ _ _ _ Hnx0 HfP Hh0 Hn20 Hf0 Hy0)|].
  split; [apply (@TransformerBlock_forward_compose (set_attention b a1) x1 n fc1
                   (causal_mask 1 n) nx1 ya1 h1 n21 f1 y1 a2 Hnx1 HfD Hh1 Hn21 Hf1 Hy1)|].
  split; [auto|]. split; [auto|].
  split; [split; [|split]; repeat apply set_attention_wf; assumption|].
  split; [|exact Hcells].
  split.
  - intros p Hp.
    apply (@TransformerBlock_tail_rows b x0 ya0 h0 n20 f0 y0 x ya h n2 f y n (S n) p p
             Hb Hx0 Hya0s Hx Hyas Hp (Nat.lt_lt_succ_r _ _ Hp)
             Hh0 Hn20 Hf0 Hy0 Hh Hn2 Hf Hy (Hr0 p Hp) (Ha0 p Hp)).
  - apply (@TransformerBlock_tail_rows b x1 ya1 h1 n21 f1 y1 x ya h n2 f y 1 (S n) 0 n
             Hb Hx1 Hya1s Hx Hyas (le_n 1) (le_n (S n))
             Hh1 Hn21 Hf1 Hy1 Hh Hn2 Hf Hy Hr1 Ha1).
Qed.

End StepBlock.

Section StepLayers.

Variable args : ModelArgs.
Hypothesis Hc : config_ok args.

Lemma run_layers_step_rows (ls : list TransformerBlock)
    (x x0 x1 : tensor R) (n : nat) (fc fc0 fc1 : tensor complex) :
  Forall (TransformerBlock_wf args) ls ->
  wf x -> wf x0 -> wf x1 ->
  shape x = [1; S n; dim args] -> shape x0 = [1; n; dim args] ->
  shape x1 = [1; 1; dim args] ->
  shape fc = [S n; dim args / n_heads args / 2] ->
  shape fc0 = [n; dim args / n_heads args / 2] ->
  shape fc1 = [1; dim args / n_heads args / 2] ->
  1 <= n -> S n <= max_seq_len args ->
  split_rows (dim args) n x x0 x1 ->
  split_freqs (dim args / n_heads args / 2) n fc fc0 fc1 ->
  exists y lsF y0 ls1 y1 ls2,
    run_layers x 0 fc (causal_mask (S n) 0) ls = (Ok y, lsF) /\
    run_layers x0 0 fc0 (causal_mask n 0) ls = (Ok y0, ls1) /\
    run_layers x1 n fc1 (causal_mask 1 n) ls1 = (Ok y1, ls2) /\
    (shape y = [1; S n; dim args] /\ shape y0 = [1; n; dim args] /\
     shape y1 = [1; 1; dim args]) /\
    (wf y /\ wf y0 /\ wf y1) /\
    (Forall (TransformerBlock_wf args) lsF /\ Forall (TransformerBlock_wf args) ls1 /\
     Forall (TransformerBlock_wf args) ls2) /\
    split_rows (dim args) n y y0 y1 /\
    Forall2 (fun b2 bF => caches_agree args (attention b2) (attention bF)) ls2 lsF.
Proof.
  intros Hls Hwx Hwx0 Hwx1 Hx Hx0 Hx1 Hfc Hfc0 Hfc1 Hn Hcap.
  revert x x0 x1 Hwx Hwx0 Hwx1 Hx Hx0 Hx1.
  induction Hls as [|b ls Hb Hls IH]; intros x x0 x1 Hwx Hwx0 Hwx1 Hx Hx0 Hx1 Hsplit Hfr.
  - exists x, [], x0, [], x1, []. cbn [run_layers].
    repeat (split; [auto|]). constructor.
  - destruct (@TransformerBlock_step_rows args Hc b x x0 x1 n fc fc0 fc1 Hb Hwx Hwx0 Hwx1
                Hx Hx0 Hx1 Hfc Hfc0 Hfc1 Hn Hcap Hsplit Hfr)
      as (h & bF & h0 & b1 & h1 & b2 & HbF & HbP & HbD &
          (Hhs & Hh0s & Hh1s) & (Hwh & Hwh0 & Hwh1) & (HwF & Hw1 & Hw2) & Hsp & Hcells).
    destruct (IH h h0 h1 Hwh Hwh0 Hwh1 Hhs Hh0s Hh1s Hsp Hfr)
      as (y & lsF & y0 & ls1 & y1 & ls2 & HrF & HrP & HrD & Hshapes & Hwfs &
          (HlF & Hl1 & Hl2) & Hrows & Hall).
    exists y, (bF :: lsF), y0, (b1 :: ls1), y1, (b2 :: ls2).
    cbn [run_layers]. rewrite HbF, HrF, HbP, HrP, HbD, HrD.
    split; [reflexivity|]. split; [reflexivity|]. split; [reflexivity|].
    split; [exact Hshapes|]. split; [exact Hwfs|].
    split; [split; [|split]; constructor; assumption|].
    split; [exact Hrows|]. constructor; assumption.
Qed.

End StepLayers.

Section StepModel.

Variable t : Transformer.
Hypothesis Hwf : Transformer_wf t.

Lemma embedding_rows (tokens : tensor nat) (s : nat) :
  shape tokens = [1; s] ->
  Forall (fun tok => tok < vocab_size (params t)) (data tokens) ->
  exists e,
    embedding (tok_embeddings t) tokens = Ok e /\
    shape e = [1; s; dim (params t)] /\ wf e /\
    forall p k, p < s -> k < dim (params t) ->
      item e [0; p; k] = item (table (tok_embeddings t)) [item tokens [0; p]; k].
Proof.
  intros Htok Hvocab.
  destruct (@embedding_ok (tok_embeddings t) tokens) as (e & He & Hes & Hwe).
  { rewrite (wf_tok_num Hwf). exact Hvocab. }
  rewrite Htok, (wf_tok_dim Hwf) in Hes. cbn [app] in Hes.
  exists e. split; [exact He|]. split; [exact Hes|]. split; [exact Hwe|].
  intros p k Hp Hk. unfold embedding in He.
  destruct (forallb _ _); [|discriminate]. injection He as <-.
  rewrite item_build
    by (rewrite Htok, (wf_tok_dim Hwf); apply in_bounds3_intro; lia).
  reflexivity.
Qed.

Lemma freqs_cis_slice_item (sp s p i : nat) (fc : tensor complex) :
  sp + s <= max_seq_len (params t) * 2 ->
  getitem [Range sp (sp + s)] (freqs_cis t) = Ok fc ->
  p < s -> i < dim (params t) / n_heads (params t) / 2 ->
  item fc [p; i] = item (freqs_cis t) [sp + p; i].
Proof.
  intros Hin Hg Hp Hi.
  rewrite getitem_ok in Hg by (rewrite (wf_freqs_cis Hwf); simpl; lia).
  injection Hg as <-. rewrite (wf_freqs_cis Hwf).
  rewrite item_build.
  - cbn [slice_to_base slice_start]. f_equal. f_equal. lia.
  - cbn [slice_shape]. rewrite slice_len_Range. apply in_bounds2_intro; lia.
Qed.

Lemma Transformer_forward_compose (tokens : tensor nat) (sp s b0 : nat)
    (e h hn last out : tensor R) (fc : tensor complex) (ls : list TransformerBlock) :
  shape tokens = [b0; s] ->
  embedding (tok_embeddings t) tokens = Ok e ->
  getitem [Range sp (sp + s)] (freqs_cis t) = Ok fc ->
  run_layers e sp fc (causal_mask s sp) (layers t) = (Ok h, ls) ->
  RMSNorm_forward (norm t) h = Ok hn ->
  select_last1 hn = Ok last ->
  linear (output t) last = Ok out ->
  Transformer_forward tokens sp t = (Ok out, set_layers t ls).
Proof.
  intros Htok He Hfc Hrun Hhn Hsel Hout.
  unfold Transformer_forward. rewrite Htok, He, Hfc. cbn [bind].
  rewrite Hrun. cbn [bind]. rewrite Hhn. cbn [bind]. rewrite Hsel. cbn [bind].
  rewrite Hout. reflexivity.
Qed.

End StepModel.

Section LastRow.

Lemma in_bounds2 (a b : nat) (idx : list nat) :
  in_bounds [a; b] idx -> exists i j, idx = [i; j] /\ i < a /\ j < b.
Proof.
  unfold in_bounds. intros H.
  inversion H as [|i ? r1 ? Hi H1]; subst.
  inversion H1 as [|j ? r2 ? Hj H2]; subst.
  inversion H2; subst. exists i, j. auto.
Qed.

Lemma last_row_equal (d : nat) (hn hn' : tensor R) (p p' : nat) :
  rows_agree d hn hn' p p' ->
  build [1; d] (fun idx => item hn [nth 0 idx 0; p; nth 1 idx 0]) =
  build [1; d] (fun idx => item hn' [nth 0 idx 0; p'; nth 1 idx 0]).
Proof.
  intros Hr. apply build_ext. intros idx Hin.
  apply in_bounds2 in Hin. destruct Hin as (i & j & -> & Hi & Hj).
  cbn [nth]. replace i with 0 by lia. apply (Hr j Hj).
Qed.

End LastRow.

(** ** A first step on layers whose caches differ *)

Section FirstStepEqual.

Lemma tensor_ext {A} `{Default A} (t t' : tensor A) :
  wf t -> wf t' -> shape t = shape t' ->
  (forall idx, in_bounds (shape t) idx -> item t idx = item t' idx) ->
  t = t'.
Proof.
  intros Hw Hw' Hs Hi.
  rewrite <- (build_item Hw), <- (build_item Hw'), <- Hs.
  apply build_ext. exact Hi.
Qed.

Lemma in_bounds3 (a b c : nat) (idx : list nat) :
  in_bounds [a; b; c] idx -> exists i j k, idx = [i; j; k] /\ i < a /\ j < b /\ k < c.
Proof.
  unfold in_bounds. intros H.
  inversion H as [|i ? r1 ? Hi H1]; subst.
  inversion H1 as [|j ? r2 ? Hj H2]; subst.
  inversion H2 as [|k ? r3 ? Hk H3]; subst.
  inversion H3; subst. exists i, j, k. auto.
Qed.

Lemma Attention_forward_out_wf (x y : tensor R) (sp : nat) (fc : tensor complex)
    (mask : option (tensor xreal)) (a a' : Attention) :
  Attention_forward x sp fc mask a = (Ok y, a') -> wf y.
Proof.
  unfold Attention_forward.
  destruct (shape x) as [|bsz [|s [|d0 [|? ?]]]]; try discriminate.
  unfold mbind.
  destruct (Attention_project a x s fc) as [[[q k] v]|]; [|discriminate].
  destruct (Attention_write_cache bsz sp s k v a) as [[[]|e] a1]; [|discriminate].
  intros Hf. injection Hf as Hf _.
  destruct (Attention_read_cache a1 bsz sp s) as [kv|]; cbn [bind] in Hf; [|discriminate].
  destruct (Attention_scores a1 q (fst kv) (snd kv) mask) as [sv|]; cbn [bind] in Hf;
    [|discriminate].
  unfold Attention_combine in Hf.
  destruct (matmul _ _) as [o1|]; cbn [bind] in Hf; [|discriminate].
  destruct (transpose 1 2 o1) as [o2|]; cbn [bind] in Hf; [|discriminate].
  destruct (view_infer [bsz; s] o2) as [o3|]; cbn [bind] in Hf; [|discriminate].
  apply linear_inv in Hf. destruct Hf as (_ & _ & _ & Hw). exact Hw.
Qed.

Variable args : ModelArgs.
Hypothesis Hc : config_ok args.

Lemma Attention_first_step_equal (a a2 : Attention) (x : tensor R) (s : nat)
    (fc : tensor complex) :
  Attention_wf args a -> Attention_wf args a2 ->
  wq a2 = wq a -> wk a2 = wk a -> wv a2 = wv a -> wo a2 = wo a ->
  wf x -> shape x = [1; s; dim args] ->
  shape fc = [s; dim args / n_heads args / 2] ->
  1 <= s -> s <= max_seq_len args ->
  exists y a' a2',
    Attention_forward x 0 fc (causal_mask s 0) a = (Ok y, a') /\
    Attention_forward x 0 fc (causal_mask s 0) a2 = (Ok y, a2') /\
    shape y = [1; s; dim args] /\
    Attention_wf args a' /\ Attention_wf args a2'.
Proof.
  intros Hwf Hwf2 Ewq Ewk Ewv Ewo Hwx Hx Hfc Hs Hcap.
  assert (Hp0 : s - 1 < s) by lia.
  destruct (@Attention_first_step_rows args a a2 x x s (s - 1) fc Hwf Hwf2 Hc
              Ewq Ewk Ewv Ewo Hwx Hwx Hx Hx Hfc Hcap Hp0 (fun p k _ _ => eq_refl))
    as (y & a' & y2 & a2' & Hf & Hf2 & Hrows).
  pose proof (@Attention_forward_shape args x y 1 s (dim args) 0 fc _ a a' Hwf Hx Hf) as Hys.
  pose proof (@Attention_forward_shape args x y2 1 s (dim args) 0 fc _ a2 a2' Hwf2 Hx Hf2)
    as Hy2s.
  assert (E : y2 = y).
  { apply tensor_ext.
    - apply (Attention_forward_out_wf _ _ _ _ _ Hf2).
    - apply (Attention_forward_out_wf _ _ _ _ _ Hf).
    - rewrite Hys, Hy2s. reflexivity.
    - intros idx Hin. rewrite Hy2s in Hin. apply in_bounds3 in Hin.
      destruct Hin as (i & p & o & -> & Hi & Hp & Ho).
      replace i with 0 by lia. symmetry. apply Hrows; lia. }
  subst y2. exists y, a', a2'.
  split; [exact Hf|]. split; [exact Hf2|]. split; [exact Hys|].
  pose proof (@Attention_forward_same_weights x 0 fc (causal_mask s 0) a) as Hsw.
  pose proof (@Attention_forward_same_weights x 0 fc (causal_mask s 0) a2) as Hsw2.
  split.
  - destruct (@Attention_forward_ok args a x 0 s fc (causal_mask s 0) Hwf Hc Hx Hs Hfc
                (or_intror Hcap))
      as (q3 & k3 & v3 & ck3 & cv3 & y3 & _ & _ & _ & Hf3 & _ & Hw3).
    { replace (Nat.min (0 + s) (max_seq_len args)) with s by lia. apply causal_mask_fits. }
    rewrite Hf in Hf3. injection Hf3 as _ Ea. rewrite Ea. exact Hw3.
  - destruct (@Attention_forward_ok args a2 x 0 s fc (causal_mask s 0) Hwf2 Hc Hx Hs Hfc
                (or_intror Hcap))
      as (q3 & k3 & v3 & ck3 & cv3 & y3 & _ & _ & _ & Hf3 & _ & Hw3).
    { replace (Nat.min (0 + s) (max_seq_len args)) with s by lia. apply causal_mask_fits. }
    rewrite Hf2 in Hf3. injection Hf3 as _ Ea. rewrite Ea. exact Hw3.
Qed.

Lemma TransformerBlock_first_step_equal (b b2 : TransformerBlock) (x : tensor R) (s : nat)
    (fc : tensor complex) :
  TransformerBlock_wf args b -> TransformerBlock_wf args b2 ->
  TransformerBlock_same_weights b b2 ->
  wf x -> shape x = [1; s; dim args] ->
  shape fc = [s; dim args / n_heads args / 2] ->
  1 <= s -> s <= max_seq_len args ->
  exists y b' b2',
    TransformerBlock_forward x 0 fc (causal_mask s 0) b = (Ok y, b') /\
    TransformerBlock_forward x 0 fc (causal_mask s 0) b2 = (Ok y, b2') /\
    shape y = [1; s; dim args] /\ wf y /\
    TransformerBlock_wf args b' /\ TransformerBlock_wf args b2' /\
    TransformerBlock_same_weights b' b2'.
Proof.
  intros Hb Hb2 Hsw Hwx Hx Hfc Hs Hcap.
  destruct Hsw as (E1 & E2 & E3 & (A1 & A2 & Awq & Awk & Awv & Awo & Ak & Av) &
                   Eff & Eid & Ean & Efn).
  destruct (@RMSNorm_forward_ok (attention_norm b) x [1; s] (dim args)
              (wf_attention_norm Hb) Hx) as (nx & Hnx & Hnxs).
  destruct (@Attention_first_step_equal (attention b) (attention b2) nx s fc
              (wf_attention Hb) (wf_attention Hb2) Awq Awk Awv Awo
              (RMSNorm_forward_wf _ _ Hnx) Hnxs Hfc Hs Hcap)
    as (ya & a' & a2' & Hf & Hf2 & Hyas & Hwa & Hwa2).
  destruct (@TransformerBlock_tail args b x ya s Hb Hx Hyas)
    as (h & n2 & f & y & Hh & _ & _ & Hn2 & _ & Hff & _ & Hy & Hys & Hwy).
  exists y, (set_attention b a'), (set_attention b2 a2').
  split; [apply (TransformerBlock_forward_compose _ _ _ _ _ Hnx Hf Hh Hn2 Hff Hy)|].
  split.
  - apply (@TransformerBlock_forward_compose b2 x 0 fc (causal_mask s 0) nx ya h n2 f y a2');
      rewrite ?Ean, ?Efn, ?Eff; assumption.
  - split; [exact Hys|]. split; [exact Hwy|].
    split; [apply set_attention_wf; assumption|].
    split; [apply set_attention_wf; assumption|].
    pose proof (@Attention_forward_same_weights nx 0 fc (causal_mask s 0) (attention b)) as S1.
    pose proof (@Attention_forward_same_weights nx 0 fc (causal_mask s 0) (attention b2)) as S2.
    rewrite Hf in S1. rewrite Hf2 in S2. cbn [snd] in S1, S2.
    destruct S1 as (P1 & P2 & P3 & P4 & P5 & P6 & P7 & P8).
    destruct S2 as (Q1 & Q2 & Q3 & Q4 & Q5 & Q6 & Q7 & Q8).
    unfold TransformerBlock_same_weights, Attention_same_weights.
    cbn [set_attention block_n_heads block_dim block_head_dim attention feed_forward
         layer_id attention_norm ffn_norm].
    repeat split; congruence.
Qed.

Lemma run_layers_first_step_equal (ls ls2 : list TransformerBlock) (x : tensor R) (s : nat)
    (fc : tensor complex) :
  Forall (TransformerBlock_wf args) ls -> Forall (TransformerBlock_wf args) ls2 ->
  Forall2 TransformerBlock_same_weights ls ls2 ->
  wf x -> shape x = [1; s; dim args] ->
  shape fc = [s; dim args / n_heads args / 2] ->
  1 <= s -> s <= max_seq_len args ->
  exists y ls' ls2',
    run_layers x 0 fc (causal_mask s 0) ls = (Ok y, ls') /\
    run_layers x 0 fc (causal_mask s 0) ls2 = (Ok y, ls2') /\
    shape y = [1; s; dim args] /\ wf y /\
    Forall (TransformerBlock_wf args) ls' /\ Forall (TransformerBlock_wf args) ls2' /\
    Forall2 TransformerBlock_same_weights ls' ls2'.
Proof.
  intros Hls Hls2 Hsw. revert x Hls Hls2.
  induction Hsw as [|b b2 ls ls2 Hb12 Hsw IH]; intros x Hls Hls2 Hwx Hx Hfc Hs Hcap.
  - exists x, [], []. cbn [run_layers]. repeat (split; [auto|]). constructor.
  - inversion Hls as [|? ? Hb Hls']; subst. inversion Hls2 as [|? ? Hb2 Hls2']; subst.
    destruct (@TransformerBlock_first_step_equal b b2 x s fc Hb Hb2 Hb12 Hwx Hx Hfc Hs Hcap)
      as (h & b' & b2' & Hf & Hf2 & Hhs & Hwh & Hwb & Hwb2 & Hsw').
    destruct (IH h Hls' Hls2' Hwh Hhs Hfc Hs Hcap)
      as (y & ls' & ls2' & Hr & Hr2 & Hys & Hwy & Hl & Hl2 & Hsw2).
    exists y, (b' :: ls'), (b2' :: ls2'). cbn [run_layers].
    rewrite Hf, Hr, Hf2, Hr2.
    split; [reflexivity|]. split; [reflexivity|]. split; [exact Hys|]. split; [exact Hwy|].
    split; [constructor; assumption|]. split; [constructor; assumption|].
    constructor; assumption.
Qed.

End FirstStepEqual.

(** ** Steps at the edge of the cache *)

Section PastCapacity.

Variable args : ModelArgs.
Hypothesis Hc : config_ok args.

Lemma TransformerBlock_forward_overflow_single (b : TransformerBlock) (x : tensor R)
    (sp : nat) (fc : tensor complex) :
  TransformerBlock_wf args b ->
  shape x = [1; 1; dim args] ->
  shape fc = [1; dim args / n_heads args / 2] ->
  max_seq_len args < sp + 1 ->
  exists y, TransformerBlock_forward x sp fc None b = (Ok y, b) /\
            shape y = [1; 1; dim args].
Proof.
  intros Hb Hx Hfc Hover.
  destruct (@RMSNorm_forward_ok (attention_norm b) x [1; 1] (dim args)
              (wf_attention_norm Hb) Hx) as (nx & Hnx & Hnxs).
  destruct (@Attention_forward_overflow_single args (attention b) (wf_attention Hb)
              nx sp fc Hc Hnxs Hfc Hover) as (ya & Hf & Hyas).
  destruct (@TransformerBlock_tail args b x ya 1 Hb Hx Hyas)
    as (h & n2 & f & y & Hh & _ & _ & Hn2 & _ & Hff & _ & Hy & Hys & _).
  exists y. split; [|exact Hys].
  rewrite <- (set_attention_same b) at 2.
  apply (TransformerBlock_forward_compose _ _ _ _ _ Hnx Hf Hh Hn2 Hff Hy).
Qed.

Lemma run_layers_overflow_single (ls : list TransformerBlock) (x : tensor R)
    (sp : nat) (fc : tensor complex) :
  Forall (TransformerBlock_wf args) ls ->
  shape x = [1; 1; dim args] ->
  shape fc = [1; dim args / n_heads args / 2] ->
  max_seq_len args < sp + 1 ->
  exists y, run_layers x sp fc None ls = (Ok y, ls) /\ shape y = [1; 1; dim args].
Proof.
  intros Hls. revert x. induction Hls as [|b ls Hb Hls IH]; intros x Hx Hfc Hover.
  - exists x. split; [reflexivity | exact Hx].
  - destruct (@TransformerBlock_forward_overflow_single b x sp fc Hb Hx Hfc Hover)
      as (h & Hh & Hhs).
    destruct (IH h Hhs Hfc Hover) as (y & Hy & Hys).
    exists y. cbn [run_layers]. rewrite Hh, Hy. split; [reflexivity | exact Hys].
Qed.

Lemma TransformerBlock_forward_shifted (b : TransformerBlock) (x : tensor R)
    (sp s : nat) (fc : tensor complex) :
  TransformerBlock_wf args b ->
  shape x = [1; s; dim args] -> 1 < s -> 0 < sp ->
  shape fc = [s; dim args / n_heads args / 2] ->
  sp + s <= max_seq_len args ->
  exists nx q k v a',
    RMSNorm_forward (attention_norm b) x = Ok nx /\
    Attention_project (attention b) nx s fc = Ok (q, k, v) /\
    TransformerBlock_forward x sp fc (causal_mask s sp) b =
      (Err RuntimeError, set_attention b a') /\
    forall p h d,
      p < s -> h < n_heads args -> d < dim args / n_heads args ->
      item (cache_k a') [0; sp + p; h; d] = item k [p; h; d] /\
      item (cache_v a') [0; sp + p; h; d] = item v [p; h; d].
Proof.
  intros Hb Hx Hs Hsp Hfc Hcap.
  destruct (@RMSNorm_forward_ok (attention_norm b) x [1; s] (dim args)
              (wf_attention_norm Hb) Hx) as (nx & Hnx & Hnxs).
  pose proof (wf_attention Hb) as Ha.
  destruct (@Attention_forward_mask_mismatch_single args (attention b) Ha nx s sp fc Hc
              Hnxs Hs Hsp Hfc Hcap)
    as (q & k & v & ck & cv & Hp & Hck & Hcv & Hf).
  destruct (@Attention_project_inv args (attention b) Ha nx s fc q k v Hp) as (_ & Hk & Hv).
  exists nx, q, k, v, (set_cache_v (set_cache_k (attention b) ck) cv).
  split; [exact Hnx|]. split; [exact Hp|]. split.
  - unfold TransformerBlock_forward. rewrite Hnx, Hf. reflexivity.
  - intros p h d Hpp Hh Hd. pose proof (batch_pos Hc) as Hbp.
    cbn [set_cache_v set_cache_k cache_k cache_v]. split.
    + rewrite (@cache_write_item 1 sp s _ _ _ _ _ _ _ (wf_cache_k_shape Ha) Hk Hck
                 0 (sp + p) h d) by lia.
      rewrite window_inside by lia. f_equal. f_equal. lia.
    + rewrite (@cache_write_item 1 sp s _ _ _ _ _ _ _ (wf_cache_v_shape Ha) Hv Hcv
                 0 (sp + p) h d) by lia.
      rewrite window_inside by lia. f_equal. f_equal. lia.
Qed.

End PastCapacity.

(** ** What a call reads of the cache *)

Section ReadsBelow.

Variable args : ModelArgs.

(** Two caches of one shape after the same slice assignment: the cells of
    the rows [0 .. bsz - 1] below [sp + s] agree as soon as those below
    [sp] did. *)
Lemma cache_write_agree (c c' k c1 c1' : tensor R) (bsz sp s nb cap nh hd : nat) :
  shape c = [nb; cap; nh; hd] -> shape c' = [nb; cap; nh; hd] ->
  setitem [Range 0 bsz; Range sp (sp + s)] c k = Ok c1 ->
  setitem [Range 0 bsz; Range sp (sp + s)] c' k = Ok c1' ->
  (forall b p h d,
     b < bsz -> b < nb -> p < sp -> p < cap -> h < nh -> d < hd ->
     item c [b; p; h; d] = item c' [b; p; h; d]) ->
  forall b p h d,
    b < bsz -> b < nb -> p < sp + s -> p < cap -> h < nh -> d < hd ->
    item c1 [b; p; h; d] = item c1' [b; p; h; d].
Proof.
  intros Hc Hc' H1 H1' Hagree b p h d Hb Hb' Hp Hp' Hh Hd.
  apply setitem_inv in H1. destruct H1 as [_ ->].
  apply setitem_inv in H1'. destruct H1' as [_ ->].
  rewrite !item_build by (rewrite ?Hc, ?Hc'; apply in_bounds4_intro; assumption).
  rewrite Hc, Hc'.
  destruct (in_slice [Range 0 bsz; Range sp (sp + s)] [nb; cap; nh; hd] [b; p; h; d]) eqn:E;
    [reflexivity|].
  apply Hagree; try assumption.
  cbn [in_slice slice_start slice_stop] in E.
  rewrite Nat.min_0_l, andb_true_r in E. cbn [Nat.leb andb] in E.
  destruct (Nat.ltb_spec b (Nat.min bsz nb)); [|lia]. cbn [andb] in E.
  destruct (Nat.leb_spec (Nat.min sp cap) p); [|lia]. cbn [andb] in E.
  destruct (Nat.ltb_spec p (Nat.min (sp + s) cap)); [discriminate | lia].
Qed.

Lemma setitem_same_shape (ss : list slice) (c c' k c1 : tensor R) :
  shape c' = shape c -> setitem ss c k = Ok c1 -> exists c1', setitem ss c' k = Ok c1'.
Proof.
  unfold setitem. intros ->.
  destruct (length (shape c) <? length ss); [discriminate|].
  destruct (expandable _ _); [|discriminate]. intros _. eexists. reflexivity.
Qed.

Lemma setitem_same_error (ss : list slice) (c c' k : tensor R) (e : error) :
  shape c' = shape c -> setitem ss c k = Err e -> setitem ss c' k = Err e.
Proof.
  unfold setitem. intros ->.
  destruct (length (shape c) <? length ss); [auto|].
  destruct (expandable _ _); [discriminate | auto].
Qed.

(** What a call returns or raises depends on the layer's weights and on
    the cached cells of the rows [0 .. bsz - 1] below [start_pos] only:
    the cells of the step are overwritten before the prefix is read back,
    the cells at or beyond [start_pos + seqlen] are not read. *)
Lemma Attention_forward_reads_below (a a' : Attention) (x : tensor R) (bsz s d0 sp : nat)
    (fc : tensor complex) (mask : option (tensor xreal)) :
  Attention_wf args a -> Attention_wf args a' ->
  wq a' = wq a -> wk a' = wk a -> wv a' = wv a -> wo a' = wo a ->
  shape x = [bsz; s; d0] ->
  (forall b p h d,
     b < bsz -> b < max_batch_size args -> p < sp -> p < max_seq_len args ->
     h < n_heads args -> d < dim args / n_heads args ->
     item (cache_k a) [b; p; h; d] = item (cache_k a') [b; p; h; d] /\
     item (cache_v a) [b; p; h; d] = item (cache_v a') [b; p; h; d]) ->
  fst (Attention_forward x sp fc mask a') = fst (Attention_forward x sp fc mask a).
Proof.
  intros Hwf Hwf' Eq Ek Ev Eo Hx Hagree.
  assert (Eh : n_local_heads a' = n_local_heads a)
    by (rewrite (wf_heads Hwf), (wf_heads Hwf'); reflexivity).
  assert (Ed : head_dim a' = head_dim a)
    by (rewrite (wf_head_dim Hwf), (wf_head_dim Hwf'); reflexivity).
  assert (Ep : Attention_project a' x s fc = Attention_project a x s fc).
  { unfold Attention_project. rewrite Eq, Ek, Ev, Eh, Ed. reflexivity. }
  unfold Attention_forward. rewrite Hx. unfold mbind at 1 3. rewrite Ep.
  destruct (Attention_project a x s fc) as [[[q k] v]|e]; [|reflexivity].
  unfold mbind.
  pose proof (@Attention_write_cache_wf args a bsz sp s k v Hwf) as Hw1.
  pose proof (@Attention_write_cache_wf args a' bsz sp s k v Hwf') as Hw1'.
  unfold Attention_write_cache in *.
  destruct (setitem _ (cache_k a) k) as [ck|e] eqn:Sk.
  2:{ rewrite (@setitem_same_error [Range 0 bsz; Range sp (sp + s)] (cache_k a) (cache_k a') k e); [reflexivity | | exact Sk].
      rewrite (wf_cache_k_shape Hwf), (wf_cache_k_shape Hwf'). reflexivity. }
  destruct (@setitem_same_shape [Range 0 bsz; Range sp (sp + s)] (cache_k a) (cache_k a') k ck) as (ck' & Sk');
    [rewrite (wf_cache_k_shape Hwf), (wf_cache_k_shape Hwf'); reflexivity | exact Sk |].
  rewrite Sk' in *. cbn [set_cache_k cache_v] in *.
  destruct (setitem _ (cache_v a) v) as [cv|e] eqn:Sv.
  2:{ rewrite (@setitem_same_error [Range 0 bsz; Range sp (sp + s)] (cache_v a) (cache_v a') v e); [reflexivity | | exact Sv].
      rewrite (wf_cache_v_shape Hwf), (wf_cache_v_shape Hwf'). reflexivity. }
  destruct (@setitem_same_shape [Range 0 bsz; Range sp (sp + s)] (cache_v a) (cache_v a') v cv) as (cv' & Sv');
    [rewrite (wf_cache_v_shape Hwf), (wf_cache_v_shape Hwf'); reflexivity | exact Sv |].
  rewrite Sv' in *. cbn [fst snd] in *.
  match goal with |- ?l = ?r => set (a1' := set_cache_v (set_cache_k a' ck') cv') in *;
                                set (a1 := set_cache_v (set_cache_k a ck) cv) in * end.
  assert (Er : Attention_read_cache a1' bsz sp s = Attention_read_cache a1 bsz sp s).
  { apply (@Attention_read_cache_prefix args a1' a1 bsz sp s Hw1' Hw1).
    intros b p h d Hb Hb' Hp Hp' Hh Hd. split; symmetry.
    - apply (@cache_write_agree (cache_k a) (cache_k a') k ck ck' bsz sp s _ _ _ _
               (wf_cache_k_shape Hwf) (wf_cache_k_shape Hwf') Sk Sk'); try assumption.
      intros; apply Hagree; assumption.
    - apply (@cache_write_agree (cache_v a) (cache_v a') v cv cv' bsz sp s _ _ _ _
               (wf_cache_v_shape Hwf) (wf_cache_v_shape Hwf') Sv Sv'); try assumption.
      intros; apply Hagree; assumption. }
  rewrite Er.
  destruct (Attention_read_cache a1 bsz sp s) as [kv|]; [|reflexivity]. cbn [bind].
  assert (Es : Attention_scores a1' q (fst kv) (snd kv) mask =
               Attention_scores a1 q (fst kv) (snd kv) mask).
  { unfold Attention_scores. subst a1 a1'. cbn [head_dim set_cache_v set_cache_k].
    rewrite Ed. reflexivity. }
  rewrite Es.
  destruct (Attention_scores a1 q (fst kv) (snd kv) mask) as [sv|]; [|reflexivity].
  cbn [bind]. unfold Attention_combine. subst a1 a1'. cbn [wo set_cache_v set_cache_k].
  rewrite Eo. reflexivity.
Qed.

End ReadsBelow.

(** ** Steps beyond the cache and beyond the rotary table *)

Section PastTable.

(** The plain factors built from a rotary slice with no row, for a step
    of one position: [view(1, 1, -1)] of no value has a last axis of size
    0. *)
Lemma rotary_factor_empty (half : nat) (a b : tensor R) :
  shape a = [0; half; 1] -> shape b = [0; half; 1] ->
  exists y, rotary_factor 1 a b = Ok y /\ shape y = [1; 1; 0].
Proof.
  intros Ha Hb. unfold rotary_factor.
  destruct (@cat_last_ok _ _ a b [0; half] 1 1 Ha Hb) as (c & -> & Hc & _).
  cbn [bind]. unfold flatten1. rewrite Hc. cbn [app bind].
  rewrite view_infer_ok with (m := 0).
  - eexists. split; reflexivity.
  - cbn. lia.
  - cbn. lia.
Qed.

Lemma rotate_empty_factor (x : CKKSTensor) (h half : nat) (l r : tensor R) :
  1 <= half ->
  shape (encrypted x) = [1; h; 2 * half] -> shape l = [1; 1; 0] ->
  rotate x h (2 * half) 1 l r = Err ValueError.
Proof.
  intros Hh Hx Hl. unfold rotate.
  assert (Hhalf : 2 * half / 2 = half) by (rewrite Nat.mul_comm; apply Nat.div_mul; lia).
  rewrite Hhalf.
  rewrite ckks_reshape_ok by (rewrite Hx; simpl; lia).
  cbn [bind]. unfold ckks_getitem. rewrite getitem_ok by (simpl; lia).
  cbn [bind encrypted shape slice_shape slice_len slice_stop slice_start].
  rewrite ckks_reshape_ok
    by (cbn [encrypted shape build]; simpl; rewrite !slice_len_All; lia).
  cbn [bind]. unfold ckks_mul_plain. rewrite Hx, Hl.
  replace (expandable [1; 1; 0] [1; h; 2 * half]) with false; [reflexivity|].
  unfold expandable. cbn [rev app expandable_rev].
  destruct (Nat.eqb_spec 0 (2 * half)); [lia|]. reflexivity.
Qed.

Lemma apply_rotary_emb_empty_slice (xq xk : CKKSTensor) (h half : nat) (fc : tensor complex) :
  1 <= half ->
  shape (encrypted xq) = [1; h; 2 * half] ->
  shape fc = [0; half] ->
  apply_rotary_emb xq xk h (2 * half) 1 fc = Err ValueError.
Proof.
  intros Hh Hq Hfc. unfold apply_rotary_emb.
  rewrite !getitem_ok by (simpl; rewrite Hfc; simpl; lia).
  cbn [bind view_as_real shape]. rewrite Hfc.
  cbn [app slice_shape]. rewrite !slice_len_All, !slice_len_Range. simpl Nat.min. simpl Nat.sub.
  set (ll := build _ _).
  destruct (@rotary_factor_empty half ll ll eq_refl eq_refl) as (l & -> & Hl).
  destruct (@rotary_factor_empty half (neg ll) ll eq_refl eq_refl) as (r & -> & Hr).
  cbn [bind].
  rewrite (@rotate_empty_factor xq h half l r Hh Hq Hl). reflexivity.
Qed.

Variable args : ModelArgs.
Variable a : Attention.
Hypothesis Hwf : Attention_wf args a.
Hypothesis Hc : config_ok args.

(** A step of one position with a rotary slice that has no row: the
    product with the rotary factor raises, before the cache is touched. *)
Lemma Attention_project_past_table (x : tensor R) (fc : tensor complex) :
  shape x = [1; 1; dim args] ->
  shape fc = [0; dim args / n_heads args / 2] ->
  Attention_project a x 1 fc = Err ValueError.
Proof.
  intros Hx Hfc. unfold Attention_project.
  destruct (@squeeze_single args Hc x 1 Hx) as (pre & Hsq & Hpre).
  pose proof (@even_double _ (head_dim_even Hc)) as He.
  pose proof (head_dim_pos Hc) as Hpos.
  destruct Hwf as [Hh Hhd Hqi Hqo Hki Hko Hvi Hvo _ _ _ _ _ _].
  remember (n_heads args) as H eqn:EH.
  remember (dim args / H) as D eqn:ED.
  remember (D / 2) as half eqn:Ehalf. clear Ehalf ED EH.
  destruct (@bridge_ok (wq a) (ckks_tensor (squeeze x)) pre) as (yq & -> & Hyq & _);
    [rewrite Hqi; exact Hsq|].
  destruct (@bridge_ok (wk a) (ckks_tensor (squeeze x)) pre) as (yk & -> & Hyk & _);
    [rewrite Hki; exact Hsq|].
  destruct (@bridge_ok (wv a) (ckks_tensor (squeeze x)) pre) as (yv & -> & Hyv & _);
    [rewrite Hvi; exact Hsq|].
  cbn [bind].
  assert (Hn : forall y o, shape y = pre ++ [o] -> o = H * D ->
               numel [1; n_local_heads a; head_dim a] = numel (shape (encrypted (Enc y)))).
  { intros y o Hy ->. cbn [encrypted]. rewrite Hy, numel_app, Hpre, Hh, Hhd.
    cbn [numel fold_right]. ring. }
  rewrite !ckks_reshape_ok by (eapply Hn; eassumption).
  cbn [bind encrypted data].
  rewrite Hh, Hhd. subst D.
  rewrite (@apply_rotary_emb_empty_slice (Enc (Tensor [1; H; 2 * half] (data yq)))
             (Enc (Tensor [1; H; 2 * half] (data yk))) H half fc ltac:(lia) eq_refl Hfc).
  reflexivity.
Qed.

Lemma Attention_forward_past_table (x : tensor R) (sp : nat) (fc : tensor complex)
    (mask : option (tensor xreal)) :
  shape x = [1; 1; dim args] ->
  shape fc = [0; dim args / n_heads args / 2] ->
  Attention_forward x sp fc mask a = (Err ValueError, a).
Proof.
  intros Hx Hfc. unfold Attention_forward. rewrite Hx. unfold mbind at 1.
  rewrite (@Attention_project_past_table x fc Hx Hfc). reflexivity.
Qed.

(** Beyond the capacity with more than one position: whatever the rotary
    slice and the mask, the call raises; when the projections and the
    rotary product return it is the slice assignment of line 194. *)
Lemma Attention_forward_overflow_raises (x : tensor R) (bsz s d0 sp : nat)
    (fc : tensor complex) (mask : option (tensor xreal)) :
  shape x = [bsz; s; d0] -> 1 < s -> max_seq_len args < sp + s ->
  exists e, Attention_forward x sp fc mask a = (Err e, a).
Proof.
  intros Hx Hs Hover. unfold Attention_forward. rewrite Hx. unfold mbind at 1.
  destruct (Attention_project a x s fc) as [[[q k] v]|e] eqn:Hp;
    [|exists e; reflexivity].
  apply (@Attention_project_inv args a Hwf) in Hp. destruct Hp as (Hq & Hk & Hv).
  unfold mbind.
  rewrite (@Attention_write_cache_overflow_err args a bsz sp s k v Hwf Hk Hover Hs).
  exists RuntimeError. reflexivity.
Qed.

End PastTable.

Section TableSlice.

Variable t : Transformer.
Hypothesis Hwf : Transformer_wf t.

(** Line 290 for any step: the slice holds the rows of the step that the
    table has. *)
Lemma freqs_cis_slice_clamped (sp s : nat) :
  exists fc,
    getitem [Range sp (sp + s)] (freqs_cis t) = Ok fc /\
    shape fc = [Nat.min (sp + s) (max_seq_len (params t) * 2) -
                Nat.min sp (max_seq_len (params t) * 2);
                dim (params t) / n_heads (params t) / 2].
Proof.
  rewrite getitem_ok by (rewrite (wf_freqs_cis Hwf); simpl; lia).
  eexists. split; [reflexivity|]. cbn [shape build].
  rewrite (wf_freqs_cis Hwf). cbn [slice_shape]. rewrite slice_len_Range. reflexivity.
Qed.

End TableSlice.

(** ** The bridge on a scheme with error *)

Section Noise.

Lemma sum_upto_abs (n : nat) (f : nat -> R) :
  Rle (Rabs (sum_upto n f)) (sum_upto n (fun k => Rabs (f k))).
Proof.
  induction n as [|n IH].
  - unfold sum_upto. cbn. rewrite Rabs_R0. apply Rle_refl.
  - rewrite !sum_upto_S.
    eapply Rle_trans; [apply Rabs_triang|]. apply Rplus_le_compat_r. exact IH.
Qed.

Lemma sum_upto_le (n : nat) (f g : nat -> R) :
  (forall k, k < n -> Rle (f k) (g k)) -> Rle (sum_upto n f) (sum_upto n g).
Proof.
  induction n as [|n IH]; intros Hfg.
  - unfold sum_upto. cbn. apply Rle_refl.
  - rewrite !sum_upto_S. apply Rplus_le_compat; [apply IH; intros; apply Hfg; lia|].
    apply Hfg. lia.
Qed.

Lemma sum_upto_minus (n : nat) (f g : nat -> R) :
  Rminus (sum_upto n f) (sum_upto n g) = sum_upto n (fun k => Rminus (f k) (g k)).
Proof.
  induction n as [|n IH].
  - unfold sum_upto. cbn. ring.
  - rewrite !sum_upto_S, <- IH. ring.
Qed.

Variable noisy : tensor R -> tensor R.
Variable tol : R.
Hypothesis Hnoise : round_trip_within noisy tol.

(** [decrypt] and [plainToTorch] after [ckks_tensor] on that scheme. *)
Lemma plainToTorch_decrypt_approx (t : tensor R) :
  wf t -> plainToTorch (decrypt (ckks_tensor_approx noisy t)) = noisy t.
Proof.
  intros Hw. unfold ckks_tensor_approx. apply plainToTorch_decrypt.
  apply (Hnoise Hw).
Qed.

(** The bridge on a noisy scheme, entry by entry: the error of the input's
    round trip goes through the product with the weights, the error of
    the output's round trip is added. *)
Lemma bridge_approx_items (l : Linear) (x : tensor R) (pre : list nat) :
  wf x -> shape x = pre ++ [in_features l] ->
  exists c y,
    encryptedLinearTransform_approx noisy l (ckks_tensor_approx noisy x) = Ok c /\
    linear l x = Ok y /\
    shape (plainToTorch (decrypt c)) = pre ++ [out_features l] /\
    shape y = pre ++ [out_features l] /\
    forall row o,
      in_bounds pre row -> o < out_features l ->
      item y (row ++ [o]) =
        sum_upto (in_features l)
                 (fun k => Rmult (item x (row ++ [k])) (item (weight l) [o; k])) /\
      Rle (Rabs (Rminus (item (plainToTorch (decrypt c)) (row ++ [o])) (item y (row ++ [o]))))
          (Rmult tol (Rplus 1 (sum_upto (in_features l)
                                 (fun k => Rabs (item (weight l) [o; k]))))).
Proof.
  intros Hw Hx.
  destruct (Hnoise Hw) as (Hwn & Hsn & Hnear).
  unfold encryptedLinearTransform_approx.
  rewrite (plainToTorch_decrypt_approx Hw).
  destruct (@linear_items l (noisy x) pre) as (y' & Hy' & Hs' & Hitems');
    [rewrite Hsn; exact Hx|].
  destruct (@linear_items l x pre Hx) as (y & Hy & Hs & Hitems).
  rewrite Hy'. cbn [bind].
  pose proof Hy' as Hwy'. apply linear_inv in Hwy'. destruct Hwy' as (_ & _ & _ & Hwy').
  destruct (Hnoise Hwy') as (Hwn' & Hsn' & Hnear').
  exists (ckks_tensor_approx noisy y'), y.
  split; [reflexivity|]. split; [exact Hy|].
  rewrite (plainToTorch_decrypt_approx Hwy').
  split; [rewrite Hsn'; exact Hs'|]. split; [exact Hs|].
  intros row o Hrow Ho. split; [apply Hitems; assumption|].
  assert (Hin : in_bounds (shape y') (row ++ [o])).
  { rewrite Hs'. apply in_bounds_app; [exact Hrow | repeat constructor; exact Ho]. }
  specialize (Hnear' (row ++ [o]) Hin).
  assert (Hmid : Rle (Rabs (Rminus (item y' (row ++ [o])) (item y (row ++ [o]))))
                     (Rmult tol (sum_upto (in_features l)
                                   (fun k => Rabs (item (weight l) [o; k]))))).
  { rewrite (Hitems' row o Hrow Ho), (Hitems row o Hrow Ho), sum_upto_minus.
    eapply Rle_trans; [apply sum_upto_abs|].
    rewrite <- sum_upto_scal. apply sum_upto_le. intros k Hk.
    replace (Rminus (Rmult (item (noisy x) (row ++ [k])) (item (weight l) [o; k]))
                    (Rmult (item x (row ++ [k])) (item (weight l) [o; k])))
      with (Rmult (Rminus (item (noisy x) (row ++ [k])) (item x (row ++ [k])))
                  (item (weight l) [o; k])) by ring.
    rewrite Rabs_mult. apply Rmult_le_compat_r; [apply Rabs_pos|].
    apply Hnear. rewrite Hx. apply in_bounds_app; [exact Hrow | repeat constructor; exact Hk]. }
  replace (Rminus (item (noisy y') (row ++ [o])) (item y (row ++ [o])))
    with (Rplus (Rminus (item (noisy y') (row ++ [o])) (item y' (row ++ [o])))
                (Rminus (item y' (row ++ [o])) (item y (row ++ [o])))) by ring.
  eapply Rle_trans; [apply Rabs_triang|].
  rewrite Rmult_plus_distr_l, Rmult_1_r. apply Rplus_le_compat; assumption.
Qed.

(** A shape that [linear] rejects is rejected by the bridge. *)
Lemma bridge_approx_error (l : Linear) (x : tensor R) (e : error) :
  wf x -> linear l x = Err e ->
  encryptedLinearTransform_approx noisy l (ckks_tensor_approx noisy x) = Err e.
Proof.
  intros Hw He. destruct (Hnoise Hw) as (_ & Hsn & _).
  unfold encryptedLinearTransform_approx.
  rewrite (plainToTorch_decrypt_approx Hw).
  unfold linear in *. rewrite Hsn.
  destruct (rev (shape x)) as [|d pre']; [cbn [bind]; congruence|].
  destruct (d =? in_features l); [discriminate | cbn [bind]; congruence].
Qed.

End Noise.

Section Ideal.

(** The ideal functionality is the scheme without error. *)
Lemma ideal_round_trip : round_trip_within (fun t => t) 0%R.
Proof.
  intros t Hw. split; [exact Hw|]. split; [reflexivity|].
  intros idx _. unfold Rminus. rewrite Rplus_opp_r, Rabs_R0. apply Rle_refl.
Qed.

Lemma bridge_approx_ideal (l : Linear) (c : CKKSTensor) :
  encryptedLinearTransform_approx (fun t => t) l c = encryptedLinearTransform l c.
Proof. reflexivity. Qed.

Lemma shifted_round_trip : round_trip_within off_by_one 1%R.
Proof.
  intros t Hw. split; [|split].
  - unfold off_by_one, wf, tmap in *. cbn [data shape]. rewrite length_map. exact Hw.
  - reflexivity.
  - intros idx Hin. unfold off_by_one. rewrite item_tmap by (rewrite Hw; apply ravel_lt; exact Hin).
    replace (Rminus (Rplus (item t idx) 1) (item t idx)) with 1%R by ring.
    rewrite Rabs_R1. apply Rle_refl.
Qed.

End Ideal.


(* ===================================================================== *)
(** * The claims *)
(* ===================================================================== *)

(** C1. [apply_rotary_emb] at the input of the specification's test: one
    head of dimension 2 holding (1, 0), rotary slice of position 1 (angle 1
    at the base frequency, [table[1:2]]). The code returns
    (cos 1 - sin 1, 0) for the query and for the key, not the rotated
    vector (cos 1, sin 1): the second coordinate is off by sin 1 > 4/5.
    The tensor that lines 97 and 99 multiply by the sine factor is the
    input itself ([slice(0, 2)] keeps the pair in order), so no pair is
    swapped. At position 0 the same call returns (1, 0) unchanged. *)
Theorem apply_rotary_emb_unit_vector :
  exists table fc1 fc0 q1 k1 q0 k0,
    precompute_freqs_cis 2 2 default_theta = Ok table /\
    getitem [Range 1 2] table = Ok fc1 /\
    fc1 = Tensor [1; 1] [(cos 1, sin 1)] /\
    apply_rotary_emb (ckks_tensor unit_x) (ckks_tensor unit_x) 1 2 1 fc1 = Ok (q1, k1) /\
    plainToTorch (decrypt q1) = Tensor [1; 1; 2] [(cos 1 - sin 1)%R; 0%R] /\
    plainToTorch (decrypt k1) = Tensor [1; 1; 2] [(cos 1 - sin 1)%R; 0%R] /\
    (4 / 5 < Rabs (item (plainToTorch (decrypt q1)) [0%nat; 0%nat; 1%nat] - sin 1))%R /\
    getitem [Range 0 1] table = Ok fc0 /\
    apply_rotary_emb (ckks_tensor unit_x) (ckks_tensor unit_x) 1 2 1 fc0 = Ok (q0, k0) /\
    plainToTorch (decrypt q0) = unit_x /\
    plainToTorch (decrypt k0) = unit_x.
Proof.
  do 7 eexists.
  split; [reflexivity|]. split; [reflexivity|].
  split.
  { unfold build. cbn -[Rpower cos sin Rdiv INR Rmult default_theta].
    rewrite base_angle, !Rmult_1_l. reflexivity. }
  split; [reflexivity|].
  assert (E : plainToTorch (decrypt (Enc (Tensor [1; 1; 2]
                [(1 * (1 * cos (INR 1 * (1 / Rpower default_theta (INR 0 / INR 2)))) +
                  1 * - (1 * sin (INR 1 * (1 / Rpower default_theta (INR 0 / INR 2)))))%R;
                 (0 * (1 * cos (INR 1 * (1 / Rpower default_theta (INR 0 / INR 2)))) +
                  0 * (1 * sin (INR 1 * (1 / Rpower default_theta (INR 0 / INR 2)))))%R])))
              = Tensor [1; 1; 2] [(cos 1 - sin 1)%R; 0%R]).
  { rewrite base_angle. unfold plainToTorch, decrypt. cbn [encrypted shape data numel fold_right
      Nat.mul Nat.add firstn raw plain_shape]. f_equal. f_equal; [|f_equal]; lra. }
  split; [exact E|]. split; [exact E|].
  split.
  { match goal with |- context [item ?t _] =>
      replace t with (Tensor [1; 1; 2] [(cos 1 - sin 1)%R; 0%R]) by (symmetry; exact E)
    end.
    unfold item. cbn [shape data ravel numel fold_right Nat.mul Nat.add nth].
    replace (0 - sin 1)%R with (- sin 1)%R by lra.
    rewrite Rabs_Ropp, Rabs_pos_eq; pose proof sin_1_lower; lra. }
  split; [reflexivity|]. split; [reflexivity|].
  assert (E0 : plainToTorch (decrypt (Enc (Tensor [1; 1; 2]
                [(1 * (1 * cos (INR 0 * (1 / Rpower default_theta (INR 0 / INR 2)))) +
                  1 * - (1 * sin (INR 0 * (1 / Rpower default_theta (INR 0 / INR 2)))))%R;
                 (0 * (1 * cos (INR 0 * (1 / Rpower default_theta (INR 0 / INR 2)))) +
                  0 * (1 * sin (INR 0 * (1 / Rpower default_theta (INR 0 / INR 2)))))%R])))
              = unit_x).
  { replace (INR 0 * (1 / Rpower default_theta (INR 0 / INR 2)))%R with 0%R
      by (simpl; lra).
    rewrite cos_0, sin_0. unfold plainToTorch, decrypt, unit_x.
    cbn [encrypted shape data numel fold_right Nat.mul Nat.add firstn raw plain_shape].
    f_equal. f_equal; [|f_equal]; lra. }
  split; exact E0.
Qed.

(** C2 (amended). The module has no capacity check and no CapacityExceeded
    error. For a call of [Attention.forward] with [start_pos + seqlen]
    beyond [max_seq_len], the layer (its two caches included) is left as
    it was, whatever the input, the rotary slice and the mask, and whatever
    the call returns or raises. A step of more than one position raises:
    on a single example with a rotary slice of [seqlen] rows it is torch's
    RuntimeError at the slice assignment of line 194. A step of one
    position on a single example raises nothing when its rotary slice has
    the one row of the step: the assignment copies into an empty range and
    the call returns an output computed from the cache as it was; with a
    rotary slice of no row the product with the rotary factor raises.
    [Transformer.forward] passes the rows [start_pos .. start_pos + seqlen)
    that the table of [2 * max_seq_len] rows has: the one row while
    [start_pos < 2 * max_seq_len], none from there on. A call with two or
    more examples (so every call beyond a [max_batch_size] of at least 1)
    raises ValueError at the reshape of line 173 and leaves the layer as
    it was. The conclusions about a single example and about batches are
    for a configuration with an even head dimension of at least 2. *)
Theorem capacity_overflow_leaves_cache (args : ModelArgs) (a : Attention) :
  Attention_wf args a ->
  (forall x bsz s d0 sp fc mask,
     shape x = [bsz; s; d0] -> max_seq_len args < sp + s ->
     snd (Attention_forward x sp fc mask a) = a /\
     (1 < s -> exists e, fst (Attention_forward x sp fc mask a) = Err e)) /\
  (config_ok args ->
   (forall x s sp fc mask,
      shape x = [1; s; dim args] -> max_seq_len args < sp + s -> 1 < s ->
      shape fc = [s; dim args / n_heads args / 2] ->
      Attention_forward x sp fc mask a = (Err RuntimeError, a)) /\
   (forall x sp fc,
      shape x = [1; 1; dim args] -> max_seq_len args < sp + 1 ->
      (shape fc = [1; dim args / n_heads args / 2] ->
       exists y, Attention_forward x sp fc (causal_mask 1 sp) a = (Ok y, a) /\
                 shape y = [1; 1; dim args]) /\
      (shape fc = [0; dim args / n_heads args / 2] ->
       exists e, Attention_forward x sp fc (causal_mask 1 sp) a = (Err e, a))) /\
   (forall x bsz s sp fc mask,
      shape x = [bsz; s; dim args] -> 2 <= bsz -> 1 <= s ->
      Attention_forward x sp fc mask a = (Err ValueError, a))) /\
  (forall t sp s,
     Transformer_wf t -> params t = args ->
     exists fc,
       getitem [Range sp (sp + s)] (freqs_cis t) = Ok fc /\
       shape fc = [Nat.min (sp + s) (max_seq_len args * 2) -
                   Nat.min sp (max_seq_len args * 2);
                   dim args / n_heads args / 2]).
Proof.
  intros Hwf. split; [|split].
  - intros x bsz s d0 sp fc mask Hx Hover. split.
    + apply (@Attention_forward_overflow_state args a Hwf x bsz s d0 sp fc mask Hx Hover).
    + intros Hs.
      destruct (@Attention_forward_overflow_raises args a Hwf x bsz s d0 sp fc mask
                  Hx Hs Hover) as (e & He).
      exists e. rewrite He. reflexivity.
  - intros Hc. split; [|split].
    + intros x s sp fc mask Hx Hover Hs Hfc.
      apply (@Attention_forward_overflow_multi args a Hwf x s sp fc mask Hc Hx Hs Hfc Hover).
    + intros x sp fc Hx Hover. rewrite causal_mask_single. split.
      * intros Hfc.
        apply (@Attention_forward_overflow_single args a Hwf x sp fc Hc Hx Hfc Hover).
      * intros Hfc. exists ValueError.
        apply (@Attention_forward_past_table args a Hwf Hc x sp fc None Hx Hfc).
    + intros x bsz s sp fc mask Hx Hb Hs.
      apply (@Attention_forward_batch args a Hwf Hc x bsz s sp fc mask Hb Hs Hx).
  - intros t sp s Ht <-.
    apply (@freqs_cis_slice_clamped t Ht sp s).
Qed.

Lemma capacity_overflow_leaves_cache_witness :
  exists a,
    Attention_init tiny_init tiny_args = Ok a /\
    max_seq_len tiny_args < 3 + 2 /\
    Attention_forward (tiny_x 1 2) 3 (tiny_freqs 2) (causal_mask 2 3) a =
    (Err RuntimeError, a).
Proof.
  eexists. split; [reflexivity|]. split; [cbn; lia|].
  destruct (@capacity_overflow_leaves_cache tiny_args _ (@tiny_attention_wf _ eq_refl))
    as (_ & Hsingle & _).
  destruct (Hsingle tiny_config) as (Hmulti & _ & _).
  apply (Hmulti (tiny_x 1 2) 2 3 (tiny_freqs 2) (causal_mask 2 3)).
  - reflexivity.
  - cbn. lia.
  - lia.
  - reflexivity.
Defined.

(** C2, as stated, fails: a step of one position at [start_pos = 4] on a
    cache of 4 positions returns an output and raises nothing. *)
Lemma capacity_overflow_single_position_no_error :
  exists a y,
    Attention_init tiny_init tiny_args = Ok a /\
    max_seq_len tiny_args < 4 + 1 /\
    Attention_forward (tiny_x 1 1) 4 (tiny_freqs 1) (causal_mask 1 4) a = (Ok y, a).
Proof.
  eexists.
  destruct (@Attention_forward_overflow_single tiny_args _ (@tiny_attention_wf _ eq_refl)
              (tiny_x 1 1) 4 (tiny_freqs 1) tiny_config eq_refl eq_refl (le_n 5))
    as (y & Hy & _).
  exists y. split; [reflexivity|]. split; [cbn; lia | exact Hy].
Qed.




(** C4. The mask of lines 292-295 is absent for a step of one position and
    otherwise holds, inside its [seqlen] columns, [-inf] exactly where
    [j > start_pos + i]; on the first step ([start_pos = 0]) the masked
    scores above the diagonal are [-inf] and their softmax weight is
    exactly 0. For a later step of more than one position the mask has no
    column for the key positions [seqlen .. start_pos + seqlen - 1]: with
    [start_pos = 1] and two positions, query 0 must not see key position
    2 > 1 + 0, but the mask has shape (1, 1, 2, 2), the scores
    (1, heads, 2, 3), and [Attention.forward] raises RuntimeError at
    line 205 instead of producing masked scores (the cache has been
    written by then). *)
Theorem causal_mask_shifted_step_raises :
  (forall sp, causal_mask 1 sp = None) /\
  (forall s sp i j m,
     causal_mask s sp = Some m -> i < s -> j < s ->
     shape m = [1; 1; s; s] /\
     item m [0; 0; i; j] = if sp + i <? j then NegInf else Finite 0%R) /\
  (forall args a q keys values m s b,
     shape q = [s; n_heads args; dim args / n_heads args] ->
     shape keys = [b; s; n_heads args; dim args / n_heads args] ->
     shape values = [b; s; n_heads args; dim args / n_heads args] ->
     causal_mask s 0 = Some m ->
     exists sc vt,
       Attention_scores a q keys values (Some m) = Ok (sc, vt) /\
       forall e h i j,
         e < b -> h < n_heads args -> i < s -> j < s -> i < j ->
         item sc [e; h; i; j] = NegInf /\ item (softmax sc) [e; h; i; j] = 0%R) /\
  (exists a m q k v ck cv,
     Attention_init tiny_init tiny_args = Ok a /\
     causal_mask 2 1 = Some m /\ shape m = [1; 1; 2; 2] /\
     Attention_project a (tiny_x 1 2) 2 (tiny_freqs 2) = Ok (q, k, v) /\
     setitem [Range 0 1; Range 1 (1 + 2)] (cache_k a) k = Ok ck /\
     setitem [Range 0 1; Range 1 (1 + 2)] (cache_v a) v = Ok cv /\
     Attention_forward (tiny_x 1 2) 1 (tiny_freqs 2) (causal_mask 2 1) a =
     (Err RuntimeError, set_cache_v (set_cache_k a ck) cv)).
Proof.
  split; [reflexivity|]. split; [|split].
  - intros s sp i j m Hm Hi Hj. split.
    + apply (@causal_mask_shape s sp m Hm).
    + apply (@causal_mask_item s sp i j m Hm Hi Hj).
  - intros args a q keys values m s b Hq Hk Hv Hm.
    destruct (@Attention_scores_causal args a q keys values m s b Hq Hk Hv Hm)
      as (sc & vt & Hsc & _ & Hitems).
    exists sc, vt. split; [exact Hsc | exact Hitems].
  - eexists. exists (triu (1 + 1) (full [1; 1; 2; 2] NegInf)).
    destruct (@Attention_forward_mask_mismatch_single tiny_args _ (@tiny_attention_wf _ eq_refl)
                (tiny_x 1 2) 2 1 (tiny_freqs 2) tiny_config eq_refl (le_n 2) (le_n 1) eq_refl
                (le_S _ _ (le_n 3)))
      as (q & k & v & ck & cv & Hp & Hck & Hcv & Hf).
    exists q, k, v, ck, cv.
    split; [reflexivity|]. split; [reflexivity|]. split; [reflexivity|].
    split; [exact Hp|]. split; [exact Hck|]. split; [exact Hcv | exact Hf].
Qed.


(** C5. Two calls of [Attention.forward] on one layer, the first with
    [start_pos = 0] and three positions, the second with [start_pos = 3]
    and one position (single example, a cache of at least four positions):
    both return; after the first the cells 0..2 of the cache hold its keys
    and values; the second leaves the cells 0..2 as they were and stores
    exactly its own key and value in cell 3. Cells at or beyond
    [start_pos + seqlen] are not read back: what lines 197-198 read,
    [cache[:bsz, : start_pos + seqlen]], is the same for two caches that
    agree on the cells of the rows [0 .. bsz - 1] below
    [start_pos + seqlen], whatever the other cells hold; and what a call
    returns or raises is the same for two layers with the same weights
    whose caches agree on the cells below [start_pos] (the cells of the
    step are overwritten before the prefix is read). *)
Theorem kv_cache_two_calls (args : ModelArgs) (a : Attention)
    (x1 x2 : tensor R) (fc1 fc2 : tensor complex) :
  Attention_wf args a -> config_ok args -> 4 <= max_seq_len args ->
  shape x1 = [1; 3; dim args] -> shape x2 = [1; 1; dim args] ->
  shape fc1 = [3; dim args / n_heads args / 2] ->
  shape fc2 = [1; dim args / n_heads args / 2] ->
  exists y1 a1 y2 a2 q1 k1 v1 q2 k2 v2,
    Attention_forward x1 0 fc1 (causal_mask 3 0) a = (Ok y1, a1) /\
    Attention_project a x1 3 fc1 = Ok (q1, k1, v1) /\
    Attention_forward x2 3 fc2 (causal_mask 1 3) a1 = (Ok y2, a2) /\
    Attention_project a1 x2 1 fc2 = Ok (q2, k2, v2) /\
    (forall p h d,
       p < 3 -> h < n_heads args -> d < dim args / n_heads args ->
       item (cache_k a1) [0; p; h; d] = item k1 [p; h; d] /\
       item (cache_v a1) [0; p; h; d] = item v1 [p; h; d] /\
       item (cache_k a2) [0; p; h; d] = item (cache_k a1) [0; p; h; d] /\
       item (cache_v a2) [0; p; h; d] = item (cache_v a1) [0; p; h; d]) /\
    (forall h d,
       h < n_heads args -> d < dim args / n_heads args ->
       item (cache_k a2) [0; 3; h; d] = item k2 [0; h; d] /\
       item (cache_v a2) [0; 3; h; d] = item v2 [0; h; d]) /\
    (forall b b' bsz sp s,
       Attention_wf args b -> Attention_wf args b' ->
       (forall e p h d,
          e < bsz -> e < max_batch_size args ->
          p < sp + s -> p < max_seq_len args ->
          h < n_heads args -> d < dim args / n_heads args ->
          item (cache_k b) [e; p; h; d] = item (cache_k b') [e; p; h; d] /\
          item (cache_v b) [e; p; h; d] = item (cache_v b') [e; p; h; d]) ->
       Attention_read_cache b bsz sp s = Attention_read_cache b' bsz sp s) /\
    (forall b b' x bsz s d0 sp fc mask,
       Attention_wf args b -> Attention_wf args b' ->
       wq b' = wq b -> wk b' = wk b -> wv b' = wv b -> wo b' = wo b ->
       shape x = [bsz; s; d0] ->
       (forall e p h d,
          e < bsz -> e < max_batch_size args ->
          p < sp -> p < max_seq_len args ->
          h < n_heads args -> d < dim args / n_heads args ->
          item (cache_k b) [e; p; h; d] = item (cache_k b') [e; p; h; d] /\
          item (cache_v b) [e; p; h; d] = item (cache_v b') [e; p; h; d]) ->
       fst (Attention_forward x sp fc mask b') = fst (Attention_forward x sp fc mask b)).
Proof.
  intros Hwf Hc Hcap Hx1 Hx2 Hfc1 Hfc2.
  pose proof (batch_pos Hc) as Hbatch.
  destruct (@Attention_forward_ok args a x1 0 3 fc1 (causal_mask 3 0) Hwf Hc Hx1
              ltac:(lia) Hfc1 ltac:(right; lia))
    as (q1 & k1 & v1 & ck1 & cv1 & y1 & Hp1 & Hck1 & Hcv1 & Hf1 & _ & Hwf1).
  { replace (Nat.min (0 + 3) (max_seq_len args)) with 3 by lia. apply causal_mask_fits. }
  set (a1 := set_cache_v (set_cache_k a ck1) cv1) in *.
  destruct (@Attention_forward_ok args a1 x2 3 1 fc2 (causal_mask 1 3) Hwf1 Hc Hx2
              ltac:(lia) Hfc2 ltac:(left; reflexivity) I)
    as (q2 & k2 & v2 & ck2 & cv2 & y2 & Hp2 & Hck2 & Hcv2 & Hf2 & _ & Hwf2).
  set (a2 := set_cache_v (set_cache_k a1 ck2) cv2) in *.
  exists y1, a1, y2, a2, q1, k1, v1, q2, k2, v2.
  split; [exact Hf1|]. split; [exact Hp1|]. split; [exact Hf2|]. split; [exact Hp2|].
  destruct (@Attention_project_inv args a Hwf x1 3 fc1 q1 k1 v1 Hp1) as (_ & Hk1 & Hv1).
  destruct (@Attention_project_inv args a1 Hwf1 x2 1 fc2 q2 k2 v2 Hp2) as (_ & Hk2 & Hv2).
  assert (Ea1k : cache_k a1 = ck1) by reflexivity.
  assert (Ea1v : cache_v a1 = cv1) by reflexivity.
  assert (Ea2k : cache_k a2 = ck2) by reflexivity.
  assert (Ea2v : cache_v a2 = cv2) by reflexivity.
  rewrite Ea1k in Hck2. rewrite Ea1v in Hcv2.
  pose proof (@cache_write_shape 1 0 3 _ _ _ _ _ _ _ (wf_cache_k_shape Hwf) Hck1) as Hs1k.
  pose proof (@cache_write_shape 1 0 3 _ _ _ _ _ _ _ (wf_cache_v_shape Hwf) Hcv1) as Hs1v.
  split; [|split; [|split]].
  - intros p h d Hp Hh Hd. rewrite Ea1k, Ea1v, Ea2k, Ea2v.
    rewrite (@cache_write_item 1 3 1 _ _ _ _ _ _ _ Hs1k Hk2 Hck2 0 p h d) by lia.
    rewrite (@cache_write_item 1 3 1 _ _ _ _ _ _ _ Hs1v Hv2 Hcv2 0 p h d) by lia.
    rewrite (@cache_write_item 1 0 3 _ _ _ _ _ _ _ (wf_cache_k_shape Hwf) Hk1 Hck1 0 p h d)
      by lia.
    rewrite (@cache_write_item 1 0 3 _ _ _ _ _ _ _ (wf_cache_v_shape Hwf) Hv1 Hcv1 0 p h d)
      by lia.
    destruct (Nat.ltb_spec p (0 + 3)); [|lia].
    destruct (Nat.leb_spec 3 p); [lia|].
    cbn [Nat.ltb Nat.leb andb]. rewrite Nat.sub_0_r. auto.
  - intros h d Hh Hd. rewrite Ea2k, Ea2v.
    rewrite (@cache_write_item 1 3 1 _ _ _ _ _ _ _ Hs1k Hk2 Hck2 0 3 h d) by lia.
    rewrite (@cache_write_item 1 3 1 _ _ _ _ _ _ _ Hs1v Hv2 Hcv2 0 3 h d) by lia.
    cbn. auto.
  - intros b b' bsz sp s Hb Hb' Hagree.
    apply (@Attention_read_cache_prefix args b b' bsz sp s Hb Hb' Hagree).
  - intros b b' x bsz s d0 sp fc mask Hb Hb' Eq Ek Ev Eo Hx Hagree.
    apply (@Attention_forward_reads_below args b b' x bsz s d0 sp fc mask
             Hb Hb' Eq Ek Ev Eo Hx Hagree).
Qed.

Lemma kv_cache_two_calls_witness :
  exists a y1 a1 y2 a2,
    Attention_init tiny_init tiny_args = Ok a /\
    4 <= max_seq_len tiny_args /\
    shape (tiny_x 1 3) = [1; 3; dim tiny_args] /\
    shape (tiny_x 1 1) = [1; 1; dim tiny_args] /\
    Attention_forward (tiny_x 1 3) 0 (tiny_freqs 3) (causal_mask 3 0) a = (Ok y1, a1) /\
    Attention_forward (tiny_x 1 1) 3 (tiny_freqs 1) (causal_mask 1 3) a1 = (Ok y2, a2) /\
    item (cache_k a2) [0; 0; 0; 0] = item (cache_k a1) [0; 0; 0; 0] /\
    fst (Attention_forward (tiny_x 1 3) 0 (tiny_freqs 3) (causal_mask 3 0)
           (set_cache_k a (full [1; 4; 2; 4] 5%R))) = Ok y1.
Proof.
  eexists.
  destruct (@kv_cache_two_calls tiny_args _ (tiny_x 1 3) (tiny_x 1 1) (tiny_freqs 3)
              (tiny_freqs 1) (@tiny_attention_wf _ eq_refl) tiny_config
              (le_n 4) eq_refl eq_refl eq_refl eq_refl)
    as (y1 & a1 & y2 & a2 & q1 & k1 & v1 & q2 & k2 & v2 & Hf1 & _ & Hf2 & _ & Hkeep & _ & _ &
        Hbelow).
  exists y1, a1, y2, a2.
  split; [reflexivity|]. split; [apply le_n|]. split; [reflexivity|]. split; [reflexivity|].
  split; [exact Hf1|]. split; [exact Hf2|]. split.
  - apply (Hkeep 0 0 0); cbn; lia.
  - rewrite (Hbelow _ (set_cache_k _ (full [1; 4; 2; 4] 5%R)) (tiny_x 1 3) 1 3 8 0
               (tiny_freqs 3) (causal_mask 3 0) (@tiny_attention_wf _ eq_refl)).
    + rewrite Hf1. reflexivity.
    + apply set_cache_k_wf; [apply (@tiny_attention_wf _ eq_refl) | reflexivity |
                             apply wf_build].
    + reflexivity.
    + reflexivity.
    + reflexivity.
    + reflexivity.
    + reflexivity.
    + intros e p h d _ _ Hp. lia.
Defined.

(** C6. For a positive base [theta], [precompute_freqs_cis(dim, end, theta)]
    returns a table of shape (end, dim // 2) whose entry at position
    [p < end] and frequency index [i < dim // 2] is the complex number of
    magnitude 1 at the angle [p / theta^(2i / dim)]; [theta] defaults to
    10000.0; and [Transformer.__init__], whenever it returns (it does for
    at least one head and, with layers, a non-zero alignment and a [dim]
    whose [8 * dim / 3] is a float), stores the table built for the head
    dimension and [max_seq_len * 2] positions. *)
Theorem rotary_table_entries (d end_ : nat) (theta : R) (p i : nat) :
  (0 < theta)%R -> p < end_ -> i < d / 2 ->
  exists t,
    precompute_freqs_cis d end_ theta = Ok t /\
    shape t = [end_; d / 2] /\
    item t [p; i] =
      (cos (Rdiv (INR p) (Rpower theta (Rdiv (INR (2 * i)) (INR d)))),
       sin (Rdiv (INR p) (Rpower theta (Rdiv (INR (2 * i)) (INR d))))) /\
    Rplus (Rsqr (fst (item t [p; i]))) (Rsqr (snd (item t [p; i]))) = 1%R /\
    default_theta = 10000%R /\
    (forall init args m,
       Transformer_init init args = Ok m ->
       precompute_freqs_cis (dim args / n_heads args) (max_seq_len args * 2) default_theta =
       Ok (freqs_cis m)) /\
    (forall init args,
       n_heads args <> 0 ->
       n_layers args = 0 \/
       (multiple_of args <> 0 /\
        (8 * Z.of_nat (dim args) < 3 * (2 ^ 1024 - 2 ^ 970))%Z) ->
       exists m,
         Transformer_init init args = Ok m /\
         precompute_freqs_cis (dim args / n_heads args) (max_seq_len args * 2)
           default_theta = Ok (freqs_cis m) /\
         shape (freqs_cis m) = [max_seq_len args * 2; dim args / n_heads args / 2]).
Proof.
  intros _ Hp Hi.
  destruct (@precompute_freqs_cis_items d end_ theta) as (t & Ht & Hs & _ & Hitems).
  exists t. split; [exact Ht|]. split; [exact Hs|].
  assert (Hitem : item t [p; i] =
      (cos (Rdiv (INR p) (Rpower theta (Rdiv (INR (2 * i)) (INR d)))),
       sin (Rdiv (INR p) (Rpower theta (Rdiv (INR (2 * i)) (INR d)))))).
  { rewrite (Hitems p i Hp Hi), !Rmult_1_l.
    replace (INR p * (1 / Rpower theta (INR (2 * i) / INR d)))%R
      with (INR p / Rpower theta (INR (2 * i) / INR d))%R by (unfold Rdiv; ring).
    reflexivity. }
  split; [exact Hitem|]. split.
  { rewrite Hitem. cbn [fst snd]. rewrite Rplus_comm. apply sin2_cos2. }
  split; [reflexivity|]. split.
  - intros init args m Hm. unfold Transformer_init in Hm.
    destruct (init_layers init (seq 0 (n_layers args)) args) as [ls|]; cbn [bind] in Hm;
      [|discriminate].
    destruct (floordiv (dim args) (n_heads args)) as [hd|] eqn:Ed; cbn [bind] in Hm;
      [|discriminate].
    apply floordiv_inv in Ed. destruct Ed as [_ ->].
    destruct (precompute_freqs_cis (dim args / n_heads args) (max_seq_len args * 2)
                default_theta) as [fc|]; cbn [bind] in Hm; [|discriminate].
    inversion Hm. reflexivity.
  - intros init args Hh Hl.
    destruct (@Transformer_init_returns init args Hh Hl)
      as (m & Hm & _ & _ & Hsh & Htab & _).
    exists m. auto.
Qed.

Lemma rotary_table_entries_witness :
  exists t m,
    precompute_freqs_cis 4 8 default_theta = Ok t /\
    shape t = [8; 2] /\
    item t [1; 1] =
      (cos (Rdiv (INR 1) (Rpower default_theta (Rdiv (INR 2) (INR 4)))),
       sin (Rdiv (INR 1) (Rpower default_theta (Rdiv (INR 2) (INR 4))))) /\
    Transformer_init tiny_init tiny_args = Ok m /\
    precompute_freqs_cis 4 8 default_theta = Ok (freqs_cis m) /\
    shape (freqs_cis m) = [8; 2].
Proof.
  assert (Hth : (0 < default_theta)%R) by (unfold default_theta; lra).
  destruct (@rotary_table_entries 4 8 default_theta 1 1 Hth)
    as (t & Ht & Hs & Hitem & _ & _ & _ & Hmodel); [lia | simpl; lia |].
  destruct (Hmodel tiny_init tiny_args) as (m & Hm & Htab & Hsh).
  - cbn. lia.
  - right. split; [cbn; lia | reflexivity].
  - exists t, m. split; [exact Ht|]. split; [exact Hs|]. split; [exact Hitem|].
    split; [exact Hm|]. split; [exact Htab | exact Hsh].
Defined.

(** C7 (amended). For a single example (tokens of shape (1, seqlen),
    [seqlen >= 1], token ids in the vocabulary) inside the cache, on the
    first step or on a step of one position, [Transformer.forward] returns
    a float array of shape (1, vocab_size): the output projection applied
    to the row of the last position of the normalized hidden state, and to
    that row only. *)
Theorem forward_last_position_logits (t : Transformer) (tokens : tensor nat) (sp s : nat) :
  Transformer_wf t ->
  shape tokens = [1; s] -> 1 <= s ->
  Forall (fun tok => tok < vocab_size (params t)) (data tokens) ->
  sp + s <= max_seq_len (params t) ->
  s = 1 \/ sp = 0 ->
  exists e fc h ls hn last out,
    embedding (tok_embeddings t) tokens = Ok e /\
    getitem [Range sp (sp + s)] (freqs_cis t) = Ok fc /\
    run_layers e sp fc (causal_mask s sp) (layers t) = (Ok h, ls) /\
    RMSNorm_forward (norm t) h = Ok hn /\ shape hn = [1; s; dim (params t)] /\
    select_last1 hn = Ok last /\ shape last = [1; dim (params t)] /\
    (forall j, j < dim (params t) -> item last [0; j] = item hn [0; s - 1; j]) /\
    linear (output t) last = Ok out /\ shape out = [1; vocab_size (params t)] /\
    Transformer_forward tokens sp t = (Ok out, set_layers t ls).
Proof.
  intros Hwf Htok Hs Hvocab Hcap Hstep.
  destruct (@Transformer_forward_ok t Hwf tokens sp s Htok Hs Hvocab Hcap Hstep)
    as (e & fc & h & ls & hn & last & out & He & Hfc & Hrun & Hhn & Hhns & Hsel & Hlast &
        Hout & Houts & Hf & _).
  exists e, fc, h, ls, hn, last, out.
  split; [exact He|]. split; [exact Hfc|]. split; [exact Hrun|]. split; [exact Hhn|].
  split; [exact Hhns|]. split; [exact Hsel|]. split; [exact Hlast|].
  split; [|split; [exact Hout | split; [exact Houts | exact Hf]]].
  intros j Hj.
  rewrite (@select_last1_ok _ _ hn 1 s (dim (params t)) Hhns ltac:(lia)) in Hsel.
  inversion Hsel; subst last; clear Hsel.
  rewrite item_build by (apply in_bounds2_intro; lia). reflexivity.
Qed.

Lemma forward_last_position_logits_witness :
  exists t out ls,
    Transformer_init tiny_init tiny_args = Ok t /\
    shape (tiny_tokens 1 4) = [1; 4] /\ 0 + 4 <= max_seq_len tiny_args /\
    Transformer_forward (tiny_tokens 1 4) 0 t = (Ok out, set_layers t ls) /\
    shape out = [1; 16].
Proof.
  eexists.
  destruct (@tiny_model_wf _ eq_refl) as (Hwf & _ & _).
  destruct (@forward_last_position_logits _ (tiny_tokens 1 4) 0 4 Hwf eq_refl
              (le_S _ _ (le_S _ _ (le_S _ _ (le_n 1))))
              (@tiny_tokens_in_vocab 1 4 16 (Nat.lt_0_succ 15)) (le_n 4) (or_intror eq_refl))
    as (e & fc & h & ls & hn & last & out & _ & _ & _ & _ & _ & _ & _ & _ & _ & Hs & Hf).
  exists out, ls.
  split; [reflexivity|]. split; [reflexivity|]. split; [apply le_n|].
  split; [exact Hf | exact Hs].
Defined.

(** C7, as stated, fails for a batch of two examples: the first layer's
    attention raises and no logits are returned. *)
Lemma forward_two_examples_raises :
  exists t,
    Transformer_init tiny_init tiny_args = Ok t /\
    shape (tiny_tokens 2 1) = [2; 1] /\
    Transformer_forward (tiny_tokens 2 1) 0 t = (Err ValueError, t).
Proof.
  eexists.
  destruct (@tiny_model_wf _ eq_refl) as (Hwf & _ & Hlen).
  split; [reflexivity|]. split; [reflexivity|].
  apply (@Transformer_forward_batch _ Hwf (tiny_tokens 2 1) 2 0 1).
  - intros E. rewrite E in Hlen. discriminate.
  - reflexivity.
  - apply le_n.
  - apply le_n.
  - apply (@tiny_tokens_in_vocab 2 1 16 (Nat.lt_0_succ 15)).
Qed.

(** C8. For a step of more than one position at a positive start
    position, [Transformer.forward] builds a mask of shape
    (1, 1, seqlen, seqlen) while the scores of [Attention.forward] have
    shape (batch, heads, seqlen, start_pos + seqlen): the two do not
    broadcast, adding the mask raises, and every such call of
    [Attention.forward] raises. At [start_pos = 0] a single-example step
    inside the cache returns. *)
Theorem multi_position_step_needs_start_zero (args : ModelArgs) (a : Attention)
    (x : tensor R) (bsz s d0 sp : nat) (fc : tensor complex) :
  Attention_wf args a -> shape x = [bsz; s; d0] -> 1 < s -> 0 < sp ->
  (exists m, causal_mask s sp = Some m /\ shape m = [1; 1; s; s]) /\
  (forall q keys values b m,
     shape q = [s; n_heads args; dim args / n_heads args] ->
     shape keys = [b; sp + s; n_heads args; dim args / n_heads args] ->
     shape values = [b; sp + s; n_heads args; dim args / n_heads args] ->
     causal_mask s sp = Some m ->
     exists raw vt,
       Attention_scores a q keys values None = Ok (raw, vt) /\
       shape raw = [b; n_heads args; s; sp + s] /\
       broadcast_shapes (shape raw) (shape m) = None /\
       Attention_scores a q keys values (Some m) = Err RuntimeError) /\
  (exists e, fst (Attention_forward x sp fc (causal_mask s sp) a) = Err e) /\
  (forall x0 fc0,
     config_ok args -> shape x0 = [1; s; dim args] ->
     shape fc0 = [s; dim args / n_heads args / 2] -> s <= max_seq_len args ->
     exists y a', Attention_forward x0 0 fc0 (causal_mask s 0) a = (Ok y, a')).
Proof.
  intros Hwf Hx Hs Hsp.
  assert (Hm : exists m, causal_mask s sp = Some m /\ shape m = [1; 1; s; s]).
  { unfold causal_mask. destruct (Nat.ltb_spec 1 s); [|lia].
    eexists. split; reflexivity. }
  split; [exact Hm|]. split; [|split].
  - intros q keys values b m Hq Hk Hv Hmask.
    destruct (@Attention_scores_raw args a q keys values s b (sp + s) Hq Hk Hv)
      as (raw & vt & Hraw & _ & Hsc).
    apply causal_mask_shape in Hmask. destruct Hmask as [Hms _].
    assert (Hbc : broadcast_shapes (shape raw) (shape m) = None)
      by (rewrite Hraw, Hms; apply broadcast_mask_mismatch; assumption).
    exists raw, vt. split; [apply (Hsc None)|]. split; [exact Hraw|]. split; [exact Hbc|].
    rewrite (Hsc (Some m)), binop_err by exact Hbc. reflexivity.
  - apply (@Attention_forward_mask_mismatch args a Hwf x bsz s d0 sp fc Hx Hs Hsp).
  - intros x0 fc0 Hc Hx0 Hfc0 Hcap.
    destruct (@Attention_forward_ok args a x0 0 s fc0 (causal_mask s 0) Hwf Hc Hx0
                (Nat.lt_le_incl _ _ Hs) Hfc0 (or_intror Hcap))
      as (q & k & v & ck & cv & y & _ & _ & _ & Hf & _).
    { replace (Nat.min (0 + s) (max_seq_len args)) with s by lia. apply causal_mask_fits. }
    exists y. eexists. exact Hf.
Qed.

Lemma multi_position_step_needs_start_zero_witness :
  exists a e,
    Attention_init tiny_init tiny_args = Ok a /\
    shape (tiny_x 1 2) = [1; 2; 8] /\ 1 < 2 /\ 0 < 1 /\
    fst (Attention_forward (tiny_x 1 2) 1 (tiny_freqs 2) (causal_mask 2 1) a) = Err e.
Proof.
  eexists.
  destruct (@multi_position_step_needs_start_zero tiny_args _ (tiny_x 1 2) 1 2 8 1
              (tiny_freqs 2) (@tiny_attention_wf _ eq_refl) eq_refl (le_n 2) (le_n 1))
    as (_ & _ & (e & He) & _).
  exists e. split; [reflexivity|]. split; [reflexivity|].
  split; [apply le_n|]. split; [apply le_n | exact He].
Defined.


(** C9. [Attention.forward] squeezes its input and reshapes each projected
    ciphertext to (seqlen, heads, head_dim): with two or more examples the
    batch axis survives the squeeze, the projected ciphertext holds
    [bsz * seqlen * heads * head_dim] values, the reshape of line 173
    raises, and the call raises without touching the cache, although the
    constructor allocates the cache for [max_batch_size] examples; with one
    example the projections go through. *)
Theorem attention_single_example_only (args : ModelArgs) (a : Attention)
    (x : tensor R) (bsz s sp : nat) (fc : tensor complex) (mask : option (tensor xreal)) :
  Attention_wf args a -> config_ok args ->
  shape x = [bsz; s; dim args] -> 2 <= bsz -> 1 <= s ->
  (exists pre, shape (squeeze x) = pre ++ [dim args] /\ numel pre = bsz * s) /\
  Attention_project a x s fc = Err ValueError /\
  Attention_forward x sp fc mask a = (Err ValueError, a) /\
  (forall init a0,
     Attention_init init args = Ok a0 ->
     shape (cache_k a0) =
       [max_batch_size args; max_seq_len args; n_heads args; dim args / n_heads args] /\
     shape (cache_v a0) =
       [max_batch_size args; max_seq_len args; n_heads args; dim args / n_heads args]) /\
  (forall x1 fc1,
     shape x1 = [1; s; dim args] -> shape fc1 = [s; dim args / n_heads args / 2] ->
     exists q k v, Attention_project a x1 s fc1 = Ok (q, k, v)).
Proof.
  intros Hwf Hc Hx Hb Hs.
  split; [apply (@squeeze_batch args Hc x bsz s Hb Hx)|].
  split; [apply (@Attention_project_batch args a Hwf Hc x bsz s fc Hb Hs Hx)|].
  split; [apply (@Attention_forward_batch args a Hwf Hc x bsz s sp fc mask Hb Hs Hx)|].
  split.
  - intros init a0 Ha0. apply Attention_init_wf in Ha0.
    split; [apply (wf_cache_k_shape Ha0) | apply (wf_cache_v_shape Ha0)].
  - intros x1 fc1 Hx1 Hfc1.
    destruct (@Attention_project_ok args a Hwf Hc x1 s fc1 Hx1 Hs Hfc1)
      as (q & k & v & Hp & _).
    exists q, k, v. exact Hp.
Qed.

Lemma attention_single_example_only_witness :
  exists a,
    Attention_init tiny_init tiny_args = Ok a /\
    shape (tiny_x 2 1) = [2; 1; dim tiny_args] /\ 2 <= 2 /\ 1 <= 1 /\
    Attention_forward (tiny_x 2 1) 0 (tiny_freqs 1) None a = (Err ValueError, a).
Proof.
  eexists. split; [reflexivity|]. split; [reflexivity|].
  split; [apply le_n|]. split; [apply le_n|].
  apply (@attention_single_example_only tiny_args _ (tiny_x 2 1) 2 1 0 (tiny_freqs 1) None
           (@tiny_attention_wf _ eq_refl) tiny_config eq_refl (le_n 2) (le_n 1)).
Defined.

(** C10 (amended). The feed-forward hidden width that
    [FeedForward.__init__] computes from the [4 * dim] passed by
    [TransformerBlock.__init__] is, for a positive alignment [multiple_of]
    and every [dim] whose quotient [8 * dim / 3] is below [2^52], the
    specification's
    [multiple_of * ceil(trunc(2 * (4 * dim) / 3) / multiple_of)]: two thirds
    of the nominal width, truncated to an integer, then rounded up to the
    next multiple; the constructor of a block returns for such sizes and
    the block has projections of that width; and this is not the nominal
    width rounded up (dim 512, alignment 256: 1536, not 2048). *)
Theorem hidden_width_two_thirds_rounded (d m : Z) :
  (0 < m)%Z -> (Z.abs (8 * d) < 3 * 2 ^ 52)%Z ->
  FeedForward_hidden_dim (4 * d) m = Ok (hidden_width_spec d m) /\
  (forall init id args,
     Z.of_nat (dim args) = d -> Z.of_nat (multiple_of args) = m ->
     n_heads args <> 0 ->
     exists b,
       TransformerBlock_init init id args = Ok b /\
       out_features (w1 (feed_forward b)) = Z.to_nat (hidden_width_spec d m) /\
       out_features (w3 (feed_forward b)) = Z.to_nat (hidden_width_spec d m) /\
       in_features (w2 (feed_forward b)) = Z.to_nat (hidden_width_spec d m)) /\
  FeedForward_hidden_dim (4 * 512) 256 = Ok 1536%Z /\
  nominal_width_rounded 512 256 = 2048%Z.
Proof.
  intros Hm Hd.
  assert (Hcode : FeedForward_hidden_dim (4 * d) m = Ok (hidden_width_spec d m)).
  { unfold FeedForward_hidden_dim, hidden_width_spec.
    destruct (@int_truediv_third_small (2 * (4 * d))%Z) as (q & -> & Hq);
      [replace (2 * (4 * d))%Z with (8 * d)%Z by ring; exact Hd|].
    cbn [bind]. rewrite Hq.
    destruct (Z.eqb_spec m 0); [lia|].
    rewrite Qceiling_div by assumption.
    rewrite Qtruncate_two_thirds. reflexivity. }
  split; [exact Hcode|]. split; [|split; reflexivity].
  intros init id args Hdim Hmul Hh. unfold TransformerBlock_init, Attention_init, floordiv.
  replace (n_heads args =? 0) with false by (symmetry; apply Nat.eqb_neq; exact Hh).
  cbn [bind]. unfold FeedForward_init.
  replace (Z.of_nat (4 * dim args)) with (4 * d)%Z by lia.
  rewrite Hmul, Hcode. cbn [bind].
  eexists. split; [reflexivity|]. cbn. auto.
Qed.

Lemma hidden_width_two_thirds_rounded_witness :
  (0 < 4)%Z /\
  FeedForward_hidden_dim (4 * 8) 4 = Ok (hidden_width_spec 8 4) /\
  hidden_width_spec 8 4 = 24%Z.
Proof.
  split; [lia|]. split.
  - apply (@hidden_width_two_thirds_rounded 8 4); [lia | reflexivity].
  - reflexivity.
Defined.

(** C10, as stated for every [dim], fails where the float quotient of line
    223 has no fractional bits left: for [dim = 1688849860263937] and
    alignment 1, [8 * dim / 3 = 4503599627370498.67] is the float
    4503599627370499.0, and that is the width, one more than the truncated
    two thirds. *)
Lemma hidden_width_beyond_float_precision :
  FeedForward_hidden_dim (4 * 1688849860263937) 1 = Ok 4503599627370499%Z /\
  hidden_width_spec 1688849860263937 1 = 4503599627370498%Z /\
  FeedForward_hidden_dim (4 * 1688849860263937) 1 <>
  Ok (hidden_width_spec 1688849860263937 1).
Proof.
  assert (Hc : FeedForward_hidden_dim (4 * 1688849860263937) 1 = Ok 4503599627370499%Z)
    by (vm_compute; reflexivity).
  assert (Hs : hidden_width_spec 1688849860263937 1 = 4503599627370498%Z)
    by (vm_compute; reflexivity).
  split; [exact Hc|]. split; [exact Hs|].
  rewrite Hc, Hs. intros H. inversion H.
Qed.

(** X1. What [apply_rotary_emb] computes, entry by entry, for query and key
    alike: with [(c, s)] the rotary value of position [p] and frequency
    index [i], the pair [(x0, x1)] of features [2i, 2i + 1] becomes
    [(x0 * c + x0 * (-s), x1 * c + x1 * s)]. Each entry is scaled by itself;
    the rotation would be [(x0 * c - x1 * s, x1 * c + x0 * s)]. *)
Theorem apply_rotary_emb_entries (xq xk : tensor R) (h half seqlen : nat)
    (fc : tensor complex) :
  wf xq -> wf xk -> 1 <= seqlen ->
  shape xq = [seqlen; h; 2 * half] -> shape xk = [seqlen; h; 2 * half] ->
  shape fc = [seqlen; half] ->
  exists q k,
    apply_rotary_emb (ckks_tensor xq) (ckks_tensor xk) h (2 * half) seqlen fc =
    Ok (Enc q, Enc k) /\
    forall p j i,
      p < seqlen -> j < h -> i < half ->
      item q [p; j; 2 * i] =
        Rplus (Rmult (item xq [p; j; 2 * i]) (fst (item fc [p; i])))
              (Rmult (item xq [p; j; 2 * i]) (Ropp (snd (item fc [p; i])))) /\
      item q [p; j; 2 * i + 1] =
        Rplus (Rmult (item xq [p; j; 2 * i + 1]) (fst (item fc [p; i])))
              (Rmult (item xq [p; j; 2 * i + 1]) (snd (item fc [p; i]))) /\
      item k [p; j; 2 * i] =
        Rplus (Rmult (item xk [p; j; 2 * i]) (fst (item fc [p; i])))
              (Rmult (item xk [p; j; 2 * i]) (Ropp (snd (item fc [p; i])))) /\
      item k [p; j; 2 * i + 1] =
        Rplus (Rmult (item xk [p; j; 2 * i + 1]) (fst (item fc [p; i])))
              (Rmult (item xk [p; j; 2 * i + 1]) (snd (item fc [p; i]))).
Proof.
  intros Hwq Hwk Hs Hq Hk Hfc. unfold apply_rotary_emb.
  destruct (@rotary_factors_of_slice fc seqlen half Hs Hfc)
    as (ll & rr & l & r & -> & Hl & -> & Hr & Hls & Hrs & Hitems).
  cbn [bind]. rewrite Hl, Hr. cbn [bind].
  destruct (@rotate_items xq h half seqlen l r Hwq Hq Hls Hrs) as (q & Hrq & _ & Hqi).
  destruct (@rotate_items xk h half seqlen l r Hwk Hk Hls Hrs) as (k & Hrk & _ & Hki).
  unfold ckks_tensor. rewrite Hrq, Hrk. cbn [bind].
  exists q, k. split; [reflexivity|].
  intros p j i Hp Hj Hi.
  destruct (Hitems p i Hp Hi) as (Hl0 & Hl1 & Hr0 & Hr1).
  rewrite !Hqi, !Hki by lia. rewrite Hl0, Hl1, Hr0, Hr1. auto.
Qed.

Lemma apply_rotary_emb_entries_witness :
  exists q k,
    apply_rotary_emb (ckks_tensor unit_x) (ckks_tensor unit_x) 1 (2 * 1) 1
      (full [1; 1] (0%R, 1%R)) = Ok (Enc q, Enc k) /\
    item q [0; 0; 2 * 0 + 1] =
      Rplus (Rmult (item unit_x [0; 0; 2 * 0 + 1]) (fst (item (full [1; 1] (0%R, 1%R)) [0; 0])))
            (Rmult (item unit_x [0; 0; 2 * 0 + 1]) (snd (item (full [1; 1] (0%R, 1%R)) [0; 0]))).
Proof.
  destruct (@apply_rotary_emb_entries unit_x unit_x 1 1 1 (full [1; 1] (0%R, 1%R))
              eq_refl eq_refl (le_n 1) eq_refl eq_refl eq_refl) as (q & k & Hqk & Hitems).
  exists q, k. split; [exact Hqk|].
  apply (Hitems 0 0 0 (le_n 1) (le_n 1) (le_n 1)).
Defined.

(** X2. The frame of the cache update of lines 194-195: a single-example
    call of [Attention.forward] that fits the cache and returns has
    stored its keys and values in the cells
    [start_pos .. start_pos + seqlen - 1] of example 0 and has left every
    other cell of both caches as it was. *)
Theorem attention_forward_cache_frame (args : ModelArgs) (a : Attention)
    (x : tensor R) (sp s : nat) (fc : tensor complex) (mask : option (tensor xreal)) :
  Attention_wf args a -> config_ok args ->
  shape x = [1; s; dim args] -> 1 <= s ->
  shape fc = [s; dim args / n_heads args / 2] ->
  sp + s <= max_seq_len args ->
  mask_fits mask [1; n_heads args; s; sp + s] ->
  exists q k v y a',
    Attention_project a x s fc = Ok (q, k, v) /\
    Attention_forward x sp fc mask a = (Ok y, a') /\
    forall b p h d,
      b < max_batch_size args -> p < max_seq_len args ->
      h < n_heads args -> d < dim args / n_heads args ->
      item (cache_k a') [b; p; h; d] =
        (if (b <? 1) && (sp <=? p) && (p <? sp + s)
         then item k [p - sp; h; d] else item (cache_k a) [b; p; h; d]) /\
      item (cache_v a') [b; p; h; d] =
        (if (b <? 1) && (sp <=? p) && (p <? sp + s)
         then item v [p - sp; h; d] else item (cache_v a) [b; p; h; d]).
Proof.
  intros Hwf Hc Hx Hs Hfc Hcap Hmask.
  destruct (@Attention_forward_ok args a x sp s fc mask Hwf Hc Hx Hs Hfc (or_intror Hcap))
    as (q & k & v & ck & cv & y & Hp & Hck & Hcv & Hf & _ & _).
  { replace (Nat.min (sp + s) (max_seq_len args)) with (sp + s) by lia. exact Hmask. }
  destruct (@Attention_project_inv args a Hwf x s fc q k v Hp) as (_ & Hk & Hv).
  exists q, k, v, y. eexists. split; [exact Hp|]. split; [exact Hf|].
  intros b p h d Hb Hpp Hh Hd. cbn [set_cache_v set_cache_k cache_k cache_v].
  split.
  - apply (@cache_write_item 1 sp s _ _ _ _ _ _ _ (wf_cache_k_shape Hwf) Hk Hck b p h d);
      assumption.
  - apply (@cache_write_item 1 sp s _ _ _ _ _ _ _ (wf_cache_v_shape Hwf) Hv Hcv b p h d);
      assumption.
Qed.

Lemma attention_forward_cache_frame_witness :
  exists a q k v y a',
    Attention_init tiny_init tiny_args = Ok a /\
    Attention_project a (tiny_x 1 1) 1 (tiny_freqs 1) = Ok (q, k, v) /\
    Attention_forward (tiny_x 1 1) 2 (tiny_freqs 1) None a = (Ok y, a') /\
    item (cache_k a') [0; 2; 0; 0] = item k [0; 0; 0] /\
    item (cache_k a') [0; 1; 0; 0] = item (cache_k a) [0; 1; 0; 0].
Proof.
  eexists.
  destruct (@attention_forward_cache_frame tiny_args _ (tiny_x 1 1) 2 1 (tiny_freqs 1) None
              (@tiny_attention_wf _ eq_refl) tiny_config eq_refl (le_n 1) eq_refl
              (le_S _ _ (le_n 3)) I)
    as (q & k & v & y & a' & Hp & Hf & Hitems).
  exists q, k, v, y, a'.
  split; [reflexivity|]. split; [exact Hp|]. split; [exact Hf|].
  split.
  - apply (Hitems 0 2 0 0); cbn; lia.
  - apply (Hitems 0 1 0 0); cbn; lia.
Defined.
(* ===================================================================== *)
(** * Further properties of the code *)
(* ===================================================================== *)

(** X3. [reshape_for_broadcast] on an input with at least three axes,
    of shape (b, s, ..., d), and a rotary slice of shape (s, d): both
    assertions pass and the slice is returned viewed as
    (1, s, 1, ..., 1, d), same buffer. That shape broadcasts against the
    input's to the input's shape, and the entry met by [x[b, p, ..., k]] is
    [freqs_cis[p, k]]. *)
Theorem reshape_for_broadcast_aligns (A : Type) (freqs_cis : tensor complex) (x : tensor A)
    (b s d : nat) (mid : list nat) :
  shape x = b :: s :: mid ++ [d] -> shape freqs_cis = [s; d] ->
  exists y,
    reshape_for_broadcast freqs_cis x = Passed (Ok y) /\
    shape y = 1 :: s :: map (fun _ => 1) mid ++ [d] /\
    data y = data freqs_cis /\
    broadcast_shapes (shape x) (shape y) = Some (shape x) /\
    forall idx, in_bounds (shape x) idx ->
      item y (bcast_index (shape y) idx) = item freqs_cis [nth 1 idx 0; last idx 0].
Proof.
  intros Hx Hf.
  assert (Hsh : map (fun id : nat * nat =>
                  if (fst id =? 1) || (fst id =? length (shape x) - 1) then snd id else 1)
                  (enumerate (shape x)) = 1 :: s :: map (fun _ => 1) mid ++ [d]).
  { rewrite Hx. unfold enumerate. cbn [length seq combine map fst snd Nat.eqb orb].
    replace (0 =? S (length (mid ++ [d])) - 0) with false
      by (symmetry; apply Nat.eqb_neq; lia).
    f_equal. f_equal. apply enumerate_inner; [lia|].
    rewrite length_app. simpl. lia. }
  exists (Tensor (1 :: s :: map (fun _ => 1) mid ++ [d]) (data freqs_cis)).
  split; [|split; [reflexivity|split; [reflexivity|split]]].
  - unfold reshape_for_broadcast.
    replace (1 <? length (shape x)) with true
      by (symmetry; apply Nat.ltb_lt; rewrite Hx; simpl; lia).
    cbn [negb].
    destruct (list_eq_dec Nat.eq_dec (shape freqs_cis) [nth 1 (shape x) 0; last (shape x) 0])
      as [_|Hne].
    + rewrite Hsh. unfold view.
      replace (numel (1 :: s :: map (fun _ => 1) mid ++ [d]) =? numel (shape freqs_cis))
        with true; [reflexivity|].
      symmetry. apply Nat.eqb_eq. rewrite Hf, !numel_cons, numel_ones.
      unfold numel; simpl. lia.
    + exfalso. apply Hne. rewrite Hf, Hx. cbn [nth]. f_equal. f_equal.
      change (b :: s :: mid ++ [d]) with ((b :: s :: mid) ++ [d]).
      rewrite last_last. reflexivity.
  - cbn [shape]. rewrite Hx. unfold broadcast_shapes.
    cbn [rev]. rewrite !rev_app_distr. cbn [rev app].
    rewrite <- map_rev. rewrite <- !app_assoc. cbn [app broadcast_rev].
    rewrite broadcast_dim_refl, broadcast_rev_ones. cbn [option_map rev].
    rewrite !rev_app_distr. cbn [rev app]. rewrite rev_involutive. reflexivity.
  - intros idx Hin. cbn [shape]. rewrite Hx in Hin.
    inversion Hin as [|ib b0 idx1 sh1 Hib Hin1]; subst.
    inversion Hin1 as [|p s0 idx2 sh2 Hp Hin2]; subst.
    apply Forall2_app_inv_r in Hin2. destruct Hin2 as (imid & lk & Hmid & Hk & ->).
    inversion Hk as [|k d0 l0 l1 Hkd Hnil]; subst. inversion Hnil; subst.
    cbn [nth].
    change (ib :: p :: imid ++ [k]) with ((ib :: p :: imid) ++ [k]) at 2.
    rewrite last_last.
    unfold bcast_index.
    replace (length (ib :: p :: imid ++ [k]) -
             length (1 :: s :: map (fun _ : nat => 1) mid ++ [d])) with 0.
    2:{ cbn [length]. rewrite !length_app, length_map. apply Forall2_length in Hmid.
        simpl. lia. }
    cbn [skipn combine map fst snd Nat.eqb].
    rewrite (bcast_index_ones Hmid Hkd).
    unfold item. cbn [shape data]. rewrite Hf. f_equal.
    cbn [ravel]. rewrite (@ravel_ones mid imid d k) by (apply Forall2_length in Hmid; exact Hmid).
    rewrite numel_ones, numel_cons, numel_ones.
    destruct (Nat.eqb_spec s 1); unfold numel; simpl; nia.
Qed.

Lemma reshape_for_broadcast_aligns_witness :
  exists y,
    reshape_for_broadcast (full [3; 2] (1%R, 0%R)) (zeros [2; 3; 4; 2]) = Passed (Ok y) /\
    shape y = [1; 3; 1; 2].
Proof.
  destruct (@reshape_for_broadcast_aligns R (full [3; 2] (1%R, 0%R)) (zeros [2; 3; 4; 2])
              2 3 2 [4] eq_refl eq_refl) as (y & Hy & Hsh & _).
  exists y. split; [exact Hy | exact Hsh].
Defined.

(** X5. [reshape_for_broadcast] on an input with exactly two axes, of
    shape (n, d): axis 1 is also the last axis, the assertion asks for a
    [freqs_cis] of shape (d, d) and the target shape is (1, d). For
    [d >= 2] the assertions pass and the view raises RuntimeError (d * d
    values do not fit d); for [d <= 1] the view is returned. *)
Theorem reshape_for_broadcast_two_axes (A : Type) (freqs_cis : tensor complex) (x : tensor A)
    (n d : nat) :
  shape x = [n; d] -> shape freqs_cis = [d; d] ->
  reshape_for_broadcast freqs_cis x =
  if d <=? 1 then Passed (Ok (Tensor [1; d] (data freqs_cis)))
  else Passed (Err RuntimeError).
Proof.
  intros Hx Hf. unfold reshape_for_broadcast. rewrite Hx, Hf.
  cbn [length Nat.ltb Nat.leb negb nth last].
  destruct (list_eq_dec Nat.eq_dec [d; d] [d; d]) as [_|Hne]; [|contradiction].
  unfold enumerate. cbn [length seq combine map fst snd Nat.eqb orb Nat.sub].
  unfold view. rewrite Hf. unfold numel. cbn [fold_right].
  destruct (Nat.leb_spec d 1) as [Hd|Hd].
  - replace (1 * (d * 1) =? d * (d * 1)) with true; [reflexivity|].
    symmetry. apply Nat.eqb_eq. assert (d = 0 \/ d = 1) as [->| ->] by lia; reflexivity.
  - replace (1 * (d * 1) =? d * (d * 1)) with false; [reflexivity|].
    symmetry. apply Nat.eqb_neq. nia.
Qed.

Lemma reshape_for_broadcast_two_axes_witness :
  reshape_for_broadcast (full [2; 2] (1%R, 0%R)) (zeros [3; 2]) = Passed (Err RuntimeError).
Proof.
  exact (@reshape_for_broadcast_two_axes R (full [2; 2] (1%R, 0%R)) (zeros [3; 2]) 3 2
           eq_refl eq_refl).
Defined.

(** X6. The rotary table composes over positions: for a positive [theta]
    and any [dim] and [end], [precompute_freqs_cis] returns a table of
    shape (end, dim // 2) whose row 0 is 1 + 0i and whose entry at position
    [p + q] is the complex product of its entries at [p] and at [q] (same
    frequency index). *)
Theorem rotary_table_positions_compose (d end_ : nat) (theta : R) :
  (0 < theta)%R ->
  exists t,
    precompute_freqs_cis d end_ theta = Ok t /\
    shape t = [end_; d / 2] /\
    (forall i, 0 < end_ -> i < d / 2 -> item t [0; i] = (1%R, 0%R)) /\
    (forall p q i, p + q < end_ -> i < d / 2 ->
       item t [p + q; i] =
       (Rminus (Rmult (fst (item t [p; i])) (fst (item t [q; i])))
               (Rmult (snd (item t [p; i])) (snd (item t [q; i]))),
        Rplus (Rmult (fst (item t [p; i])) (snd (item t [q; i])))
              (Rmult (snd (item t [p; i])) (fst (item t [q; i]))))).
Proof.
  intros _.
  destruct (precompute_freqs_cis_items d end_ theta) as (t & Ht & Hsh & _ & Hitems).
  exists t. split; [exact Ht|]. split; [exact Hsh|]. split.
  - intros i He Hi. rewrite (Hitems 0 i He Hi). cbn [INR].
    rewrite Rmult_0_l, cos_0, sin_0. f_equal; apply Rmult_1_l || apply Rmult_0_r.
  - intros p q i Hpq Hi.
    rewrite (Hitems (p + q) i Hpq Hi), (Hitems p i) by (lia || exact Hi).
    rewrite (Hitems q i) by (lia || exact Hi).
    cbn [fst snd]. rewrite plus_INR, Rmult_plus_distr_r, cos_plus, sin_plus.
    f_equal; unfold Rminus; ring.
Qed.

Lemma rotary_table_positions_compose_witness :
  exists t,
    precompute_freqs_cis 4 8 default_theta = Ok t /\
    item t [1 + 2; 1] =
      (Rminus (Rmult (fst (item t [1; 1])) (fst (item t [2; 1])))
              (Rmult (snd (item t [1; 1])) (snd (item t [2; 1]))),
       Rplus (Rmult (fst (item t [1; 1])) (snd (item t [2; 1])))
             (Rmult (snd (item t [1; 1])) (fst (item t [2; 1])))).
Proof.
  assert (Hth : (0 < default_theta)%R) by (unfold default_theta; lra).
  destruct (@rotary_table_positions_compose 4 8 default_theta Hth) as (t & Ht & _ & _ & Hadd).
  exists t. split; [exact Ht|]. apply (Hadd 1 2 1); cbn; lia.
Defined.

(** X7. [Transformer.forward] on tokens of shape (bsz, seqlen) one of
    which is not below [vocab_size]: the embedding lookup of line 288
    raises IndexError, before any layer runs; the model, its caches
    included, is as it was. *)
Theorem forward_token_out_of_vocabulary (t : Transformer) (tokens : tensor nat)
    (bsz s sp : nat) :
  Transformer_wf t ->
  shape tokens = [bsz; s] ->
  Exists (fun tok => vocab_size (params t) <= tok) (data tokens) ->
  Transformer_forward tokens sp t = (Err IndexError, t).
Proof.
  intros Hwf Hsh Hex. unfold Transformer_forward. rewrite Hsh.
  rewrite embedding_out_of_range; [reflexivity|].
  rewrite (wf_tok_num Hwf). exact Hex.
Qed.

Lemma forward_token_out_of_vocabulary_witness :
  exists t,
    Transformer_init tiny_init tiny_args = Ok t /\
    Transformer_forward (Tensor [1; 2] [3; 16]) 0 t = (Err IndexError, t).
Proof.
  eexists. split; [reflexivity|].
  apply (@forward_token_out_of_vocabulary _ (Tensor [1; 2] [3; 16]) 1 2 0).
  - apply tiny_model_wf. reflexivity.
  - reflexivity.
  - apply Exists_cons_tl. apply Exists_cons_hd. cbn. lia.
Defined.


(** X9. With an odd head dimension [dim // n_heads], every single-example
    call of [Attention.forward] raises ValueError and leaves the cache as
    it was: the rotary slice has [head_dim // 2] columns, and the reshape
    of line 97 to (seqlen, heads, head_dim // 2, 2) asks for one value
    fewer per head than the projected query holds. *)
Theorem attention_odd_head_dim_raises (args : ModelArgs) (a : Attention)
    (x : tensor R) (s sp : nat) (fc : tensor complex) (mask : option (tensor xreal)) :
  Attention_wf args a ->
  1 <= n_heads args -> Nat.odd (dim args / n_heads args) = true -> 2 <= dim args ->
  shape x = [1; s; dim args] -> 1 <= s ->
  shape fc = [s; dim args / n_heads args / 2] ->
  Attention_forward x sp fc mask a = (Err ValueError, a).
Proof.
  intros Hwf Hh Ho Hd Hx Hs Hfc. unfold Attention_forward. rewrite Hx.
  unfold mbind. rewrite (@Attention_project_odd args a Hwf x s fc Hh Ho Hd Hx Hs Hfc).
  reflexivity.
Qed.

Lemma attention_odd_head_dim_raises_witness :
  exists a,
    Attention_init tiny_init (mkModelArgs 6 1 2 16 4 (1 / 100000)%R 1 4) = Ok a /\
    Attention_forward (full [1; 2; 6] 1%R) 0 (full [2; 1] (1%R, 0%R)) None a =
    (Err ValueError, a).
Proof.
  eexists. split; [reflexivity|].
  apply (@attention_odd_head_dim_raises (mkModelArgs 6 1 2 16 4 (1 / 100000)%R 1 4) _
           (full [1; 2; 6] 1%R) 2 0 (full [2; 1] (1%R, 0%R)) None).
  - apply Attention_init_wf with (init := tiny_init). reflexivity.
  - cbn; lia.
  - reflexivity.
  - cbn; lia.
  - reflexivity.
  - lia.
  - reflexivity.
Defined.

(** X10. Whatever [Transformer.forward] is called with, and whether it
    returns or raises, the model it leaves differs from the model it found
    at most in the contents of the KV caches: configuration, embedding,
    every projection and norm weight, the rotary table, the number and
    order of the layers and the shape of every cache are unchanged. *)
Theorem forward_changes_only_caches (t : Transformer) (tokens : tensor nat) (sp : nat) :
  Transformer_same_weights t (snd (Transformer_forward tokens sp t)).
Proof. apply Transformer_forward_same_weights. Qed.

(** X11. Whatever the outcome of a call of [Transformer.forward] on
    tokens of shape (bsz, seqlen) at [start_pos], in every layer the cache
    cells outside the examples [0 .. bsz - 1] and the positions
    [start_pos .. start_pos + seqlen - 1] keep their values. *)
Theorem forward_cache_frame (t : Transformer) (tokens : tensor nat) (bsz s sp : nat) :
  Transformer_wf t -> shape tokens = [bsz; s] ->
  Forall2 (fun b b' =>
     cache_outside_unchanged bsz sp s (cache_k (attention b)) (cache_k (attention b')) /\
     cache_outside_unchanged bsz sp s (cache_v (attention b)) (cache_v (attention b')))
    (layers t) (layers (snd (Transformer_forward tokens sp t))).
Proof.
  intros Hwf Hsh.
  assert (Hrefl : Forall2 (fun b b' =>
     cache_outside_unchanged bsz sp s (cache_k (attention b)) (cache_k (attention b')) /\
     cache_outside_unchanged bsz sp s (cache_v (attention b)) (cache_v (attention b')))
    (layers t) (layers t)).
  { induction (layers t); constructor; [|assumption].
    split; apply cache_outside_unchanged_refl. }
  unfold Transformer_forward. rewrite Hsh.
  destruct (embedding (tok_embeddings t) tokens) as [h|] eqn:Ee; cbn [bind]; [|exact Hrefl].
  destruct (getitem _ (freqs_cis t)) as [fc|]; cbn [bind]; [|exact Hrefl].
  assert (Hh : shape h = [bsz; s; dim (params t)]).
  { unfold embedding in Ee.
    destruct (forallb _ _); [|discriminate]. injection Ee as <-.
    cbn [shape build]. rewrite Hsh, (wf_tok_dim Hwf). reflexivity. }
  pose proof (@run_layers_frame (params t) (layers t) h bsz s sp fc (causal_mask s sp)
                (wf_layers Hwf) Hh) as Hls.
  destruct (run_layers h sp fc (causal_mask s sp) (layers t)) as [r ls]. cbn [snd] in *.
  exact Hls.
Qed.

Lemma forward_cache_frame_witness :
  exists t,
    Transformer_init tiny_init tiny_args = Ok t /\
    Forall2 (fun b b' =>
       cache_outside_unchanged 1 0 2 (cache_k (attention b)) (cache_k (attention b')) /\
       cache_outside_unchanged 1 0 2 (cache_v (attention b)) (cache_v (attention b')))
      (layers t) (layers (snd (Transformer_forward (tiny_tokens 1 2) 0 t))).
Proof.
  eexists. split; [reflexivity|].
  apply (@forward_cache_frame _ (tiny_tokens 1 2) 1 2 0).
  - apply tiny_model_wf. reflexivity.
  - reflexivity.
Defined.

(** X12. [RMSNorm.forward] row by row, for a positive [eps] and an input
    whose last axis has the [dim >= 1] of the norm: each entry is the input
    entry divided by [sqrt(mean(x^2) + eps)] of its row and multiplied by
    the weight of its column. With the weights at 1, as the constructor
    sets them, the mean square of an output row is [ms / (ms + eps)] for
    [ms] the mean square of the input row. *)
Theorem rmsnorm_row_mean_square (n : RMSNorm) (x : tensor R)
    (pre : list nat) (d : nat) :
  RMSNorm_wf d n -> wf x -> shape x = pre ++ [d] -> 1 <= d -> (0 < eps n)%R ->
  exists y,
    RMSNorm_forward n x = Ok y /\ shape y = pre ++ [d] /\
    (forall row j,
       in_bounds pre row -> j < d ->
       item y (row ++ [j]) =
       Rmult (Rdiv (item x (row ++ [j]))
                   (sqrt (Rplus (Rdiv (sum_upto d (fun k =>
                                         Rmult (item x (row ++ [k])) (item x (row ++ [k]))))
                                      (INR d))
                                (eps n))))
             (item (norm_weight n) [j])) /\
    ((forall j, j < d -> item (norm_weight n) [j] = 1%R) ->
     forall row,
       in_bounds pre row ->
       Rdiv (sum_upto d (fun k => Rmult (item y (row ++ [k])) (item y (row ++ [k])))) (INR d) =
       Rdiv (Rdiv (sum_upto d (fun k => Rmult (item x (row ++ [k])) (item x (row ++ [k]))))
                  (INR d))
            (Rplus (Rdiv (sum_upto d (fun k =>
                            Rmult (item x (row ++ [k])) (item x (row ++ [k]))))
                         (INR d))
                   (eps n))) /\
    (forall e j, j < d -> item (norm_weight (RMSNorm_init d e)) [j] = 1%R).
Proof.
  intros Hn Hwfx Hx Hd He.
  destruct (@RMSNorm_forward_items n x pre d Hn Hwfx Hx) as (y & Hy & Hsh & Hitems).
  exists y. split; [exact Hy|]. split; [exact Hsh|]. split; [|split].
  - intros row j Hrow Hj. rewrite (Hitems row j Hrow Hj). reflexivity.
  - intros Hones row Hrow.
    set (ms := Rdiv (sum_upto d (fun k => Rmult (item x (row ++ [k])) (item x (row ++ [k]))))
                    (INR d)).
    assert (Hms : (0 <= ms)%R) by (apply mean_square_nonneg; exact Hd).
    rewrite (@sum_upto_ext d _
               (fun k => Rmult (Rinv (Rplus ms (eps n)))
                               (Rmult (item x (row ++ [k])) (item x (row ++ [k]))))).
    + rewrite sum_upto_scal. unfold ms, Rdiv. ring.
    + intros k Hk. rewrite (Hitems row k Hrow Hk), (Hones k Hk).
      fold ms. rewrite <- (@rsqrt_sqr (Rplus ms (eps n))) by lra. ring.
  - intros e j Hj. cbn [RMSNorm_init norm_weight]. apply full_vector_item. exact Hj.
Qed.

Lemma rmsnorm_row_mean_square_witness :
  exists y,
    RMSNorm_forward (RMSNorm_init 2 1) (Tensor [1; 2] [3%R; 4%R]) = Ok y /\
    shape y = [1; 2].
Proof.
  destruct (@rmsnorm_row_mean_square (RMSNorm_init 2 1) (Tensor [1; 2] [3%R; 4%R])
              [1] 2 (RMSNorm_init_wf 2 1) eq_refl eq_refl (le_S _ _ (le_n 1)) Rlt_0_1)
    as (y & Hy & Hsh & _).
  exists y. split; [exact Hy | exact Hsh].
Defined.

(** X13. [FeedForward.forward] acts on each row of its input separately:
    for an input whose last axis has size [dim] it returns an array of the
    same shape with
    [y[row, o] = sum_h silu(sum_k x[row, k] W1[h, k]) * (sum_k x[row, k] W3[h, k]) * W2[o, h]];
    for an input whose last axis has another size it raises RuntimeError. *)
Theorem feed_forward_is_position_wise (f : FeedForward) (x : tensor R)
    (pre : list nat) (d : nat) :
  FeedForward_wf d f -> shape x = pre ++ [d] ->
  (exists y,
     FeedForward_forward f x = Ok y /\ shape y = pre ++ [d] /\
     forall row o,
       in_bounds pre row -> o < d ->
       item y (row ++ [o]) =
       sum_upto (out_features (w1 f)) (fun h =>
         Rmult (Rmult (silu (sum_upto d (fun k =>
                               Rmult (item x (row ++ [k])) (item (weight (w1 f)) [h; k]))))
                      (sum_upto d (fun k =>
                         Rmult (item x (row ++ [k])) (item (weight (w3 f)) [h; k]))))
               (item (weight (w2 f)) [o; h]))) /\
  (forall x' d',
     shape x' = pre ++ [d'] -> d' <> d -> FeedForward_forward f x' = Err RuntimeError).
Proof.
  intros Hf Hx. split.
  - apply FeedForward_forward_items; assumption.
  - intros x' d' Hx' Hd'. unfold FeedForward_forward.
    rewrite (@linear_width_mismatch (w1 f) x' pre d' Hx'); [reflexivity|].
    rewrite (wf_w1_in Hf). exact Hd'.
Qed.

Lemma feed_forward_is_position_wise_witness :
  exists f y,
    FeedForward_init tiny_init 8 32 4 = Ok f /\
    FeedForward_forward f (tiny_x 1 2) = Ok y /\ shape y = [1; 2; 8].
Proof.
  eexists.
  destruct (@feed_forward_is_position_wise _ (tiny_x 1 2) [1; 2] 8
              (proj1 (@FeedForward_init_wf tiny_init 8 32 4 _ eq_refl)) eq_refl)
    as ((y & Hy & Hsh & _) & _).
  exists y. split; [reflexivity|]. split; [exact Hy | exact Hsh].
Defined.

(** X14. What a single-example call of [Attention.forward] inside the
    cache computes, row by row. Queries and keys are the projected rows of
    the input, each entry scaled as lines 93-100 scale it; values are the
    projected rows. Output row [p] is the output projection of the heads
    side by side, and head [h] of it is
    [sum_t softmax_t(q[p, h] . K[t, h] / sqrt(head_dim) + mask[p, t]) * V[t, h]]
    over the cached positions [t < start_pos + seqlen], read from the cache
    as the call leaves it. *)
Theorem attention_is_scaled_dot_product (args : ModelArgs) (a : Attention)
    (x : tensor R) (sp s : nat) (fc : tensor complex) (mask : option (tensor xreal)) :
  Attention_wf args a -> config_ok args -> wf x ->
  shape x = [1; s; dim args] -> 1 <= s ->
  shape fc = [s; dim args / n_heads args / 2] ->
  sp + s <= max_seq_len args ->
  mask_fits mask [1; n_heads args; s; sp + s] ->
  exists q k v y a',
    Attention_forward x sp fc mask a = (Ok y, a') /\
    shape y = [1; s; dim args] /\
    (forall p h d,
       p < s -> h < n_heads args -> d < dim args / n_heads args ->
       item q [p; h; d] =
         rotary_entry fc p d (project_row (wq a) x p (h * (dim args / n_heads args) + d)) /\
       item k [p; h; d] =
         rotary_entry fc p d (project_row (wk a) x p (h * (dim args / n_heads args) + d)) /\
       item v [p; h; d] = project_row (wv a) x p (h * (dim args / n_heads args) + d)) /\
    (forall p h d,
       p < s -> h < n_heads args -> d < dim args / n_heads args ->
       item (cache_k a') [0; sp + p; h; d] = item k [p; h; d] /\
       item (cache_v a') [0; sp + p; h; d] = item v [p; h; d]) /\
    (forall p o,
       p < s -> o < dim args ->
       item y [0; p; o] =
       sum_upto (n_heads args * (dim args / n_heads args)) (fun c =>
         Rmult (attend (dim args / n_heads args) (sp + s) q (cache_k a') (cache_v a') mask
                       (c / (dim args / n_heads args)) p (c mod (dim args / n_heads args)))
               (item (weight (wo a)) [o; c]))).
Proof.
  intros Hwf Hc Hwx Hx Hs Hfc Hcap Hmask.
  destruct (@Attention_forward_rows args a x sp s fc mask Hwf Hc Hwx Hx Hs Hfc Hcap Hmask)
    as (q & k & v & y & a' & Hf & Hys & _ & _ & _ & _ & _ & Hrows & Hcache & Hy).
  exists q, k, v, y, a'. split; [exact Hf|]. split; [exact Hys|].
  split; [exact Hrows|]. split; [|exact Hy].
  intros p h d Hp Hh Hd. pose proof (batch_pos Hc) as Hb.
  destruct (Hcache 0 (sp + p) h d) as (E1 & E2); [lia | lia | exact Hh | exact Hd |].
  rewrite E1, E2, window_inside by lia.
  replace (sp + p - sp) with p by lia. auto.
Qed.

Lemma attention_is_scaled_dot_product_witness :
  exists a y a',
    Attention_init tiny_init tiny_args = Ok a /\
    Attention_forward (tiny_x 1 2) 0 (tiny_freqs 2) (causal_mask 2 0) a = (Ok y, a') /\
    shape y = [1; 2; 8].
Proof.
  eexists.
  destruct (@attention_is_scaled_dot_product tiny_args _ (tiny_x 1 2) 0 2 (tiny_freqs 2)
              (causal_mask 2 0) (@tiny_attention_wf _ eq_refl) tiny_config
              (wf_build _ _) eq_refl (le_S _ _ (le_n 1)) eq_refl
              (le_S _ _ (le_S _ _ (le_n 2))) (causal_mask_fits 2 2))
    as (q & k & v & y & a' & Hf & Hys & _).
  exists y, a'. split; [reflexivity|]. split; [exact Hf | exact Hys].
Defined.

(** X15. The first step of [Attention.forward] is causal, and reads
    nothing left in the cache by earlier calls: for two single-example
    inputs of the same length that agree on their positions [0 .. p0],
    given to two layers with the same projection weights (whatever their
    caches hold), the calls at [start_pos = 0] with the mask of lines
    292-295 return outputs that agree on the positions [0 .. p0]. *)
Theorem attention_first_step_is_causal (args : ModelArgs) (a a2 : Attention)
    (x x2 : tensor R) (s p0 : nat) (fc : tensor complex) :
  Attention_wf args a -> Attention_wf args a2 -> config_ok args ->
  wq a2 = wq a -> wk a2 = wk a -> wv a2 = wv a -> wo a2 = wo a ->
  wf x -> wf x2 ->
  shape x = [1; s; dim args] -> shape x2 = [1; s; dim args] ->
  shape fc = [s; dim args / n_heads args / 2] ->
  s <= max_seq_len args -> p0 < s ->
  (forall p k, p <= p0 -> k < dim args -> item x [0; p; k] = item x2 [0; p; k]) ->
  exists y a' y2 a2',
    Attention_forward x 0 fc (causal_mask s 0) a = (Ok y, a') /\
    Attention_forward x2 0 fc (causal_mask s 0) a2 = (Ok y2, a2') /\
    forall p o, p <= p0 -> o < dim args -> item y [0; p; o] = item y2 [0; p; o].
Proof.
  intros Hwf Hwf2 Hc Ewq Ewk Ewv Ewo Hwx Hwx2 Hx Hx2 Hfc Hcap Hp0 Hagree.
  apply (@Attention_first_step_rows args a a2 x x2 s p0 fc); assumption.
Qed.

Lemma attention_first_step_is_causal_witness :
  exists a y a' y2 a2',
    Attention_init tiny_init tiny_args = Ok a /\
    Attention_forward (tiny_x 1 2) 0 (tiny_freqs 2) (causal_mask 2 0) a = (Ok y, a') /\
    Attention_forward
      (build [1; 2; 8] (fun idx => if nth 1 idx 0 =? 0 then 1%R else 2%R))
      0 (tiny_freqs 2) (causal_mask 2 0) a = (Ok y2, a2') /\
    item y [0; 0; 0] = item y2 [0; 0; 0].
Proof.
  eexists.
  destruct (@attention_first_step_is_causal tiny_args _ _ (tiny_x 1 2)
              (build [1; 2; 8] (fun idx => if nth 1 idx 0 =? 0 then 1%R else 2%R))
              2 0 (tiny_freqs 2)
              (@tiny_attention_wf _ eq_refl) (@tiny_attention_wf _ eq_refl) tiny_config
              eq_refl eq_refl eq_refl eq_refl (wf_build _ _) (wf_build _ _)
              eq_refl eq_refl eq_refl (le_S _ _ (le_S _ _ (le_n 2))) (le_S _ _ (le_n 1)))
    as (y & a' & y2 & a2' & Hf & Hf2 & Hrows).
  - intros p k Hp Hk. assert (p = 0) as -> by lia.
    unfold tiny_x. rewrite full_item by (apply in_bounds3_intro; cbn in *; lia).
    rewrite item_build by (apply in_bounds3_intro; cbn in *; lia). reflexivity.
  - exists y, a', y2, a2'. split; [reflexivity|]. split; [exact Hf|]. split; [exact Hf2|].
    apply (Hrows 0 0); cbn; lia.
Defined.

(** X16. In one attention layer the KV cache is consistent with recomputation: a
    first step over [n] positions followed by a step of one position at
    [start_pos = n] returns, for the positions [0 .. n - 1] and for
    position [n], the output rows of a single first step over all [n + 1]
    positions (inputs and rotary slices agreeing row by row), and leaves
    both caches with the same contents. *)
Theorem kv_cache_step_matches_full_pass (args : ModelArgs) (a : Attention)
    (x x0 x1 : tensor R) (n : nat) (fc fc0 fc1 : tensor complex) :
  Attention_wf args a -> config_ok args ->
  wf x -> wf x0 -> wf x1 ->
  shape x = [1; S n; dim args] -> shape x0 = [1; n; dim args] ->
  shape x1 = [1; 1; dim args] ->
  shape fc = [S n; dim args / n_heads args / 2] ->
  shape fc0 = [n; dim args / n_heads args / 2] ->
  shape fc1 = [1; dim args / n_heads args / 2] ->
  1 <= n -> S n <= max_seq_len args ->
  (forall p k, p < n -> k < dim args -> item x0 [0; p; k] = item x [0; p; k]) ->
  (forall k, k < dim args -> item x1 [0; 0; k] = item x [0; n; k]) ->
  (forall p i, p < n -> i < dim args / n_heads args / 2 ->
     item fc0 [p; i] = item fc [p; i]) ->
  (forall i, i < dim args / n_heads args / 2 -> item fc1 [0; i] = item fc [n; i]) ->
  exists y af y0 a1 y1 a2,
    Attention_forward x 0 fc (causal_mask (S n) 0) a = (Ok y, af) /\
    Attention_forward x0 0 fc0 (causal_mask n 0) a = (Ok y0, a1) /\
    Attention_forward x1 n fc1 (causal_mask 1 n) a1 = (Ok y1, a2) /\
    (forall p o, p < n -> o < dim args -> item y0 [0; p; o] = item y [0; p; o]) /\
    (forall o, o < dim args -> item y1 [0; 0; o] = item y [0; n; o]) /\
    (forall b p h d,
       b < max_batch_size args -> p < max_seq_len args ->
       h < n_heads args -> d < dim args / n_heads args ->
       item (cache_k a2) [b; p; h; d] = item (cache_k af) [b; p; h; d] /\
       item (cache_v a2) [b; p; h; d] = item (cache_v af) [b; p; h; d]).
Proof.
  intros Hwf Hc Hwx Hwx0 Hwx1 Hx Hx0 Hx1 Hfc Hfc0 Hfc1 Hn Hcap Hrow0 Hrow1 Hfr0 Hfr1.
  destruct (@Attention_step_rows args a x x0 x1 n fc fc0 fc1 Hwf Hc Hwx Hwx0 Hwx1
              Hx Hx0 Hx1 Hfc Hfc0 Hfc1 Hn Hcap)
    as (y & af & y0 & a1 & y1 & a2 & HfF & HfP & HfD & _ & _ & [Hr0 Hr1] & Hcell).
  - split; [intros p Hp k Hk; apply Hrow0; assumption | exact Hrow1].
  - split; [exact Hfr0 | exact Hfr1].
  - exists y, af, y0, a1, y1, a2.
    split; [exact HfF|]. split; [exact HfP|]. split; [exact HfD|].
    split; [intros p o Hp Ho; apply (Hr0 p Hp o Ho)|].
    split; [exact Hr1 | exact Hcell].
Qed.

Lemma kv_cache_step_matches_full_pass_witness :
  exists a y af y0 a1 y1 a2,
    Attention_init tiny_init tiny_args = Ok a /\
    Attention_forward (tiny_x 1 3) 0 (tiny_freqs 3) (causal_mask 3 0) a = (Ok y, af) /\
    Attention_forward (tiny_x 1 2) 0 (tiny_freqs 2) (causal_mask 2 0) a = (Ok y0, a1) /\
    Attention_forward (tiny_x 1 1) 2 (tiny_freqs 1) (causal_mask 1 2) a1 = (Ok y1, a2) /\
    item y1 [0; 0; 0] = item y [0; 2; 0].
Proof.
  eexists.
  destruct (@kv_cache_step_matches_full_pass tiny_args _ (tiny_x 1 3) (tiny_x 1 2)
              (tiny_x 1 1) 2 (tiny_freqs 3) (tiny_freqs 2) (tiny_freqs 1)
              (@tiny_attention_wf _ eq_refl) tiny_config
              (wf_build _ _) (wf_build _ _) (wf_build _ _)
              eq_refl eq_refl eq_refl eq_refl eq_refl eq_refl
              (le_S _ _ (le_n 1)) (le_S _ _ (le_n 3)))
    as (y & af & y0 & a1 & y1 & a2 & HfF & HfP & HfD & _ & Hlast & _).
  - intros p k Hp Hk. unfold tiny_x.
    rewrite !full_item by (apply in_bounds3_intro; cbn in *; lia). reflexivity.
  - intros k Hk. unfold tiny_x.
    rewrite !full_item by (apply in_bounds3_intro; cbn in *; lia). reflexivity.
  - intros p i Hp Hi. unfold tiny_freqs.
    rewrite !full_item by (apply in_bounds2_intro; cbn in *; lia). reflexivity.
  - intros i Hi. unfold tiny_freqs.
    rewrite !full_item by (apply in_bounds2_intro; cbn in *; lia). reflexivity.
  - exists y, af, y0, a1, y1, a2.
    split; [reflexivity|]. split; [exact HfF|]. split; [exact HfP|]. split; [exact HfD|].
    apply (Hlast 0); cbn; lia.
Defined.

(** X17. Decoding with the KV cache gives the logits of recomputation: for
    a single example, [Transformer.forward] on the first [n] tokens at
    [start_pos = 0] followed by [Transformer.forward] on token [n] alone at
    [start_pos = n] returns the same logits as one call on all [n + 1]
    tokens at [start_pos = 0], and leaves every layer's caches with the
    same contents. (Exact in the model: floats are real numbers and the
    CKKS scheme is its ideal functionality.) *)
Theorem incremental_step_matches_full_pass (t : Transformer)
    (tokens tokens0 tokens1 : tensor nat) (n : nat) :
  Transformer_wf t ->
  shape tokens = [1; S n] -> shape tokens0 = [1; n] -> shape tokens1 = [1; 1] ->
  Forall (fun tok => tok < vocab_size (params t)) (data tokens) ->
  Forall (fun tok => tok < vocab_size (params t)) (data tokens0) ->
  Forall (fun tok => tok < vocab_size (params t)) (data tokens1) ->
  1 <= n -> S n <= max_seq_len (params t) ->
  (forall p, p < n -> item tokens0 [0; p] = item tokens [0; p]) ->
  item tokens1 [0; 0] = item tokens [0; n] ->
  exists out tF out0 t1 t2,
    Transformer_forward tokens 0 t = (Ok out, tF) /\
    Transformer_forward tokens0 0 t = (Ok out0, t1) /\
    Transformer_forward tokens1 n t1 = (Ok out, t2) /\
    shape out = [1; vocab_size (params t)] /\
    Forall2 (fun b2 bF => caches_agree (params t) (attention b2) (attention bF))
            (layers t2) (layers tF).
Proof.
  intros Hwf Htok Htok0 Htok1 Hv Hv0 Hv1 Hn Hcap Hrow0 Hrow1.
  set (args := params t) in *.
  destruct (@embedding_rows t Hwf tokens (S n) Htok Hv) as (e & He & Hes & Hwe & Hei).
  destruct (@embedding_rows t Hwf tokens0 n Htok0 Hv0) as (e0 & He0 & He0s & Hwe0 & He0i).
  destruct (@embedding_rows t Hwf tokens1 1 Htok1 Hv1) as (e1 & He1 & He1s & Hwe1 & He1i).
  assert (Hsplit : split_rows (dim args) n e e0 e1).
  { split.
    - intros p Hp k Hk. rewrite (He0i p k Hp Hk), (Hei p k) by (lia || exact Hk).
      rewrite (Hrow0 p Hp). reflexivity.
    - intros k Hk. rewrite (He1i 0 k) by (lia || exact Hk).
      rewrite (Hei n k) by (lia || exact Hk). rewrite Hrow1. reflexivity. }
  destruct (@freqs_cis_slice t Hwf 0 (S n)) as (fc & Hfc & Hfcs); [fold args; lia|].
  destruct (@freqs_cis_slice t Hwf 0 n) as (fc0 & Hfc0 & Hfc0s); [fold args; lia|].
  destruct (@freqs_cis_slice t Hwf n 1) as (fc1 & Hfc1 & Hfc1s); [fold args; lia|].
  assert (Hfr : split_freqs (dim args / n_heads args / 2) n fc fc0 fc1).
  { split.
    - intros p i Hp Hi.
      rewrite (@freqs_cis_slice_item t Hwf 0 n p i fc0) by (fold args; lia || assumption).
      rewrite (@freqs_cis_slice_item t Hwf 0 (S n) p i fc) by (fold args; lia || assumption).
      reflexivity.
    - intros i Hi.
      rewrite (@freqs_cis_slice_item t Hwf n 1 0 i fc1) by (fold args; lia || assumption).
      rewrite (@freqs_cis_slice_item t Hwf 0 (S n) n i fc) by (fold args; lia || assumption).
      f_equal. f_equal. lia. }
  destruct (@run_layers_step_rows args (wf_params Hwf) (layers t) e e0 e1 n fc fc0 fc1
              (wf_layers Hwf) Hwe Hwe0 Hwe1 Hes He0s He1s Hfcs Hfc0s Hfc1s Hn Hcap Hsplit Hfr)
    as (h & lsF & h0 & ls1 & h1 & ls2 & HrF & HrP & HrD &
        (Hhs & Hh0s & Hh1s) & (Hwh & Hwh0 & Hwh1) & (HlF & Hl1 & Hl2) & [_ Hlast] & Hcells).
  pose proof (wf_norm Hwf) as Hnorm.
  destruct (@RMSNorm_forward_ok (norm t) h [1; S n] (dim args) Hnorm Hhs) as (hn & Hhn & Hhns).
  destruct (@RMSNorm_forward_ok (norm t) h0 [1; n] (dim args) Hnorm Hh0s)
    as (hn0 & Hhn0 & Hhn0s).
  destruct (@RMSNorm_forward_ok (norm t) h1 [1; 1] (dim args) Hnorm Hh1s)
    as (hn1 & Hhn1 & Hhn1s).
  pose proof (@RMSNorm_rows_agree (norm t) (dim args) h1 h hn1 hn 1 (S n) 0 n
                Hnorm Hwh1 Hwh Hh1s Hhs (le_n 1) (le_n (S n)) Hhn1 Hhn Hlast) as Hrn.
  assert (Hsel : select_last1 hn = Ok (build [1; dim args]
            (fun idx => item hn [nth 0 idx 0; S n - 1; nth 1 idx 0])))
    by (apply select_last1_ok; [exact Hhns | lia]).
  assert (Hsel0 : select_last1 hn0 = Ok (build [1; dim args]
            (fun idx => item hn0 [nth 0 idx 0; n - 1; nth 1 idx 0])))
    by (apply select_last1_ok; [exact Hhn0s | lia]).
  assert (Hsel1 : select_last1 hn1 = Ok (build [1; dim args]
            (fun idx => item hn1 [nth 0 idx 0; 1 - 1; nth 1 idx 0])))
    by (apply select_last1_ok; [exact Hhn1s | lia]).
  assert (Elast : build [1; dim args] (fun idx => item hn1 [nth 0 idx 0; 1 - 1; nth 1 idx 0]) =
                  build [1; dim args] (fun idx => item hn [nth 0 idx 0; S n - 1; nth 1 idx 0])).
  { apply last_row_equal. replace (S n - 1) with n by lia. exact Hrn. }
  rewrite Elast in Hsel1.
  destruct (@linear_ok (output t) (build [1; dim args]
              (fun idx => item hn [nth 0 idx 0; S n - 1; nth 1 idx 0])) [1])
    as (out & Hout & Houts & _).
  { rewrite (wf_output_in Hwf). reflexivity. }
  destruct (@linear_ok (output t) (build [1; dim args]
              (fun idx => item hn0 [nth 0 idx 0; n - 1; nth 1 idx 0])) [1])
    as (out0 & Hout0 & _ & _).
  { rewrite (wf_output_in Hwf). reflexivity. }
  rewrite (wf_output_out Hwf) in Houts.
  exists out, (set_layers t lsF), out0, (set_layers t ls1), (set_layers (set_layers t ls1) ls2).
  split; [apply (Transformer_forward_compose t tokens 0 Htok He Hfc HrF Hhn Hsel Hout)|].
  split; [apply (Transformer_forward_compose t tokens0 0 Htok0 He0 Hfc0 HrP Hhn0 Hsel0 Hout0)|].
  split.
  - apply (@Transformer_forward_compose (set_layers t ls1) tokens1 n 1 1 e1 h1 hn1 _ out fc1 ls2
             Htok1 He1 Hfc1 HrD Hhn1 Hsel1 Hout).
  - split; [exact Houts | exact Hcells].
Qed.

Lemma incremental_step_matches_full_pass_witness :
  exists t out tF out0 t1 t2,
    Transformer_init tiny_init tiny_args = Ok t /\
    Transformer_forward (tiny_tokens 1 3) 0 t = (Ok out, tF) /\
    Transformer_forward (tiny_tokens 1 2) 0 t = (Ok out0, t1) /\
    Transformer_forward (tiny_tokens 1 1) 2 t1 = (Ok out, t2) /\
    shape out = [1; 16].
Proof.
  eexists.
  destruct (@incremental_step_matches_full_pass _ (tiny_tokens 1 3) (tiny_tokens 1 2)
              (tiny_tokens 1 1) 2 (proj1 (@tiny_model_wf _ eq_refl))
              eq_refl eq_refl eq_refl)
    as (out & tF & out0 & t1 & t2 & HF & HP & HD & Hs & _).
  - apply tiny_tokens_in_vocab. cbn. lia.
  - apply tiny_tokens_in_vocab. cbn. lia.
  - apply tiny_tokens_in_vocab. cbn. lia.
  - lia.
  - cbn. lia.
  - intros p Hp. unfold tiny_tokens.
    rewrite !full_item by (apply in_bounds2_intro; lia). reflexivity.
  - unfold tiny_tokens. rewrite !full_item by (apply in_bounds2_intro; lia). reflexivity.
  - exists out, tF, out0, t1, t2.
    split; [reflexivity|]. split; [exact HF|]. split; [exact HP|]. split; [exact HD|].
    exact Hs.
Defined.

(** X18. A first step does not depend on what the caches hold: two models
    with the same configuration and weights, whatever earlier calls left
    in their caches, return the same logits for the same single-example
    tokens at [start_pos = 0] (at most [max_seq_len] of them, all in the
    vocabulary). *)
Theorem first_step_ignores_cache_contents (t t2 : Transformer) (tokens : tensor nat)
    (s : nat) :
  Transformer_wf t -> Transformer_wf t2 -> Transformer_same_weights t t2 ->
  shape tokens = [1; s] -> 1 <= s ->
  Forall (fun tok => tok < vocab_size (params t)) (data tokens) ->
  s <= max_seq_len (params t) ->
  exists out t' t2',
    Transformer_forward tokens 0 t = (Ok out, t') /\
    Transformer_forward tokens 0 t2 = (Ok out, t2') /\
    shape out = [1; vocab_size (params t)].
Proof.
  intros Hwf Hwf2 Hsw Htok Hs Hv Hcap.
  destruct Hsw as (Ep & _ & _ & Ee & Hls & En & Eo & Ef).
  destruct (@embedding_rows t Hwf tokens s Htok Hv) as (e & He & Hes & Hwe & _).
  destruct (@freqs_cis_slice t Hwf 0 s) as (fc & Hfc & Hfcs); [lia|].
  pose proof (wf_layers Hwf2) as Hl2. rewrite Ep in Hl2.
  destruct (@run_layers_first_step_equal (params t) (wf_params Hwf) (layers t) (layers t2)
              e s fc (wf_layers Hwf) Hl2 Hls Hwe Hes Hfcs Hs Hcap)
    as (h & ls' & ls2' & Hr & Hr2 & Hhs & _ & _ & _ & _).
  destruct (@RMSNorm_forward_ok (norm t) h [1; s] (dim (params t)) (wf_norm Hwf) Hhs)
    as (hn & Hhn & Hhns).
  assert (Hsel : select_last1 hn = Ok (build [1; dim (params t)]
            (fun idx => item hn [nth 0 idx 0; s - 1; nth 1 idx 0])))
    by (apply select_last1_ok; [exact Hhns | lia]).
  destruct (@linear_ok (output t) (build [1; dim (params t)]
              (fun idx => item hn [nth 0 idx 0; s - 1; nth 1 idx 0])) [1])
    as (out & Hout & Houts & _).
  { rewrite (wf_output_in Hwf). reflexivity. }
  rewrite (wf_output_out Hwf) in Houts.
  exists out, (set_layers t ls'), (set_layers t2 ls2').
  split; [apply (Transformer_forward_compose t tokens 0 Htok He Hfc Hr Hhn Hsel Hout)|].
  split; [|exact Houts].
  eapply (@Transformer_forward_compose t2 tokens 0 s 1 e h hn _ out fc ls2' Htok);
    rewrite ?Ee, ?Ef, ?En, ?Eo; eassumption.
Qed.

Lemma first_step_ignores_cache_contents_witness :
  exists t out0 t1 out t' t1',
    Transformer_init tiny_init tiny_args = Ok t /\
    Transformer_forward (tiny_tokens 1 3) 0 t = (Ok out0, t1) /\
    Transformer_forward (tiny_tokens 1 2) 0 t = (Ok out, t') /\
    Transformer_forward (tiny_tokens 1 2) 0 t1 = (Ok out, t1').
Proof.
  assert (Hinit : exists t, Transformer_init tiny_init tiny_args = Ok t)
    by (eexists; reflexivity).
  destruct Hinit as (t & Ht).
  destruct (tiny_model_wf Ht) as (Hwf & Hpar & _).
  destruct (@Transformer_forward_ok t Hwf (tiny_tokens 1 3) 0 3 eq_refl)
    as (e & fc & h & ls & hn & last & out0 & _ & _ & _ & _ & _ & _ & _ & _ & _ & Hf0 & Hwf1).
  { lia. }
  { apply tiny_tokens_in_vocab. rewrite Hpar. cbn. lia. }
  { rewrite Hpar. cbn. lia. }
  { right. reflexivity. }
  pose proof (Transformer_forward_same_weights t (tiny_tokens 1 3) 0) as Hsw.
  rewrite Hf0 in Hsw. cbn [snd] in Hsw.
  destruct (@first_step_ignores_cache_contents t (set_layers t ls) (tiny_tokens 1 2) 2
              Hwf Hwf1 Hsw eq_refl)
    as (out & t' & t1' & Hf & Hf1 & _).
  { lia. }
  { apply tiny_tokens_in_vocab. rewrite Hpar. cbn. lia. }
  { rewrite Hpar. cbn. lia. }
  exists t, out0, (set_layers t ls), out, t', t1'.
  split; [exact Ht|]. split; [exact Hf0|]. split; [exact Hf | exact Hf1].
Defined.

(** X19. A step of one position at or beyond the end of the cache, inside
    the rotary table ([max_seq_len <= start_pos < 2 * max_seq_len]):
    [Transformer.forward] raises nothing and returns logits of shape
    (1, vocab_size), and the model is exactly as it was: in no layer has
    the key or the value of the new position been stored. *)
Theorem step_past_capacity_changes_nothing (t : Transformer) (tokens : tensor nat)
    (sp : nat) :
  Transformer_wf t ->
  shape tokens = [1; 1] ->
  Forall (fun tok => tok < vocab_size (params t)) (data tokens) ->
  max_seq_len (params t) <= sp -> sp + 1 <= max_seq_len (params t) * 2 ->
  exists out,
    Transformer_forward tokens sp t = (Ok out, t) /\
    shape out = [1; vocab_size (params t)].
Proof.
  intros Hwf Htok Hv Hfull Htable.
  destruct (@embedding_rows t Hwf tokens 1 Htok Hv) as (e & He & Hes & _ & _).
  destruct (@freqs_cis_slice t Hwf sp 1 Htable) as (fc & Hfc & Hfcs).
  destruct (@run_layers_overflow_single (params t) (wf_params Hwf) (layers t) e sp fc
              (wf_layers Hwf) Hes Hfcs) as (h & Hr & Hhs); [lia|].
  destruct (@RMSNorm_forward_ok (norm t) h [1; 1] (dim (params t)) (wf_norm Hwf) Hhs)
    as (hn & Hhn & Hhns).
  assert (Hsel : select_last1 hn = Ok (build [1; dim (params t)]
            (fun idx => item hn [nth 0 idx 0; 1 - 1; nth 1 idx 0])))
    by (apply select_last1_ok; [exact Hhns | lia]).
  destruct (@linear_ok (output t) (build [1; dim (params t)]
              (fun idx => item hn [nth 0 idx 0; 1 - 1; nth 1 idx 0])) [1])
    as (out & Hout & Houts & _).
  { rewrite (wf_output_in Hwf). reflexivity. }
  rewrite (wf_output_out Hwf) in Houts.
  exists out. split; [|exact Houts].
  assert (Et : set_layers t (layers t) = t) by (destruct t; reflexivity).
  rewrite <- Et at 2.
  apply (Transformer_forward_compose t tokens sp Htok He Hfc Hr Hhn Hsel Hout).
Qed.

Lemma step_past_capacity_changes_nothing_witness :
  exists t out,
    Transformer_init tiny_init tiny_args = Ok t /\
    Transformer_forward (tiny_tokens 1 1) 4 t = (Ok out, t) /\
    shape out = [1; 16].
Proof.
  assert (Hinit : exists t, Transformer_init tiny_init tiny_args = Ok t)
    by (eexists; reflexivity).
  destruct Hinit as (t & Ht).
  destruct (tiny_model_wf Ht) as (Hwf & Hpar & _).
  destruct (@step_past_capacity_changes_nothing t (tiny_tokens 1 1) 4 Hwf eq_refl)
    as (out & Hf & Hs).
  - apply tiny_tokens_in_vocab. rewrite Hpar. cbn. lia.
  - rewrite Hpar. cbn. lia.
  - rewrite Hpar. cbn. lia.
  - exists t, out. split; [exact Ht|]. split; [exact Hf|].
    rewrite Hs, Hpar. reflexivity.
Defined.

(** X20. A failed call is not undone. For a single example, a step of more
    than one position at a positive [start_pos] inside the cache makes
    [Transformer.forward] raise RuntimeError in the first layer (line 205),
    after lines 194-195 of that layer have run: the model it leaves holds,
    in the first layer, the keys and values of the failed call at the
    positions [start_pos .. start_pos + seqlen - 1]; the other layers are
    as they were. *)
Theorem shifted_step_fails_after_writing (t : Transformer) (tokens : tensor nat)
    (sp s : nat) (b : TransformerBlock) (ls : list TransformerBlock) :
  Transformer_wf t -> layers t = b :: ls ->
  shape tokens = [1; s] ->
  Forall (fun tok => tok < vocab_size (params t)) (data tokens) ->
  1 < s -> 0 < sp -> sp + s <= max_seq_len (params t) ->
  exists e fc nx q k v a',
    embedding (tok_embeddings t) tokens = Ok e /\
    getitem [Range sp (sp + s)] (freqs_cis t) = Ok fc /\
    RMSNorm_forward (attention_norm b) e = Ok nx /\
    Attention_project (attention b) nx s fc = Ok (q, k, v) /\
    Transformer_forward tokens sp t =
      (Err RuntimeError, set_layers t (set_attention b a' :: ls)) /\
    forall p h d,
      p < s -> h < n_heads (params t) -> d < dim (params t) / n_heads (params t) ->
      item (cache_k a') [0; sp + p; h; d] = item k [p; h; d] /\
      item (cache_v a') [0; sp + p; h; d] = item v [p; h; d].
Proof.
  intros Hwf Hl Htok Hv Hs Hsp Hcap.
  destruct (@embedding_rows t Hwf tokens s Htok Hv) as (e & He & Hes & _ & _).
  destruct (@freqs_cis_slice t Hwf sp s) as (fc & Hfc & Hfcs); [lia|].
  pose proof (wf_layers Hwf) as Hls. rewrite Hl in Hls.
  inversion Hls as [|? ? Hb _]; subst.
  destruct (@TransformerBlock_forward_shifted (params t) (wf_params Hwf) b e sp s fc
              Hb Hes Hs Hsp Hfcs Hcap)
    as (nx & q & k & v & a' & Hnx & Hp & Hf & Hcells).
  exists e, fc, nx, q, k, v, a'.
  split; [exact He|]. split; [exact Hfc|]. split; [exact Hnx|]. split; [exact Hp|].
  split; [|exact Hcells].
  unfold Transformer_forward. rewrite Htok, He, Hfc. cbn [bind].
  rewrite Hl. cbn [run_layers]. rewrite Hf. reflexivity.
Qed.

Lemma shifted_step_fails_after_writing_witness :
  exists t b ls a',
    Transformer_init tiny_init tiny_args = Ok t /\
    layers t = b :: ls /\
    Transformer_forward (tiny_tokens 1 2) 1 t =
      (Err RuntimeError, set_layers t (set_attention b a' :: ls)).
Proof.
  assert (Hinit : exists t, Transformer_init tiny_init tiny_args = Ok t)
    by (eexists; reflexivity).
  destruct Hinit as (t & Ht).
  destruct (tiny_model_wf Ht) as (Hwf & Hpar & Hlen).
  destruct (layers t) as [|b ls] eqn:Hl; [discriminate Hlen|].
  destruct (@shifted_step_fails_after_writing t (tiny_tokens 1 2) 1 2 b ls Hwf Hl eq_refl)
    as (e & fc & nx & q & k & v & a' & _ & _ & _ & _ & Hf & _).
  - apply tiny_tokens_in_vocab. rewrite Hpar. cbn. lia.
  - lia.
  - lia.
  - rewrite Hpar. cbn. lia.
  - exists t, b, ls, a'. split; [exact Ht|]. split; [exact Hl | exact Hf].
Defined.

(** X21. The softmax of line 206 never divides by zero in a call that
    returns, and its weights are a distribution: on a first step
    ([start_pos = 0], mask of lines 292-295) and on a step of one position
    (no mask), every row of the masked scores has a finite entry (the one of
    the query's own position), so the denominator is positive, the weights
    are non-negative and each row of weights sums to 1. *)
Theorem attention_weights_form_a_distribution (args : ModelArgs) (a : Attention)
    (q keys values : tensor R) (s sp : nat) :
  Attention_wf args a ->
  1 <= s -> s = 1 \/ sp = 0 ->
  shape q = [s; n_heads args; dim args / n_heads args] ->
  shape keys = [1; sp + s; n_heads args; dim args / n_heads args] ->
  shape values = [1; sp + s; n_heads args; dim args / n_heads args] ->
  exists sc vt,
    Attention_scores a q keys values (causal_mask s sp) = Ok (sc, vt) /\
    forall h p,
      h < n_heads args -> p < s ->
      Rlt 0%R (sum_upto (sp + s) (fun t => xexp (item sc [0; h; p; t]))) /\
      sum_upto (sp + s) (fun t => item (softmax sc) [0; h; p; t]) = 1%R /\
      forall t, t < sp + s -> Rle 0%R (item (softmax sc) [0; h; p; t]).
Proof.
  intros Hwf Hs Hstep Hq Hk Hv.
  apply (@Attention_scores_distribution args a Hwf q keys values s sp); assumption.
Qed.

Lemma attention_weights_form_a_distribution_witness :
  exists a sc vt,
    Attention_init tiny_init tiny_args = Ok a /\
    Attention_scores a (full [2; 2; 4] 1%R) (full [1; 2; 2; 4] 1%R) (full [1; 2; 2; 4] 1%R)
      (causal_mask 2 0) = Ok (sc, vt) /\
    sum_upto 2 (fun t => item (softmax sc) [0; 0; 0; t]) = 1%R.
Proof.
  eexists.
  destruct (@attention_weights_form_a_distribution tiny_args _
              (full [2; 2; 4] 1%R) (full [1; 2; 2; 4] 1%R) (full [1; 2; 2; 4] 1%R) 2 0
              (@tiny_attention_wf _ eq_refl) (le_S _ _ (le_n 1)) (or_intror eq_refl)
              eq_refl eq_refl eq_refl)
    as (sc & vt & Hsc & Hrows).
  exists sc, vt. split; [reflexivity|]. split; [exact Hsc|].
  destruct (Hrows 0 0) as (_ & Hsum & _); [cbn; lia | lia | exact Hsum].
Defined.

